(** * System layout of the notation engine (engraving/libmscore/system.cpp)

    A shallow embedding of the vertical and horizontal layout of one system:
    the per-staff layout records ([SysStaff]), the staff stacker
    ([System.layout2]), its cheap replay ([System.restoreLayout2]), bracket
    creation and placement, and the placement of instrument names.

    Conventions of the embedding.
    - [qreal] is modelled by the exact rationals [Q]; comparisons go through
      [Qle_bool], so every definition computes.  In [y2staff], whose result
      at the end of a band depends on it, the rounding of every sum is
      written out (class [Rounding]).
    - [int] is [Z].  Indexing a container outside its bounds, or calling a
      method through a null pointer, is undefined in the source; here such a
      run has no result ([None]).
    - Objects held by pointer in a list owned by the score or the system
      (parts, measures) are identified by a number; a pointer to a [SysStaff]
      is its index in [_staves].
    - Classes whose code lives in other files (Skyline, Bracket, Box, the
      constants of mscore.h) are collected in the class [Collaborators]. *)

From Stdlib Require Import ZArith QArith Qminmax Lqa Lia Bool String.
From stdpp Require Import base list option.

Local Open Scope Z_scope.

(** ** Numbers *)

Definition qreal : Type := Q.

Definition qLess (a b : qreal) : bool := negb (Qle_bool b a).

(** [qMax] of QtGlobal: [(a < b) ? b : a]. *)
Definition qMax (a b : qreal) : qreal := if qLess a b then b else a.

(** Conversion of a [qreal] to [int]: truncation towards zero. *)
Definition qrealToInt (w : qreal) : Z := Z.quot (Qnum w) (Zpos (Qden w)).

(** [qMax] at type [int]. *)
Definition qMax_int (a b : Z) : Z := if a <? b then b else a.

(** [l[i]] for an [int] index. *)
Definition at_ {A : Type} (l : list A) (i : Z) : option A :=
  if (0 <=? i) then l !! Z.to_nat i else None.

Definition size {A : Type} (l : list A) : Z := Z.of_nat (length l).

(** ** Geometry *)

(** Modelled from the spec: a bounding box is a position and a size (section
    3); the rectangle class itself is declared in the drawing library. *)
Record RectF : Type := mkRectF { r_x : qreal; r_y : qreal; r_w : qreal; r_h : qreal }.

Module RectF.
(** The default-constructed rectangle. *)
Definition null : RectF := mkRectF 0%Q 0%Q 0%Q 0%Q.
Definition x (r : RectF) : qreal := r_x r.
Definition y (r : RectF) : qreal := r_y r.
Definition width (r : RectF) : qreal := r_w r.
Definition height (r : RectF) : qreal := r_h r.
Definition top (r : RectF) : qreal := r_y r.
Definition bottom (r : RectF) : qreal := (r_y r + r_h r)%Q.
Definition setRect (ax ay aw ah : qreal) (_ : RectF) : RectF := mkRectF ax ay aw ah.
Definition setY (ay : qreal) (r : RectF) : RectF := mkRectF (r_x r) ay (r_w r) (r_h r).
Definition setHeight (ah : qreal) (r : RectF) : RectF := mkRectF (r_x r) (r_y r) (r_w r) ah.
End RectF.

(** ** The score as the layout reads it *)

(** Modelled from the spec: a spacer is attached to a measure at a staff
    index, is FIXED or elastic, and constrains the gap above (up) or below
    (down) the staff (section 3); spacer.cpp and measure.cpp hold the
    classes. *)
Inductive SpacerType : Type := SpacerUP | SpacerDOWN | SpacerFIXED.

Record Spacer : Type := mkSpacer { spacerType : SpacerType; gap : qreal }.

Definition isFixed (sp : Spacer) : bool :=
  match spacerType sp with SpacerFIXED => true | _ => false end.

Inductive ElementType : Type := MEASURE | HBOX | VBOX | TBOX | FBOX.

(** A [MeasureBase*] of the measure list: its identity, kind, box and start
    tick, and for a measure the spacers of each staff. *)
Record MeasureBase : Type := mkMeasureBase {
  mb_id : nat;
  mb_type : ElementType;
  mb_bbox : RectF;
  mb_tick : Z;
  vspacerUp : Z -> option Spacer;
  vspacerDown : Z -> option Spacer
}.

(** [width()] of an element is the width of its box. *)
Definition mb_width (mb : MeasureBase) : qreal := RectF.width (mb_bbox mb).

Definition isMeasure (mb : MeasureBase) : bool :=
  match mb_type mb with MEASURE => true | _ => false end.
Definition isHBox (mb : MeasureBase) : bool :=
  match mb_type mb with HBOX => true | _ => false end.
Definition isVBox (mb : MeasureBase) : bool :=
  match mb_type mb with VBOX => true | _ => false end.
Definition isTBox (mb : MeasureBase) : bool :=
  match mb_type mb with TBOX => true | _ => false end.

Definition mb_setbbox (r : RectF) (mb : MeasureBase) : MeasureBase :=
  mkMeasureBase (mb_id mb) (mb_type mb) r (mb_tick mb) (vspacerUp mb) (vspacerDown mb).

Inductive BracketType : Type := NORMAL | BRACE | SQUARE | LINE | NO_BRACKET.

Definition BracketType_eqb (a b : BracketType) : bool :=
  match a, b with
  | NORMAL, NORMAL | BRACE, BRACE | SQUARE, SQUARE | LINE, LINE
  | NO_BRACKET, NO_BRACKET => true
  | _, _ => false
  end.

Record BracketItem : Type := mkBracketItem {
  bracketType : BracketType;
  column : Z;
  bracketSpan : Z
}.

(** Modelled from the spec: the layout reads from the score an ordered
    staff list with visibility and intrinsic geometry, the grouping of staves
    in parts, the brackets of each staff and style constants by key (section
    6); staff.cpp, part.cpp and score.cpp hold the classes.

    A staff of the score: [lines] is the line count at tick 0, [staffMag]
    the magnification at a tick, [part] the part the staff belongs to. *)
Record Staff : Type := mkStaff {
  show : bool;
  lines : Z;
  height : qreal;
  part : nat;
  userDist : qreal;
  staffMag : Z -> qreal;
  brackets : list BracketItem
}.

Record Part : Type := mkPart { nstaves : Z }.

Record MStyle : Type := mkMStyle {
  minVerticalDistance : qreal;
  staffDistance : qreal;
  akkoladeDistance : qreal;
  minStaffSpread : qreal;
  bracketDistance : qreal;
  hideEmptyStaves : bool;
  alwaysShowBracketsWhenEmptyStavesAreHidden : bool
}.

Record Score : Type := mkScore {
  staves : list Staff;
  parts : list Part;
  style : MStyle;
  enableVerticalSpread : bool;
  lineMode : bool;
  spatium : qreal
}.

Module Score.
(** [Score::staff(n)]: the staff at index [n], null when there is none. *)
Definition staff (score : Score) (n : Z) : option Staff :=
  if (0 <=? n) && (n <? size (staves score)) then staves score !! Z.to_nat n else None.

(** [setStyleValue(Sid::hideEmptyStaves, v)]. *)
Definition setHideEmptyStaves (v : bool) (score : Score) : Score :=
  let st := style score in
  mkScore (staves score) (parts score)
          (mkMStyle (minVerticalDistance st) (staffDistance st) (akkoladeDistance st)
                    (minStaffSpread st) (bracketDistance st) v
                    (alwaysShowBracketsWhenEmptyStavesAreHidden st))
          (enableVerticalSpread score) (lineMode score) (spatium score).
End Score.

(** ** Elements owned by a system *)

Inductive InstrumentNameType : Type := LONG | SHORT.

(** An instrument name; [in_sysStaff] is the record it is attached to. *)
Record InstrumentName : Type := mkInstrumentName {
  in_text : string;
  in_type : InstrumentNameType;
  layoutPos : Z;
  in_track : Z;
  in_sysStaff : option Z;
  in_offsetY : qreal;
  in_ypos : qreal
}.

(** A bracket of a system.  [b_item] is the bracket item of the staff it was
    made for (column, type and declared span are read through it), [b_width]
    what [Bracket::width()] answers, [b_h2] half its height. *)
Record Bracket : Type := mkBracket {
  b_item : BracketItem;
  b_track : Z;
  b_measure : option nat;
  b_generated : bool;
  firstStaff : Z;
  lastStaff : Z;
  b_width : qreal;
  b_xpos : qreal;
  b_ypos : qreal;
  b_h2 : qreal
}.

(** Messages written with [qDebug]. *)
Inductive LogMsg : Type :=
| NoVisibleStaves (sysStaves scoreStaves : Z)
| UnhandledMeasureType (t : ElementType).

(** ** Code of other files *)

Class Collaborators : Type := {
  (** skyline.cpp: the profile of a staff and the distance that keeps the
      south profile of the first clear of the north profile of the second. *)
  Skyline : Type;
  minDistance : Skyline -> Skyline -> qreal;
  (** mscore.h *)
  VOICES : Z;
  BARLINE_SPAN_1LINESTAFF_FROM : Z;
  BARLINE_SPAN_1LINESTAFF_TO : Z;
  (** box.cpp, textframe.cpp: the layout of a frame, as the box it gives
      the frame. *)
  Box_layout : MeasureBase -> RectF;
  HBox_layout2 : MeasureBase -> RectF;
  TBox_layout : MeasureBase -> RectF;
  (** bracket.cpp, factory.cpp *)
  Factory_createBracket : Bracket;
  Bracket_layout : Bracket -> Bracket
}.

(** ** Per-staff layout record *)

(** [SysStaff], with [_show] and [_continuousDist] as declared in
    system.h. *)
Record SysStaff `{Collaborators} : Type := mkSysStaff {
  _bbox : RectF;
  _skyline : Skyline;
  _yOff : qreal;
  _yPos : qreal;
  _height : qreal;
  _continuousDist : qreal;
  _show : bool;
  instrumentNames : list InstrumentName
}.

Module SysStaff.
Section Methods.
Context `{Collaborators}.

Definition setbbox (r : RectF) (s : SysStaff) : SysStaff :=
  mkSysStaff _ r (_skyline s) (_yOff s) (_yPos s) (_height s) (_continuousDist s)
             (_show s) (instrumentNames s).

Definition setYOff (v : qreal) (s : SysStaff) : SysStaff :=
  mkSysStaff _ (_bbox s) (_skyline s) v (_yPos s) (_height s) (_continuousDist s)
             (_show s) (instrumentNames s).

Definition setContinuousDist (v : qreal) (s : SysStaff) : SysStaff :=
  mkSysStaff _ (_bbox s) (_skyline s) (_yOff s) (_yPos s) (_height s) v
             (_show s) (instrumentNames s).

Definition setInstrumentNames (l : list InstrumentName) (s : SysStaff) : SysStaff :=
  mkSysStaff _ (_bbox s) (_skyline s) (_yOff s) (_yPos s) (_height s)
             (_continuousDist s) (_show s) l.

Definition setSkyline (v : Skyline) (s : SysStaff) : SysStaff :=
  mkSysStaff _ (_bbox s) v (_yOff s) (_yPos s) (_height s) (_continuousDist s)
             (_show s) (instrumentNames s).

Definition saveLayout (s : SysStaff) : SysStaff :=
  mkSysStaff _ (_bbox s) (_skyline s) (_yOff s)
             (RectF.y (_bbox s)) (RectF.height (_bbox s))
             (_continuousDist s) (_show s) (instrumentNames s).

Definition restoreLayout (s : SysStaff) : SysStaff :=
  setbbox (RectF.setHeight (_height s) (RectF.setY (_yPos s) (_bbox s))) s.
End Methods.
End SysStaff.

(** ** Further code of other files

    What the queries and the list operations of a system call in other
    files. *)

Class Accessors `{Collaborators} : Type := {
  (** system.h: a default-constructed [SysStaff], and [SysStaff::y()]. *)
  SysStaff_new : SysStaff;
  SysStaff_y : SysStaff -> qreal;
  (** skyline.cpp: [north().max()] and [south().max()] of a skyline. *)
  north_max : Skyline -> qreal;
  south_max : Skyline -> qreal;
  (** box.h: the gaps above and below a frame. *)
  topGap : MeasureBase -> qreal;
  bottomGap : MeasureBase -> qreal
}.

(** [qreal] is [double] in the source: the result of a sum or a product
    is the exact result rounded.  [y2staff] compares a point its caller
    chooses with sums it computes, so at the ends of a band the rounding
    decides the result; there the rounding is written out as [fl], the
    double nearest to an exact result. *)
Class Rounding : Type := { fl : qreal -> qreal }.

(** The style values [Sid::minSystemSpread] and [Sid::minSystemDistance],
    in points. *)
Record SystemSpacing : Type := mkSystemSpacing {
  minSystemSpread : qreal;
  minSystemDistance : qreal
}.

(** ** The system *)

(** The fields of [System] that the methods below read or write.
    [sys_bbox] and [sys_pos] are the box and position every element has;
    [debugLog] collects what the methods write with [qDebug]. *)
Record System `{Collaborators} : Type := mkSystem {
  ml : list MeasureBase;
  _staves : list SysStaff;
  _brackets : list Bracket;
  _leftMargin : qreal;
  _systemHeight : qreal;
  sys_bbox : RectF;
  sys_pos : qreal * qreal;
  debugLog : list LogMsg
}.

Module System.
Section Methods.
Context `{Collaborators}.

Definition staff (sys : System) (staffIdx : Z) : option SysStaff :=
  if (0 <=? staffIdx) && (staffIdx <? size (_staves sys))
  then _staves sys !! Z.to_nat staffIdx
  else None.

(** *** Field updates *)

Definition set_ml (v : list MeasureBase) (sys : System) : System :=
  mkSystem _ v (_staves sys) (_brackets sys) (_leftMargin sys) (_systemHeight sys)
           (sys_bbox sys) (sys_pos sys) (debugLog sys).
Definition set_staves (v : list SysStaff) (sys : System) : System :=
  mkSystem _ (ml sys) v (_brackets sys) (_leftMargin sys) (_systemHeight sys)
           (sys_bbox sys) (sys_pos sys) (debugLog sys).
Definition set_brackets (v : list Bracket) (sys : System) : System :=
  mkSystem _ (ml sys) (_staves sys) v (_leftMargin sys) (_systemHeight sys)
           (sys_bbox sys) (sys_pos sys) (debugLog sys).
Definition set_systemHeight (v : qreal) (sys : System) : System :=
  mkSystem _ (ml sys) (_staves sys) (_brackets sys) (_leftMargin sys) v
           (sys_bbox sys) (sys_pos sys) (debugLog sys).
Definition setbbox (v : RectF) (sys : System) : System :=
  mkSystem _ (ml sys) (_staves sys) (_brackets sys) (_leftMargin sys) (_systemHeight sys)
           v (sys_pos sys) (debugLog sys).
Definition setPos (px py : qreal) (sys : System) : System :=
  mkSystem _ (ml sys) (_staves sys) (_brackets sys) (_leftMargin sys) (_systemHeight sys)
           (sys_bbox sys) (px, py) (debugLog sys).
Definition qDebug (msgs : list LogMsg) (sys : System) : System :=
  mkSystem _ (ml sys) (_staves sys) (_brackets sys) (_leftMargin sys) (_systemHeight sys)
           (sys_bbox sys) (sys_pos sys) (debugLog sys ++ msgs).

Definition setHeight (h : qreal) (sys : System) : System :=
  setbbox (RectF.setHeight h (sys_bbox sys)) sys.
Definition width (sys : System) : qreal := RectF.width (sys_bbox sys).

(** *** vbox, firstMeasure *)

Definition vbox (sys : System) : option MeasureBase :=
  match ml sys with
  | mb :: _ => if isVBox mb || isTBox mb then Some mb else None
  | [] => None
  end.

Definition firstMeasure (sys : System) : option MeasureBase :=
  List.find isMeasure (ml sys).

(** *** setMeasureHeight *)

Definition setMeasureHeight1 (_spatium height : qreal) (m : MeasureBase)
  : MeasureBase * list LogMsg :=
  if isMeasure m then
    (mb_setbbox (mkRectF 0 (- _spatium) (mb_width m) (height + 2 * _spatium))%Q m, [])
  else if isHBox m then
    (let m := mb_setbbox (mkRectF 0%Q 0%Q (mb_width m) height) m in
     mb_setbbox (HBox_layout2 m) m, [])
  else if isTBox m then
    (mb_setbbox (TBox_layout m) m, [])
  else
    (m, [UnhandledMeasureType (mb_type m)]).

Definition setMeasureHeight (score : Score) (height : qreal) (sys : System) : System :=
  let r := List.map (setMeasureHeight1 (spatium score) height) (ml sys) in
  qDebug (List.concat (List.map snd r)) (set_ml (List.map fst r) sys).

(** *** Skipping hidden staves at the ends of a range

    [firstShown shown i n] follows
    [while (i <= last && !shown(i)) ++i] with [n = last - i + 1] staves left;
    [lastShown shown j n] follows [while (first <= j && !shown(j)) --j]. *)

Fixpoint firstShown (shown : Z -> option bool) (i : Z) (n : nat) : option Z :=
  match n with
  | O => Some i
  | S n' => b ← shown i; if b : bool then Some i else firstShown shown (i + 1) n'
  end.

Fixpoint lastShown (shown : Z -> option bool) (j : Z) (n : nat) : option Z :=
  match n with
  | O => Some j
  | S n' => b ← shown j; if b : bool then Some j else lastShown shown (j - 1) n'
  end.

(** *** layoutBracketsVertical *)

(** Column, type and declared span of a bracket are those of its item. *)
Definition Bracket_column (b : Bracket) : Z := column (b_item b).
Definition Bracket_bracketType (b : Bracket) : BracketType := bracketType (b_item b).
Definition Bracket_span (b : Bracket) : Z := bracketSpan (b_item b).

(** [rypos() = sy; setHeight(h)]: a bracket keeps half its height. *)
Definition Bracket_setVertical (sy h : qreal) (b : Bracket) : Bracket :=
  mkBracket (b_item b) (b_track b) (b_measure b) (b_generated b)
            (firstStaff b) (lastStaff b) (b_width b) (b_xpos b) sy (h * (1 # 2))%Q.

Definition layoutBracketVertical1 (score : Score) (stv : list SysStaff) (b : Bracket)
  : option Bracket :=
  let shown i := _show <$> at_ stv i in
  let staffIdx1 := firstStaff b in
  let staffIdx2 := lastStaff b in
  staffIdx1 ← firstShown shown staffIdx1 (Z.to_nat (staffIdx2 - staffIdx1 + 1));
  staffIdx2 ← lastShown shown staffIdx2 (Z.to_nat (staffIdx2 - staffIdx1 + 1));
  let notHidden :=
    if alwaysShowBracketsWhenEmptyStavesAreHidden (style score)
    then staffIdx1 <=? staffIdx2
    else (staffIdx1 <? staffIdx2)
         || ((Bracket_span b =? 1) && (staffIdx1 =? staffIdx2)) in
  '(sy, ey) ←
    (if notHidden then
       s1 ← at_ stv staffIdx1;
       s2 ← at_ stv staffIdx2;
       Some (RectF.top (_bbox s1), RectF.bottom (_bbox s2))
     else Some (0%Q, 0%Q));
  Some (Bracket_layout (Bracket_setVertical sy (ey - sy)%Q b)).

Definition layoutBracketsVertical (score : Score) (sys : System) : option System :=
  bs ← mapM (layoutBracketVertical1 score (_staves sys)) (_brackets sys);
  Some (set_brackets bs sys).

(** *** restoreLayout2 *)

Definition restoreLayout2 (score : Score) (sys : System) : System :=
  match vbox sys with
  | Some _ => sys
  | None =>
      let sys := set_staves (List.map SysStaff.restoreLayout (_staves sys)) sys in
      let sys := setHeight (_systemHeight sys) sys in
      setMeasureHeight score (_systemHeight sys) sys
  end.

(** *** The staff stacker: pieces of layout2 *)

(** The visible staves, as indices into [_staves]; the box of every other
    record is cleared. *)
Fixpoint collectVisibleStaves (score : Score) (i : Z) (l : list SysStaff)
  : option (list Z * list SysStaff) :=
  match l with
  | [] => Some ([], [])
  | ss :: l' =>
      s ← Score.staff score i;
      '(vis, l'') ← collectVisibleStaves score (i + 1) l';
      if show s && _show ss
      then Some (i :: vis, ss :: l'')
      else Some (vis, SysStaff.setbbox RectF.null ss :: l'')
  end.

(** The measure loop of one staff boundary: the distance so far, and
    whether a FIXED spacer ended the loop. *)
Definition spacerUpFloor (staffHeight : qreal) (si2 : Z) (m : MeasureBase) (dist : qreal)
  : qreal :=
  match vspacerUp m si2 with
  | Some sp => qMax dist (gap sp + staffHeight)%Q
  | None => dist
  end.

Fixpoint scanSpacers (staffHeight : qreal) (si1 si2 : Z) (ms : list MeasureBase)
         (dist : qreal) : qreal * bool :=
  match ms with
  | [] => (dist, false)
  | mb :: ms' =>
      if negb (isMeasure mb) then scanSpacers staffHeight si1 si2 ms' dist
      else
        match vspacerDown mb si1 with
        | Some sp =>
            if isFixed sp then ((staffHeight + gap sp)%Q, true)
            else scanSpacers staffHeight si1 si2 ms'
                   (spacerUpFloor staffHeight si2 mb
                      (qMax dist (staffHeight + gap sp)%Q))
        | None =>
            scanSpacers staffHeight si1 si2 ms' (spacerUpFloor staffHeight si2 mb dist)
        end
  end.

Definition styleStaffDistance (score : Score) : qreal :=
  if enableVerticalSpread score then minStaffSpread (style score)
  else staffDistance (style score).
Definition styleAkkoladeDistance (score : Score) : qreal :=
  if enableVerticalSpread score then minStaffSpread (style score)
  else akkoladeDistance (style score).

(** The distance before the measure loop: staff height, the distance of
    the style, the extra distance of the lower staff. *)
Definition startDist (score : Score) (sys : System) (staff1 staff2 : Staff) : qreal :=
  let dist := height staff1 in
  let dist :=
    if Nat.eqb (part staff1) (part staff2) then
      let mag := match firstMeasure sys with
                 | Some m => staffMag staff1 (mb_tick m)
                 | None => 1%Q
                 end in
      (dist + styleAkkoladeDistance score * mag)%Q
    else (dist + styleStaffDistance score)%Q in
  (dist + userDist staff2)%Q.

(** The skyline distance of a boundary, with the memory of continuous view. *)
Definition skylineDist (score : Score) (ss ss2 : SysStaff) : qreal * SysStaff :=
  let d := minDistance (_skyline ss) (_skyline ss2) in
  if lineMode score then
    let previousDist := _continuousDist ss in
    if qLess previousDist d then (d, SysStaff.setContinuousDist d ss)
    else (previousDist, ss)
  else (d, ss).

(** Offset of the top line in the box, and height of the box. *)
Definition staffBox (score : Score) (staff1 : Staff) : qreal * qreal :=
  if lines staff1 =? 1 then
    ((spatium score * inject_Z BARLINE_SPAN_1LINESTAFF_TO * (1 # 2))%Q,
     (spatium score
      * inject_Z (BARLINE_SPAN_1LINESTAFF_TO - BARLINE_SPAN_1LINESTAFF_FROM)
      * (1 # 2))%Q)
  else (0%Q, height staff1).

Definition placeStaff (sys : System) (y yOffset h : qreal) (ss : SysStaff) : SysStaff :=
  SysStaff.saveLayout
    (SysStaff.setbbox
       (RectF.setRect (_leftMargin sys) (y - yOffset)%Q (width sys - _leftMargin sys)%Q h
                      (_bbox (SysStaff.setYOff yOffset ss)))
       (SysStaff.setYOff yOffset ss)).

(** The distance from staff [si1] to the next visible staff [si2], and the
    record of [si1] with its memory updated. *)
Definition staffDist (score : Score) (sys : System) (stv : list SysStaff)
           (si1 si2 : Z) (staff1 : Staff) (ss : SysStaff) : option (qreal * SysStaff) :=
  staff2 ← Score.staff score si2;
  let '(dist, fixedSpace) :=
    scanSpacers (height staff1) si1 si2 (ml sys) (startDist score sys staff1 staff2) in
  if fixedSpace then Some (dist, ss)
  else
    ss2 ← staff (set_staves stv sys) si2;
    let '(d, ss) := skylineDist score ss ss2 in
    Some (qMax dist (d + minVerticalDistance (style score))%Q, ss).

Fixpoint layout2_staves (score : Score) (sys : System) (vis : list Z) (y : qreal)
         (stv : list SysStaff) : option (list SysStaff) :=
  match vis with
  | [] => Some stv
  | si1 :: rest =>
      ss ← at_ stv si1;
      staff1 ← Score.staff score si1;
      let '(yOffset, h) := staffBox score staff1 in
      match rest with
      | [] => Some (<[Z.to_nat si1 := placeStaff sys y yOffset h ss]> stv)
      | si2 :: _ =>
          '(dist, ss) ← staffDist score sys stv si1 si2 staff1 ss;
          layout2_staves score sys rest (y + dist)%Q
                         (<[Z.to_nat si1 := placeStaff sys y yOffset h ss]> stv)
      end
  end.

(** *** Brackets *)

Definition Bracket_setStaffSpan (a z : Z) (b : Bracket) : Bracket :=
  mkBracket (b_item b) (b_track b) (b_measure b) (b_generated b)
            a z (b_width b) (b_xpos b) (b_ypos b) (b_h2 b).

Definition Bracket_setXpos (v : qreal) (b : Bracket) : Bracket :=
  mkBracket (b_item b) (b_track b) (b_measure b) (b_generated b)
            (firstStaff b) (lastStaff b) (b_width b) v (b_ypos b) (b_h2 b).

(** A new generated bracket for item [bi]. *)
Definition newBracket (bi : BracketItem) (track : Z) (measure : option nat) : Bracket :=
  let b := Factory_createBracket in
  mkBracket bi track measure true
            (firstStaff b) (lastStaff b) (b_width b) (b_xpos b) (b_ypos b) (b_h2 b).

(** The first bracket of [bl] accepted by [p], taken out of the list. *)
Fixpoint takeFirst (p : Bracket -> bool) (bl : list Bracket)
  : option (Bracket * list Bracket) :=
  match bl with
  | [] => None
  | b :: bl' =>
      if p b then Some (b, bl')
      else match takeFirst p bl' with
           | Some (b', rest) => Some (b', b :: rest)
           | None => None
           end
  end.

Definition option_nat_eqb (a b : option nat) : bool :=
  match a, b with
  | Some x, Some y => Nat.eqb x y
  | None, None => true
  | _, _ => false
  end.

(** The staff range of a bracket item at [staffIdx], cut at the end of the
    system and shrunk past hidden staves at both ends. *)
Definition visibleRange (sys : System) (bi : BracketItem) (staffIdx : Z) : option (Z * Z) :=
  let nstaves := size (_staves sys) in
  let firstStaff := staffIdx in
  let lastStaff := staffIdx + bracketSpan bi - 1 in
  let lastStaff := if nstaves <=? lastStaff then nstaves - 1 else lastStaff in
  let shown i := _show <$> staff sys i in
  firstStaff ← firstShown shown firstStaff (Z.to_nat (lastStaff - firstStaff + 1));
  lastStaff ← lastShown shown lastStaff (Z.to_nat (lastStaff - firstStaff + 1));
  Some (firstStaff, lastStaff).

(** [createBracket]: the bracket if one is shown, the list of old brackets
    that are still unused, and the system with the bracket added. *)
Definition createBracket (score : Score) (bi : BracketItem) (column staffIdx : Z)
           (bl : list Bracket) (measure : option nat) (sys : System)
  : option (option Bracket * list Bracket * System) :=
  '(firstStaff, lastStaff) ← visibleRange sys bi staffIdx;
  let span := lastStaff - firstStaff + 1 in
  if (1 <? span)
     || (bracketSpan bi =? span)
     || ((span =? 1) && alwaysShowBracketsWhenEmptyStavesAreHidden (style score))
  then
    let track := staffIdx * VOICES in
    let same (b : Bracket) :=
      (b_track b =? track) && (Bracket_column b =? column)
      && BracketType_eqb (Bracket_bracketType b) (bracketType bi)
      && option_nat_eqb (b_measure b) measure in
    let '(b, bl) :=
      match takeFirst same bl with
      | Some (b, rest) => (b, rest)
      | None => (newBracket bi track measure, bl)
      end in
    let b := Bracket_setStaffSpan firstStaff lastStaff b in
    Some (Some b, bl, set_brackets (_brackets sys ++ [b]) sys)
  else Some (None, bl, sys).

Fixpoint foldM {A S : Type} (f : S -> A -> option S) (s : S) (l : list A) : option S :=
  match l with
  | [] => Some s
  | a :: l' => s' ← f s a; foldM f s' l'
  end.

Definition getBracketsColumnsCount (score : Score) (sys : System) : option Z :=
  foldM (fun columns idx =>
           s ← Score.staff score idx;
           Some (List.fold_left (fun c bi => qMax_int c (column bi + 1)) (brackets s) columns))
        0 (seqZ 0 (size (_staves sys))).

Definition layoutBrackets_item (score : Score) (i staffIdx : Z)
           (acc : list Bracket * System * list qreal) (bi : BracketItem)
  : option (list Bracket * System * list qreal) :=
  let '(bl, sys, bracketWidth) := acc in
  if negb (column bi =? i) || BracketType_eqb (bracketType bi) NO_BRACKET then Some acc
  else
    '(b, bl, sys) ← createBracket score bi i staffIdx bl (mb_id <$> firstMeasure sys) sys;
    match b with
    | Some b =>
        w ← at_ bracketWidth i;
        Some (bl, sys, <[Z.to_nat i := qMax w (b_width b)]> bracketWidth)
    | None => Some (bl, sys, bracketWidth)
    end.

Definition layoutBrackets_staff (score : Score) (columns : Z)
           (acc : list Bracket * System * list qreal) (staffIdx : Z)
  : option (list Bracket * System * list qreal) :=
  s ← Score.staff score staffIdx;
  foldM (fun acc i => foldM (layoutBrackets_item score i staffIdx) acc (brackets s))
        acc (seqZ 0 columns).

Definition layoutBrackets (score : Score) (sys : System) : option (qreal * System) :=
  let nstaves := size (_staves sys) in
  columns ← getBracketsColumnsCount score sys;
  let bracketWidth := List.repeat 0%Q (Z.to_nat columns) in
  let bl := _brackets sys in
  let sys := set_brackets [] sys in
  '(_, sys, bracketWidth) ←
    foldM (layoutBrackets_staff score columns) (bl, sys, bracketWidth) (seqZ 0 nstaves);
  let bd := bracketDistance (style score) in
  let totalBracketWidth :=
    match _brackets sys with
    | [] => 0%Q
    | _ => List.fold_left (fun total w => (total + (inject_Z (qrealToInt w) + bd))%Q)
                          bracketWidth 0%Q
    end in
  Some (totalBracketWidth, sys).

(** [totalBracketOffset]: the score is part of the state, since the style
    is written. *)
Definition totalBracketOffset (score : Score) (sys : System)
  : option (qreal * Score * System) :=
  let hideEmptyStaves := hideEmptyStaves (style score) in
  let score := Score.setHideEmptyStaves false score in
  '(offset, sys) ← layoutBrackets score sys;
  let score := Score.setHideEmptyStaves hideEmptyStaves score in
  Some (offset, score, sys).

Definition pushesLeft (b1 b2 : Bracket) : bool :=
  let b1FirstStaffInB2 :=
    (firstStaff b2 <=? firstStaff b1) && (firstStaff b1 <=? lastStaff b2) in
  let b1LastStaffInB2 :=
    (firstStaff b2 <=? lastStaff b1) && (lastStaff b1 <=? lastStaff b2) in
  (Bracket_column b2 <? Bracket_column b1) && (b1FirstStaffInB2 || b1LastStaffInB2).

Definition bracketXOffset (bracketDistance : qreal) (brackets : list Bracket) (b1 : Bracket)
  : qreal :=
  List.fold_left
    (fun xOffset b2 =>
       if pushesLeft b1 b2 then (xOffset + (b_width b2 + bracketDistance))%Q else xOffset)
    brackets 0%Q.

(** The loop writes the x of each bracket in place; the inner loop reads
    columns, staff ranges and widths only, which the writes leave alone, so
    every offset can be computed on the list the function was called with. *)
Definition setBracketsXPosition (score : Score) (xPosition : qreal) (sys : System) : System :=
  let bracketDistance := bracketDistance (style score) in
  set_brackets
    (List.map
       (fun b1 =>
          let xOffset := bracketXOffset bracketDistance (_brackets sys) b1 in
          Bracket_setXpos (xPosition - xOffset - b_width b1)%Q b1)
       (_brackets sys))
    sys.

(** *** Staves of a part

    A [Part*] is the position of the part in [score()->parts()]. *)

Fixpoint firstSysStaffOfPart_loop (ps : list Part) (p part : nat) (staffIdx : Z) : Z :=
  match ps with
  | [] => -1
  | q :: ps' =>
      if Nat.eqb p part then staffIdx
      else firstSysStaffOfPart_loop ps' (S p) part (staffIdx + nstaves q)
  end.

Definition firstSysStaffOfPart (score : Score) (part : nat) : Z :=
  firstSysStaffOfPart_loop (parts score) O part 0.

Fixpoint firstVisible_loop (sys : System) (idx : Z) (n : nat) : option Z :=
  match n with
  | O => Some (-1)
  | S n' =>
      ss ← staff sys idx;
      if _show ss then Some idx else firstVisible_loop sys (idx + 1) n'
  end.

Definition firstVisibleSysStaffOfPart (score : Score) (sys : System) (part : nat) (p : Part)
  : option Z :=
  let firstIdx := firstSysStaffOfPart score part in
  firstVisible_loop sys firstIdx (Z.to_nat (nstaves p)).

(** *** layoutInstrumentNames *)

Definition InstrumentName_retarget (track : Z) (vs : Z) (t : InstrumentName)
  : InstrumentName :=
  mkInstrumentName (in_text t) (in_type t) (layoutPos t) track (Some vs)
                   (in_offsetY t) (in_ypos t).

Definition InstrumentName_setYpos (v : qreal) (t : InstrumentName) : InstrumentName :=
  mkInstrumentName (in_text t) (in_type t) (layoutPos t) (in_track t) (in_sysStaff t)
                   (in_offsetY t) v.

(** The lowest shown record from [i] down to 1, or [s2] when there is none:
    the loop of "center at part". *)
Fixpoint lowestShown (sys : System) (i : Z) (n : nat) (s2 : option SysStaff)
  : option (option SysStaff) :=
  match n with
  | O => Some s2
  | S n' =>
      s3 ← staff sys i;
      if _show s3 then Some (Some s3) else lowestShown sys (i - 1) n' s2
  end.

Definition nameSpan (sys : System) (staffIdx nstaves : Z) (s : SysStaff)
           (t : InstrumentName) : option (qreal * qreal) :=
  match layoutPos t with
  | 1 => Some (RectF.top (_bbox s), RectF.bottom (_bbox s))
  | 2 =>
      sa ← staff sys (staffIdx + 1);
      Some (RectF.top (_bbox s), RectF.bottom (_bbox sa))
  | 3 =>
      sa ← staff sys (staffIdx + 1);
      Some (RectF.top (_bbox sa), RectF.bottom (_bbox sa))
  | 4 =>
      sa ← staff sys (staffIdx + 1);
      sb ← staff sys (staffIdx + 2);
      Some (RectF.top (_bbox sa), RectF.bottom (_bbox sb))
  | 5 =>
      sb ← staff sys (staffIdx + 2);
      Some (RectF.top (_bbox sb), RectF.bottom (_bbox sb))
  | _ =>
      o ← lowestShown sys (staffIdx + nstaves - 1) (Z.to_nat (staffIdx + nstaves - 1))
                      (staff sys staffIdx);
      s2 ← o;
      Some (RectF.top (_bbox s), RectF.bottom (_bbox s2))
  end.

Definition layoutName (sys : System) (staffIdx nstaves : Z) (s : SysStaff)
           (t : InstrumentName) : option InstrumentName :=
  '(y1, y2) ← nameSpan sys staffIdx nstaves s t;
  Some (InstrumentName_setYpos (y1 + (y2 - y1) * (1 # 2) + in_offsetY t)%Q t).

(** Moving the names of the record at [staffIdx] to the record at
    [visible]. *)
Definition migrateNames (staffIdx visible : Z) (s vs : SysStaff) (sys : System) : System :=
  let moved :=
    List.map (InstrumentName_retarget (visible * VOICES) visible) (instrumentNames s) in
  set_staves
    (<[Z.to_nat staffIdx := SysStaff.setInstrumentNames [] s]>
       (<[Z.to_nat visible :=
            SysStaff.setInstrumentNames (instrumentNames vs ++ moved) vs]>
          (_staves sys)))
    sys.

Definition layoutInstrumentNames_part (score : Score) (part : nat) (p : Part)
           (staffIdx : Z) (sys : System) : option System :=
  let nstaves := nstaves p in
  visible ← firstVisibleSysStaffOfPart score sys part p;
  if 0 <=? visible then
    s ← staff sys staffIdx;
    '(sIdx, sys) ←
      (if negb (visible =? staffIdx) then
         vs ← staff sys visible;
         Some (visible, migrateNames staffIdx visible s vs sys)
       else Some (staffIdx, sys));
    s ← staff sys sIdx;
    names ← mapM (layoutName sys staffIdx nstaves s) (instrumentNames s);
    Some (set_staves
            (<[Z.to_nat sIdx := SysStaff.setInstrumentNames names s]> (_staves sys)) sys)
  else Some sys.

Fixpoint layoutInstrumentNames_loop (score : Score) (ps : list Part) (part : nat)
         (staffIdx : Z) (sys : System) : option System :=
  match ps with
  | [] => Some sys
  | p :: ps' =>
      sys ← layoutInstrumentNames_part score part p staffIdx sys;
      layoutInstrumentNames_loop score ps' (S part) (staffIdx + nstaves p) sys
  end.

Definition layoutInstrumentNames (score : Score) (sys : System) : option System :=
  layoutInstrumentNames_loop score (parts score) O 0 sys.

(** *** layout2 *)

Definition layout2 (score : Score) (sys : System) : option System :=
  match vbox sys with
  | Some vb =>
      let vb := mb_setbbox (Box_layout vb) vb in
      Some (setbbox (mb_bbox vb) (set_ml (<[O := vb]> (ml sys)) sys))
  | None =>
      let sys := setPos 0%Q 0%Q sys in
      '(visibleStaves, stv) ← collectVisibleStaves score 0 (_staves sys);
      let sys := set_staves stv sys in
      match visibleStaves with
      | [] =>
          Some (qDebug [NoVisibleStaves (size (_staves sys)) (size (staves score))] sys)
      | _ =>
          stv ← layout2_staves score sys visibleStaves 0%Q (_staves sys);
          let sys := set_staves stv sys in
          back ← List.last (List.map Some visibleStaves) None;
          last_ss ← staff sys back;
          let sys := set_systemHeight (RectF.bottom (_bbox last_ss)) sys in
          let sys := setHeight (_systemHeight sys) sys in
          let sys := setMeasureHeight score (_systemHeight sys) sys in
          sys ← layoutBracketsVertical score sys;
          sys ← layoutInstrumentNames score sys;
          (* measures().front() and measures().back() bound the search for
             cross-staff slurs; the layout of those slurs is in slur.cpp *)
          match ml sys with
          | [] => None
          | _ => Some sys
          end
      end
  end.

(** ** Queries and list operations

    The methods below return what they write with [qDebug] beside their
    result. *)

Context `{!Accessors}.

(** *** The records of a system *)

(** [QList::insert] at [idx] puts the record before the one at [idx]; the
    guess of the position reads the record before, which has to exist. *)
Definition insertStaff (score : Score) (idx : Z) (sys : System)
  : option (SysStaff * System) :=
  let staff1 := SysStaff_new in
  staff1 ←
    (if negb (idx =? 0) then
       prev ← at_ (_staves sys) (idx - 1);
       Some (SysStaff.setbbox
               (RectF.setY (SysStaff_y prev + 6 * spatium score)%Q (_bbox staff1)) staff1)
     else Some staff1);
  Some (staff1,
        set_staves (take (Z.to_nat idx) (_staves sys)
                    ++ staff1 :: drop (Z.to_nat idx) (_staves sys)) sys).

(** [QList::takeAt] needs a valid index. *)
Definition removeStaff (idx : Z) (sys : System) : option System :=
  _ ← at_ (_staves sys) idx;
  Some (set_staves (delete (Z.to_nat idx) (_staves sys)) sys).

Definition adjustStavesNumber (score : Score) (nstaves : Z) (sys : System)
  : option System :=
  sys ← foldM (fun sys i => snd <$> insertStaff score i sys) sys
              (seqZ (size (_staves sys)) (nstaves - size (_staves sys)));
  let dn := size (_staves sys) - nstaves in
  foldM (fun sys _ => removeStaff (size (_staves sys) - 1) sys) sys (seqZ 0 dn).

(** *** Measures *)

Definition lastMeasure (sys : System) : option MeasureBase :=
  List.find isMeasure (rev (ml sys)).

(** *** Visible staves *)

(** The largest [int]. *)
Definition INT_MAX : Z := 2147483647.

(** The loop of [nextVisibleStaff] at index [i], with [n] indices left
    below [_staves.size()].  The loop starts at [staffIdx + 1], a sum in
    [int]: it is the sum in [Z] for every [staffIdx] below [INT_MAX], which
    is where the properties of [nextVisibleStaff] are stated. *)
Fixpoint nextVisibleStaff_loop (score : Score) (sys : System) (i : Z) (n : nat)
  : option Z :=
  match n with
  | O => Some i
  | S n' =>
      s ← Score.staff score i;
      ss ← at_ (_staves sys) i;
      if show s && _show ss then Some i
      else nextVisibleStaff_loop score sys (i + 1) n'
  end.

Definition nextVisibleStaff (score : Score) (sys : System) (staffIdx : Z) : option Z :=
  nextVisibleStaff_loop score sys (staffIdx + 1)
                        (Z.to_nat (size (_staves sys) - (staffIdx + 1))).

Definition firstVisibleStaff (score : Score) (sys : System) : option Z :=
  nextVisibleStaff score sys (-1).

Fixpoint firstVisibleSysStaff_loop (l : list SysStaff) (i : Z) : Z * list string :=
  match l with
  | [] => (-1, ["no sys staff"%string])
  | ss :: l' => if _show ss then (i, []) else firstVisibleSysStaff_loop l' (i + 1)
  end.

Definition firstVisibleSysStaff (sys : System) : Z * list string :=
  firstVisibleSysStaff_loop (_staves sys) 0.

(** The loop of [lastVisibleSysStaff] on the records [i, i - 1, .., 0]. *)
Fixpoint lastVisibleSysStaff_loop (r : list SysStaff) (i : Z) : Z * list string :=
  match r with
  | [] => (-1, ["no sys staff"%string])
  | ss :: r' => if _show ss then (i, []) else lastVisibleSysStaff_loop r' (i - 1)
  end.

Definition lastVisibleSysStaff (sys : System) : Z * list string :=
  lastVisibleSysStaff_loop (rev (_staves sys)) (size (_staves sys) - 1).

(** *** Staves of a part, continued *)

Definition lastSysStaffOfPart (score : Score) (part : nat) (p : Part) : Z :=
  let firstIdx := firstSysStaffOfPart score part in
  if firstIdx <? 0 then -1 else firstIdx + nstaves p - 1.

Fixpoint lastVisible_loop (sys : System) (idx : Z) (n : nat) : option Z :=
  match n with
  | O => Some (-1)
  | S n' =>
      ss ← staff sys idx;
      if _show ss then Some idx else lastVisible_loop sys (idx - 1) n'
  end.

Definition lastVisibleSysStaffOfPart (score : Score) (sys : System) (part : nat) (p : Part)
  : option Z :=
  let last := lastSysStaffOfPart score part p in
  lastVisible_loop sys last (Z.to_nat (last - firstSysStaffOfPart score part + 1)).

(** *** Margins and spacers *)

Definition minTop (sys : System) : qreal * list string :=
  let '(si, log) := firstVisibleSysStaff sys in
  match (if si <? 0 then None else staff sys si) with
  | Some s => ((- north_max (_skyline s))%Q, log)
  | None => (0%Q, log)
  end.

Definition minBottom (sys : System) : qreal * list string :=
  match vbox sys with
  | Some vb => (bottomGap vb, [])
  | None =>
      let '(si, log) := lastVisibleSysStaff sys in
      match (if si <? 0 then None else staff sys si) with
      | Some s => ((south_max (_skyline s) - RectF.height (_bbox s))%Q, log)
      | None => (0%Q, log)
      end
  end.

Fixpoint spacerDistance_loop (up : bool) (staff1 : Z) (ms : list MeasureBase)
         (dist : qreal) : qreal :=
  match ms with
  | [] => dist
  | mb :: ms' =>
      if isMeasure mb then
        match (if up then vspacerUp mb staff1 else vspacerDown mb staff1) with
        | Some sp =>
            if isFixed sp then gap sp
            else spacerDistance_loop up staff1 ms' (qMax dist (gap sp))
        | None => spacerDistance_loop up staff1 ms' dist
        end
      else spacerDistance_loop up staff1 ms' dist
  end.

Definition spacerDistance (up : bool) (sys : System) : qreal * list string :=
  let '(staff1, log) :=
    if up then firstVisibleSysStaff sys else lastVisibleSysStaff sys in
  if staff1 <? 0 then (0%Q, log)
  else (spacerDistance_loop up staff1 (ml sys) 0%Q, log).

Fixpoint upSpacer_loop (staffIdx : Z) (ms : list MeasureBase) (spacer : option Spacer)
  : option Spacer :=
  match ms with
  | [] => spacer
  | mb :: ms' =>
      if negb (isMeasure mb) then upSpacer_loop staffIdx ms' spacer
      else
        match vspacerUp mb staffIdx with
        | Some sp =>
            let replace :=
              match spacer with
              | None => true
              | Some cur =>
                  match spacerType cur with
                  | SpacerUP => qLess (gap cur) (gap sp)
                  | _ => false
                  end
              end in
            upSpacer_loop staffIdx ms' (if replace then Some sp else spacer)
        | None => upSpacer_loop staffIdx ms' spacer
        end
  end.

Definition upSpacer (staffIdx : Z) (prevDownSpacer : option Spacer) (sys : System)
  : option Spacer :=
  if staffIdx <? 0 then None
  else
    match prevDownSpacer with
    | Some prev =>
        if isFixed prev then Some prev else upSpacer_loop staffIdx (ml sys) prevDownSpacer
    | None => upSpacer_loop staffIdx (ml sys) prevDownSpacer
    end.

Fixpoint downSpacer_loop (staffIdx : Z) (ms : list MeasureBase) (spacer : option Spacer)
  : option Spacer :=
  match ms with
  | [] => spacer
  | mb :: ms' =>
      if negb (isMeasure mb) then downSpacer_loop staffIdx ms' spacer
      else
        match vspacerDown mb staffIdx with
        | Some sp =>
            if isFixed sp then Some sp
            else
              let replace :=
                match spacer with
                | None => true
                | Some cur => qLess (gap cur) (gap sp)
                end in
              downSpacer_loop staffIdx ms' (if replace then Some sp else spacer)
        | None => downSpacer_loop staffIdx ms' spacer
        end
  end.

Definition downSpacer (staffIdx : Z) (sys : System) : option Spacer :=
  if staffIdx <? 0 then None else downSpacer_loop staffIdx (ml sys) None.

(** *** The staff under a point *)

Context `{!Rounding}.

(** [bbox().bottom()] is the sum of the y and the height of the box, so
    [y2] is rounded twice. *)
Fixpoint y2staff_loop (y margin : qreal) (l : list SysStaff) (idx : Z) : Z :=
  match l with
  | [] => -1
  | s :: l' =>
      let y1 := fl (RectF.top (_bbox s) - margin)%Q in
      let y2 := fl (fl (RectF.bottom (_bbox s)) + margin)%Q in
      if Qle_bool y1 y && qLess y y2 then idx
      else y2staff_loop y margin l' (idx + 1)
  end.

Definition y2staff (score : Score) (sys : System) (y : qreal) : Z :=
  let y := fl (y - snd (sys_pos sys))%Q in
  let margin := fl (spatium score * 2)%Q in
  y2staff_loop y margin (_staves sys) 0.

(** The inner loop of [searchStaff]: the indices after [i] are tried in
    turn; at the end of the list [ni] is [nstaves]. *)
Fixpoint searchStaff_next (score : Score) (sys : System) (nstaves : Z) (cands : list Z)
  : option Z :=
  match cands with
  | [] => Some nstaves
  | ni :: cands' =>
      ss ← staff sys ni;
      if _show ss then
        s ← Score.staff score ni;
        if show s then Some ni else searchStaff_next score sys nstaves cands'
      else searchStaff_next score sys nstaves cands'
  end.

(** The lower end of the zone of staff [i] when [ni] is the next visible
    staff; [pageHeight] is [page()->height()]. *)
Definition searchStaff_sy2 (sys : System) (pageHeight : qreal) (preferredStaff : Z)
           (spacingFactor : qreal) (nstaves i ni : Z) (stff : SysStaff) : option qreal :=
  if negb (ni =? nstaves) then
    let s1y2 := (RectF.y (_bbox stff) + RectF.height (_bbox stff))%Q in
    if i =? preferredStaff then
      nstaff ← staff sys ni;
      Some (s1y2 + (RectF.y (_bbox nstaff) - s1y2))%Q
    else if ni =? preferredStaff then Some s1y2
    else
      nstaff ← staff sys ni;
      Some (s1y2 + (RectF.y (_bbox nstaff) - s1y2) * spacingFactor)%Q
  else Some (pageHeight - snd (sys_pos sys))%Q.

(** The outer loop; every round moves [i] up, so [nstaves - i] rounds are
    enough. *)
Fixpoint searchStaff_loop (score : Score) (sys : System) (pageHeight y : qreal)
         (preferredStaff : Z) (spacingFactor : qreal) (nstaves i : Z) (fuel : nat)
  : option Z :=
  if negb (i <? nstaves) then Some i
  else
    match fuel with
    | O => None
    | S fuel' =>
        stff ← staff sys i;
        hidden ←
          (if negb (_show stff) then Some true
           else s ← Score.staff score i; Some (negb (show s)));
        if hidden : bool then
          searchStaff_loop score sys pageHeight y preferredStaff spacingFactor nstaves
                           (i + 1) fuel'
        else
          ni ← searchStaff_next score sys nstaves (seqZ (i + 1) (nstaves - (i + 1)));
          sy2 ← searchStaff_sy2 sys pageHeight preferredStaff spacingFactor nstaves i ni stff;
          if qLess sy2 y then
            searchStaff_loop score sys pageHeight y preferredStaff spacingFactor nstaves
                             ni fuel'
          else Some i
    end.

Definition searchStaff (score : Score) (sys : System) (pageHeight y : qreal)
           (preferredStaff : Z) (spacingFactor : qreal) : option Z :=
  let nstaves := size (staves score) in
  searchStaff_loop score sys pageHeight y preferredStaff spacingFactor nstaves 0
                   (Z.to_nat nstaves).

(** *** Brackets in front of a measure *)

Definition addBrackets_item (score : Score) (i staffIdx : Z) (measure : option nat)
           (acc : list Bracket * System) (bi : BracketItem)
  : option (list Bracket * System) :=
  let '(bl, sys) := acc in
  if negb (column bi =? i) || BracketType_eqb (bracketType bi) NO_BRACKET then Some acc
  else
    '(_, bl, sys) ← createBracket score bi i staffIdx bl measure sys;
    Some (bl, sys).

Definition addBrackets_staff (score : Score) (columns : Z) (measure : option nat)
           (acc : list Bracket * System) (staffIdx : Z)
  : option (list Bracket * System) :=
  s ← Score.staff score staffIdx;
  acc ← foldM (fun acc i => foldM (addBrackets_item score i staffIdx measure) acc
                                  (brackets s))
              acc (seqZ 0 columns);
  _ ← staff (snd acc) staffIdx;
  Some acc.

(** [measure] is the measure the brackets are put in front of, as its
    number and its x. *)
Definition addBrackets (score : Score) (measure : option (nat * qreal)) (sys : System)
  : option System :=
  match _staves sys with
  | [] => Some sys
  | _ =>
      let nstaves := size (_staves sys) in
      columns ← getBracketsColumnsCount score sys;
      let bl := _brackets sys in
      let sys := set_brackets [] sys in
      '(bl, sys) ←
        foldM (addBrackets_staff score columns (fst <$> measure)) (bl, sys)
              (seqZ 0 nstaves);
      '(_, measure_x) ← measure;
      let sys := setBracketsXPosition score measure_x sys in
      Some (set_brackets (_brackets sys ++ bl) sys)
  end.

(** *** The distance to the next system *)

Fixpoint minDistance_firstStaff (score : Score) (s2 : System) (firstStaff : Z) (n : nat)
  : option Z :=
  match n with
  | O => Some firstStaff
  | S n' =>
      s ← Score.staff score firstStaff;
      if show s then
        ss ← staff s2 firstStaff;
        if _show ss then Some firstStaff
        else minDistance_firstStaff score s2 (firstStaff + 1) n'
      else minDistance_firstStaff score s2 (firstStaff + 1) n'
  end.

Fixpoint minDistance_lastStaff (score : Score) (sys : System) (lastStaff : Z) (n : nat)
  : option Z :=
  match n with
  | O => Some lastStaff
  | S n' =>
      s ← Score.staff score lastStaff;
      if show s then
        ss ← staff sys lastStaff;
        if _show ss then Some lastStaff
        else minDistance_lastStaff score sys (lastStaff - 1) n'
      else minDistance_lastStaff score sys (lastStaff - 1) n'
  end.

(** The loop over the measures of the upper system: the distance, and
    [fixedDownDistance]. *)
Fixpoint minDistance_down (lastStaff : Z) (ms : list MeasureBase) (dist : qreal)
  : qreal * bool :=
  match ms with
  | [] => (dist, false)
  | mb1 :: ms' =>
      if isMeasure mb1 then
        match vspacerDown mb1 lastStaff with
        | Some sp =>
            if isFixed sp then (gap sp, true)
            else minDistance_down lastStaff ms' (qMax dist (gap sp))
        | None => minDistance_down lastStaff ms' dist
        end
      else minDistance_down lastStaff ms' dist
  end.

Fixpoint minDistance_up (firstStaff : Z) (ms : list MeasureBase) (dist : qreal) : qreal :=
  match ms with
  | [] => dist
  | mb2 :: ms' =>
      if isMeasure mb2 then
        match vspacerUp mb2 firstStaff with
        | Some sp => minDistance_up firstStaff ms' (qMax dist (gap sp))
        | None => minDistance_up firstStaff ms' dist
        end
      else minDistance_up firstStaff ms' dist
  end.

(** [minDistance]: the distance, the member [fixedDownDistance] of the
    upper system after the call, and the messages. *)
Definition minDistance (score : Score) (spacing : SystemSpacing) (sys s2 : System)
           (fixedDownDistance : bool) : option (qreal * bool * list string) :=
  match vbox sys, vbox s2 with
  | Some vb, None =>
      let '(top, log) := minTop s2 in
      Some (qMax (bottomGap vb) top, fixedDownDistance, log)
  | None, Some vb2 =>
      let '(bottom, log) := minBottom sys in
      Some (qMax (topGap vb2) bottom, fixedDownDistance, log)
  | Some vb, Some vb2 => Some ((topGap vb2 + bottomGap vb)%Q, fixedDownDistance, [])
  | None, None =>
      let minVerticalDistance := minVerticalDistance (style score) in
      let dist :=
        if enableVerticalSpread score then minSystemSpread spacing
        else minSystemDistance spacing in
      let n := Z.to_nat (size (_staves sys) - 1) in
      firstStaff ← minDistance_firstStaff score s2 0 n;
      lastStaff ← minDistance_lastStaff score sys (size (_staves sys) - 1) n;
      let userDist :=
        match Score.staff score firstStaff with
        | Some staff1 => userDist staff1
        | None => 0%Q
        end in
      let dist := qMax dist userDist in
      let '(dist, fixed) := minDistance_down lastStaff (ml sys) dist in
      if fixed then Some (dist, true, [])
      else
        let dist := minDistance_up firstStaff (ml s2) dist in
        sld ←
          match staff sys lastStaff with
          | Some sysStaff =>
              ss2 ← staff s2 firstStaff;
              Some (minDistance (_skyline sysStaff) (_skyline ss2)
                    - (RectF.height (_bbox sysStaff) - minVerticalDistance))%Q
          | None => Some 0%Q
          end;
        Some (qMax dist sld, false, [])
  end.

End Methods.
End System.

(** ** Vocabulary of the statements *)

Section Vocabulary.
Context `{Collaborators}.

(** Staff [i] is laid out: the staff of the score and the record of the
    system are both shown. *)
Definition visibleAt (score : Score) (sys : System) (i : Z) : bool :=
  match Score.staff score i, System.staff sys i with
  | Some s, Some ss => show s && _show ss
  | _, _ => false
  end.

(** [si1] and [si2] are visible and no staff between them is. *)
Definition adjacentVisible (score : Score) (sys : System) (si1 si2 : Z) : Prop :=
  si1 < si2
  /\ visibleAt score sys si1 = true
  /\ visibleAt score sys si2 = true
  /\ forall k, si1 < k < si2 -> visibleAt score sys k = false.

(** The measure carries a FIXED down-spacer on staff [si1]. *)
Definition hasFixedDown (si1 : Z) (mb : MeasureBase) : bool :=
  isMeasure mb
  && match vspacerDown mb si1 with Some sp => isFixed sp | None => false end.

(** The y of the top staff line of a record: [bbox().y() + yOff()]. *)
Definition staffY (ss : SysStaff) : qreal := (RectF.y (_bbox ss) + _yOff ss)%Q.

(** The gap below a staff: from its bottom line, [height] below its top
    line, down to the top line of the staff placed after it.  Unless one of
    the staves has exactly one line, this is the distance between the two
    boxes. *)
Definition gapBelow (staff1 : Staff) (ss1 ss2 : SysStaff) : qreal :=
  (staffY ss2 - staffY ss1 - height staff1)%Q.

(** A list of indices that increases strictly and starts at [lo] or later. *)
Fixpoint increasingFrom (lo : Z) (l : list Z) : Prop :=
  match l with
  | [] => True
  | a :: l' => lo <= a /\ increasingFrom (a + 1) l'
  end.

(** The record of a visible staff as layout2 leaves it, for the y the
    loop has reached. *)
Definition placed (score : Score) (sys : System) (y : qreal) (staff1 : Staff)
           (ss : SysStaff) : SysStaff :=
  System.placeStaff sys y (fst (System.staffBox score staff1))
                    (snd (System.staffBox score staff1)) ss.

(** A record without its instrument names: box, offsets, saved layout,
    memory of continuous view, skyline and visibility. *)
Definition eraseNames (ss : SysStaff) : SysStaff := SysStaff.setInstrumentNames [] ss.

(** The distance layout2 computes below staff [si1] when [si2] is the next
    visible staff, with the record of [si1] after the computation. *)
Definition boundaryDist (score : Score) (sys : System) (si1 si2 : Z)
  : option (qreal * SysStaff) :=
  staff1 ← Score.staff score si1;
  ss1 ← System.staff sys si1;
  System.staffDist score sys (_staves sys) si1 si2 staff1 ss1.

(** The distance the style asks for between two staves: the akkolade
    distance times the magnification of the upper staff inside a part, the
    staff distance between parts (both replaced by the minimum staff spread
    when vertical spread is on). *)
Definition baseDistance (score : Score) (sys : System) (staff1 staff2 : Staff) : qreal :=
  if Nat.eqb (part staff1) (part staff2) then
    (System.styleAkkoladeDistance score
     * match System.firstMeasure sys with
       | Some m => staffMag staff1 (mb_tick m)
       | None => 1
       end)%Q
  else System.styleStaffDistance score.

(** The system the loop over the visible staves works on: at the origin,
    with the boxes of the hidden staves cleared. *)
Definition cleared (l0 : list SysStaff) (sys : System) : System :=
  System.set_staves l0 (System.setPos 0%Q 0%Q sys).

(** The skylines of a system rebuilt between two layout passes: staff [i]
    gets the profile [sks i]; nothing else changes. *)
Definition rebuildSkylines (sks : Z -> Skyline) (sys : System) : System :=
  System.set_staves
    (imap (fun i ss => SysStaff.setSkyline (sks (Z.of_nat i)) ss) (_staves sys)) sys.

(** [b] is a later state of the record [a]: same visibility, same skyline,
    and a memory of continuous view that is not smaller. *)
Definition keeps (a b : SysStaff) : Prop :=
  (_continuousDist a <= _continuousDist b)%Q
  /\ _show b = _show a /\ _skyline b = _skyline a.

(** Two measure lists that differ at most in the boxes of their entries. *)
Definition sameMeasures (l l' : list MeasureBase) : Prop :=
  Forall2 (fun a b => mb_type b = mb_type a /\ mb_tick b = mb_tick a
                      /\ vspacerUp b = vspacerUp a /\ vspacerDown b = vspacerDown a
                      /\ mb_id b = mb_id a) l l'.

(** The record of staff [i] exists and is shown. *)
Definition shownAt (sys : System) (i : Z) : bool :=
  match System.staff sys i with Some ss => _show ss | None => false end.

(** [f .. l] is the visible span of the bracket item [bi] put on staff
    [staffIdx]: the staves from [staffIdx] to the end of the declared span,
    or to the last staff of the system if that comes first, without the
    hidden staves at either end.  When no staff of the range is shown the
    span is empty, [l - f + 1 <= 0]. *)
Definition visibleSpanOf (sys : System) (bi : BracketItem) (staffIdx f l : Z) : Prop :=
  let last0 := Z.min (staffIdx + bracketSpan bi - 1) (size (_staves sys) - 1) in
  (forall i, staffIdx <= i < f -> shownAt sys i = false)
  /\ (forall i, l < i <= last0 -> shownAt sys i = false)
  /\ ((staffIdx <= f <= l /\ l <= last0
       /\ shownAt sys f = true /\ shownAt sys l = true)
      \/ (f = Z.max staffIdx (last0 + 1) /\ l = last0)).

(** The sum of a list of lengths. *)
Definition sumQ (l : list qreal) : qreal := List.fold_right Qplus 0%Q l.

(** The offset of a bracket as the specification words it: the width plus
    the bracket distance of every bracket of a higher-numbered column whose
    staff range overlaps the range of [b1]. *)
Definition rangesOverlap (b1 b2 : Bracket) : bool :=
  (firstStaff b1 <=? lastStaff b2) && (firstStaff b2 <=? lastStaff b1).

Definition statedXOffset (bracketDistance : qreal) (brackets : list Bracket) (b1 : Bracket)
  : qreal :=
  sumQ (List.map (fun b2 => (b_width b2 + bracketDistance)%Q)
          (List.filter
             (fun b2 => (System.Bracket_column b1 <? System.Bracket_column b2)
                        && rangesOverlap b1 b2)
             brackets)).

(** The number of staves of a list of parts. *)
Definition sumStaves (l : list Part) : Z :=
  List.fold_right (fun p acc => nstaves p + acc) 0 l.

(** [t'] is the name [t] with a new vertical position. *)
Definition repositioned (t t' : InstrumentName) : Prop :=
  exists y, t' = System.InstrumentName_setYpos y t.

(** The saved position and height of a record are those of its box. *)
Definition saved (r : SysStaff) : Prop :=
  _yPos r = RectF.y (_bbox r) /\ _height r = RectF.height (_bbox r).

(** The state of the loops of layoutBrackets: the records of the system
    are those it started with, and there is one width per column. *)
Definition bracketsLoopInv (sys0 : System) (columns : Z)
           (acc : list Bracket * System * list qreal) : Prop :=
  _staves (snd (fst acc)) = _staves sys0
  /\ size (snd acc) = Z.max 0 columns.

(** Every record of the system has a staff in the score. *)
Definition stavesCovered (score : Score) (sys : System) : Prop :=
  size (_staves sys) <= size (staves score).

(** Walking [next] from [a] visits the indices of [vis] in turn and ends
    at [stop]. *)
Fixpoint visits (next : Z -> option Z) (a : Z) (vis : list Z) (stop : Z) : Prop :=
  match vis with
  | [] => next a = Some stop
  | b :: vis' => next a = Some b /\ visits next b vis' stop
  end.

(** The spacer a system query reads at a measure base: of a measure, the
    up-spacer or the down-spacer of staff [staff1]. *)
Definition spacerAt (up : bool) (staff1 : Z) (mb : MeasureBase) : option Spacer :=
  if isMeasure mb then (if up then vspacerUp mb staff1 else vspacerDown mb staff1)
  else None.

(** No spacer read at the measure base is FIXED. *)
Definition elasticAt (up : bool) (staff1 : Z) (mb : MeasureBase) : Prop :=
  forall sp, spacerAt up staff1 mb = Some sp -> isFixed sp = false.

(** Staff [i] of the score and the record [i] of the system are both
    there and shown; unlike [visibleAt], the record may be the record of
    another system than the one the score is asked about. *)
Definition bothShown (score : Score) (sys : System) (i : Z) : bool :=
  match Score.staff score i, System.staff sys i with
  | Some s, Some ss => show s && _show ss
  | _, _ => false
  end.

(** The distance between systems the style asks for. *)
Definition styleSystemDistance (score : Score) (spacing : SystemSpacing) : qreal :=
  if enableVerticalSpread score then minSystemSpread spacing
  else minSystemDistance spacing.

(** [lastStaff] is the staff of the upper system [sys] that the distance to
    the next system is measured from: the last staff after the first that
    is shown in the score and in the system, or the first staff (or -1 in
    a system without records). *)
Definition upperEnd (score : Score) (sys : System) (lastStaff : Z) : Prop :=
  Z.min 0 (size (_staves sys) - 1) <= lastStaff <= size (_staves sys) - 1
  /\ (0 < lastStaff -> bothShown score sys lastStaff = true)
  /\ forall k, lastStaff < k <= size (_staves sys) - 1 -> bothShown score sys k = false.

(** [firstStaff] is the staff of the lower system [s2] that the distance is
    measured to: the first staff before the last of [sys] that is shown in
    the score and in [s2], or that last staff. *)
Definition lowerEnd (score : Score) (sys s2 : System) (firstStaff : Z) : Prop :=
  0 <= firstStaff <= Z.max 0 (size (_staves sys) - 1)
  /\ (firstStaff < size (_staves sys) - 1 -> bothShown score s2 firstStaff = true)
  /\ forall k, 0 <= k < firstStaff -> bothShown score s2 k = false.

Context `{!Rounding}.

(** The point [y], in the coordinates of the page, is inside the band of
    the record, as [y2staff] computes both: the point less the y of the
    system, and the box widened by two spaces above and below, every sum
    rounded. *)
Definition inBand (score : Score) (sys : System) (y : qreal) (ss : SysStaff) : Prop :=
  (fl (RectF.top (_bbox ss) - fl (spatium score * 2)) <= fl (y - snd (sys_pos sys)))%Q
  /\ (fl (y - snd (sys_pos sys))
      < fl (fl (RectF.bottom (_bbox ss)) + fl (spatium score * 2)))%Q.

(** Every staff of the score has a record in the system. *)
Definition recordsCover (score : Score) (sys : System) : Prop :=
  size (staves score) <= size (_staves sys).

Context `{!Accessors}.

(** What the loop that adds records leaves: the records it found, then
    new ones, each placed from the one before. *)
Fixpoint grown (score : Score) (l : list SysStaff) (k : nat) : list SysStaff :=
  match k with
  | O => l
  | S k' =>
      let st :=
        match List.last (List.map Some l) None with
        | Some prev =>
            SysStaff.setbbox
              (RectF.setY (SysStaff_y prev + 6 * spatium score)%Q (_bbox SysStaff_new))
              SysStaff_new
        | None => SysStaff_new
        end in
      grown score (l ++ [st]) k'
  end.

(** A measure base that setMeasureHeight has no case for: neither a
    measure nor a horizontal or text frame. *)
Definition unhandledType (m : MeasureBase) : bool :=
  negb (isMeasure m || isHBox m || isTBox m).

(** The bracket [b] stands for a bracket item of the score: an item that
    is not NO_BRACKET of a staff of the system, with the track of that
    staff, the column and the type of the item, in front of [measure], over
    the visible span of the item. *)
Definition bracketOf (score : Score) (sys : System) (measure : option nat) (b : Bracket)
  : Prop :=
  exists staffIdx s bi,
    0 <= staffIdx < size (_staves sys)
    /\ Score.staff score staffIdx = Some s
    /\ bi ∈ brackets s
    /\ bracketType bi <> NO_BRACKET
    /\ b_track b = staffIdx * VOICES
    /\ System.Bracket_column b = column bi
    /\ System.Bracket_bracketType b = bracketType bi
    /\ b_measure b = measure
    /\ visibleSpanOf sys bi staffIdx (firstStaff b) (lastStaff b).

(** The state of the loops that make the brackets of [sys0]: the system is
    [sys0] with brackets that all stand for an item, and the old brackets
    [bl0] that are not in the system are still in the list [bl]. *)
Definition bracketsMade (score : Score) (sys0 : System) (measure : option nat)
           (bl0 bl : list Bracket) (sysc : System) : Prop :=
  exists bs,
    sysc = System.set_brackets bs sys0
    /\ Forall (bracketOf score sys0 measure) bs
    /\ sublist bl bl0
    /\ (length bl0 <= length bl + length bs)%nat.

(** [m] is the bracket [b] with another staff span and another x:
    nothing else of [b] is changed. *)
Definition respanned (b m : Bracket) : Prop :=
  exists a z x, m = System.Bracket_setXpos x (System.Bracket_setStaffSpan a z b).

(** A bracket as [createBracket] makes it when no old bracket fits. *)
Definition freshBracket (measure : option nat) (b : Bracket) : Prop :=
  exists bi staffIdx, b = System.newBracket bi (staffIdx * VOICES) measure.

(** Where the brackets [bs] of the system come from, while the loops of
    addBrackets run: [srcs] are the brackets they were made from, in the
    same order, each an old bracket or a fresh one; [reused] are the old
    ones among them, and every old bracket of [bl0] is one of [reused] or
    still in the list [bl]. *)
Definition bracketsTraced (measure : option nat) (bl0 bl srcs reused bs : list Bracket)
  : Prop :=
  Forall2 (fun s m => exists a z, m = System.Bracket_setStaffSpan a z s) srcs bs
  /\ Forall (fun s => s ∈ bl0 \/ freshBracket measure s) srcs
  /\ sublist reused srcs
  /\ bl0 ≡ₚ reused ++ bl.

(** No staff of the range of the bracket is shown in the system. *)
Definition allHidden (sys : System) (b : Bracket) : Prop :=
  forall i, firstStaff b <= i <= lastStaff b -> shownAt sys i = false.

(** Every instrument name of the records is centred at its part or at its
    first staff (layout position 0 or 1). *)
Definition centredNames (ss : SysStaff) : Prop :=
  Forall (fun t => layoutPos t = 0 \/ layoutPos t = 1) (instrumentNames ss).

Definition namesCentred (l : list SysStaff) : Prop := Forall centredNames l.

(** The staves of the parts of the score all have a record. *)
Definition partsCovered (score : Score) (sys : System) : Prop :=
  Forall (fun q => 0 <= nstaves q) (parts score)
  /\ sumStaves (parts score) <= size (_staves sys).

(** The staff range of every bracket lies inside the records. *)
Definition bracketsInside (sys : System) : Prop :=
  Forall (fun b => 0 <= firstStaff b /\ lastStaff b < size (_staves sys)) (_brackets sys).
End Vocabulary.

(** ** A small score

    Three five-line staves of height 40 (the first two in one part), laid
    out with a skyline reduced to one number per staff: the distance the
    staff needs below its top line. *)

Module Sample.
#[export] Instance collaborators : Collaborators := {|
  Skyline := qreal;
  minDistance := fun south _ => south;
  VOICES := 4;
  BARLINE_SPAN_1LINESTAFF_FROM := -4;
  BARLINE_SPAN_1LINESTAFF_TO := 4;
  Box_layout := mb_bbox;
  HBox_layout2 := mb_bbox;
  TBox_layout := mb_bbox;
  Factory_createBracket :=
    mkBracket (mkBracketItem NO_BRACKET 0 0) 0 None false 0 0 0%Q 0%Q 0%Q 0%Q;
  Bracket_layout := fun b => b
|}.

Definition noSpacer : Z -> option Spacer := fun _ => None.

(** A FIXED down-spacer of gap [g] on staff 0. *)
Definition fixedBelow0 (g : qreal) : Z -> option Spacer :=
  fun i => if i =? 0 then Some (mkSpacer SpacerFIXED g) else None.

(** An elastic down-spacer of gap [g] on staff 0. *)
Definition downBelow0 (g : qreal) : Z -> option Spacer :=
  fun i => if i =? 0 then Some (mkSpacer SpacerDOWN g) else None.

Definition measure (id : nat) (down : Z -> option Spacer) : MeasureBase :=
  mkMeasureBase id MEASURE (mkRectF 0%Q 0%Q 100%Q 0%Q) 0 noSpacer down.

Definition staffOf (p : nat) (extra : qreal) : Staff :=
  mkStaff true 5 40%Q p extra (fun _ => 1%Q) [].

Definition record (south : qreal) (shown : bool) : SysStaff :=
  mkSysStaff _ RectF.null south 0%Q 0%Q 0%Q (-1)%Q shown [].

Definition mstyle : MStyle := mkMStyle 5%Q 65%Q 35%Q 50%Q 3%Q false false.

Definition score : Score :=
  mkScore [staffOf 0 0%Q; staffOf 0 0%Q; staffOf 1 0%Q] [mkPart 2; mkPart 1]
          mstyle false false 10%Q.

Definition system (ms : list MeasureBase) : System :=
  mkSystem _ ms [record 120%Q true; record 40%Q true; record 40%Q true] []
           5%Q 0%Q (mkRectF 0%Q 0%Q 500%Q 0%Q) (0%Q, 0%Q) [].

(** What layout2 leaves, for a run that has a result. *)
Definition laidOut (sc : Score) (sys : System) : System :=
  match System.layout2 sc sys with Some sys' => sys' | None => sys end.

(** One measure with an elastic spacer, then two with FIXED spacers of
    different gaps on staff 0. *)
Definition spacers : list MeasureBase :=
  [measure 0 (downBelow0 30%Q); measure 1 (fixedBelow0 7%Q); measure 2 (fixedBelow0 20%Q)].

(** The sample score in continuous view. *)
Definition scoreLine : Score :=
  mkScore (staves score) (parts score) mstyle false true 10%Q.

(** Skylines after a partial rebuild: every staff needs only 10. *)
Definition lowSkylines : Z -> Skyline := fun _ => 10%Q.

(** [SysStaff::setVisible(false)] on record [i], as the pass that hides
    empty staves does between two layouts. *)
Definition hideRecord (i : nat) (sys : System) : System :=
  System.set_staves
    (alter (fun s => mkSysStaff _ (_bbox s) (_skyline s) (_yOff s) (_yPos s) (_height s)
                                (_continuousDist s) false (instrumentNames s))
           i (_staves sys))
    sys.

(** The sample system laid out once, then with its second staff hidden. *)
Definition systemSecondHidden : System :=
  hideRecord 1 (laidOut score (system [measure 0 noSpacer])).

(** A system whose staves are all hidden. *)
Definition systemAllHidden : System :=
  mkSystem _ [measure 0 noSpacer] [record 40%Q false; record 40%Q false; record 40%Q false]
           [] 5%Q 0%Q (mkRectF 0%Q 0%Q 500%Q 0%Q) (3%Q, 4%Q) [].

(** A bracket of type NORMAL in column [c] over staves [a .. z], of width
    [w], not yet placed. *)
Definition bracketAt (c a z : Z) (w : qreal) : Bracket :=
  mkBracket (mkBracketItem NORMAL c (z - a + 1)) (a * 4) None true a z w 0%Q 0%Q 0%Q.

Definition systemWith (bs : list Bracket) : System :=
  mkSystem _ [measure 0 noSpacer]
           [record 40%Q true; record 40%Q true; record 40%Q true; record 40%Q true]
           bs 5%Q 0%Q (mkRectF 0%Q 0%Q 500%Q 0%Q) (0%Q, 0%Q) [].

(** A bracket in column 0 over staves 0..1 and one in column 1 over 0..2. *)
Definition stacked : list Bracket := [bracketAt 0 0 1 4%Q; bracketAt 1 0 2 6%Q].

(** A bracket in column 0 over staves 1..2 inside one in column 1 over 0..3. *)
Definition nested : list Bracket := [bracketAt 0 1 2 4%Q; bracketAt 1 0 3 6%Q].

(** The sample system with the top staff of the first part hidden; the
    names of the part are still attached to it. *)
Definition pianoNames : list InstrumentName :=
  [mkInstrumentName "Piano" LONG 0 0 (Some 0) 0%Q 0%Q;
   mkInstrumentName "Pno." SHORT 1 0 (Some 0) 0%Q 0%Q].

Definition hiddenTop : SysStaff :=
  mkSysStaff _ RectF.null 40%Q 0%Q 0%Q 0%Q (-1)%Q false pianoNames.

Definition shownSecond : SysStaff :=
  mkSysStaff _ (mkRectF 5%Q 0%Q 495%Q 40%Q) 40%Q 0%Q 0%Q 40%Q (-1)%Q true [].

Definition systemTopHidden : System :=
  mkSystem _ [measure 0 noSpacer]
           [hiddenTop; shownSecond;
            mkSysStaff _ (mkRectF 5%Q 105%Q 495%Q 40%Q) 40%Q 0%Q 105%Q 40%Q (-1)%Q true []]
           [] 5%Q 145%Q (mkRectF 0%Q 0%Q 500%Q 145%Q) (0%Q, 0%Q) [].

(** The sample score with a bracket over its three staves and a brace over
    the first two, and empty staves hidden by the style. *)
Definition scoreBracketed : Score :=
  mkScore [mkStaff true 5 40%Q 0 0%Q (fun _ => 1%Q)
                   [mkBracketItem NORMAL 0 3; mkBracketItem BRACE 1 2];
           staffOf 0 0%Q; staffOf 1 0%Q]
          [mkPart 2; mkPart 1]
          (mkMStyle 5%Q 65%Q 35%Q 50%Q 3%Q true false) false false 10%Q.

(** Two staves of different parts; the lower one asks for 70 less. *)
Definition scoreTight : Score :=
  mkScore [staffOf 0 0%Q; staffOf 1 (-70)%Q] [mkPart 1; mkPart 1]
          mstyle false false 10%Q.

Definition systemTight : System :=
  mkSystem _ [measure 0 noSpacer] [record 40%Q true; record 40%Q true] []
           5%Q 0%Q (mkRectF 0%Q 0%Q 500%Q 0%Q) (0%Q, 0%Q) [].

(** The same system with a skyline distance of 10 below the upper staff,
    less than the height of the staff. *)
Definition systemTightLow : System :=
  mkSystem _ [measure 0 noSpacer] [record 10%Q true; record 40%Q true] []
           5%Q 0%Q (mkRectF 0%Q 0%Q 500%Q 0%Q) (0%Q, 0%Q) [].

(** The reduced skyline again: the number is the lowest point of the staff;
    nothing rises above the top line. *)
#[export] Instance accessors : Accessors := {|
  SysStaff_new := record 0%Q true;
  SysStaff_y := staffY;
  north_max := fun _ => 0%Q;
  south_max := fun south => south;
  topGap := fun _ => 7%Q;
  bottomGap := fun _ => 9%Q
|}.

(** The sample system with only its first staff shown. *)
Definition systemOnlyTop (ms : list MeasureBase) : System :=
  mkSystem _ ms [record 120%Q true; record 40%Q false; record 40%Q false] []
           5%Q 0%Q (mkRectF 0%Q 0%Q 500%Q 0%Q) (0%Q, 0%Q) [].

(** Two measures with elastic down-spacers of gaps 30 and 12 on staff 0. *)
Definition elasticSpacers : list MeasureBase :=
  [measure 0 (downBelow0 30%Q); measure 1 (downBelow0 12%Q)].

(** An up-spacer of gap [g] on staff 0. *)
Definition upAbove0 (g : qreal) : Z -> option Spacer :=
  fun i => if i =? 0 then Some (mkSpacer SpacerUP g) else None.

Definition measureUp (id : nat) (up : Z -> option Spacer) : MeasureBase :=
  mkMeasureBase id MEASURE (mkRectF 0%Q 0%Q 100%Q 0%Q) 0 up noSpacer.

(** Two measures with up-spacers of gaps 8 and 25 on staff 0. *)
Definition upSpacers : list MeasureBase :=
  [measureUp 0 (upAbove0 8%Q); measureUp 1 (upAbove0 25%Q)].

(** Style distances between systems. *)
Definition spacing : SystemSpacing := mkSystemSpacing 80%Q 60%Q.

(** A vertical frame. *)
Definition frame : MeasureBase :=
  mkMeasureBase 9 VBOX (mkRectF 0%Q 0%Q 500%Q 50%Q) 0 noSpacer noSpacer.

(** A FIXED down-spacer of gap [g] on staff 2, the last staff. *)
Definition fixedBelow2 (g : qreal) : Z -> option Spacer :=
  fun i => if i =? 2 then Some (mkSpacer SpacerFIXED g) else None.

(** A coarse rounding, to the nearest whole number (halves go up). *)
Definition toWhole (q : qreal) : qreal :=
  let r := (q + (1 # 2))%Q in inject_Z (Qnum r / Zpos (Qden r)).

#[export] Instance wholeNumbers : Rounding := {| fl := toWhole |}.
End Sample.

(** * Properties *)

(** C9.  [System::staff] returns the record stored at [staffIdx] exactly when
    [0 <= staffIdx < _staves.size()]; for every other index, negative or too
    large, it returns null. *)
Theorem staff_bounds_checked `{Collaborators} (sys : System) (staffIdx : Z) :
  (0 <= staffIdx < size (_staves sys) ->
     exists ss, System.staff sys staffIdx = Some ss
                /\ _staves sys !! Z.to_nat staffIdx = Some ss)
  /\ (staffIdx < 0 \/ size (_staves sys) <= staffIdx ->
     System.staff sys staffIdx = None).
Proof.
  unfold System.staff, size. split.
  - intros [Hlo Hhi].
    assert (Hlt : (Z.to_nat staffIdx < length (_staves sys))%nat) by lia.
    destruct (lookup_lt_is_Some_2 _ _ Hlt) as [ss Hss].
    exists ss. split.
    + replace (0 <=? staffIdx) with true by (symmetry; apply Z.leb_le; lia).
      replace (staffIdx <? Z.of_nat (length (_staves sys))) with true
        by (symmetry; apply Z.ltb_lt; lia).
      exact Hss.
    + exact Hss.
  - intros [Hneg | Hbig].
    + replace (0 <=? staffIdx) with false by (symmetry; apply Z.leb_gt; lia).
      reflexivity.
    + replace (staffIdx <? Z.of_nat (length (_staves sys))) with false
        by (symmetry; apply Z.ltb_ge; lia).
      rewrite andb_false_r. reflexivity.
Qed.

Lemma staff_bounds_checked_witness :
  (exists ss, System.staff (Sample.system []) 2 = Some ss
              /\ _staves (Sample.system []) !! 2%nat = Some ss)
  /\ System.staff (Sample.system []) 3 = None
  /\ System.staff (Sample.system []) (-1) = None.
Proof.
  split; [|split].
  - apply (proj1 (staff_bounds_checked (Sample.system []) 2)).
    unfold size. simpl. lia.
  - apply (proj2 (staff_bounds_checked (Sample.system []) 3)).
    right. unfold size. simpl. lia.
  - apply (proj2 (staff_bounds_checked (Sample.system []) (-1))).
    left. lia.
Defined.

(** ** Numbers *)

Lemma qLess_true (a b : qreal) : qLess a b = true <-> (a < b)%Q.
Proof.
  unfold qLess. rewrite negb_true_iff. split.
  - intros Hf. apply Qnot_le_lt. intros Hle.
    apply Qle_bool_iff in Hle. congruence.
  - intros Hlt. destruct (Qle_bool b a) eqn:E; [|reflexivity].
    apply Qle_bool_iff in E. exfalso. eapply Qlt_not_le; eassumption.
Qed.

Lemma qLess_false (a b : qreal) : qLess a b = false <-> (b <= a)%Q.
Proof.
  unfold qLess. rewrite negb_false_iff. apply Qle_bool_iff.
Qed.

Lemma qMax_cases (a b : qreal) :
  (qMax a b = b /\ (a < b)%Q) \/ (qMax a b = a /\ (b <= a)%Q).
Proof.
  unfold qMax. destruct (qLess a b) eqn:E.
  - left. split; [reflexivity | now apply qLess_true].
  - right. split; [reflexivity | now apply qLess_false].
Qed.

Lemma qMax_ge_l (a b : qreal) : (a <= qMax a b)%Q.
Proof. destruct (qMax_cases a b) as [[-> ?] | [-> ?]]; lra. Qed.

Lemma qMax_ge_r (a b : qreal) : (b <= qMax a b)%Q.
Proof. destruct (qMax_cases a b) as [[-> ?] | [-> ?]]; lra. Qed.

Lemma qMax_mono_r (a b b' : qreal) : (b <= b')%Q -> (qMax a b <= qMax a b')%Q.
Proof.
  intros Hb.
  destruct (qMax_cases a b) as [[-> ?] | [-> ?]];
    destruct (qMax_cases a b') as [[-> ?] | [-> ?]]; lra.
Qed.

(** ** The measure loop of a staff boundary *)

Section MeasureLoop.
Context `{Collaborators}.
Variables (staffHeight : qreal) (si1 si2 : Z).

Lemma spacerUpFloor_ge m dist :
  (dist <= System.spacerUpFloor staffHeight si2 m dist)%Q.
Proof.
  unfold System.spacerUpFloor. destruct (vspacerUp m si2); [apply qMax_ge_l | lra].
Qed.

Lemma spacerUpFloor_floor m dist sp :
  vspacerUp m si2 = Some sp ->
  (gap sp + staffHeight <= System.spacerUpFloor staffHeight si2 m dist)%Q.
Proof.
  intros E. unfold System.spacerUpFloor. rewrite E. apply qMax_ge_r.
Qed.

(** Measures without a FIXED down-spacer are passed over; the first one
    that has it decides. *)
Lemma scanSpacers_fixed pre m post sp dist :
  Forall (fun mb => hasFixedDown si1 mb = false) pre ->
  isMeasure m = true -> vspacerDown m si1 = Some sp -> isFixed sp = true ->
  System.scanSpacers staffHeight si1 si2 (pre ++ m :: post) dist
  = ((staffHeight + gap sp)%Q, true).
Proof.
  intros Hpre Hm Hsp Hfix. revert dist.
  induction Hpre as [|mb pre Hmb _ IH]; intros dist; simpl.
  - rewrite Hm, Hsp, Hfix. reflexivity.
  - unfold hasFixedDown in Hmb.
    destruct (isMeasure mb); simpl in *; [|apply IH].
    destruct (vspacerDown mb si1) as [sp'|]; [|apply IH].
    rewrite Hmb. apply IH.
Qed.

Lemma scanSpacers_elastic ms dist :
  Forall (fun mb => hasFixedDown si1 mb = false) ms ->
  snd (System.scanSpacers staffHeight si1 si2 ms dist) = false
  /\ (dist <= fst (System.scanSpacers staffHeight si1 si2 ms dist))%Q
  /\ Forall (fun mb =>
               isMeasure mb = true ->
               (forall sp, vspacerDown mb si1 = Some sp ->
                  (staffHeight + gap sp
                   <= fst (System.scanSpacers staffHeight si1 si2 ms dist))%Q)
               /\ (forall sp, vspacerUp mb si2 = Some sp ->
                  (gap sp + staffHeight
                   <= fst (System.scanSpacers staffHeight si1 si2 ms dist))%Q)) ms.
Proof.
  intros Hms. revert dist.
  induction Hms as [|mb ms Hmb _ IH]; intros dist; simpl.
  - split; [reflexivity|]. split; [lra | constructor].
  - unfold hasFixedDown in Hmb.
    destruct (isMeasure mb) eqn:Em; simpl in *.
    + destruct (vspacerDown mb si1) as [sp'|] eqn:Ed.
      * rewrite Hmb.
        set (d1 := System.spacerUpFloor staffHeight si2 mb
                     (qMax dist (staffHeight + gap sp')%Q)).
        destruct (IH d1) as (Hs & Hle & Hall).
        assert (Hd1 : (qMax dist (staffHeight + gap sp') <= d1)%Q)
          by apply spacerUpFloor_ge.
        pose proof (qMax_ge_l dist (staffHeight + gap sp')%Q).
        pose proof (qMax_ge_r dist (staffHeight + gap sp')%Q).
        split; [exact Hs|]. split; [lra|].
        constructor; [|exact Hall].
        intros _. split.
        -- intros sp E. rewrite Ed in E. inversion E; subst. lra.
        -- intros sp E.
           pose proof (spacerUpFloor_floor mb
                         (qMax dist (staffHeight + gap sp')%Q) sp E) as Hf.
           fold d1 in Hf. lra.
      * set (d1 := System.spacerUpFloor staffHeight si2 mb dist).
        destruct (IH d1) as (Hs & Hle & Hall).
        pose proof (spacerUpFloor_ge mb dist) as Hd1. fold d1 in Hd1.
        split; [exact Hs|]. split; [lra|].
        constructor; [|exact Hall].
        intros _. split.
        -- intros sp E. rewrite Ed in E. discriminate.
        -- intros sp E.
           pose proof (spacerUpFloor_floor mb dist sp E) as Hf. fold d1 in Hf. lra.
    + destruct (IH dist) as (Hs & Hle & Hall).
      split; [exact Hs|]. split; [exact Hle|].
      constructor; [|exact Hall]. intros Hf. congruence.
Qed.
End MeasureLoop.

(** ** Indexing *)

Lemma Forall_weaken {A : Type} (P Q : A -> Prop) (l : list A) :
  Forall P l -> (forall x, P x -> Q x) -> Forall Q l.
Proof. induction 1; constructor; auto. Qed.

Lemma Forall2_weaken {A B : Type} (P Q : A -> B -> Prop) (l : list A) (k : list B) :
  Forall2 P l k -> (forall x y, P x y -> Q x y) -> Forall2 Q l k.
Proof. induction 1; constructor; auto. Qed.

Lemma Forall2_app_split {A B : Type} (P : A -> B -> Prop) (l1 l2 : list A) :
  forall k, Forall2 P (l1 ++ l2) k ->
  exists k1 k2, k = k1 ++ k2 /\ Forall2 P l1 k1 /\ Forall2 P l2 k2.
Proof.
  induction l1 as [|a l1 IH]; intros k Hk; simpl in Hk.
  - exists [], k. split; [reflexivity|]. split; [constructor | exact Hk].
  - inversion Hk as [|? b ? k' Hab Hrest]; subst.
    destruct (IH _ Hrest) as (k1 & k2 & -> & H1 & H2).
    exists (b :: k1), k2. split; [reflexivity|]. split; [constructor; assumption | exact H2].
Qed.

Lemma Forall2_map_left {A B C : Type} (P : B -> C -> Prop) (f : A -> B) (l : list A) :
  forall k, Forall2 P (List.map f l) k -> Forall2 (fun x y => P (f x) y) l k.
Proof.
  induction l as [|a l IH]; intros k Hk; simpl in Hk; inversion Hk; subst;
    constructor; auto.
Qed.

Section Indexing.
Context `{Collaborators}.

Lemma at_Some {A : Type} (l : list A) (i : Z) (x : A) :
  at_ l i = Some x <-> 0 <= i /\ l !! Z.to_nat i = Some x.
Proof.
  unfold at_. destruct (0 <=? i) eqn:E.
  - apply Z.leb_le in E. tauto.
  - apply Z.leb_gt in E. split; [discriminate | lia].
Qed.

Lemma staff_at (sys : System) (i : Z) :
  System.staff sys i = at_ (_staves sys) i.
Proof.
  unfold System.staff, at_, size. destruct (0 <=? i) eqn:E; [|reflexivity].
  simpl. destruct (i <? Z.of_nat (length (_staves sys))) eqn:E2; [reflexivity|].
  apply Z.leb_le in E. apply Z.ltb_ge in E2.
  symmetry. apply lookup_ge_None. lia.
Qed.

Lemma at_insert_eq {A : Type} (l : list A) (i : Z) (x y : A) :
  at_ l i = Some x -> at_ (<[Z.to_nat i := y]> l) i = Some y.
Proof.
  rewrite !at_Some. intros [Hi Hl]. split; [exact Hi|].
  apply list_lookup_insert_eq. eapply lookup_lt_Some; eassumption.
Qed.

Lemma at_insert_ne {A : Type} (l : list A) (i j : Z) (y : A) :
  0 <= i -> 0 <= j -> i <> j -> at_ (<[Z.to_nat i := y]> l) j = at_ l j.
Proof.
  intros Hi Hj Hne. unfold at_. destruct (0 <=? j); [|reflexivity].
  apply list_lookup_insert_ne. lia.
Qed.

Lemma Score_staff_Some (score : Score) (i : Z) (s : Staff) :
  Score.staff score i = Some s <-> 0 <= i /\ staves score !! Z.to_nat i = Some s.
Proof.
  unfold Score.staff, size. split.
  - destruct (0 <=? i) eqn:E; simpl; [|discriminate].
    apply Z.leb_le in E. destruct (i <? _); [tauto | discriminate].
  - intros [Hi Hl]. pose proof (lookup_lt_Some _ _ _ Hl).
    replace (0 <=? i) with true by (symmetry; apply Z.leb_le; lia).
    replace (i <? Z.of_nat (length (staves score))) with true
      by (symmetry; apply Z.ltb_lt; lia).
    exact Hl.
Qed.
End Indexing.

(** ** The loop over the visible staves *)

Section StaffLoop.
Context `{Collaborators}.
Variables (score : Score) (sys : System).

Lemma increasingFrom_weaken lo lo' l :
  lo' <= lo -> increasingFrom lo l -> increasingFrom lo' l.
Proof. destruct l; simpl; [tauto|]. intros ? [? ?]. split; [lia | assumption]. Qed.

Lemma increasingFrom_ge lo l :
  increasingFrom lo l -> Forall (fun a => lo <= a) l.
Proof.
  revert lo. induction l as [|a l IH]; intros lo; simpl; [constructor|].
  intros [Ha Hl]. constructor; [exact Ha|].
  eapply Forall_weaken; [apply (IH (a + 1) Hl)|]. simpl. intros; lia.
Qed.

Lemma staffDist_ext stv stv0 si1 si2 staff1 ss :
  at_ stv si2 = at_ stv0 si2 ->
  System.staffDist score sys stv si1 si2 staff1 ss
  = System.staffDist score sys stv0 si1 si2 staff1 ss.
Proof.
  intros E. unfold System.staffDist. rewrite !staff_at. simpl. rewrite E. reflexivity.
Qed.

Lemma layout2_staves_step si1 rest y stv stv' :
  System.layout2_staves score sys (si1 :: rest) y stv = Some stv' ->
  exists ss staff1,
    at_ stv si1 = Some ss /\ Score.staff score si1 = Some staff1
    /\ match rest with
       | [] => stv' = <[Z.to_nat si1 := placed score sys y staff1 ss]> stv
       | si2 :: _ =>
           exists dist ss1a,
             System.staffDist score sys stv si1 si2 staff1 ss = Some (dist, ss1a)
             /\ System.layout2_staves score sys rest (y + dist)%Q
                  (<[Z.to_nat si1 := placed score sys y staff1 ss1a]> stv) = Some stv'
       end.
Proof.
  simpl. intros Hrun.
  destruct (at_ stv si1) as [ss|] eqn:Ess; simpl in Hrun; [|discriminate].
  destruct (Score.staff score si1) as [staff1|] eqn:Est; simpl in Hrun; [|discriminate].
  exists ss, staff1. split; [reflexivity|]. split; [reflexivity|].
  unfold placed. destruct (System.staffBox score staff1) as [yOffset h]. simpl.
  destruct rest as [|si2 rest'].
  - inversion Hrun. reflexivity.
  - destruct (System.staffDist score sys stv si1 si2 staff1 ss) as [[dist ss1a]|];
      simpl in Hrun; [|discriminate].
    exists dist, ss1a. split; [reflexivity | exact Hrun].
Qed.

Lemma layout2_staves_length vis : forall y stv stv',
  System.layout2_staves score sys vis y stv = Some stv' -> length stv' = length stv.
Proof.
  induction vis as [|si1 rest IH]; intros y stv stv' Hrun.
  - inversion Hrun. reflexivity.
  - destruct (layout2_staves_step _ _ _ _ _ Hrun) as (ss & staff1 & _ & _ & Hrest).
    destruct rest as [|si2 rest'].
    + subst stv'. apply length_insert.
    + destruct Hrest as (dist & ss1a & _ & Hrec).
      rewrite (IH _ _ _ Hrec). apply length_insert.
Qed.

(** Records of staves that are not in the list are left as they are. *)
Lemma layout2_staves_other vis : forall y stv stv' j,
  System.layout2_staves score sys vis y stv = Some stv' ->
  0 <= j -> Forall (fun si => si <> j) vis ->
  at_ stv' j = at_ stv j.
Proof.
  induction vis as [|si1 rest IH]; intros y stv stv' j Hrun Hj Hne.
  - inversion Hrun. reflexivity.
  - destruct (layout2_staves_step _ _ _ _ _ Hrun) as (ss & staff1 & Hss & _ & Hrest).
    apply at_Some in Hss as [Hsi1 _].
    inversion Hne as [|? ? Hne1 Hne2]; subst.
    destruct rest as [|si2 rest'].
    + subst stv'. apply at_insert_ne; assumption.
    + destruct Hrest as (dist & ss1a & _ & Hrec).
      rewrite (IH _ _ _ j Hrec Hj Hne2). apply at_insert_ne; assumption.
Qed.

(** The head of the list is placed at the y the loop has reached. *)
Lemma layout2_staves_head si1 rest lo y stv stv' :
  increasingFrom lo (si1 :: rest) ->
  System.layout2_staves score sys (si1 :: rest) y stv = Some stv' ->
  exists ss staff1,
    Score.staff score si1 = Some staff1
    /\ at_ stv' si1 = Some (placed score sys y staff1 ss).
Proof.
  intros [_ Hinc] Hrun.
  destruct (layout2_staves_step _ _ _ _ _ Hrun) as (ss & staff1 & Hss & Hst & Hrest).
  pose proof Hss as Hss'. apply at_Some in Hss' as [Hsi1 _].
  destruct rest as [|si2 rest'].
  - subst stv'. exists ss, staff1. split; [exact Hst|].
    eapply at_insert_eq; eassumption.
  - destruct Hrest as (dist & ss1a & _ & Hrec).
    exists ss1a, staff1. split; [exact Hst|].
    rewrite (layout2_staves_other _ _ _ _ si1 Hrec Hsi1).
    + eapply at_insert_eq; eassumption.
    + eapply Forall_weaken; [apply (increasingFrom_ge _ _ Hinc)|]. simpl. intros; lia.
Qed.

(** Two staves that follow each other in the list: the lower one is
    placed [dist] below the upper one, [dist] being what [staffDist]
    gives on the records the loop started from. *)
Lemma layout2_staves_pair pre : forall lo y stv stv' si1 si2 post,
  0 <= lo ->
  increasingFrom lo (pre ++ si1 :: si2 :: post) ->
  System.layout2_staves score sys (pre ++ si1 :: si2 :: post) y stv = Some stv' ->
  exists y1 ss1 staff1 staff2 dist ss1a ss2a,
    at_ stv si1 = Some ss1
    /\ Score.staff score si1 = Some staff1
    /\ Score.staff score si2 = Some staff2
    /\ System.staffDist score sys stv si1 si2 staff1 ss1 = Some (dist, ss1a)
    /\ at_ stv' si1 = Some (placed score sys y1 staff1 ss1a)
    /\ at_ stv' si2 = Some (placed score sys (y1 + dist)%Q staff2 ss2a).
Proof.
  induction pre as [|a pre IH]; intros lo y stv stv' si1 si2 post Hlo Hinc Hrun.
  - cbn [app] in Hrun. simpl in Hinc. destruct Hinc as [Hlo1 Hinc].
    destruct (layout2_staves_step _ _ _ _ _ Hrun)
      as (ss1 & staff1 & Hss & Hst & dist & ss1a & Hd & Hrec).
    destruct (layout2_staves_head _ _ _ _ _ _ Hinc Hrec) as (ss2a & staff2 & Hst2 & Hat2).
    exists y, ss1, staff1, staff2, dist, ss1a, ss2a.
    repeat split; try assumption.
    rewrite (layout2_staves_other _ _ _ _ si1 Hrec); [| lia |].
    + eapply at_insert_eq; eassumption.
    + eapply Forall_weaken; [apply (increasingFrom_ge (si1 + 1) (si2 :: post) Hinc)|].
      simpl. intros; lia.
  - simpl in Hinc. destruct Hinc as [Hlo1 Hinc].
    change ((a :: pre) ++ si1 :: si2 :: post)
      with (a :: (pre ++ si1 :: si2 :: post)) in Hrun.
    destruct (layout2_staves_step _ _ _ _ _ Hrun) as (ssa & staffa & Hssa & _ & Hrest).
    pose proof (increasingFrom_ge _ _ Hinc) as Hge.
    assert (Ha1 : a < si1 /\ a < si2).
    { rewrite Forall_app in Hge. destruct Hge as [_ Hge].
      inversion Hge as [|? ? G1 Hge']; subst. inversion Hge' as [|? ? G2 _]; subst. lia. }
    destruct (pre ++ si1 :: si2 :: post) as [|b rest] eqn:Erest.
    { destruct pre; discriminate. }
    destruct Hrest as (dista & ssa1 & _ & Hrec).
    rewrite <- Erest in Hrec, Hinc.
    destruct (IH (a + 1) _ _ _ _ _ _ ltac:(lia) Hinc Hrec)
      as (y1 & ss1 & staff1 & staff2 & dist & ss1a & ss2a
          & Hss & Hst1 & Hst2 & Hd & Hat1 & Hat2).
    exists y1, ss1, staff1, staff2, dist, ss1a, ss2a.
    rewrite at_insert_ne in Hss by lia.
    erewrite staffDist_ext in Hd by (apply at_insert_ne; lia).
    repeat split; assumption.
Qed.
End StaffLoop.

(** ** The visible staves *)

Section VisibleStaves.
Context `{Collaborators}.
Variable score : Score.

Lemma collectVisibleStaves_spec l : forall i vis l',
  0 <= i ->
  System.collectVisibleStaves score i l = Some (vis, l') ->
  length l' = length l
  /\ increasingFrom i vis
  /\ forall (k : nat) ss, l !! k = Some ss ->
       exists s, Score.staff score (i + Z.of_nat k) = Some s
         /\ l' !! k = Some (if show s && _show ss then ss
                            else SysStaff.setbbox RectF.null ss)
         /\ (i + Z.of_nat k ∈ vis <-> show s && _show ss = true).
Proof.
  induction l as [|ss0 l IH]; intros i vis l' Hi Hrun; simpl in Hrun.
  - inversion Hrun; subst. split; [reflexivity|]. split; [exact I|].
    intros k ss Hk. rewrite lookup_nil in Hk. discriminate.
  - destruct (Score.staff score i) as [s0|] eqn:Es0; simpl in Hrun; [|discriminate].
    destruct (System.collectVisibleStaves score (i + 1) l) as [[vis1 l1]|] eqn:Erec;
      simpl in Hrun; [|discriminate].
    destruct (IH (i + 1) vis1 l1 ltac:(lia) Erec) as (Hlen & Hinc & Hall).
    assert (Hnotin : i ∉ vis1).
    { intros Hin. pose proof (increasingFrom_ge _ _ Hinc) as Hge.
      rewrite list.Forall_forall in Hge. specialize (Hge _ Hin). lia. }
    assert (Htail : forall (k : nat) ss, l !! k = Some ss ->
              exists s, Score.staff score (i + Z.of_nat (S k)) = Some s
                /\ l1 !! k = Some (if show s && _show ss then ss
                                   else SysStaff.setbbox RectF.null ss)
                /\ (i + Z.of_nat (S k) ∈ vis1 <-> show s && _show ss = true)).
    { intros k ss Hk. destruct (Hall k ss Hk) as (s & Hs & Hl1 & Hin).
      replace (i + Z.of_nat (S k)) with (i + 1 + Z.of_nat k) by lia.
      exists s. auto. }
    destruct (show s0 && _show ss0) eqn:Evis; inversion Hrun; subst; clear Hrun.
    + split; [simpl; congruence|]. split; [simpl; split; [lia | exact Hinc]|].
      intros [|k] ss Hk; simpl in Hk.
      * inversion Hk; subst. exists s0. replace (i + Z.of_nat 0) with i by lia.
        split; [exact Es0|]. rewrite Evis. split; [reflexivity|].
        split; [reflexivity | intros _; apply list_elem_of_here].
      * destruct (Htail k ss Hk) as (s & Hs & Hl1 & Hin).
        exists s. split; [exact Hs|]. split; [exact Hl1|].
        rewrite <- Hin. rewrite elem_of_cons. split; [|tauto].
        intros [Heq | Hin']; [lia | exact Hin'].
    + split; [simpl; congruence|].
      split; [apply (increasingFrom_weaken (i + 1)); [lia | exact Hinc]|].
      intros [|k] ss Hk; simpl in Hk.
      * inversion Hk; subst. exists s0. replace (i + Z.of_nat 0) with i by lia.
        split; [exact Es0|]. rewrite Evis. split; [reflexivity|].
        split; [intros Hin; contradiction | discriminate].
      * destruct (Htail k ss Hk) as (s & Hs & Hl1 & Hin).
        exists s. auto.
Qed.

(** In an increasing list, two members with no member between them follow
    each other. *)
Lemma increasing_adjacent vis : forall lo a b,
  increasingFrom lo vis -> a ∈ vis -> b ∈ vis -> a < b ->
  (forall k, a < k < b -> k ∉ vis) ->
  exists pre post, vis = pre ++ a :: b :: post.
Proof.
  induction vis as [|x vis IH]; intros lo a b Hinc Ha Hb Hab Hgap.
  - apply elem_of_nil in Ha. contradiction.
  - simpl in Hinc. destruct Hinc as [Hx Hinc].
    pose proof (increasingFrom_ge _ _ Hinc) as Hge. rewrite list.Forall_forall in Hge.
    apply elem_of_cons in Ha. apply elem_of_cons in Hb.
    destruct Ha as [-> | Ha].
    + destruct Hb as [-> | Hb]; [lia|].
      destruct vis as [|c vis']; [apply elem_of_nil in Hb; contradiction|].
      destruct (Z.eq_dec c b) as [-> | Hcb].
      * exists [], vis'. reflexivity.
      * exfalso. apply elem_of_cons in Hb. destruct Hb as [-> | Hb]; [congruence|].
        simpl in Hinc. destruct Hinc as [Hc Hinc'].
        pose proof (increasingFrom_ge _ _ Hinc') as Hge'. rewrite list.Forall_forall in Hge'.
        specialize (Hge' _ Hb).
        apply (Hgap c); [lia|]. apply list_elem_of_further, list_elem_of_here.
    + pose proof (Hge _ Ha) as Hxa.
      destruct Hb as [-> | Hb]; [lia|].
      destruct (IH (x + 1) a b Hinc Ha Hb Hab) as (pre & post & ->).
      * intros k Hk Hin. apply (Hgap k Hk). apply list_elem_of_further. exact Hin.
      * exists (x :: pre), post. reflexivity.
Qed.

Lemma collectVisibleStaves_bound l : forall i vis l',
  System.collectVisibleStaves score i l = Some (vis, l') ->
  Forall (fun j => j < i + size l) vis.
Proof.
  unfold size.
  induction l as [|ss0 l IH]; intros i vis l' Hrun; simpl in Hrun.
  - inversion Hrun. constructor.
  - destruct (Score.staff score i) as [s0|]; simpl in Hrun; [|discriminate].
    destruct (System.collectVisibleStaves score (i + 1) l) as [[vis1 l1]|] eqn:Erec;
      simpl in Hrun; [|discriminate].
    pose proof (IH _ _ _ Erec) as Hb.
    assert (Hb' : Forall (fun j => j < i + Z.of_nat (length (ss0 :: l))) vis1).
    { eapply Forall_weaken; [exact Hb|].
      intros x Hx. cbv beta in Hx. cbn [length]. lia. }
    destruct (show s0 && _show ss0); inversion Hrun; subst; [|exact Hb'].
    constructor; [cbn [length]; lia | exact Hb'].
Qed.

(** The list layout2 builds holds exactly the visible staves, and their
    records are the ones of the system. *)
Lemma collectVisibleStaves_visible sys vis l0 :
  System.collectVisibleStaves score 0 (_staves sys) = Some (vis, l0) ->
  forall j, (j ∈ vis <-> visibleAt score sys j = true)
            /\ (j ∈ vis -> at_ l0 j = System.staff sys j).
Proof.
  intros Hrun j.
  destruct (collectVisibleStaves_spec (_staves sys) 0 vis l0 ltac:(lia) Hrun)
    as (Hlen & Hinc & Hall).
  pose proof (collectVisibleStaves_bound _ _ _ _ Hrun) as Hb.
  pose proof (increasingFrom_ge _ _ Hinc) as Hge.
  rewrite list.Forall_forall in Hb, Hge. unfold size in Hb.
  assert (Hin : j ∈ vis ->
            exists ss s, _staves sys !! Z.to_nat j = Some ss /\ 0 <= j
                         /\ Score.staff score j = Some s
                         /\ show s && _show ss = true
                         /\ l0 !! Z.to_nat j = Some ss).
  { intros Hj. pose proof (Hb _ Hj). pose proof (Hge _ Hj).
    destruct (lookup_lt_is_Some_2 (_staves sys) (Z.to_nat j) ltac:(lia)) as [ss Hss].
    destruct (Hall _ _ Hss) as (s & Hs & Hl0 & Hiff).
    replace (0 + Z.of_nat (Z.to_nat j)) with j in * by lia.
    apply Hiff in Hj. rewrite Hj in Hl0. exists ss, s. auto. }
  split; [split|].
  - intros Hj. destruct (Hin Hj) as (ss & s & Hss & Hj0 & Hs & Hv & _).
    unfold visibleAt. rewrite Hs, staff_at.
    replace (at_ (_staves sys) j) with (Some ss) by (symmetry; apply at_Some; auto).
    exact Hv.
  - unfold visibleAt. intros Hv.
    destruct (Score.staff score j) as [s|] eqn:Es; [|discriminate].
    destruct (System.staff sys j) as [ss|] eqn:Ess; [|discriminate].
    rewrite staff_at in Ess. apply at_Some in Ess as [Hj0 Hss].
    destruct (Hall _ _ Hss) as (s' & Hs' & _ & Hiff).
    replace (0 + Z.of_nat (Z.to_nat j)) with j in * by lia.
    apply Hiff. congruence.
  - intros Hj. destruct (Hin Hj) as (ss & s & Hss & Hj0 & _ & _ & Hl0).
    rewrite staff_at.
    transitivity (Some ss); [|symmetry]; apply at_Some; auto.
Qed.
End VisibleStaves.

(** ** What the placement of names leaves alone *)

Section NamesFrame.
Context `{Collaborators}.
Variable score : Score.

Lemma eraseNames_set n (s : SysStaff) :
  eraseNames (SysStaff.setInstrumentNames n s) = eraseNames s.
Proof. reflexivity. Qed.

Lemma erase_insert (l : list SysStaff) (k : nat) (x : SysStaff) :
  (eraseNames <$> l) !! k = Some (eraseNames x) ->
  eraseNames <$> <[k := x]> l = eraseNames <$> l.
Proof. intros E. rewrite list_fmap_insert. apply list_insert_id. exact E. Qed.

Lemma erase_lookup (l : list SysStaff) (i : Z) (s : SysStaff) :
  at_ l i = Some s -> (eraseNames <$> l) !! Z.to_nat i = Some (eraseNames s).
Proof.
  intros E. apply at_Some in E as [_ E]. rewrite list_lookup_fmap, E. reflexivity.
Qed.

Lemma erase_at (l l' : list SysStaff) (i : Z) (s' : SysStaff) :
  eraseNames <$> l' = eraseNames <$> l -> at_ l' i = Some s' ->
  exists s, at_ l i = Some s /\ eraseNames s' = eraseNames s.
Proof.
  intros E Hs'. pose proof (erase_lookup _ _ _ Hs') as Hl. rewrite E in Hl.
  rewrite list_lookup_fmap in Hl. apply at_Some in Hs' as [Hi _].
  destruct (l !! Z.to_nat i) as [s|] eqn:Es; [|discriminate].
  exists s. split; [apply at_Some; auto | simpl in Hl; congruence].
Qed.

Lemma layoutInstrumentNames_part_frame part p staffIdx sys sys' :
  System.layoutInstrumentNames_part score part p staffIdx sys = Some sys' ->
  sys' = System.set_staves (_staves sys') sys
  /\ eraseNames <$> _staves sys' = eraseNames <$> _staves sys.
Proof.
  unfold System.layoutInstrumentNames_part. intros Hrun.
  destruct (System.firstVisibleSysStaffOfPart score sys part p) as [visible|];
    simpl in Hrun; [|discriminate].
  destruct (0 <=? visible); [|inversion Hrun; subst; destruct sys'; auto].
  destruct (System.staff sys staffIdx) as [s|] eqn:Es; simpl in Hrun; [|discriminate].
  rewrite staff_at in Es.
  destruct (negb (visible =? staffIdx)).
  - destruct (System.staff sys visible) as [vs|] eqn:Evs; simpl in Hrun; [|discriminate].
    rewrite staff_at in Evs.
    set (sys1 := System.migrateNames staffIdx visible s vs sys) in *.
    assert (E1 : eraseNames <$> _staves sys1 = eraseNames <$> _staves sys).
    { unfold sys1, System.migrateNames. simpl.
      rewrite erase_insert.
      - apply erase_insert. rewrite eraseNames_set. apply erase_lookup, Evs.
      - rewrite erase_insert by (rewrite eraseNames_set; apply erase_lookup, Evs).
        rewrite eraseNames_set. apply erase_lookup, Es. }
    destruct (System.staff sys1 visible) as [s1|] eqn:Es1; simpl in Hrun; [|discriminate].
    rewrite staff_at in Es1.
    destruct (mapM _ (instrumentNames s1)) as [names|]; simpl in Hrun; [|discriminate].
    inversion Hrun; subst; clear Hrun. simpl. split; [reflexivity|].
    rewrite <- E1. apply erase_insert. rewrite eraseNames_set. apply erase_lookup, Es1.
  - simpl in Hrun. rewrite staff_at, Es in Hrun. simpl in Hrun.
    destruct (mapM _ (instrumentNames s)) as [names|]; simpl in Hrun; [|discriminate].
    inversion Hrun; subst; clear Hrun. simpl. split; [destruct sys; reflexivity|].
    apply erase_insert. rewrite eraseNames_set. apply erase_lookup, Es.
Qed.

Lemma layoutInstrumentNames_loop_frame ps : forall part staffIdx sys sys',
  System.layoutInstrumentNames_loop score ps part staffIdx sys = Some sys' ->
  sys' = System.set_staves (_staves sys') sys
  /\ eraseNames <$> _staves sys' = eraseNames <$> _staves sys.
Proof.
  induction ps as [|p ps IH]; intros part staffIdx sys sys' Hrun; simpl in Hrun.
  - inversion Hrun; subst. split; [destruct sys'; reflexivity | reflexivity].
  - destruct (System.layoutInstrumentNames_part score part p staffIdx sys) as [sys1|] eqn:E1;
      simpl in Hrun; [|discriminate].
    destruct (layoutInstrumentNames_part_frame _ _ _ _ _ E1) as [Hs1 He1].
    destruct (IH _ _ _ _ Hrun) as [Hs' He'].
    split; [|congruence].
    rewrite Hs', Hs1. reflexivity.
Qed.

Lemma layoutInstrumentNames_frame sys sys' :
  System.layoutInstrumentNames score sys = Some sys' ->
  sys' = System.set_staves (_staves sys') sys
  /\ eraseNames <$> _staves sys' = eraseNames <$> _staves sys.
Proof. apply layoutInstrumentNames_loop_frame. Qed.
End NamesFrame.

(** ** layout2 taken apart *)

Section Layout2.
Context `{Collaborators}.
Variable score : Score.

Lemma layout2_inv sys sys' :
  System.vbox sys = None ->
  System.layout2 score sys = Some sys' ->
  exists vis l0,
    System.collectVisibleStaves score 0 (_staves sys) = Some (vis, l0)
    /\ match vis with
       | [] =>
           sys' = System.qDebug
                    [NoVisibleStaves (size l0) (size (staves score))] (cleared l0 sys)
       | _ =>
           exists stv1 back last_ss,
             System.layout2_staves score (cleared l0 sys) vis 0%Q l0 = Some stv1
             /\ List.last (List.map Some vis) None = Some back
             /\ at_ stv1 back = Some last_ss
             /\ eraseNames <$> _staves sys' = eraseNames <$> stv1
             /\ _systemHeight sys' = RectF.bottom (_bbox last_ss)
             /\ sys_bbox sys' = RectF.setHeight (RectF.bottom (_bbox last_ss)) (sys_bbox sys)
             /\ ml sys'
                = List.map fst
                    (List.map (System.setMeasureHeight1 (spatium score)
                                 (RectF.bottom (_bbox last_ss))) (ml sys))
             /\ ml sys' <> []
       end.
Proof.
  intros Hvb Hrun. unfold System.layout2 in Hrun. rewrite Hvb in Hrun.
  change (_staves (System.setPos 0%Q 0%Q sys)) with (_staves sys) in Hrun.
  destruct (System.collectVisibleStaves score 0 (_staves sys)) as [[vis l0]|];
    simpl in Hrun; [|discriminate].
  exists vis, l0. split; [reflexivity|].
  destruct vis as [|v vis'].
  - inversion Hrun. reflexivity.
  - fold (cleared l0 sys) in Hrun.
    change (_staves (cleared l0 sys)) with l0 in Hrun.
    destruct (System.layout2_staves score (cleared l0 sys) (v :: vis') 0%Q l0)
      as [stv1|] eqn:Estv; [|discriminate].
    cbn [mbind option_bind] in Hrun.
    destruct (List.last (List.map Some (v :: vis')) None) as [back|] eqn:Eback;
      [|discriminate].
    cbn [mbind option_bind] in Hrun.
    rewrite staff_at in Hrun.
    change (_staves (System.set_staves stv1 (cleared l0 sys))) with stv1 in Hrun.
    destruct (at_ stv1 back) as [last_ss|] eqn:Elast; [|discriminate].
    cbn [mbind option_bind] in Hrun.
    match type of Hrun with
    | context [System.layoutBracketsVertical score ?s] => set (sysA := s) in *
    end.
    unfold System.layoutBracketsVertical in Hrun.
    destruct (mapM _ (_brackets sysA)) as [bs|]; [|discriminate].
    cbn [mbind option_bind] in Hrun.
    destruct (System.layoutInstrumentNames score (System.set_brackets bs sysA))
      as [sysB|] eqn:EB; [|discriminate].
    cbn [mbind option_bind] in Hrun.
    destruct (layoutInstrumentNames_frame _ _ _ EB) as [HsB HeB].
    destruct (ml sysB) as [|m0 ms0] eqn:Eml; [discriminate|].
    inversion Hrun; subst sys'; clear Hrun.
    exists stv1, back, last_ss.
    do 3 (split; [first [reflexivity | eassumption]|]).
    split; [exact HeB|].
    rewrite HsB. simpl. rewrite HsB in Eml. simpl in Eml.
    split; [reflexivity|]. split; [reflexivity|]. split; [reflexivity|].
    rewrite Eml. discriminate.
Qed.
End Layout2.

(** ** Two visible staves that follow each other *)

Section Adjacent.
Context `{Collaborators}.
Variable score : Score.

Lemma staffDist_cleared sys l0 si1 si2 staff1 ss :
  at_ l0 si2 = System.staff sys si2 ->
  System.staffDist score (cleared l0 sys) l0 si1 si2 staff1 ss
  = System.staffDist score sys (_staves sys) si1 si2 staff1 ss.
Proof.
  intros E. unfold System.staffDist. rewrite !staff_at. simpl.
  rewrite E, staff_at. reflexivity.
Qed.

Lemma staffY_placed sys y staff1 ss :
  (staffY (placed score sys y staff1 ss) == y)%Q.
Proof. unfold staffY, placed, System.placeStaff. simpl. unfold RectF.y. simpl. ring. Qed.

Lemma staffY_erase (a b : SysStaff) :
  eraseNames a = eraseNames b -> staffY a = staffY b.
Proof.
  intros E. unfold staffY.
  change (_bbox a) with (_bbox (eraseNames a)).
  change (_yOff a) with (_yOff (eraseNames a)).
  rewrite E. reflexivity.
Qed.

Lemma continuousDist_erase (a b : SysStaff) :
  eraseNames a = eraseNames b -> _continuousDist a = _continuousDist b.
Proof.
  intros E. change (_continuousDist a) with (_continuousDist (eraseNames a)).
  rewrite E. reflexivity.
Qed.

(** After layout2, the top line of the lower staff lies below the top
    line of the upper staff by the distance of the boundary, and the upper
    record keeps the memory the distance computation gave it. *)
Lemma layout2_adjacent sys sys' si1 si2 :
  System.vbox sys = None ->
  System.layout2 score sys = Some sys' ->
  adjacentVisible score sys si1 si2 ->
  exists dist ss1a ss1' ss2',
    boundaryDist score sys si1 si2 = Some (dist, ss1a)
    /\ System.staff sys' si1 = Some ss1'
    /\ System.staff sys' si2 = Some ss2'
    /\ (staffY ss2' - staffY ss1' == dist)%Q
    /\ _continuousDist ss1' = _continuousDist ss1a.
Proof.
  intros Hvb Hrun (Hlt & Hv1 & Hv2 & Hgap).
  destruct (layout2_inv _ _ _ Hvb Hrun) as (vis & l0 & Hcol & Hmatch).
  pose proof (collectVisibleStaves_visible _ _ _ _ Hcol) as Hvis.
  destruct (collectVisibleStaves_spec score (_staves sys) 0 vis l0 ltac:(lia) Hcol)
    as (_ & Hinc & _).
  assert (Hin1 : si1 ∈ vis) by (apply (proj1 (Hvis si1)); exact Hv1).
  assert (Hin2 : si2 ∈ vis) by (apply (proj1 (Hvis si2)); exact Hv2).
  destruct (increasing_adjacent vis 0 si1 si2 Hinc Hin1 Hin2 Hlt) as (pre & post & Evis).
  { intros k Hk Hin. apply (proj1 (proj1 (Hvis k))) in Hin.
    rewrite (Hgap k Hk) in Hin. discriminate. }
  destruct vis as [|v vis']; [destruct pre; discriminate|].
  destruct Hmatch as (stv1 & back & last_ss & Hloop & _ & _ & Herase & _).
  rewrite Evis in Hloop, Hinc.
  destruct (layout2_staves_pair _ _ pre 0 _ _ _ _ _ _ ltac:(lia) Hinc Hloop)
    as (y1 & ss1 & staff1 & staff2 & dist & ss1a & ss2a
        & Hss1 & Hst1 & Hst2 & Hd & Hat1 & Hat2).
  rewrite <- Evis in *.
  rewrite staffDist_cleared in Hd by (apply (proj2 (Hvis si2)); exact Hin2).
  rewrite (proj2 (Hvis si1) Hin1) in Hss1.
  assert (Hlen : length (_staves sys') = length stv1).
  { rewrite <- (length_fmap eraseNames (_staves sys')), Herase. apply length_fmap. }
  assert (Hget : forall i x, at_ stv1 i = Some x ->
            exists x', System.staff sys' i = Some x' /\ eraseNames x' = eraseNames x).
  { intros i x Hx. pose proof (erase_lookup _ _ _ Hx) as Hl.
    rewrite <- Herase, list_lookup_fmap in Hl.
    apply at_Some in Hx as [Hi _].
    destruct (_staves sys' !! Z.to_nat i) as [x'|] eqn:Ex'; [|discriminate].
    exists x'. rewrite staff_at. split; [apply at_Some; auto|].
    simpl in Hl. congruence. }
  destruct (Hget _ _ Hat1) as (ss1' & Hs1' & He1).
  destruct (Hget _ _ Hat2) as (ss2' & Hs2' & He2).
  exists dist, ss1a, ss1', ss2'.
  split; [unfold boundaryDist; rewrite Hst1, Hss1; exact Hd|].
  split; [exact Hs1'|]. split; [exact Hs2'|].
  split.
  - rewrite (staffY_erase _ _ He1), (staffY_erase _ _ He2), !staffY_placed. ring.
  - rewrite (continuousDist_erase _ _ He1). reflexivity.
Qed.
End Adjacent.

(** Two neighbouring staves of a sample system, both visible. *)
Ltac neighbours_visible :=
  split; [lia|]; split; [reflexivity|]; split; [reflexivity|]; intros ? ?; lia.

(** * The staff stacker *)

Section Stacker.
Context `{Collaborators}.

Lemma boundaryDist_inv score sys si1 si2 dist ss1a :
  boundaryDist score sys si1 si2 = Some (dist, ss1a) ->
  exists staff1 staff2 ss1,
    Score.staff score si1 = Some staff1
    /\ Score.staff score si2 = Some staff2
    /\ System.staff sys si1 = Some ss1
    /\ let scan := System.scanSpacers (height staff1) si1 si2 (ml sys)
                     (System.startDist score sys staff1 staff2) in
       (snd scan = true /\ dist = fst scan /\ ss1a = ss1)
       \/ (snd scan = false
           /\ exists ss2,
                System.staff sys si2 = Some ss2
                /\ dist = qMax (fst scan)
                            (fst (System.skylineDist score ss1 ss2)
                             + minVerticalDistance (style score))%Q
                /\ ss1a = snd (System.skylineDist score ss1 ss2)).
Proof.
  unfold boundaryDist, System.staffDist. intros Hrun.
  destruct (Score.staff score si1) as [staff1|]; simpl in Hrun; [|discriminate].
  destruct (System.staff sys si1) as [ss1|]; simpl in Hrun; [|discriminate].
  destruct (Score.staff score si2) as [staff2|]; simpl in Hrun; [|discriminate].
  exists staff1, staff2, ss1. do 3 (split; [reflexivity|]).
  destruct (System.scanSpacers _ _ _ _ _) as [d fixedSpace]. simpl.
  destruct fixedSpace.
  - left. inversion Hrun. auto.
  - right. split; [reflexivity|].
    replace (System.staff (System.set_staves (_staves sys) sys) si2)
      with (System.staff sys si2) in Hrun by (destruct sys; reflexivity).
    destruct (System.staff sys si2) as [ss2|]; simpl in Hrun; [|discriminate].
    exists ss2. split; [reflexivity|].
    destruct (System.skylineDist score ss1 ss2) as [d' ss']. simpl.
    inversion Hrun. auto.
Qed.
End Stacker.

(** C1, as amended.  Let [si1] and [si2] be two visible staves with no
    visible staff between them, in a system that is not a frame.  If the
    first measure of the system (in measure order) that carries a FIXED
    down-spacer on [si1] carries one of gap [G], then after layout2 the top
    line of [si2] lies exactly [height(si1) + G] below the top line of [si1]:
    the gap below the upper staff is exactly [G].  The measures after that
    one are not looked at, the skyline distance is not applied however large
    it is, and the memory of continuous view of [si1] is left as it was. *)
Theorem layout2_fixed_spacer_exact `{Collaborators}
    (score : Score) (sys sys' : System) (si1 si2 : Z)
    (pre post : list MeasureBase) (m : MeasureBase) (sp : Spacer)
    (staff1 : Staff) (ss1 : SysStaff) :
  System.vbox sys = None ->
  System.layout2 score sys = Some sys' ->
  adjacentVisible score sys si1 si2 ->
  Score.staff score si1 = Some staff1 ->
  System.staff sys si1 = Some ss1 ->
  ml sys = pre ++ m :: post ->
  Forall (fun mb => hasFixedDown si1 mb = false) pre ->
  isMeasure m = true -> vspacerDown m si1 = Some sp -> isFixed sp = true ->
  exists ss1' ss2',
    System.staff sys' si1 = Some ss1'
    /\ System.staff sys' si2 = Some ss2'
    /\ (staffY ss2' - staffY ss1' == height staff1 + gap sp)%Q
    /\ _continuousDist ss1' = _continuousDist ss1.
Proof.
  intros Hvb Hrun Hadj Hst1 Hss1 Hml Hpre Hm Hsp Hfix.
  destruct (layout2_adjacent _ _ _ _ _ Hvb Hrun Hadj)
    as (dist & ss1a & ss1' & ss2' & Hd & Hs1 & Hs2 & Hy & Hc).
  destruct (boundaryDist_inv _ _ _ _ _ _ Hd)
    as (staff1' & staff2 & ss1'' & Hst1' & _ & Hss1' & Hcases).
  rewrite Hst1 in Hst1'. inversion Hst1'; subst staff1'.
  rewrite Hss1 in Hss1'. inversion Hss1'; subst ss1''.
  rewrite Hml, (scanSpacers_fixed _ _ _ pre m post sp _ Hpre Hm Hsp Hfix) in Hcases.
  simpl in Hcases.
  exists ss1', ss2'. split; [exact Hs1|]. split; [exact Hs2|].
  destruct Hcases as [(_ & -> & ->) | (Hfalse & _)]; [|discriminate].
  split; [exact Hy | exact Hc].
Qed.

Lemma layout2_fixed_spacer_exact_witness :
  exists ss1' ss2',
    System.staff (Sample.laidOut Sample.score (Sample.system Sample.spacers)) 0 = Some ss1'
    /\ System.staff (Sample.laidOut Sample.score (Sample.system Sample.spacers)) 1 = Some ss2'
    /\ (staffY ss2' - staffY ss1' == 40 + 7)%Q
    /\ _continuousDist ss1' = (-1)%Q.
Proof.
  apply (layout2_fixed_spacer_exact
           Sample.score (Sample.system Sample.spacers)
           (Sample.laidOut Sample.score (Sample.system Sample.spacers)) 0 1
           [Sample.measure 0 (Sample.downBelow0 30%Q)]
           [Sample.measure 2 (Sample.fixedBelow0 20%Q)]
           (Sample.measure 1 (Sample.fixedBelow0 7%Q))
           (mkSpacer SpacerFIXED 7%Q)
           (Sample.staffOf 0 0%Q) (Sample.record 120%Q true)).
  - reflexivity.
  - vm_compute. reflexivity.
  - neighbours_visible.
  - reflexivity.
  - reflexivity.
  - reflexivity.
  - constructor; [reflexivity | constructor].
  - reflexivity.
  - reflexivity.
  - reflexivity.
Defined.

(** C1 as stated fails.  The third measure of the sample system carries a
    FIXED down-spacer of gap 20 on staff 0, but the second measure carries
    one of gap 7 and ends the measure loop: the staves end up 40 + 7 apart,
    which is neither 20 nor 40 + 20. *)
Lemma fixed_spacer_of_later_measure_not_applied :
  let sys := Sample.system Sample.spacers in
  let sys' := Sample.laidOut Sample.score sys in
  System.layout2 Sample.score sys = Some sys'
  /\ adjacentVisible Sample.score sys 0 1
  /\ ~ (forall m sp,
          m ∈ ml sys -> isMeasure m = true ->
          vspacerDown m 0 = Some sp -> isFixed sp = true ->
          exists a b,
            System.staff sys' 0 = Some a /\ System.staff sys' 1 = Some b
            /\ ((staffY b - staffY a == gap sp)%Q
                \/ (staffY b - staffY a == 40 + gap sp)%Q)).
Proof.
  cbv zeta. split; [vm_compute; reflexivity|].
  split.
  { neighbours_visible. }
  intros Hall.
  destruct (Hall (Sample.measure 2 (Sample.fixedBelow0 20%Q)) (mkSpacer SpacerFIXED 20%Q))
    as (a & b & Ha & Hb & Hy).
  - unfold Sample.system, Sample.spacers. simpl.
    apply list_elem_of_further, list_elem_of_further, list_elem_of_here.
  - reflexivity.
  - reflexivity.
  - reflexivity.
  - vm_compute in Ha. vm_compute in Hb.
    inversion Ha; subst a. inversion Hb; subst b.
    destruct Hy as [Hy | Hy]; vm_compute in Hy; discriminate.
Qed.

Section SkylineMemory.
Context `{Collaborators}.

Lemma skylineDist_ge score ss1 ss2 :
  (minDistance (_skyline ss1) (_skyline ss2) <= fst (System.skylineDist score ss1 ss2))%Q
  /\ (lineMode score = true ->
      (_continuousDist ss1 <= fst (System.skylineDist score ss1 ss2))%Q).
Proof.
  unfold System.skylineDist. destruct (lineMode score).
  - destruct (qLess _ _) eqn:E; simpl.
    + apply qLess_true in E. split; [lra | intros _; lra].
    + apply qLess_false in E. split; [lra | intros _; lra].
  - simpl. split; [lra | discriminate].
Qed.

(** In continuous view the distance used and the distance remembered are
    the same number: the larger of the new skyline distance and the
    distance remembered before. *)
Lemma skylineDist_lineMode score ss1 ss2 :
  lineMode score = true ->
  fst (System.skylineDist score ss1 ss2)
  = (if qLess (_continuousDist ss1) (minDistance (_skyline ss1) (_skyline ss2))
     then minDistance (_skyline ss1) (_skyline ss2) else _continuousDist ss1)
  /\ _continuousDist (snd (System.skylineDist score ss1 ss2))
     = fst (System.skylineDist score ss1 ss2).
Proof.
  intros Hl. unfold System.skylineDist. rewrite Hl.
  destruct (qLess _ _); simpl; auto.
Qed.
End SkylineMemory.

(** The offset and the height layout2 gives the boxes of two neighbouring
    visible staves. *)
Section AdjacentBoxes.
Context `{Collaborators}.
Variable score : Score.

Lemma yOff_erase (a b : SysStaff) :
  eraseNames a = eraseNames b ->
  _yOff a = _yOff b /\ _bbox a = _bbox b.
Proof.
  intros E.
  change (_yOff a) with (_yOff (eraseNames a)).
  change (_bbox a) with (_bbox (eraseNames a)).
  rewrite E. split; reflexivity.
Qed.

Lemma layout2_adjacent_boxes sys sys' si1 si2 staff1 staff2 ss1' ss2' :
  System.vbox sys = None ->
  System.layout2 score sys = Some sys' ->
  adjacentVisible score sys si1 si2 ->
  Score.staff score si1 = Some staff1 ->
  Score.staff score si2 = Some staff2 ->
  System.staff sys' si1 = Some ss1' ->
  System.staff sys' si2 = Some ss2' ->
  _yOff ss1' = fst (System.staffBox score staff1)
  /\ RectF.height (_bbox ss1') = snd (System.staffBox score staff1)
  /\ _yOff ss2' = fst (System.staffBox score staff2).
Proof.
  intros Hvb Hrun (Hlt & Hv1 & Hv2 & Hgap) Hst1 Hst2 Hs1 Hs2.
  destruct (layout2_inv _ _ _ Hvb Hrun) as (vis & l0 & Hcol & Hmatch).
  pose proof (collectVisibleStaves_visible _ _ _ _ Hcol) as Hvis.
  destruct (collectVisibleStaves_spec score (_staves sys) 0 vis l0 ltac:(lia) Hcol)
    as (_ & Hinc & _).
  assert (Hin1 : si1 ∈ vis) by (apply (proj1 (Hvis si1)); exact Hv1).
  assert (Hin2 : si2 ∈ vis) by (apply (proj1 (Hvis si2)); exact Hv2).
  destruct (increasing_adjacent vis 0 si1 si2 Hinc Hin1 Hin2 Hlt) as (pre & post & Evis).
  { intros k Hk Hin. apply (proj1 (proj1 (Hvis k))) in Hin.
    rewrite (Hgap k Hk) in Hin. discriminate. }
  destruct vis as [|v vis']; [destruct pre; discriminate|].
  destruct Hmatch as (stv1 & back & last_ss & Hloop & _ & _ & Herase & _).
  rewrite Evis in Hloop, Hinc.
  destruct (layout2_staves_pair _ _ pre 0 _ _ _ _ _ _ ltac:(lia) Hinc Hloop)
    as (y1 & ss1 & staff1' & staff2' & dist & ss1a & ss2a
        & _ & Hst1' & Hst2' & _ & Hat1 & Hat2).
  rewrite Hst1 in Hst1'. inversion Hst1'; subst staff1'.
  rewrite Hst2 in Hst2'. inversion Hst2'; subst staff2'.
  assert (Hget : forall i x x', at_ stv1 i = Some x -> System.staff sys' i = Some x' ->
            eraseNames x' = eraseNames x).
  { intros i x x' Hx Hx'. rewrite staff_at in Hx'.
    pose proof (erase_lookup _ _ _ Hx) as Hl. pose proof (erase_lookup _ _ _ Hx') as Hl'.
    rewrite Herase in Hl'. congruence. }
  destruct (yOff_erase _ _ (Hget _ _ _ Hat1 Hs1)) as [Ey1 Eb1].
  destruct (yOff_erase _ _ (Hget _ _ _ Hat2 Hs2)) as [Ey2 _].
  rewrite Ey1, Eb1, Ey2. unfold placed, System.placeStaff. simpl.
  split; [reflexivity|]. split; reflexivity.
Qed.
End AdjacentBoxes.

(** C2, as amended.  Let [si1] and [si2] be two visible staves with no
    visible staff between them, in a system that is not a frame, and let no
    measure carry a FIXED down-spacer on [si1].  The gap between them after
    layout2 is the distance from the top line of [si1] to the top line of
    [si2] less the height of [si1]; unless one of the staves has exactly one
    line, it is the distance from the box of [si1] to the box of [si2].
    - The gap is at least the distance of the style (akkolade distance times
      the magnification inside a part, staff distance between parts) plus
      the extra distance of [si2]: at least the distance of the style when
      the extra distance is not negative, at least the extra distance when
      the distance of the style is not negative.
    - The gap is at least the gap of every down-spacer on [si1] and of every
      up-spacer on [si2], in every measure.
    - The distance between the top lines is at least the skyline distance
      plus the minimum vertical distance, and in continuous view also the
      remembered distance plus the minimum vertical distance; the gap is at
      least either sum less the height of [si1].
    - So the gap is at least the minimum vertical distance when the skyline
      distance (in continuous view, or the remembered distance) is at least
      the height of [si1]. *)
Theorem layout2_distance_lower_bounds `{Collaborators}
    (score : Score) (sys sys' : System) (si1 si2 : Z)
    (staff1 staff2 : Staff) (ss1 ss2 : SysStaff) :
  System.vbox sys = None ->
  System.layout2 score sys = Some sys' ->
  adjacentVisible score sys si1 si2 ->
  Score.staff score si1 = Some staff1 ->
  Score.staff score si2 = Some staff2 ->
  System.staff sys si1 = Some ss1 ->
  System.staff sys si2 = Some ss2 ->
  Forall (fun mb => hasFixedDown si1 mb = false) (ml sys) ->
  exists ss1' ss2',
    System.staff sys' si1 = Some ss1'
    /\ System.staff sys' si2 = Some ss2'
    /\ (baseDistance score sys staff1 staff2 + userDist staff2
        <= gapBelow staff1 ss1' ss2')%Q
    /\ ((0 <= userDist staff2)%Q ->
        (baseDistance score sys staff1 staff2 <= gapBelow staff1 ss1' ss2')%Q)
    /\ ((0 <= baseDistance score sys staff1 staff2)%Q ->
        (userDist staff2 <= gapBelow staff1 ss1' ss2')%Q)
    /\ Forall (fun mb =>
                 isMeasure mb = true ->
                 (forall sp, vspacerDown mb si1 = Some sp ->
                    (gap sp <= gapBelow staff1 ss1' ss2')%Q)
                 /\ (forall sp, vspacerUp mb si2 = Some sp ->
                    (gap sp <= gapBelow staff1 ss1' ss2')%Q)) (ml sys)
    /\ (minDistance (_skyline ss1) (_skyline ss2) + minVerticalDistance (style score)
        <= staffY ss2' - staffY ss1')%Q
    /\ (lineMode score = true ->
        (_continuousDist ss1 + minVerticalDistance (style score)
         <= staffY ss2' - staffY ss1')%Q)
    /\ ((height staff1 <= minDistance (_skyline ss1) (_skyline ss2))%Q ->
        (minVerticalDistance (style score) <= gapBelow staff1 ss1' ss2')%Q)
    /\ (lineMode score = true -> (height staff1 <= _continuousDist ss1)%Q ->
        (minVerticalDistance (style score) <= gapBelow staff1 ss1' ss2')%Q)
    /\ (lines staff1 <> 1 -> lines staff2 <> 1 ->
        (RectF.top (_bbox ss2') - RectF.bottom (_bbox ss1')
         == gapBelow staff1 ss1' ss2')%Q).
Proof.
  intros Hvb Hrun Hadj Hst1 Hst2 Hss1 Hss2 Hnofix.
  assert (Hbase : System.startDist score sys staff1 staff2
                  = (height staff1 + baseDistance score sys staff1 staff2
                     + userDist staff2)%Q).
  { unfold System.startDist, baseDistance.
    destruct (Nat.eqb (part staff1) (part staff2)); reflexivity. }
  destruct (layout2_adjacent _ _ _ _ _ Hvb Hrun Hadj)
    as (dist & ss1a & ss1' & ss2' & Hd & Hs1 & Hs2 & Hy & _).
  destruct (boundaryDist_inv _ _ _ _ _ _ Hd)
    as (staff1' & staff2' & ss1'' & Hst1' & Hst2' & Hss1' & Hcases).
  rewrite Hst1 in Hst1'. inversion Hst1'; subst staff1'.
  rewrite Hst2 in Hst2'. inversion Hst2'; subst staff2'.
  rewrite Hss1 in Hss1'. inversion Hss1'; subst ss1''.
  cbv zeta in Hcases.
  destruct (scanSpacers_elastic (height staff1) si1 si2 (ml sys)
              (System.startDist score sys staff1 staff2) Hnofix)
    as (Hsnd & Hstart & Hall).
  destruct Hcases as [(Htrue & _) | (_ & ss2'' & Hss2' & Hdist & _)]; [congruence|].
  rewrite Hss2 in Hss2'. inversion Hss2'; subst ss2''.
  destruct (skylineDist_ge score ss1 ss2) as [Hsky Hmem].
  set (scan := fst (System.scanSpacers (height staff1) si1 si2 (ml sys)
                      (System.startDist score sys staff1 staff2))) in *.
  set (d := fst (System.skylineDist score ss1 ss2)) in *.
  pose proof (qMax_ge_l scan (d + minVerticalDistance (style score))%Q) as Hl.
  pose proof (qMax_ge_r scan (d + minVerticalDistance (style score))%Q) as Hr.
  rewrite <- Hdist in Hl, Hr.
  rewrite Hbase in Hstart.
  destruct (layout2_adjacent_boxes score sys sys' si1 si2 staff1 staff2 ss1' ss2'
              Hvb Hrun Hadj Hst1 Hst2 Hs1 Hs2) as (Hoff1 & Hh1 & Hoff2).
  exists ss1', ss2'. split; [exact Hs1|]. split; [exact Hs2|].
  unfold gapBelow.
  split; [lra|]. split; [intros Hu; lra|]. split; [intros Hb; lra|]. split.
  { eapply Forall_weaken; [exact Hall|]. cbv beta. intros mb Hmb Hm.
    destruct (Hmb Hm) as [Hdown Hup]. split.
    - intros sp Hsp. specialize (Hdown sp Hsp). lra.
    - intros sp Hsp. specialize (Hup sp Hsp). lra. }
  split; [lra|]. split; [intros Hline; specialize (Hmem Hline); lra|].
  split; [intros Hpos; lra|].
  split; [intros Hline Hpos; specialize (Hmem Hline); lra|].
  intros Hl1 Hl2. unfold System.staffBox in Hoff1, Hh1, Hoff2.
  apply Z.eqb_neq in Hl1, Hl2. rewrite Hl1 in Hoff1, Hh1. rewrite Hl2 in Hoff2.
  simpl in Hoff1, Hh1, Hoff2.
  unfold staffY, RectF.top, RectF.bottom, RectF.y, RectF.height in *.
  rewrite Hoff1, Hoff2, Hh1. ring.
Qed.

Lemma layout2_distance_lower_bounds_witness :
  exists ss1' ss2',
    System.staff (Sample.laidOut Sample.score
                    (Sample.system [Sample.measure 0 (Sample.downBelow0 30%Q)])) 0
    = Some ss1'
    /\ System.staff (Sample.laidOut Sample.score
                       (Sample.system [Sample.measure 0 (Sample.downBelow0 30%Q)])) 1
       = Some ss2'
    /\ (35 * 1 + 0 <= gapBelow (Sample.staffOf 0 0%Q) ss1' ss2')%Q
    /\ (120 + 5 <= staffY ss2' - staffY ss1')%Q
    /\ (5 <= gapBelow (Sample.staffOf 0 0%Q) ss1' ss2')%Q
    /\ (RectF.top (_bbox ss2') - RectF.bottom (_bbox ss1')
        == gapBelow (Sample.staffOf 0 0%Q) ss1' ss2')%Q.
Proof.
  destruct (layout2_distance_lower_bounds
              Sample.score (Sample.system [Sample.measure 0 (Sample.downBelow0 30%Q)])
              (Sample.laidOut Sample.score
                 (Sample.system [Sample.measure 0 (Sample.downBelow0 30%Q)]))
              0 1 (Sample.staffOf 0 0%Q) (Sample.staffOf 0 0%Q)
              (Sample.record 120%Q true) (Sample.record 40%Q true))
    as (a & b & Ha & Hb & Hstart & _ & _ & _ & Hsky & _ & Hmin & _ & Hbox).
  - reflexivity.
  - vm_compute. reflexivity.
  - neighbours_visible.
  - reflexivity.
  - reflexivity.
  - reflexivity.
  - reflexivity.
  - constructor; [reflexivity | constructor].
  - exists a, b. split; [exact Ha|]. split; [exact Hb|].
    split; [exact Hstart|]. split; [exact Hsky|]. split.
    + apply Hmin. vm_compute. discriminate.
    + apply Hbox; discriminate.
Defined.

(** C2 as stated fails.  Two staves of different parts, staff distance 65,
    minimum vertical distance 5, and an extra distance of -70 on the lower
    staff.
    - With a skyline distance of 40, the height of the upper staff: the top
      lines end up 45 apart and the boxes 5 apart, less than the staff
      distance and less than the skyline distance plus the minimum vertical
      distance, the lower bounds of the claim; the gap is the minimum
      vertical distance.
    - With a skyline distance of 10: the top lines end up 35 apart, so the
      boxes overlap by 5, and the gap is below the minimum vertical
      distance too. *)
Lemma distance_below_staffDistance :
  let sys' := Sample.laidOut Sample.scoreTight Sample.systemTight in
  let low' := Sample.laidOut Sample.scoreTight Sample.systemTightLow in
  (System.layout2 Sample.scoreTight Sample.systemTight = Some sys'
   /\ adjacentVisible Sample.scoreTight Sample.systemTight 0 1
   /\ Forall (fun mb => hasFixedDown 0 mb = false) (ml Sample.systemTight)
   /\ exists a b,
        System.staff sys' 0 = Some a /\ System.staff sys' 1 = Some b
        /\ (staffY b - staffY a < staffDistance (style Sample.scoreTight))%Q
        /\ (RectF.top (_bbox b) - RectF.bottom (_bbox a)
            < staffDistance (style Sample.scoreTight))%Q
        /\ (RectF.top (_bbox b) - RectF.bottom (_bbox a)
            < minDistance (_skyline (Sample.record 40%Q true))
                          (_skyline (Sample.record 40%Q true))
              + minVerticalDistance (style Sample.scoreTight))%Q
        /\ (RectF.top (_bbox b) - RectF.bottom (_bbox a)
            == minVerticalDistance (style Sample.scoreTight))%Q)
  /\ (System.layout2 Sample.scoreTight Sample.systemTightLow = Some low'
      /\ adjacentVisible Sample.scoreTight Sample.systemTightLow 0 1
      /\ Forall (fun mb => hasFixedDown 0 mb = false) (ml Sample.systemTightLow)
      /\ exists a b,
           System.staff low' 0 = Some a /\ System.staff low' 1 = Some b
           /\ (staffY b - staffY a == 35)%Q
           /\ (RectF.top (_bbox b) - RectF.bottom (_bbox a) == -5)%Q
           /\ (RectF.top (_bbox b) - RectF.bottom (_bbox a)
               < minVerticalDistance (style Sample.scoreTight))%Q).
Proof.
  cbv zeta. split.
  - split; [vm_compute; reflexivity|].
    split; [neighbours_visible|].
    split; [constructor; [reflexivity | constructor]|].
    eexists. eexists.
    split; [vm_compute; reflexivity|]. split; [vm_compute; reflexivity|].
    split; [vm_compute; reflexivity|]. split; [vm_compute; reflexivity|].
    split; vm_compute; reflexivity.
  - split; [vm_compute; reflexivity|].
    split; [neighbours_visible|].
    split; [constructor; [reflexivity | constructor]|].
    eexists. eexists.
    split; [vm_compute; reflexivity|]. split; [vm_compute; reflexivity|].
    split; [vm_compute; reflexivity|]. split; vm_compute; reflexivity.
Qed.

(** ** What layout2 keeps of a record *)

Section Keeps.
Context `{Collaborators}.
Variable score : Score.

Lemma keeps_refl a : keeps a a.
Proof. unfold keeps. split; [lra | auto]. Qed.

Lemma keeps_trans a b c : keeps a b -> keeps b c -> keeps a c.
Proof.
  unfold keeps. intros (H1 & H2 & H3) (H4 & H5 & H6).
  split; [lra|]. split; congruence.
Qed.

Lemma keeps_erase a b : eraseNames b = eraseNames a -> keeps a b.
Proof.
  intros E. unfold keeps.
  change (_continuousDist b) with (_continuousDist (eraseNames b)).
  change (_show b) with (_show (eraseNames b)).
  change (_skyline b) with (_skyline (eraseNames b)).
  rewrite E. simpl. split; [lra | auto].
Qed.

Lemma keeps_placed sys y staff1 a : keeps a (placed score sys y staff1 a).
Proof. unfold keeps, placed, System.placeStaff. simpl. split; [lra | auto]. Qed.

Lemma staffDist_keeps sys stv si1 si2 staff1 ss dist ss1a :
  System.staffDist score sys stv si1 si2 staff1 ss = Some (dist, ss1a) -> keeps ss ss1a.
Proof.
  unfold System.staffDist. intros Hrun.
  destruct (Score.staff score si2); simpl in Hrun; [|discriminate].
  destruct (System.scanSpacers _ _ _ _ _) as [d fixedSpace].
  destruct fixedSpace; [inversion Hrun; apply keeps_refl|].
  destruct (System.staff _ si2) as [ss2|]; simpl in Hrun; [|discriminate].
  unfold System.skylineDist in Hrun.
  destruct (lineMode score); [|inversion Hrun; apply keeps_refl].
  destruct (qLess _ _) eqn:E; inversion Hrun; subst; [|apply keeps_refl].
  apply qLess_true in E. unfold keeps. simpl. split; [lra | auto].
Qed.

Lemma layout2_staves_keeps sys vis : forall y stv stv' j a,
  System.layout2_staves score sys vis y stv = Some stv' ->
  at_ stv j = Some a ->
  exists b, at_ stv' j = Some b /\ keeps a b.
Proof.
  induction vis as [|si1 rest IH]; intros y stv stv' j a Hrun Ha.
  - inversion Hrun; subst. exists a. split; [exact Ha | apply keeps_refl].
  - destruct (layout2_staves_step _ _ _ _ _ _ _ Hrun) as (ss & staff1 & Hss & _ & Hrest).
    pose proof Hss as Hss'. apply at_Some in Hss' as [Hsi1 _].
    pose proof Ha as Ha'. apply at_Some in Ha' as [Hj _].
    assert (Hone : forall x, keeps ss x ->
              exists b, at_ (<[Z.to_nat si1 := placed score sys y staff1 x]> stv) j = Some b
                        /\ keeps a b).
    { intros x Hx. destruct (Z.eq_dec si1 j) as [-> | Hne].
      - rewrite (at_insert_eq _ _ _ _ Hss). eexists. split; [reflexivity|].
        rewrite Hss in Ha. inversion Ha; subst.
        eapply keeps_trans; [exact Hx | apply keeps_placed].
      - rewrite at_insert_ne by assumption. exists a. split; [exact Ha | apply keeps_refl]. }
    destruct rest as [|si2 rest'].
    + subst stv'. apply Hone, keeps_refl.
    + destruct Hrest as (dist & ss1a & Hd & Hrec).
      destruct (Hone ss1a (staffDist_keeps _ _ _ _ _ _ _ _ Hd)) as (b & Hb & Hab).
      destruct (IH _ _ _ _ _ Hrec Hb) as (c & Hc & Hbc).
      exists c. split; [exact Hc | eapply keeps_trans; eassumption].
Qed.

(** Every record is kept by layout2, and no record is added or dropped. *)
Lemma layout2_keeps sys sys' :
  System.vbox sys = None ->
  System.layout2 score sys = Some sys' ->
  length (_staves sys') = length (_staves sys)
  /\ forall j a b,
       System.staff sys j = Some a -> System.staff sys' j = Some b -> keeps a b.
Proof.
  intros Hvb Hrun.
  destruct (layout2_inv _ _ _ Hvb Hrun) as (vis & l0 & Hcol & Hmatch).
  destruct (collectVisibleStaves_spec score (_staves sys) 0 vis l0 ltac:(lia) Hcol)
    as (Hlen0 & _ & Hall).
  assert (H0 : forall j a, System.staff sys j = Some a ->
             exists b, at_ l0 j = Some b /\ keeps a b).
  { intros j a Ha. rewrite staff_at in Ha. apply at_Some in Ha as [Hj Ha].
    destruct (Hall _ _ Ha) as (s & _ & Hl0 & _).
    eexists. split; [apply at_Some; split; [exact Hj | exact Hl0]|].
    destruct (show s && _show a); [apply keeps_refl|].
    unfold keeps. simpl. split; [lra | auto]. }
  destruct vis as [|v vis'].
  - subst sys'. simpl. split; [exact Hlen0|].
    intros j a b Ha Hb. destruct (H0 _ _ Ha) as (b' & Hb' & Hk).
    rewrite staff_at in Hb. simpl in Hb. congruence.
  - destruct Hmatch as (stv1 & back & last_ss & Hloop & _ & _ & Herase & _).
    split.
    + rewrite <- (length_fmap eraseNames (_staves sys')), Herase, length_fmap.
      rewrite (layout2_staves_length _ _ _ _ _ _ Hloop). exact Hlen0.
    + intros j a b Ha Hb. destruct (H0 _ _ Ha) as (b0 & Hb0 & Hk0).
      destruct (layout2_staves_keeps _ _ _ _ _ _ _ Hloop Hb0) as (b1 & Hb1 & Hk1).
      rewrite staff_at in Hb.
      destruct (erase_at _ _ _ _ Herase Hb) as (b1' & Hb1' & He).
      rewrite Hb1 in Hb1'. inversion Hb1'; subst b1'.
      eapply keeps_trans; [exact Hk0|]. eapply keeps_trans; [exact Hk1|].
      apply keeps_erase. exact He.
Qed.
End Keeps.

(** ** Measures between two passes *)

Section Measures.
Context `{Collaborators}.
Variable score : Score.

Lemma setMeasureHeight_sameMeasures _spatium h l :
  sameMeasures l (List.map fst (List.map (System.setMeasureHeight1 _spatium h) l)).
Proof.
  unfold sameMeasures. induction l as [|m l IH]; simpl; constructor; [|exact IH].
  unfold System.setMeasureHeight1.
  destruct (isMeasure m); [simpl; auto 10|].
  destruct (isHBox m); [simpl; auto 10|].
  destruct (isTBox m); simpl; auto 10.
Qed.

Lemma sameMeasures_scan staffHeight si1 si2 l l' :
  sameMeasures l l' -> forall dist,
  System.scanSpacers staffHeight si1 si2 l' dist
  = System.scanSpacers staffHeight si1 si2 l dist.
Proof.
  induction 1 as [|a b l l' (Ht & _ & Hu & Hd & _) _ IH]; intros dist; simpl;
    [reflexivity|].
  unfold isMeasure, System.spacerUpFloor. rewrite Ht, Hu, Hd.
  destruct (mb_type a); simpl; try apply IH.
  destruct (vspacerDown a si1) as [sp|]; [|apply IH].
  destruct (isFixed sp); [reflexivity | apply IH].
Qed.

Lemma sameMeasures_firstTick l l' :
  sameMeasures l l' ->
  mb_tick <$> List.find isMeasure l' = mb_tick <$> List.find isMeasure l.
Proof.
  induction 1 as [|a b l l' (Ht & Hk & _) _ IH]; simpl; [reflexivity|].
  unfold isMeasure in *. rewrite Ht. destruct (mb_type a); simpl; congruence.
Qed.

Lemma sameMeasures_startDist sys sysR staff1 staff2 :
  sameMeasures (ml sys) (ml sysR) ->
  System.startDist score sysR staff1 staff2 = System.startDist score sys staff1 staff2.
Proof.
  intros Hsame. pose proof (sameMeasures_firstTick _ _ Hsame) as Ht.
  unfold System.startDist, System.firstMeasure.
  destruct (List.find isMeasure (ml sysR)); destruct (List.find isMeasure (ml sys));
    simpl in Ht; try discriminate; [|reflexivity].
  inversion Ht as [Ht']. rewrite Ht'. reflexivity.
Qed.

Lemma sameMeasures_vbox sys sysR :
  sameMeasures (ml sys) (ml sysR) -> System.vbox sys = None -> System.vbox sysR = None.
Proof.
  unfold System.vbox. intros Hsame.
  destruct (ml sys) as [|a l]; destruct (ml sysR) as [|b l'];
    try (inversion Hsame; fail); [auto|].
  inversion Hsame as [|? ? ? ? (Ht & _) _]; subst.
  unfold isVBox, isTBox. rewrite Ht.
  destruct (mb_type a); simpl; auto; discriminate.
Qed.

Lemma layout2_sameMeasures sys sys' :
  System.vbox sys = None -> System.layout2 score sys = Some sys' ->
  sameMeasures (ml sys) (ml sys').
Proof.
  intros Hvb Hrun.
  destruct (layout2_inv _ _ _ Hvb Hrun) as (vis & l0 & _ & Hmatch).
  destruct vis as [|v vis'].
  - subst sys'. simpl. unfold sameMeasures.
    induction (ml sys); constructor; auto 10.
  - destruct Hmatch as (stv1 & back & last_ss & _ & _ & _ & _ & _ & _ & Hml & _).
    rewrite Hml. apply setMeasureHeight_sameMeasures.
Qed.
End Measures.

(** ** A second pass in continuous view *)

Section SecondPass.
Context `{Collaborators}.
Variable score : Score.

Lemma staff_rebuildSkylines sks sys i :
  System.staff (rebuildSkylines sks sys) i
  = (fun ss => SysStaff.setSkyline (sks i) ss) <$> System.staff sys i.
Proof.
  rewrite !staff_at. unfold rebuildSkylines, at_. simpl.
  destruct (0 <=? i) eqn:E; [|reflexivity].
  apply Z.leb_le in E. rewrite list_lookup_imap.
  destruct (_staves sys !! Z.to_nat i); simpl; [|reflexivity].
  rewrite Z2Nat.id by exact E. reflexivity.
Qed.

Lemma visibleAt_rebuildSkylines sks sys i :
  visibleAt score (rebuildSkylines sks sys) i = visibleAt score sys i.
Proof.
  unfold visibleAt. rewrite staff_rebuildSkylines.
  destruct (Score.staff score i); [|reflexivity].
  destruct (System.staff sys i); reflexivity.
Qed.

Lemma visibleAt_layout2 sys sys' i :
  System.vbox sys = None -> System.layout2 score sys = Some sys' ->
  visibleAt score sys' i = visibleAt score sys i.
Proof.
  intros Hvb Hrun. destruct (layout2_keeps _ _ _ Hvb Hrun) as [Hlen Hk].
  unfold visibleAt. destruct (Score.staff score i) as [s|]; [|reflexivity].
  destruct (System.staff sys i) as [a|] eqn:Ea;
    destruct (System.staff sys' i) as [b|] eqn:Eb.
  - destruct (Hk _ _ _ Ea Eb) as (_ & Hshow & _). rewrite Hshow. reflexivity.
  - exfalso. rewrite staff_at in Ea, Eb. apply at_Some in Ea as [Hi Ea].
    apply lookup_lt_Some in Ea. rewrite <- Hlen in Ea.
    destruct (lookup_lt_is_Some_2 _ _ Ea) as [b Hb].
    assert (at_ (_staves sys') i = Some b) by (apply at_Some; auto). congruence.
  - exfalso. rewrite staff_at in Ea, Eb. apply at_Some in Eb as [Hi Eb].
    apply lookup_lt_Some in Eb. rewrite Hlen in Eb.
    destruct (lookup_lt_is_Some_2 _ _ Eb) as [a Ha].
    assert (at_ (_staves sys) i = Some a) by (apply at_Some; auto). congruence.
  - reflexivity.
Qed.

Lemma adjacentVisible_ext sys sysR si1 si2 :
  (forall i, visibleAt score sysR i = visibleAt score sys i) ->
  adjacentVisible score sys si1 si2 -> adjacentVisible score sysR si1 si2.
Proof.
  intros Hv (Hlt & H1 & H2 & Hgap). unfold adjacentVisible.
  rewrite !Hv. split; [exact Hlt|]. split; [exact H1|]. split; [exact H2|].
  intros k Hk. rewrite Hv. apply Hgap, Hk.
Qed.
Lemma sameMeasures_trans l1 l2 l3 :
  sameMeasures l1 l2 -> sameMeasures l2 l3 -> sameMeasures l1 l3.
Proof.
  unfold sameMeasures. intros H12. revert l3.
  induction H12 as [|a b l1 l2 Hab _ IH]; intros l3 H23; inversion H23; subst;
    constructor; [|apply IH; assumption].
  destruct Hab as (A1 & A2 & A3 & A4 & A5).
  match goal with Hbc : _ /\ _ |- _ => destruct Hbc as (B1 & B2 & B3 & B4 & B5) end.
  repeat split; congruence.
Qed.

Lemma visibleAt_shown sysA sysB i :
  List.map _show (_staves sysA) = List.map _show (_staves sysB) ->
  visibleAt score sysA i = visibleAt score sysB i.
Proof.
  intros E. unfold visibleAt. rewrite !staff_at. unfold at_.
  destruct (Score.staff score i) as [s|]; [|reflexivity].
  destruct (0 <=? i); [|reflexivity].
  change (List.map _show (_staves sysA)) with (_show <$> _staves sysA) in E.
  change (List.map _show (_staves sysB)) with (_show <$> _staves sysB) in E.
  apply (f_equal (fun l => l !! Z.to_nat i)) in E. rewrite !list_lookup_fmap in E.
  destruct (_staves sysA !! Z.to_nat i); destruct (_staves sysB !! Z.to_nat i);
    simpl in E; try discriminate; [|reflexivity].
  inversion E as [E']. rewrite E'. reflexivity.
Qed.

(** A second pass on a system with the same spacers and the same shown
    records, whose record of the upper staff remembers at least what the
    first pass left, does not place two neighbouring staves closer. *)
Lemma second_pass_not_closer sys sys1 sysR sys2 si1 si2 a1 b1 a2 b2 :
  lineMode score = true ->
  System.vbox sys = None ->
  System.layout2 score sys = Some sys1 ->
  sameMeasures (ml sys1) (ml sysR) ->
  List.map _show (_staves sysR) = List.map _show (_staves sys1) ->
  (forall r, System.staff sysR si1 = Some r ->
     (_continuousDist a1 <= _continuousDist r)%Q) ->
  System.layout2 score sysR = Some sys2 ->
  adjacentVisible score sys si1 si2 ->
  System.staff sys1 si1 = Some a1 -> System.staff sys1 si2 = Some b1 ->
  System.staff sys2 si1 = Some a2 -> System.staff sys2 si2 = Some b2 ->
  (staffY b1 - staffY a1 <= staffY b2 - staffY a2)%Q.
Proof.
  intros Hline Hvb Hrun HsameR Hshow Hmemory Hrun2 Hadj Ha1 Hb1 Ha2 Hb2.
  pose proof (layout2_sameMeasures _ _ _ Hvb Hrun) as Hsame1.
  pose proof (sameMeasures_trans _ _ _ Hsame1 HsameR) as Hsame.
  assert (HvbR : System.vbox sysR = None)
    by (apply (sameMeasures_vbox sys sysR); [exact Hsame | exact Hvb]).
  assert (HadjR : adjacentVisible score sysR si1 si2).
  { apply (adjacentVisible_ext sys); [|exact Hadj].
    intros i. rewrite (visibleAt_shown sysR sys1 i Hshow).
    apply visibleAt_layout2; assumption. }
  destruct (layout2_adjacent _ _ _ _ _ Hvb Hrun Hadj)
    as (dist1 & ss1a & a1' & b1' & Hd1 & Ha1' & Hb1' & Hy1 & Hc1).
  rewrite Ha1 in Ha1'. inversion Ha1'; subst a1'.
  rewrite Hb1 in Hb1'. inversion Hb1'; subst b1'.
  destruct (layout2_adjacent _ _ _ _ _ HvbR Hrun2 HadjR)
    as (dist2 & ss2a & a2' & b2' & Hd2 & Ha2' & Hb2' & Hy2 & _).
  rewrite Ha2 in Ha2'. inversion Ha2'; subst a2'.
  rewrite Hb2 in Hb2'. inversion Hb2'; subst b2'.
  destruct (boundaryDist_inv _ _ _ _ _ _ Hd1)
    as (staff1 & staff2 & ss & Hst1 & Hst2 & Hss & Hcases1).
  destruct (boundaryDist_inv _ _ _ _ _ _ Hd2)
    as (staff1' & staff2' & ssR & Hst1' & Hst2' & HssR & Hcases2).
  rewrite Hst1 in Hst1'. inversion Hst1'; subst staff1'.
  rewrite Hst2 in Hst2'. inversion Hst2'; subst staff2'.
  cbv zeta in Hcases1, Hcases2.
  rewrite (sameMeasures_scan _ _ _ _ _ Hsame) in Hcases2.
  rewrite (sameMeasures_startDist score sys sysR staff1 staff2 Hsame) in Hcases2.
  set (scan := System.scanSpacers (height staff1) si1 si2 (ml sys)
                 (System.startDist score sys staff1 staff2)) in *.
  destruct Hcases1 as [(Hf1 & Hdist1 & _) | (Hf1 & ss2 & Hss2 & Hdist1 & Hrec1)];
    destruct Hcases2 as [(Hf2 & Hdist2 & _) | (Hf2 & ssR2 & HssR2 & Hdist2 & _)];
    try congruence.
  - rewrite Hdist1 in Hy1. rewrite Hdist2 in Hy2. lra.
  - specialize (Hmemory ssR HssR).
    destruct (skylineDist_lineMode score ss ss2 Hline) as [_ Hstored].
    destruct (skylineDist_ge score ssR ssR2) as [_ Hmem].
    specialize (Hmem Hline).
    rewrite Hc1, Hrec1, Hstored in Hmemory.
    rewrite Hdist1 in Hy1. rewrite Hdist2 in Hy2.
    pose proof (qMax_mono_r (fst scan)
                  (fst (System.skylineDist score ss ss2)
                   + minVerticalDistance (style score))%Q
                  (fst (System.skylineDist score ssR ssR2)
                   + minVerticalDistance (style score))%Q ltac:(lra)) as Hmono.
    lra.
Qed.
End SecondPass.

(** C3, as amended.  In continuous view, for a system that is not a frame:
    - a pass of layout2 never lowers the distance remembered in a record;
    - at a boundary where the skyline is asked (no FIXED down-spacer on the
      upper staff), the distance remembered after the pass is the new
      skyline distance if that exceeds the distance remembered before, and
      the distance remembered before otherwise, and the staves are placed at
      least that far apart plus the minimum vertical distance;
    - when layout2 runs again for the same score, on a system whose measures
      carry the same spacers, whose records are shown as before and whose
      record of the upper staff remembers at least the distance the first
      pass left, no two adjacent visible staves end up closer than after the
      first pass, whatever has become of skylines, boxes and names;
    - in particular when the skylines are rebuilt in any way and layout2
      runs again.
    The gap can shrink when a spacer is taken away between the passes. *)
Theorem continuous_distance_never_shrinks `{Collaborators}
    (score : Score) (sys sys1 : System) :
  lineMode score = true ->
  System.vbox sys = None ->
  System.layout2 score sys = Some sys1 ->
  (forall i ss ss1,
      System.staff sys i = Some ss -> System.staff sys1 i = Some ss1 ->
      (_continuousDist ss <= _continuousDist ss1)%Q)
  /\ (forall si1 si2 ss ss2 a1 b1,
      adjacentVisible score sys si1 si2 ->
      Forall (fun mb => hasFixedDown si1 mb = false) (ml sys) ->
      System.staff sys si1 = Some ss -> System.staff sys si2 = Some ss2 ->
      System.staff sys1 si1 = Some a1 -> System.staff sys1 si2 = Some b1 ->
      _continuousDist a1
      = (if qLess (_continuousDist ss) (minDistance (_skyline ss) (_skyline ss2))
         then minDistance (_skyline ss) (_skyline ss2) else _continuousDist ss)
      /\ (_continuousDist a1 + minVerticalDistance (style score)
          <= staffY b1 - staffY a1)%Q)
  /\ (forall sysR sys2 si1 si2 a1 b1 a2 b2,
      sameMeasures (ml sys1) (ml sysR) ->
      List.map _show (_staves sysR) = List.map _show (_staves sys1) ->
      (forall r, System.staff sysR si1 = Some r ->
         (_continuousDist a1 <= _continuousDist r)%Q) ->
      System.layout2 score sysR = Some sys2 ->
      adjacentVisible score sys si1 si2 ->
      System.staff sys1 si1 = Some a1 -> System.staff sys1 si2 = Some b1 ->
      System.staff sys2 si1 = Some a2 -> System.staff sys2 si2 = Some b2 ->
      (staffY b1 - staffY a1 <= staffY b2 - staffY a2)%Q)
  /\ (forall sks sys2 si1 si2 a1 b1 a2 b2,
      System.layout2 score (rebuildSkylines sks sys1) = Some sys2 ->
      adjacentVisible score sys si1 si2 ->
      System.staff sys1 si1 = Some a1 -> System.staff sys1 si2 = Some b1 ->
      System.staff sys2 si1 = Some a2 -> System.staff sys2 si2 = Some b2 ->
      (staffY b1 - staffY a1 <= staffY b2 - staffY a2)%Q).
Proof.
  intros Hline Hvb Hrun.
  destruct (layout2_keeps _ _ _ Hvb Hrun) as [Hlen Hkeeps].
  split; [|split; [|split]].
  - intros i ss ss1 Hss Hss1. apply (Hkeeps _ _ _ Hss Hss1).
  - intros si1 si2 ss ss2 a1 b1 Hadj Hnofix Hss Hss2 Ha1 Hb1.
    destruct (layout2_adjacent _ _ _ _ _ Hvb Hrun Hadj)
      as (dist & ss1a & a1' & b1' & Hd & Ha1' & Hb1' & Hy & Hc).
    rewrite Ha1 in Ha1'. inversion Ha1'; subst a1'.
    rewrite Hb1 in Hb1'. inversion Hb1'; subst b1'.
    destruct (boundaryDist_inv _ _ _ _ _ _ Hd)
      as (staff1 & staff2 & ss' & _ & _ & Hss' & Hcases).
    rewrite Hss in Hss'. inversion Hss'; subst ss'.
    cbv zeta in Hcases.
    destruct (scanSpacers_elastic (height staff1) si1 si2 (ml sys)
                (System.startDist score sys staff1 staff2) Hnofix) as (Hsnd & _).
    destruct Hcases as [(Htrue & _) | (_ & ss2' & Hss2' & Hdist & Hrec)]; [congruence|].
    rewrite Hss2 in Hss2'. inversion Hss2'; subst ss2'.
    destruct (skylineDist_lineMode score ss ss2 Hline) as [Hused Hstored].
    rewrite Hc, Hrec, Hstored. split; [exact Hused|].
    pose proof (qMax_ge_r
                  (fst (System.scanSpacers (height staff1) si1 si2 (ml sys)
                          (System.startDist score sys staff1 staff2)))
                  (fst (System.skylineDist score ss ss2)
                   + minVerticalDistance (style score))%Q) as Hr.
    rewrite <- Hdist in Hr. lra.
  - intros sysR sys2 si1 si2 a1 b1 a2 b2 HsameR Hshow Hmemory Hrun2 Hadj Ha1 Hb1 Ha2 Hb2.
    exact (second_pass_not_closer score sys sys1 sysR sys2 si1 si2 a1 b1 a2 b2
             Hline Hvb Hrun HsameR Hshow Hmemory Hrun2 Hadj Ha1 Hb1 Ha2 Hb2).
  - intros sks sys2 si1 si2 a1 b1 a2 b2 Hrun2 Hadj Ha1 Hb1 Ha2 Hb2.
    apply (second_pass_not_closer score sys sys1 (rebuildSkylines sks sys1) sys2
             si1 si2 a1 b1 a2 b2 Hline Hvb Hrun); try assumption.
    + unfold sameMeasures. simpl. clear. induction (ml sys1); constructor; auto 10.
    + unfold rebuildSkylines. simpl. clear.
      change (List.map _show) with (fmap (M := list) _show).
      rewrite fmap_imap. unfold compose. simpl.
      exact (imap_const _show (_staves sys1)).
    + intros r Hr. rewrite staff_rebuildSkylines, Ha1 in Hr. simpl in Hr.
      inversion Hr; subst r. simpl. lra.
Qed.

Lemma continuous_distance_never_shrinks_witness :
  exists a1 b1 a2 b2,
    System.staff (Sample.laidOut Sample.scoreLine
                    (Sample.system [Sample.measure 0 Sample.noSpacer])) 0 = Some a1
    /\ System.staff (Sample.laidOut Sample.scoreLine
                       (Sample.system [Sample.measure 0 Sample.noSpacer])) 1 = Some b1
    /\ System.staff (Sample.laidOut Sample.scoreLine
                       (rebuildSkylines Sample.lowSkylines
                          (Sample.laidOut Sample.scoreLine
                             (Sample.system [Sample.measure 0 Sample.noSpacer])))) 0
       = Some a2
    /\ System.staff (Sample.laidOut Sample.scoreLine
                       (rebuildSkylines Sample.lowSkylines
                          (Sample.laidOut Sample.scoreLine
                             (Sample.system [Sample.measure 0 Sample.noSpacer])))) 1
       = Some b2
    /\ (staffY b1 - staffY a1 <= staffY b2 - staffY a2)%Q.
Proof.
  do 4 eexists.
  split; [vm_compute; reflexivity|]. split; [vm_compute; reflexivity|].
  split; [vm_compute; reflexivity|]. split; [vm_compute; reflexivity|].
  eapply (proj2 (proj2 (proj2 (continuous_distance_never_shrinks
                          Sample.scoreLine
                          (Sample.system [Sample.measure 0 Sample.noSpacer])
                          (Sample.laidOut Sample.scoreLine
                             (Sample.system [Sample.measure 0 Sample.noSpacer]))
                          eq_refl eq_refl ltac:(vm_compute; reflexivity))))
            Sample.lowSkylines
            (Sample.laidOut Sample.scoreLine
               (rebuildSkylines Sample.lowSkylines
                  (Sample.laidOut Sample.scoreLine
                     (Sample.system [Sample.measure 0 Sample.noSpacer]))))
            0 1).
  - vm_compute. reflexivity.
  - neighbours_visible.
  - vm_compute. reflexivity.
  - vm_compute. reflexivity.
  - vm_compute. reflexivity.
  - vm_compute. reflexivity.
Defined.

(** C3 as stated fails: the gap can shrink between two passes.  The sample
    score in continuous view, with an elastic down-spacer of gap 200 on the
    first staff: the first pass puts the top lines of the first two staves
    240 apart and remembers the skyline distance 120.  The spacer is taken
    away and layout2 runs again, with no full layout in between: the
    remembered distance is still 120, and the top lines are now 125 apart. *)
Lemma gap_shrinks_when_spacer_is_removed :
  let sys := Sample.system [Sample.measure 0 (Sample.downBelow0 200%Q)] in
  let sys1 := Sample.laidOut Sample.scoreLine sys in
  let sysR := System.set_ml [Sample.measure 0 Sample.noSpacer] sys1 in
  let sys2 := Sample.laidOut Sample.scoreLine sysR in
  lineMode Sample.scoreLine = true
  /\ System.layout2 Sample.scoreLine sys = Some sys1
  /\ System.layout2 Sample.scoreLine sysR = Some sys2
  /\ _staves sysR = _staves sys1
  /\ adjacentVisible Sample.scoreLine sys 0 1
  /\ adjacentVisible Sample.scoreLine sysR 0 1
  /\ exists a1 b1 a2 b2,
       System.staff sys1 0 = Some a1 /\ System.staff sys1 1 = Some b1
       /\ System.staff sys2 0 = Some a2 /\ System.staff sys2 1 = Some b2
       /\ (staffY b1 - staffY a1 == 240)%Q
       /\ (staffY b2 - staffY a2 == 125)%Q
       /\ (_continuousDist a1 == 120)%Q
       /\ (_continuousDist a2 == 120)%Q.
Proof.
  cbv zeta.
  split; [reflexivity|]. split; [vm_compute; reflexivity|].
  split; [vm_compute; reflexivity|]. split; [reflexivity|].
  split; [neighbours_visible|]. split; [neighbours_visible|].
  do 4 eexists.
  split; [vm_compute; reflexivity|]. split; [vm_compute; reflexivity|].
  split; [vm_compute; reflexivity|]. split; [vm_compute; reflexivity|].
  split; [vm_compute; reflexivity|]. split; [vm_compute; reflexivity|].
  split; vm_compute; reflexivity.
Qed.

(** * A system without visible staves *)

Section NoVisibleStaves.
Context `{Collaborators}.
Variable score : Score.

Lemma collectVisibleStaves_none l : forall i,
  0 <= i -> i + size l <= size (staves score) ->
  (forall (k : nat) ss s,
      l !! k = Some ss -> Score.staff score (i + Z.of_nat k) = Some s ->
      show s && _show ss = false) ->
  System.collectVisibleStaves score i l
  = Some ([], List.map (SysStaff.setbbox RectF.null) l).
Proof.
  unfold size. induction l as [|ss0 l IH]; intros i Hi Hcov Hhid; simpl; [reflexivity|].
  cbn [length] in Hcov.
  destruct (lookup_lt_is_Some_2 (staves score) (Z.to_nat i) ltac:(lia)) as [s0 Hs0].
  assert (Es0 : Score.staff score i = Some s0) by (apply Score_staff_Some; auto).
  rewrite Es0. simpl.
  rewrite (IH (i + 1)); [| lia | lia |].
  - simpl. rewrite (Hhid O ss0 s0 eq_refl); [reflexivity|].
    replace (i + Z.of_nat 0) with i by lia. exact Es0.
  - intros k ss s Hk Hs. apply (Hhid (S k) ss s Hk).
    replace (i + Z.of_nat (S k)) with (i + 1 + Z.of_nat k) by lia. exact Hs.
Qed.
End NoVisibleStaves.

(** C6.  Let a system that is not a frame have no visible staff, every
    record having its staff in the score.  Then layout2 returns, and what it
    returns is the system moved to the origin, with the box of every record
    cleared and one message logged: system height, system box, measures,
    brackets and every other field of the records are as before. *)
Theorem layout2_no_visible_staves `{Collaborators} (score : Score) (sys : System) :
  System.vbox sys = None ->
  stavesCovered score sys ->
  (forall i, visibleAt score sys i = false) ->
  exists sys',
    System.layout2 score sys = Some sys'
    /\ _systemHeight sys' = _systemHeight sys
    /\ sys_bbox sys' = sys_bbox sys
    /\ ml sys' = ml sys
    /\ _brackets sys' = _brackets sys
    /\ _leftMargin sys' = _leftMargin sys
    /\ _staves sys' = List.map (SysStaff.setbbox RectF.null) (_staves sys)
    /\ sys_pos sys' = (0%Q, 0%Q)
    /\ debugLog sys'
       = debugLog sys ++ [NoVisibleStaves (size (_staves sys)) (size (staves score))].
Proof.
  intros Hvb Hcov Hhid.
  assert (Hcol : System.collectVisibleStaves score 0 (_staves sys)
                 = Some ([], List.map (SysStaff.setbbox RectF.null) (_staves sys))).
  { apply collectVisibleStaves_none; [lia | exact Hcov |].
    intros k ss s Hk Hs. specialize (Hhid (Z.of_nat k)). unfold visibleAt in Hhid.
    replace (0 + Z.of_nat k) with (Z.of_nat k) in Hs by lia.
    rewrite Hs, staff_at in Hhid.
    replace (at_ (_staves sys) (Z.of_nat k)) with (Some ss) in Hhid; [exact Hhid|].
    symmetry. apply at_Some. split; [lia|]. rewrite Nat2Z.id. exact Hk. }
  eexists. split.
  - unfold System.layout2. rewrite Hvb.
    change (_staves (System.setPos 0%Q 0%Q sys)) with (_staves sys).
    rewrite Hcol. simpl. reflexivity.
  - simpl. unfold size. rewrite length_map. repeat split; reflexivity.
Qed.

Lemma layout2_no_visible_staves_witness :
  exists sys',
    System.layout2 Sample.score Sample.systemAllHidden = Some sys'
    /\ _systemHeight sys' = 0%Q
    /\ sys_bbox sys' = mkRectF 0%Q 0%Q 500%Q 0%Q
    /\ debugLog sys' = [NoVisibleStaves 3 3].
Proof.
  destruct (layout2_no_visible_staves Sample.score Sample.systemAllHidden)
    as (sys' & Hrun & Hh & Hb & _ & _ & _ & _ & _ & Hlog).
  - reflexivity.
  - unfold stavesCovered, size. simpl. lia.
  - intros i.
    destruct (Z.eq_dec i 0) as [-> | H0]; [reflexivity|].
    destruct (Z.eq_dec i 1) as [-> | H1]; [reflexivity|].
    destruct (Z.eq_dec i 2) as [-> | H2]; [reflexivity|].
    unfold visibleAt, Score.staff. change (size (staves Sample.score)) with 3.
    destruct (0 <=? i) eqn:E0; [|reflexivity].
    destruct (i <? 3) eqn:E3; [|reflexivity].
    apply Z.leb_le in E0. apply Z.ltb_lt in E3. lia.
  - exists sys'. split; [exact Hrun|]. split; [exact Hh|]. split; [exact Hb | exact Hlog].
Defined.

(** * Replaying a saved layout *)

Section Restore.
Context `{Collaborators}.
Variable score : Score.

Lemma restoreLayout_saved r : saved r -> SysStaff.restoreLayout r = r.
Proof.
  destruct r as [[x y w h] sk yo yp ht cd sh names].
  unfold saved, SysStaff.restoreLayout, SysStaff.setbbox. simpl.
  unfold RectF.y, RectF.height, RectF.setHeight, RectF.setY. simpl.
  intros [-> ->]. reflexivity.
Qed.

Lemma saved_placed sys y staff1 ss : saved (placed score sys y staff1 ss).
Proof. split; reflexivity. Qed.

Lemma saved_erase a b : eraseNames a = eraseNames b -> saved b -> saved a.
Proof.
  intros E [Hy Hh]. unfold saved.
  change (_yPos a) with (_yPos (eraseNames a)).
  change (_height a) with (_height (eraseNames a)).
  change (_bbox a) with (_bbox (eraseNames a)).
  rewrite E. simpl. auto.
Qed.

(** Every staff of the list ends up placed. *)
Lemma layout2_staves_placed sys vis : forall lo y stv stv' si,
  0 <= lo -> increasingFrom lo vis ->
  System.layout2_staves score sys vis y stv = Some stv' ->
  si ∈ vis ->
  exists y1 staff1 ss, at_ stv' si = Some (placed score sys y1 staff1 ss).
Proof.
  induction vis as [|si1 rest IH]; intros lo y stv stv' si Hlo Hinc Hrun Hin.
  - apply elem_of_nil in Hin. contradiction.
  - apply elem_of_cons in Hin. destruct Hin as [-> | Hin].
    + destruct (layout2_staves_head _ _ _ _ _ _ _ _ Hinc Hrun) as (ss & staff1 & _ & Hat).
      exists y, staff1, ss. exact Hat.
    + destruct (layout2_staves_step _ _ _ _ _ _ _ Hrun) as (ss & staff1 & _ & _ & Hrest).
      destruct rest as [|si2 rest']; [apply elem_of_nil in Hin; contradiction|].
      destruct Hrest as (dist & ss1a & _ & Hrec).
      simpl in Hinc. destruct Hinc as [Hlo1 Hinc].
      apply (IH (si1 + 1) _ _ _ si ltac:(lia) Hinc Hrec Hin).
Qed.

Lemma setMeasureHeight1_twice _spatium h m0 :
  isMeasure m0 = true ->
  fst (System.setMeasureHeight1 _spatium h (fst (System.setMeasureHeight1 _spatium h m0)))
  = fst (System.setMeasureHeight1 _spatium h m0).
Proof.
  intros Hm. unfold System.setMeasureHeight1. rewrite Hm. simpl.
  unfold isMeasure in *. simpl. rewrite Hm. reflexivity.
Qed.

Lemma setMeasureHeight1_isMeasure _spatium h m0 :
  isMeasure (fst (System.setMeasureHeight1 _spatium h m0)) = isMeasure m0.
Proof.
  unfold System.setMeasureHeight1.
  destruct (isMeasure m0) eqn:Em; [exact Em|].
  destruct (isHBox m0); [exact Em|]. destruct (isTBox m0); exact Em.
Qed.
End Restore.

(** C5, as amended.  Let layout2 have run on a system that is a frame or
    has at least one visible staff.  Then restoreLayout2, called next,
    gives every visible staff the record it had after layout2 (box, offset
    and saved values alike), leaves the system height and the system box as
    layout2 set them, and gives every measure the box it had. *)
Theorem restoreLayout2_reproduces_visible `{Collaborators}
    (score : Score) (sys sys' : System) :
  System.layout2 score sys = Some sys' ->
  (System.vbox sys = None -> exists i, visibleAt score sys i = true) ->
  _systemHeight (System.restoreLayout2 score sys') = _systemHeight sys'
  /\ sys_bbox (System.restoreLayout2 score sys') = sys_bbox sys'
  /\ (forall i, visibleAt score sys i = true ->
        System.staff (System.restoreLayout2 score sys') i = System.staff sys' i)
  /\ (forall (k : nat) m, ml sys' !! k = Some m -> isMeasure m = true ->
        ml (System.restoreLayout2 score sys') !! k = Some m).
Proof.
  intros Hrun Hsome.
  destruct (System.vbox sys) as [vb|] eqn:Hvb.
  - assert (Hvb' : System.vbox sys' <> None).
    { unfold System.layout2 in Hrun. rewrite Hvb in Hrun. inversion Hrun; subst sys'.
      unfold System.vbox in *. simpl.
      destruct (ml sys) as [|m0 ms]; [discriminate|]. simpl.
      destruct (isVBox m0 || isTBox m0) eqn:E; [|discriminate].
      inversion Hvb; subst vb. unfold isVBox, isTBox in *. simpl. rewrite E. discriminate. }
    unfold System.restoreLayout2. destruct (System.vbox sys'); [|congruence].
    repeat split; auto.
  - destruct (Hsome eq_refl) as [i0 Hi0].
    destruct (layout2_inv _ _ _ Hvb Hrun) as (vis & l0 & Hcol & Hmatch).
    pose proof (collectVisibleStaves_visible _ _ _ _ Hcol) as Hvis.
    destruct (collectVisibleStaves_spec score (_staves sys) 0 vis l0 ltac:(lia) Hcol)
      as (_ & Hinc & _).
    destruct vis as [|v vis'].
    { apply (proj1 (Hvis i0)) in Hi0. apply elem_of_nil in Hi0. contradiction. }
    destruct Hmatch as (stv1 & back & last_ss & Hloop & _ & _ & Herase & Hh & Hb & Hml & _).
    pose proof (layout2_sameMeasures _ _ _ Hvb Hrun) as Hsame.
    pose proof (sameMeasures_vbox sys sys' Hsame Hvb) as Hvb'.
    unfold System.restoreLayout2. rewrite Hvb'. simpl.
    split; [reflexivity|].
    split; [rewrite Hb, Hh; reflexivity|].
    split.
    + intros i Hi. apply (proj1 (Hvis i)) in Hi.
      destruct (layout2_staves_placed score (cleared l0 sys) (v :: vis') 0 _ _ _ i
                  ltac:(lia) Hinc Hloop Hi)
        as (y1 & staff1 & ss & Hat).
      rewrite !staff_at. simpl.
      pose proof (erase_lookup _ _ _ Hat) as Hl. rewrite <- Herase in Hl.
      rewrite list_lookup_fmap in Hl.
      apply at_Some in Hat as [Hi0' _].
      destruct (_staves sys' !! Z.to_nat i) as [r|] eqn:Er; [|discriminate].
      simpl in Hl.
      assert (Hsaved : saved r).
      { apply (saved_erase r (placed score (cleared l0 sys) y1 staff1 ss)).
        - congruence.
        - apply saved_placed. }
      unfold at_. replace (0 <=? i) with true by (symmetry; apply Z.leb_le; lia).
      change (map SysStaff.restoreLayout (_staves sys'))
        with (SysStaff.restoreLayout <$> _staves sys').
      rewrite list_lookup_fmap, Er. simpl.
      rewrite (restoreLayout_saved r Hsaved). reflexivity.
    + intros k m Hk Hm.
      change (map fst (map (System.setMeasureHeight1 (spatium score) (_systemHeight sys'))
                         (ml sys')))
        with (fst <$> (System.setMeasureHeight1 (spatium score) (_systemHeight sys')
                         <$> ml sys')).
      rewrite !list_lookup_fmap, Hk. simpl.
      rewrite Hml in Hk.
      change (map fst (map (System.setMeasureHeight1 (spatium score)
                              (RectF.bottom (_bbox last_ss))) (ml sys)))
        with (fst <$> (System.setMeasureHeight1 (spatium score)
                         (RectF.bottom (_bbox last_ss)) <$> ml sys)) in Hk.
      rewrite !list_lookup_fmap in Hk.
      destruct (ml sys !! k) as [m0|]; [|discriminate]. simpl in Hk.
      inversion Hk; subst m. rewrite setMeasureHeight1_isMeasure in Hm.
      rewrite Hh, setMeasureHeight1_twice by exact Hm. reflexivity.
Qed.

Lemma restoreLayout2_reproduces_visible_witness :
  _systemHeight (System.restoreLayout2 Sample.score
                   (Sample.laidOut Sample.score Sample.systemSecondHidden))
  = _systemHeight (Sample.laidOut Sample.score Sample.systemSecondHidden)
  /\ System.staff (System.restoreLayout2 Sample.score
                     (Sample.laidOut Sample.score Sample.systemSecondHidden)) 2
     = System.staff (Sample.laidOut Sample.score Sample.systemSecondHidden) 2.
Proof.
  destruct (restoreLayout2_reproduces_visible
              Sample.score Sample.systemSecondHidden
              (Sample.laidOut Sample.score Sample.systemSecondHidden))
    as (Hh & _ & Hst & _).
  - vm_compute. reflexivity.
  - intros _. exists 0. reflexivity.
  - split; [exact Hh|]. apply Hst. reflexivity.
Defined.

(** C5 as stated fails.  The sample system is laid out once with three
    visible staves; its second staff is then hidden and layout2 runs again.
    layout2 clears the box of the hidden record but leaves the position and
    height saved by the first pass (125 and 40); restoreLayout2 writes them
    back, so the record that had the empty box after layout2 has a box at
    y = 125 of height 40 after restoreLayout2. *)
Lemma restoreLayout2_changes_hidden_staff :
  let sys' := Sample.laidOut Sample.score Sample.systemSecondHidden in
  System.layout2 Sample.score Sample.systemSecondHidden = Some sys'
  /\ exists ss ssR,
       System.staff sys' 1 = Some ss
       /\ System.staff (System.restoreLayout2 Sample.score sys') 1 = Some ssR
       /\ _bbox ss = RectF.null
       /\ _bbox ssR = mkRectF 0%Q 125%Q 0%Q 40%Q
       /\ _bbox ssR <> _bbox ss.
Proof.
  cbv zeta. split; [vm_compute; reflexivity|].
  do 2 eexists.
  split; [vm_compute; reflexivity|]. split; [vm_compute; reflexivity|].
  split; [vm_compute; reflexivity|]. split; [vm_compute; reflexivity|].
  vm_compute. discriminate.
Qed.

(** * Brackets *)

Section ShownRange.
Variable shown : Z -> option bool.

Lemma firstShown_spec n : forall i,
  (forall j, i <= j < i + Z.of_nat n -> is_Some (shown j)) ->
  exists f,
    System.firstShown shown i n = Some f
    /\ i <= f <= i + Z.of_nat n
    /\ (forall j, i <= j < f -> shown j = Some false)
    /\ (f < i + Z.of_nat n -> shown f = Some true).
Proof.
  induction n as [|n IH]; intros i Hdef; simpl.
  - exists i. split; [reflexivity|]. split; [lia|]. split; intros; lia.
  - destruct (Hdef i ltac:(lia)) as [b Hb]. rewrite Hb. simpl. destruct b.
    + exists i. split; [reflexivity|]. split; [lia|].
      split; [intros; lia | intros _; exact Hb].
    + destruct (IH (i + 1)) as (f & Hf & Hr & Hhid & Hsh).
      { intros j Hj. apply Hdef. lia. }
      exists f. split; [exact Hf|]. split; [lia|]. split.
      * intros j Hj. destruct (Z.eq_dec j i) as [-> | Hne]; [exact Hb|].
        apply Hhid. lia.
      * intros Hlt. apply Hsh. lia.
Qed.

Lemma lastShown_spec n : forall j,
  (forall i, j - Z.of_nat n < i <= j -> is_Some (shown i)) ->
  exists l,
    System.lastShown shown j n = Some l
    /\ j - Z.of_nat n <= l <= j
    /\ (forall i, l < i <= j -> shown i = Some false)
    /\ (j - Z.of_nat n < l -> shown l = Some true).
Proof.
  induction n as [|n IH]; intros j Hdef; simpl.
  - exists j. split; [reflexivity|]. split; [lia|]. split; intros; lia.
  - destruct (Hdef j ltac:(lia)) as [b Hb]. rewrite Hb. simpl. destruct b.
    + exists j. split; [reflexivity|]. split; [lia|].
      split; [intros; lia | intros _; exact Hb].
    + destruct (IH (j - 1)) as (l & Hl & Hr & Hhid & Hsh).
      { intros i Hi. apply Hdef. lia. }
      exists l. split; [exact Hl|]. split; [lia|]. split.
      * intros i Hi. destruct (Z.eq_dec i j) as [-> | Hne]; [exact Hb|].
        apply Hhid. lia.
      * intros Hlt. apply Hsh. lia.
Qed.
End ShownRange.

Section VisibleRange.
Context `{Collaborators}.

Lemma shown_staff sys i :
  0 <= i < size (_staves sys) ->
  exists b, _show <$> System.staff sys i = Some b /\ shownAt sys i = b.
Proof.
  intros Hi. unfold shownAt. rewrite staff_at. unfold at_, size in *.
  replace (0 <=? i) with true by (symmetry; apply Z.leb_le; lia).
  destruct (lookup_lt_is_Some_2 (_staves sys) (Z.to_nat i) ltac:(lia)) as [ss Hss].
  rewrite Hss. simpl. eauto.
Qed.

Lemma shown_staff_eq sys i b :
  0 <= i < size (_staves sys) ->
  _show <$> System.staff sys i = Some b -> shownAt sys i = b.
Proof.
  intros Hi Hb. destruct (shown_staff sys i Hi) as (b' & Hb' & Hs). congruence.
Qed.

(** The two loops of createBracket find the visible span. *)
Lemma visibleRange_spec sys bi staffIdx :
  0 <= staffIdx < size (_staves sys) ->
  exists f l,
    System.visibleRange sys bi staffIdx = Some (f, l)
    /\ visibleSpanOf sys bi staffIdx f l.
Proof.
  intros Hidx. unfold System.visibleRange, visibleSpanOf.
  set (nst := size (_staves sys)) in *.
  set (last0 := Z.min (staffIdx + bracketSpan bi - 1) (nst - 1)).
  assert (Elast : (if nst <=? staffIdx + bracketSpan bi - 1 then nst - 1
                   else staffIdx + bracketSpan bi - 1) = last0).
  { unfold last0. destruct (nst <=? staffIdx + bracketSpan bi - 1) eqn:E.
    - apply Z.leb_le in E. lia.
    - apply Z.leb_gt in E. lia. }
  rewrite Elast.
  assert (Hlast : last0 <= nst - 1) by (unfold last0; lia).
  set (shown := fun i => _show <$> System.staff sys i).
  destruct (firstShown_spec shown (Z.to_nat (last0 - staffIdx + 1)) staffIdx)
    as (f & Hf & Hfr & Hfhid & Hfsh).
  { intros j Hj. destruct (shown_staff sys j ltac:(fold nst; lia)) as (b & Hb & _).
    exists b. exact Hb. }
  rewrite Hf. simpl.
  destruct (lastShown_spec shown (Z.to_nat (last0 - f + 1)) last0)
    as (l & Hl & Hlr & Hlhid & Hlsh).
  { intros i Hi. destruct (shown_staff sys i ltac:(fold nst; lia)) as (b & Hb & _).
    exists b. exact Hb. }
  rewrite Hl. simpl.
  exists f, l. split; [reflexivity|].
  split; [|split].
  - intros i Hi. apply shown_staff_eq; [fold nst; lia|]. apply Hfhid. exact Hi.
  - intros i Hi. apply shown_staff_eq; [fold nst; lia|]. apply Hlhid. lia.
  - destruct (Z_lt_le_dec last0 f) as [Hempty | Hsome].
    + right. split; lia.
    + left.
      assert (Hshf : shown f = Some true) by (apply Hfsh; lia).
      assert (Hfl : f <= l).
      { destruct (Z_lt_le_dec l f) as [Hlt | Hle]; [|exact Hle].
        assert (shown f = Some false) by (apply Hlhid; lia). congruence. }
      split; [lia|]. split; [lia|]. split.
      * apply shown_staff_eq; [fold nst; lia | exact Hshf].
      * apply shown_staff_eq; [fold nst; lia|]. apply Hlsh. lia.
Qed.

Lemma shownAt_true sys i :
  shownAt sys i = true ->
  exists ss, System.staff sys i = Some ss /\ at_ (_staves sys) i = Some ss
             /\ _show ss = true.
Proof.
  unfold shownAt. rewrite staff_at.
  destruct (at_ (_staves sys) i) as [ss|]; [|discriminate]. eauto.
Qed.

(** A bracket whose ends are shown staves, and which spans two of them or
    is meant to span one, is given the height from the top of its first
    staff to the bottom of its last. *)
Lemma layoutBracketVertical1_shown score sys b :
  firstStaff b <= lastStaff b ->
  shownAt sys (firstStaff b) = true -> shownAt sys (lastStaff b) = true ->
  alwaysShowBracketsWhenEmptyStavesAreHidden (style score) = true
  \/ firstStaff b < lastStaff b \/ System.Bracket_span b = 1 ->
  exists s1 s2,
    System.staff sys (firstStaff b) = Some s1
    /\ System.staff sys (lastStaff b) = Some s2
    /\ System.layoutBracketVertical1 score (_staves sys) b
       = Some (Bracket_layout
                 (System.Bracket_setVertical (RectF.top (_bbox s1))
                    (RectF.bottom (_bbox s2) - RectF.top (_bbox s1))%Q b)).
Proof.
  intros Hle Hf Hl Hwhy.
  destruct (shownAt_true _ _ Hf) as (s1 & Hs1 & Ha1 & Hsh1).
  destruct (shownAt_true _ _ Hl) as (s2 & Hs2 & Ha2 & Hsh2).
  exists s1, s2. split; [exact Hs1|]. split; [exact Hs2|].
  unfold System.layoutBracketVertical1.
  destruct (Z.to_nat (lastStaff b - firstStaff b + 1)) as [|n] eqn:En; [lia|].
  simpl. rewrite Ha1. simpl. rewrite Hsh1. simpl.
  rewrite En. simpl. rewrite Ha2. simpl. rewrite Hsh2. simpl.
  assert (Hnot : (if alwaysShowBracketsWhenEmptyStavesAreHidden (style score)
                  then firstStaff b <=? lastStaff b
                  else (firstStaff b <? lastStaff b)
                       || ((System.Bracket_span b =? 1)
                           && (firstStaff b =? lastStaff b))) = true).
  { destruct (alwaysShowBracketsWhenEmptyStavesAreHidden (style score)).
    - apply Z.leb_le. exact Hle.
    - destruct Hwhy as [Hp | [Hlt | Hone]]; [discriminate | |].
      + apply orb_true_iff. left. apply Z.ltb_lt. exact Hlt.
      + destruct (Z_lt_le_dec (firstStaff b) (lastStaff b)) as [Hlt | Hge].
        * apply orb_true_iff. left. apply Z.ltb_lt. exact Hlt.
        * apply orb_true_iff. right. apply andb_true_iff.
          split; [apply Z.eqb_eq; exact Hone | apply Z.eqb_eq; lia]. }
  rewrite Hnot. simpl. rewrite Ha1. simpl. rewrite Ha2. simpl. reflexivity.
Qed.
End VisibleRange.

(** C4.  For a bracket item put on a staff [staffIdx] of the system, let
    [f .. l] be its visible span (the declared range cut at the end of the
    system and shrunk past the hidden staves at both ends).  createBracket
    always returns, and it creates (or reuses) a bracket exactly when the
    visible span is at least 2 staves, or equals the declared span, or is
    exactly 1 with alwaysShowBracketsWhenEmptyStavesAreHidden set.  A bracket
    that is created spans [f .. l] and is added to the brackets of the
    system; otherwise the system and the list of old brackets are left
    alone.  In particular a bracket of declared span other than 1 that is
    left with 1 visible staff is not created unless the policy is set.  A
    bracket that is created for an item of declared span 1 or more, and that
    reads this span through its item, is not hidden by
    layoutBracketsVertical: it reaches from the top of staff [f] to the
    bottom of staff [l]. *)
Theorem createBracket_iff_visible_span `{Collaborators}
    (score : Score) (sys : System) (bi : BracketItem) (col staffIdx : Z)
    (bl : list Bracket) (measure : option nat) :
  0 <= staffIdx < size (_staves sys) ->
  exists f l ob bl' sys',
    visibleSpanOf sys bi staffIdx f l
    /\ System.createBracket score bi col staffIdx bl measure sys = Some (ob, bl', sys')
    /\ (is_Some ob <->
        2 <= l - f + 1
        \/ bracketSpan bi = l - f + 1
        \/ (l - f + 1 = 1
            /\ alwaysShowBracketsWhenEmptyStavesAreHidden (style score) = true))
    /\ (forall b, ob = Some b ->
          firstStaff b = f /\ lastStaff b = l
          /\ _brackets sys' = _brackets sys ++ [b])
    /\ (ob = None -> sys' = sys /\ bl' = bl)
    /\ (l - f + 1 = 1 -> bracketSpan bi <> 1 ->
        alwaysShowBracketsWhenEmptyStavesAreHidden (style score) = false ->
        ob = None)
    /\ (forall b, ob = Some b -> 1 <= bracketSpan bi ->
          System.Bracket_span b = bracketSpan bi ->
          exists s1 s2,
            System.staff sys f = Some s1 /\ System.staff sys l = Some s2
            /\ System.layoutBracketVertical1 score (_staves sys') b
               = Some (Bracket_layout
                         (System.Bracket_setVertical (RectF.top (_bbox s1))
                            (RectF.bottom (_bbox s2) - RectF.top (_bbox s1))%Q b))).
Proof.
  intros Hidx.
  destruct (visibleRange_spec sys bi staffIdx Hidx) as (f & l & Hrange & Hspan).
  assert (Hvert : forall b,
            2 <= l - f + 1 \/ bracketSpan bi = l - f + 1
            \/ (l - f + 1 = 1
                /\ alwaysShowBracketsWhenEmptyStavesAreHidden (style score) = true) ->
            firstStaff b = f -> lastStaff b = l ->
            1 <= bracketSpan bi -> System.Bracket_span b = bracketSpan bi ->
            exists s1 s2,
              System.staff sys f = Some s1 /\ System.staff sys l = Some s2
              /\ System.layoutBracketVertical1 score (_staves sys) b
                 = Some (Bracket_layout
                           (System.Bracket_setVertical (RectF.top (_bbox s1))
                              (RectF.bottom (_bbox s2) - RectF.top (_bbox s1))%Q b))).
  { intros b Hc Hbf Hbl Hdecl Hbspan.
    assert (Hfl : f <= l) by (destruct Hc as [? | [? | [? _]]]; lia).
    destruct Hspan as (_ & _ & [(_ & _ & Hshf & Hshl) | [Hf' Hl']]); [|lia].
    rewrite <- Hbf, <- Hbl in *.
    apply layoutBracketVertical1_shown; try assumption.
    destruct (alwaysShowBracketsWhenEmptyStavesAreHidden (style score)); [auto|].
    right. destruct Hc as [? | [? | [_ ?]]]; [lia | | discriminate].
    destruct (Z_lt_le_dec (firstStaff b) (lastStaff b)); [auto | right; lia]. }
  unfold System.createBracket. rewrite Hrange. simpl.
  set (policy := alwaysShowBracketsWhenEmptyStavesAreHidden (style score)).
  destruct ((1 <? l - f + 1) || (bracketSpan bi =? l - f + 1)
            || ((l - f + 1 =? 1) && policy)) eqn:Econd.
  - assert (Hcond : 2 <= l - f + 1 \/ bracketSpan bi = l - f + 1
                    \/ (l - f + 1 = 1 /\ policy = true)).
    { apply orb_true_iff in Econd as [Econd | Econd].
      - apply orb_true_iff in Econd as [E | E].
        + apply Z.ltb_lt in E. left. lia.
        + apply Z.eqb_eq in E. right. left. exact E.
      - apply andb_true_iff in Econd as [E1 E2]. apply Z.eqb_eq in E1. auto. }
    match goal with
    | |- context [System.takeFirst ?p bl] => destruct (System.takeFirst p bl) as [[b0 rest]|]
    end.
    + do 5 eexists. split; [exact Hspan|]. split; [reflexivity|].
      split; [split; [intros _; exact Hcond | intros _; eexists; reflexivity]|].
      split; [intros b Hb; inversion Hb; subst b; simpl; auto|].
      split; [discriminate|].
      split.
      * intros H1 H2 H3. exfalso.
        destruct Hcond as [? | [? | [_ ?]]]; [lia | lia | congruence].
      * intros b Hb Hdecl Hbspan. inversion Hb; subst b. simpl.
        apply Hvert; [exact Hcond | reflexivity | reflexivity | exact Hdecl | exact Hbspan].
    + do 5 eexists. split; [exact Hspan|]. split; [reflexivity|].
      split; [split; [intros _; exact Hcond | intros _; eexists; reflexivity]|].
      split; [intros b Hb; inversion Hb; subst b; simpl; auto|].
      split; [discriminate|].
      split.
      * intros H1 H2 H3. exfalso.
        destruct Hcond as [? | [? | [_ ?]]]; [lia | lia | congruence].
      * intros b Hb Hdecl Hbspan. inversion Hb; subst b. simpl.
        apply Hvert; [exact Hcond | reflexivity | reflexivity | exact Hdecl | exact Hbspan].
  - assert (Hcond : ~ (2 <= l - f + 1 \/ bracketSpan bi = l - f + 1
                       \/ (l - f + 1 = 1 /\ policy = true))).
    { apply orb_false_iff in Econd as [Econd E3].
      apply orb_false_iff in Econd as [E1 E2].
      apply Z.ltb_ge in E1. apply Z.eqb_neq in E2.
      apply andb_false_iff in E3.
      intros [? | [? | [? ?]]]; [lia | lia |].
      destruct E3 as [E3 | E3]; [apply Z.eqb_neq in E3; lia | congruence]. }
    do 5 eexists. split; [exact Hspan|]. split; [reflexivity|].
    split; [split; [intros [b Hb]; discriminate | intros Hc; contradiction]|].
    split; [discriminate|]. split; [auto|]. split; [auto | discriminate].
Qed.

Lemma createBracket_iff_visible_span_witness :
  exists f l ob bl' sys',
    visibleSpanOf Sample.systemSecondHidden (mkBracketItem NORMAL 0 2) 0 f l
    /\ System.createBracket Sample.score (mkBracketItem NORMAL 0 2) 0 0 [] None
         Sample.systemSecondHidden = Some (ob, bl', sys')
    /\ ob = None.
Proof.
  destruct (createBracket_iff_visible_span
              Sample.score Sample.systemSecondHidden (mkBracketItem NORMAL 0 2) 0 0 [] None)
    as (f & l & ob & bl' & sys' & Hspan & Hrun & _ & _ & _ & Hnone & _).
  - unfold size. simpl. lia.
  - exists f, l, ob, bl', sys'. split; [exact Hspan|]. split; [exact Hrun|].
    vm_compute in Hrun. inversion Hrun. reflexivity.
Defined.

Section BracketPlacement.
Context `{Collaborators}.

Lemma bracketXOffset_sum bd brackets b1 : forall acc,
  (List.fold_left
     (fun xOffset b2 =>
        if System.pushesLeft b1 b2 then (xOffset + (b_width b2 + bd))%Q else xOffset)
     brackets acc
   == acc + sumQ (List.map (fun b2 => (b_width b2 + bd)%Q)
                    (List.filter (System.pushesLeft b1) brackets)))%Q.
Proof.
  induction brackets as [|b2 bs IH]; intros acc; simpl.
  - unfold sumQ. simpl. ring.
  - rewrite IH. destruct (System.pushesLeft b1 b2); simpl; [|reflexivity].
    unfold sumQ. simpl. ring.
Qed.

Lemma pushesLeft_iff b1 b2 :
  System.pushesLeft b1 b2 = true
  <-> System.Bracket_column b2 < System.Bracket_column b1
      /\ (firstStaff b2 <= firstStaff b1 <= lastStaff b2
          \/ firstStaff b2 <= lastStaff b1 <= lastStaff b2).
Proof.
  unfold System.pushesLeft.
  rewrite andb_true_iff, orb_true_iff, !andb_true_iff, Z.ltb_lt, !Z.leb_le. tauto.
Qed.
End BracketPlacement.

(** C8, as amended.  setBracketsXPosition(x) keeps the brackets of the
    system in place in the list and changes only their x: the left edge of
    each bracket is x minus its own width minus an offset, and the offset is
    the sum of width plus bracket distance over the brackets of a strictly
    lower-numbered column whose staff range contains the first or the last
    staff of the bracket being placed. *)
Theorem setBracketsXPosition_left_edge `{Collaborators}
    (score : Score) (xPosition : qreal) (sys : System) :
  length (_brackets (System.setBracketsXPosition score xPosition sys))
  = length (_brackets sys)
  /\ (forall (k : nat) b1,
        _brackets sys !! k = Some b1 ->
        exists b1',
          _brackets (System.setBracketsXPosition score xPosition sys) !! k = Some b1'
          /\ b1' = System.Bracket_setXpos (b_xpos b1') b1
          /\ (b_xpos b1'
              == xPosition - b_width b1
                 - sumQ (List.map (fun b2 => (b_width b2 + bracketDistance (style score))%Q)
                           (List.filter (System.pushesLeft b1) (_brackets sys))))%Q)
  /\ (forall b1 b2,
        System.pushesLeft b1 b2 = true
        <-> System.Bracket_column b2 < System.Bracket_column b1
            /\ (firstStaff b2 <= firstStaff b1 <= lastStaff b2
                \/ firstStaff b2 <= lastStaff b1 <= lastStaff b2)).
Proof.
  split; [|split].
  - unfold System.setBracketsXPosition. simpl. apply length_map.
  - intros k b1 Hk. unfold System.setBracketsXPosition. simpl.
    eexists. split.
    + change (map ?f (_brackets sys)) with (f <$> _brackets sys).
      rewrite list_lookup_fmap, Hk. simpl. reflexivity.
    + split; [reflexivity|]. simpl.
      unfold System.bracketXOffset. rewrite bracketXOffset_sum. ring.
  - apply pushesLeft_iff.
Qed.

Lemma setBracketsXPosition_left_edge_witness :
  exists b1',
    _brackets (System.setBracketsXPosition Sample.score 100%Q
                 (Sample.systemWith Sample.stacked)) !! 1%nat = Some b1'
    /\ (b_xpos b1' == 100 - 6 - (4 + 3 + 0))%Q.
Proof.
  destruct (proj1 (proj2 (setBracketsXPosition_left_edge
                            Sample.score 100%Q (Sample.systemWith Sample.stacked)))
              1%nat (Sample.bracketAt 1 0 2 6%Q) eq_refl)
    as (b1' & Hk & _ & Hx).
  exists b1'. split; [exact Hk | exact Hx].
Defined.

(** C8 as stated fails.  With a bracket in column 0 over staves 0..1
    (width 4) and one in column 1 over staves 0..2 (width 6), bracket
    distance 3 and x = 100, the code puts the column 0 bracket at 96 and the
    column 1 bracket at 87: the bracket of the higher column is the one that
    is moved, by the width of the bracket of the lower column; the offsets
    of the claim would give 87 and 94.  And with a column 0 bracket over
    staves 1..2 inside a column 1 bracket over staves 0..3, neither end of
    the outer bracket lies in the inner range, both get offset 0 and end at
    x, so that they cover the same stretch from 96 to 100 on staves they
    share. *)
Lemma bracket_offset_comes_from_lower_columns :
  (exists inner outer,
      _brackets (System.setBracketsXPosition Sample.score 100%Q
                   (Sample.systemWith Sample.stacked)) = [inner; outer]
      /\ b_xpos inner = 96%Q /\ b_xpos outer = 87%Q
      /\ ~ (b_xpos inner
            == 100 - b_width inner
               - statedXOffset 3%Q Sample.stacked (Sample.bracketAt 0 0 1 4%Q))%Q
      /\ ~ (b_xpos outer
            == 100 - b_width outer
               - statedXOffset 3%Q Sample.stacked (Sample.bracketAt 1 0 2 6%Q))%Q)
  /\ (exists inner outer,
      _brackets (System.setBracketsXPosition Sample.score 100%Q
                   (Sample.systemWith Sample.nested)) = [inner; outer]
      /\ rangesOverlap inner outer = true
      /\ (b_xpos outer <= b_xpos inner)%Q
      /\ (b_xpos inner < b_xpos outer + b_width outer)%Q).
Proof.
  split.
  - do 2 eexists. split; [vm_compute; reflexivity|].
    split; [reflexivity|]. split; [reflexivity|].
    split; vm_compute; discriminate.
  - do 2 eexists. split; [vm_compute; reflexivity|].
    split; [reflexivity|]. split; vm_compute; [discriminate | reflexivity].
Qed.

(** * The width reserved for brackets *)

Section BracketWidths.
Context `{Collaborators}.

Lemma foldM_inv {A S : Type} (Inv : S -> Prop) (f : S -> A -> option S) (l : list A) :
  forall s0,
    Inv s0 ->
    (forall s a, a ∈ l -> Inv s -> exists s', f s a = Some s' /\ Inv s') ->
    exists s', System.foldM f s0 l = Some s' /\ Inv s'.
Proof.
  induction l as [|a l IH]; intros s0 H0 Hstep; simpl.
  - exists s0. auto.
  - destruct (Hstep s0 a (list_elem_of_here _ _) H0) as (s1 & Hs1 & H1).
    rewrite Hs1. simpl. apply IH; [exact H1|].
    intros s b Hb. apply Hstep. apply list_elem_of_further. exact Hb.
Qed.

Lemma createBracket_returns score sys bi col staffIdx bl measure :
  0 <= staffIdx < size (_staves sys) ->
  exists ob bl' sys',
    System.createBracket score bi col staffIdx bl measure sys = Some (ob, bl', sys')
    /\ _staves sys' = _staves sys /\ ml sys' = ml sys.
Proof.
  intros Hidx.
  destruct (visibleRange_spec sys bi staffIdx Hidx) as (f & l & Hrange & _).
  unfold System.createBracket. rewrite Hrange. simpl.
  destruct (_ || _ || _); [|do 3 eexists; split; [reflexivity | auto]].
  match goal with
  | |- context [System.takeFirst ?p bl] => destruct (System.takeFirst p bl) as [[b0 rest]|]
  end; do 3 eexists; (split; [reflexivity | auto]).
Qed.

Lemma getBracketsColumnsCount_returns score sys :
  stavesCovered score sys -> is_Some (System.getBracketsColumnsCount score sys).
Proof.
  intros Hcov. unfold System.getBracketsColumnsCount.
  destruct (foldM_inv (fun _ : Z => True)
              (fun columns idx =>
                 s ← Score.staff score idx;
                 Some (List.fold_left (fun c bi => qMax_int c (column bi + 1))
                                      (brackets s) columns))
              (seqZ 0 (size (_staves sys))) 0 I) as (c & Hc & _).
  - intros c idx Hidx _. apply elem_of_seqZ in Hidx.
    unfold stavesCovered, size in *.
    destruct (lookup_lt_is_Some_2 (staves score) (Z.to_nat idx) ltac:(lia)) as [s Hs].
    assert (Es : Score.staff score idx = Some s)
      by (apply Score_staff_Some; split; [lia | exact Hs]).
    rewrite Es. simpl. eauto.
  - rewrite Hc. eauto.
Qed.

Lemma layoutBrackets_item_returns score sys0 columns i staffIdx acc bi :
  0 <= staffIdx < size (_staves sys0) -> 0 <= i < columns ->
  bracketsLoopInv sys0 columns acc ->
  exists acc',
    System.layoutBrackets_item score i staffIdx acc bi = Some acc'
    /\ bracketsLoopInv sys0 columns acc'.
Proof.
  intros Hidx Hi Hinv. destruct acc as [[bl sys] bw].
  destruct Hinv as [Hst Hbw]. simpl in Hst, Hbw.
  unfold System.layoutBrackets_item.
  destruct (negb (column bi =? i) || BracketType_eqb (bracketType bi) NO_BRACKET).
  { eexists. split; [reflexivity|]. split; assumption. }
  destruct (createBracket_returns score sys bi i staffIdx bl
              (mb_id <$> System.firstMeasure sys) ltac:(rewrite Hst; exact Hidx))
    as (ob & bl' & sys' & Hrun & Hst' & _).
  rewrite Hrun. simpl. destruct ob as [b|].
  - unfold size in Hbw.
    destruct (lookup_lt_is_Some_2 bw (Z.to_nat i) ltac:(lia)) as [w Hw].
    assert (Ew : at_ bw i = Some w) by (apply at_Some; split; [lia | exact Hw]).
    rewrite Ew. simpl. eexists. split; [reflexivity|].
    split; simpl; [congruence|]. unfold size. rewrite length_insert. exact Hbw.
  - eexists. split; [reflexivity|]. split; simpl; [congruence | exact Hbw].
Qed.

Lemma layoutBrackets_staff_returns score sys0 columns acc staffIdx :
  stavesCovered score sys0 ->
  0 <= staffIdx < size (_staves sys0) ->
  bracketsLoopInv sys0 columns acc ->
  exists acc',
    System.layoutBrackets_staff score columns acc staffIdx = Some acc'
    /\ bracketsLoopInv sys0 columns acc'.
Proof.
  intros Hcov Hidx Hinv. unfold System.layoutBrackets_staff.
  unfold stavesCovered, size in Hcov. pose proof Hidx as Hidx'. unfold size in Hidx'.
  destruct (lookup_lt_is_Some_2 (staves score) (Z.to_nat staffIdx) ltac:(lia)) as [s Hs].
  assert (Es : Score.staff score staffIdx = Some s)
    by (apply Score_staff_Some; split; [lia | exact Hs]).
  rewrite Es. simpl.
  apply (foldM_inv (bracketsLoopInv sys0 columns)); [exact Hinv|].
  intros acc1 i Hi Hinv1. apply elem_of_seqZ in Hi.
  apply (foldM_inv (bracketsLoopInv sys0 columns)); [exact Hinv1|].
  intros acc2 bi _ Hinv2.
  apply layoutBrackets_item_returns; [exact Hidx | lia | exact Hinv2].
Qed.

Lemma layoutBrackets_returns score sys :
  stavesCovered score sys -> is_Some (System.layoutBrackets score sys).
Proof.
  intros Hcov. unfold System.layoutBrackets.
  destruct (getBracketsColumnsCount_returns score sys Hcov) as [columns Hc].
  rewrite Hc. simpl.
  destruct (foldM_inv (bracketsLoopInv sys columns)
              (System.layoutBrackets_staff score columns)
              (seqZ 0 (size (_staves sys)))
              (_brackets sys, System.set_brackets [] sys, List.repeat 0%Q (Z.to_nat columns)))
    as ([[bl sys'] bw] & Hrun & _).
  - split; [reflexivity|]. simpl. unfold size. rewrite repeat_length. lia.
  - intros acc staffIdx Hidx Hinv. apply elem_of_seqZ in Hidx.
    apply layoutBrackets_staff_returns; [exact Hcov | lia | exact Hinv].
  - rewrite Hrun. simpl. eauto.
Qed.
End BracketWidths.

(** C10.  totalBracketOffset computes the bracket widths with
    hideEmptyStaves forced to false, and whatever it returns is returned
    with the score it was called with: hideEmptyStaves, and every other
    field of the score, has its value of before the call.  When every record
    of the system has its staff in the score the call does return. *)
Theorem totalBracketOffset_restores_style `{Collaborators} (score : Score) (sys : System) :
  System.totalBracketOffset score sys
  = (fun r => (fst r, score, snd r))
      <$> System.layoutBrackets (Score.setHideEmptyStaves false score) sys
  /\ hideEmptyStaves (style (Score.setHideEmptyStaves false score)) = false
  /\ (forall offset score' sys',
        System.totalBracketOffset score sys = Some (offset, score', sys') ->
        hideEmptyStaves (style score') = hideEmptyStaves (style score))
  /\ (stavesCovered score sys -> is_Some (System.totalBracketOffset score sys)).
Proof.
  assert (Heq : System.totalBracketOffset score sys
                = (fun r => (fst r, score, snd r))
                    <$> System.layoutBrackets (Score.setHideEmptyStaves false score) sys).
  { unfold System.totalBracketOffset.
    destruct (System.layoutBrackets (Score.setHideEmptyStaves false score) sys)
      as [[offset sys']|]; simpl; [|reflexivity].
    destruct score as [stv pts [a b c d e f g] evs lm sp]. reflexivity. }
  split; [exact Heq|]. split; [reflexivity|]. split.
  - intros offset score' sys' Hrun. rewrite Heq in Hrun.
    destruct (System.layoutBrackets _ sys) as [[o s']|]; simpl in Hrun; [|discriminate].
    inversion Hrun; subst. reflexivity.
  - intros Hcov. rewrite Heq.
    destruct (layoutBrackets_returns (Score.setHideEmptyStaves false score) sys)
      as [r Hr]; [exact Hcov|].
    rewrite Hr. simpl. eauto.
Qed.

Lemma totalBracketOffset_restores_style_witness :
  exists offset score' sys',
    System.totalBracketOffset Sample.scoreBracketed
      (Sample.system [Sample.measure 0 Sample.noSpacer])
    = Some (offset, score', sys')
    /\ hideEmptyStaves (style score') = true
    /\ length (_brackets sys') = 2%nat.
Proof.
  destruct (totalBracketOffset_restores_style
              Sample.scoreBracketed (Sample.system [Sample.measure 0 Sample.noSpacer]))
    as (_ & _ & Hrestore & Hreturns).
  destruct Hreturns as [[[offset score'] sys'] Hrun].
  - unfold stavesCovered, size. simpl. lia.
  - exists offset, score', sys'. split; [exact Hrun|].
    split; [apply (Hrestore offset score' sys' Hrun)|].
    vm_compute in Hrun. inversion Hrun. reflexivity.
Defined.

(** * Instrument names *)

Section Names.
Context `{Collaborators}.
Variable score : Score.

Lemma at_insert_other {A : Type} (l : list A) (i j : Z) (y : A) :
  0 <= i -> i <> j -> at_ (<[Z.to_nat i := y]> l) j = at_ l j.
Proof.
  intros Hi Hne. unfold at_. destruct (0 <=? j) eqn:E; [|reflexivity].
  apply Z.leb_le in E. apply list_lookup_insert_ne. lia.
Qed.

Lemma firstSysStaffOfPart_loop_split done : forall p rest p0 acc,
  System.firstSysStaffOfPart_loop (done ++ p :: rest) p0 (p0 + length done)%nat acc
  = acc + sumStaves done.
Proof.
  induction done as [|q done IH]; intros p rest p0 acc; simpl.
  - rewrite Nat.add_0_r, Nat.eqb_refl. lia.
  - replace (Nat.eqb p0 (p0 + S (length done))) with false
      by (symmetry; apply Nat.eqb_neq; lia).
    replace (p0 + S (length done))%nat with (S p0 + length done)%nat by lia.
    rewrite IH. lia.
Qed.

Lemma firstSysStaffOfPart_split done p rest :
  parts score = done ++ p :: rest ->
  System.firstSysStaffOfPart score (length done) = sumStaves done.
Proof.
  intros E. unfold System.firstSysStaffOfPart. rewrite E.
  pose proof (firstSysStaffOfPart_loop_split done p rest O 0) as Hs.
  simpl in Hs. exact Hs.
Qed.

Lemma firstVisible_loop_range sys n : forall idx v,
  System.firstVisible_loop sys idx n = Some v -> 0 <= v ->
  idx <= v < idx + Z.of_nat n.
Proof.
  induction n as [|n IH]; intros idx v Hrun Hv; simpl in Hrun.
  - inversion Hrun. lia.
  - destruct (System.staff sys idx) as [ss|]; simpl in Hrun; [|discriminate].
    destruct (_show ss); [inversion Hrun; lia|].
    specialize (IH _ _ Hrun Hv). lia.
Qed.

Lemma firstVisible_loop_ext sys sys1 n : forall idx,
  eraseNames <$> _staves sys1 = eraseNames <$> _staves sys ->
  System.firstVisible_loop sys1 idx n = System.firstVisible_loop sys idx n.
Proof.
  intros idx E. revert idx. induction n as [|n IH]; intros idx; simpl; [reflexivity|].
  rewrite !staff_at.
  destruct (at_ (_staves sys1) idx) as [a|] eqn:Ea.
  - destruct (erase_at _ _ _ _ E Ea) as (b & Hb & He). rewrite Hb. simpl.
    change (_show a) with (_show (eraseNames a)). rewrite He. simpl.
    destruct (_show b); [reflexivity | apply IH].
  - destruct (at_ (_staves sys) idx) as [b|] eqn:Eb; [|reflexivity].
    symmetry in E. destruct (erase_at _ _ _ _ E Eb) as (a & Ha & _). congruence.
Qed.

Lemma layoutName_repositioned sys staffIdx n s t t' :
  System.layoutName sys staffIdx n s t = Some t' -> repositioned t t'.
Proof.
  unfold System.layoutName. intros Hrun.
  destruct (System.nameSpan sys staffIdx n s t) as [[y1 y2]|]; simpl in Hrun; [|discriminate].
  inversion Hrun. eexists. reflexivity.
Qed.

(** One part: records outside the staves of the part are not touched, and
    when the first visible staff is not the top staff the names move. *)
Lemma layoutInstrumentNames_part_step part p staffIdx sys sys' :
  System.layoutInstrumentNames_part score part p staffIdx sys = Some sys' ->
  System.firstSysStaffOfPart score part = staffIdx ->
  0 <= staffIdx ->
  (forall i, ~ (staffIdx <= i < staffIdx + nstaves p) ->
     at_ (_staves sys') i = at_ (_staves sys) i)
  /\ (forall visible s vs,
        System.firstVisibleSysStaffOfPart score sys part p = Some visible ->
        0 <= visible -> visible <> staffIdx ->
        System.staff sys staffIdx = Some s ->
        System.staff sys visible = Some vs ->
        exists names,
          System.staff sys' staffIdx = Some (SysStaff.setInstrumentNames [] s)
          /\ System.staff sys' visible = Some (SysStaff.setInstrumentNames names vs)
          /\ Forall2 repositioned
               (instrumentNames vs
                ++ List.map (System.InstrumentName_retarget (visible * VOICES) visible)
                     (instrumentNames s))
               names).
Proof.
  intros Hrun Hfirst Htop. unfold System.layoutInstrumentNames_part in Hrun.
  destruct (System.firstVisibleSysStaffOfPart score sys part p) as [v|] eqn:Ev;
    simpl in Hrun; [|discriminate].
  destruct (0 <=? v) eqn:Ev0.
  2:{ inversion Hrun; subst sys'. split; [reflexivity|].
      intros visible s vs Hvis Hv0. inversion Hvis; subst. apply Z.leb_gt in Ev0. lia. }
  apply Z.leb_le in Ev0.
  assert (Hrange : staffIdx <= v < staffIdx + nstaves p).
  { unfold System.firstVisibleSysStaffOfPart in Ev. rewrite Hfirst in Ev.
    pose proof (firstVisible_loop_range _ _ _ _ Ev Ev0). lia. }
  destruct (System.staff sys staffIdx) as [s|] eqn:Es; simpl in Hrun; [|discriminate].
  destruct (v =? staffIdx) eqn:Eeq; simpl in Hrun.
  - apply Z.eqb_eq in Eeq. subst v.
    rewrite Es in Hrun. simpl in Hrun.
    destruct (mapM _ (instrumentNames s)) as [names|]; simpl in Hrun; [|discriminate].
    inversion Hrun; subst sys'. simpl. split.
    + intros i Hi. apply at_insert_other; lia.
    + intros visible s0 vs Hvis _ Hne. inversion Hvis. congruence.
  - apply Z.eqb_neq in Eeq.
    destruct (System.staff sys v) as [vs|] eqn:Evs; simpl in Hrun; [|discriminate].
    set (moved := List.map (System.InstrumentName_retarget (v * VOICES) v)
                    (instrumentNames s)) in *.
    assert (Hm : System.staff (System.migrateNames staffIdx v s vs sys) v
                 = Some (SysStaff.setInstrumentNames (instrumentNames vs ++ moved) vs)).
    { rewrite staff_at in *. unfold System.migrateNames. simpl.
      rewrite at_insert_other by lia. eapply at_insert_eq. exact Evs. }
    rewrite Hm in Hrun. simpl in Hrun.
    destruct (mapM _ (instrumentNames vs ++ moved)) as [names|] eqn:Enames;
      simpl in Hrun; [|discriminate].
    inversion Hrun; subst sys'. simpl. split.
    + intros i Hi. rewrite !at_insert_other by lia. reflexivity.
    + intros visible s0 vs0 Hvis _ _ Hs0 Hvs0.
      inversion Hvis; subst visible. inversion Hs0; subst s0.
      rewrite Evs in Hvs0. inversion Hvs0; subst vs0.
      exists names. rewrite !staff_at. simpl. rewrite staff_at in Es, Evs.
      split; [|split].
      * rewrite at_insert_other by lia.
        eapply at_insert_eq. rewrite at_insert_other by lia. exact Es.
      * eapply at_insert_eq.
        rewrite at_insert_other by lia. eapply at_insert_eq. exact Evs.
      * apply mapM_Some in Enames.
        eapply Forall2_weaken; [exact Enames|]. cbv beta.
        intros t t' Ht. eapply layoutName_repositioned. exact Ht.
Qed.
End Names.

Section NamesLoop.
Context `{Collaborators}.
Variable score : Score.
Hypothesis parts_nonneg : Forall (fun q => 0 <= nstaves q) (parts score).

Lemma sumStaves_snoc done p : sumStaves (done ++ [p]) = sumStaves done + nstaves p.
Proof. induction done as [|q done IH]; simpl; lia. Qed.

Lemma sumStaves_nonneg l : Forall (fun q => 0 <= nstaves q) l -> 0 <= sumStaves l.
Proof. induction 1; simpl; lia. Qed.

Lemma parts_split_nonneg done ps :
  parts score = done ++ ps ->
  0 <= sumStaves done /\ Forall (fun q => 0 <= nstaves q) ps.
Proof.
  intros E. pose proof parts_nonneg as Hn. rewrite E in Hn.
  apply Forall_app in Hn as [Hd Hp]. split; [apply sumStaves_nonneg, Hd | exact Hp].
Qed.

Lemma firstVisible_loop_shown sys n : forall idx v,
  System.firstVisible_loop sys idx n = Some v -> 0 <= v ->
  exists ss, System.staff sys v = Some ss /\ _show ss = true.
Proof.
  induction n as [|n IH]; intros idx v Hrun Hv; simpl in Hrun.
  - inversion Hrun. lia.
  - destruct (System.staff sys idx) as [ss|] eqn:Ess; simpl in Hrun; [|discriminate].
    destruct (_show ss) eqn:Eshow; [|eapply IH; eassumption].
    inversion Hrun; subst. eauto.
Qed.

(** The parts from [ps] on do not touch the records of the parts before. *)
Lemma layoutInstrumentNames_loop_before ps : forall done sys sys',
  parts score = done ++ ps ->
  System.layoutInstrumentNames_loop score ps (length done) (sumStaves done) sys
  = Some sys' ->
  forall i, i < sumStaves done -> at_ (_staves sys') i = at_ (_staves sys) i.
Proof.
  induction ps as [|p ps IH]; intros done sys sys' Hparts Hrun i Hi; simpl in Hrun.
  - inversion Hrun. reflexivity.
  - destruct (System.layoutInstrumentNames_part score (length done) p (sumStaves done) sys)
      as [sys1|] eqn:E1; simpl in Hrun; [|discriminate].
    destruct (parts_split_nonneg _ _ Hparts) as [Hdone Hps].
    inversion Hps as [|? ? Hp _]; subst.
    destruct (layoutInstrumentNames_part_step score _ _ _ _ _ E1
                (firstSysStaffOfPart_split score done p ps Hparts) Hdone) as [Hout _].
    replace (S (length done)) with (length (done ++ [p])) in Hrun
      by (rewrite length_app; simpl; lia).
    rewrite <- sumStaves_snoc in Hrun.
    rewrite (IH (done ++ [p]) sys1 sys'); [apply Hout; lia | | exact Hrun |].
    + rewrite <- app_assoc. exact Hparts.
    + rewrite sumStaves_snoc. lia.
Qed.

(** The names of a part whose top staff is hidden end on its first visible
    staff, whatever the other parts do. *)
Lemma layoutInstrumentNames_loop_target ps : forall done sys sys' pre p post visible s vs,
  parts score = done ++ ps ->
  System.layoutInstrumentNames_loop score ps (length done) (sumStaves done) sys
  = Some sys' ->
  ps = pre ++ p :: post ->
  System.firstVisibleSysStaffOfPart score sys (length (done ++ pre)) p = Some visible ->
  0 <= visible -> visible <> sumStaves (done ++ pre) ->
  System.staff sys (sumStaves (done ++ pre)) = Some s ->
  System.staff sys visible = Some vs ->
  exists names,
    System.staff sys' (sumStaves (done ++ pre)) = Some (SysStaff.setInstrumentNames [] s)
    /\ System.staff sys' visible = Some (SysStaff.setInstrumentNames names vs)
    /\ Forall2 repositioned
         (instrumentNames vs
          ++ List.map (System.InstrumentName_retarget (visible * VOICES) visible)
               (instrumentNames s))
         names.
Proof.
  induction ps as [|q ps IH];
    intros done sys sys' pre p post visible s vs Hparts Hrun Hps Hvis Hv0 Hne Hs Hvs.
  - destruct pre; discriminate.
  - simpl in Hrun.
    destruct (System.layoutInstrumentNames_part score (length done) q (sumStaves done) sys)
      as [sys1|] eqn:E1; simpl in Hrun; [|discriminate].
    destruct (parts_split_nonneg _ _ Hparts) as [Hdone Hnn].
    inversion Hnn as [|? ? Hq _]; subst.
    destruct (layoutInstrumentNames_part_step score _ _ _ _ _ E1
                (firstSysStaffOfPart_split score done q ps Hparts) Hdone)
      as [Hout Hmove].
    replace (S (length done)) with (length (done ++ [q])) in Hrun
      by (rewrite length_app; simpl; lia).
    rewrite <- sumStaves_snoc in Hrun.
    assert (Hparts' : parts score = (done ++ [q]) ++ ps)
      by (rewrite <- app_assoc; exact Hparts).
    destruct pre as [|q' pre'].
    + simpl in Hps. inversion Hps; subst q post. rewrite app_nil_r in *.
      destruct (Hmove visible s vs Hvis Hv0 Hne Hs Hvs) as (names & Hs1 & Hvs1 & Hnames).
      assert (Hrange : sumStaves done <= visible < sumStaves done + nstaves p).
      { unfold System.firstVisibleSysStaffOfPart in Hvis.
        rewrite (firstSysStaffOfPart_split score done p ps Hparts) in Hvis.
        pose proof (firstVisible_loop_range _ _ _ _ Hvis Hv0). lia. }
      exists names. rewrite !staff_at in *.
      rewrite !(layoutInstrumentNames_loop_before ps (done ++ [p]) sys1 sys' Hparts' Hrun)
        by (rewrite sumStaves_snoc; lia).
      auto.
    + simpl in Hps. inversion Hps; subst q' ps.
      destruct (layoutInstrumentNames_part_frame score _ _ _ _ _ E1) as [_ Herase].
      assert (Etop : sumStaves (done ++ q :: pre') = sumStaves ((done ++ [q]) ++ pre'))
        by (rewrite <- app_assoc; reflexivity).
      assert (Elen : length (done ++ q :: pre') = length ((done ++ [q]) ++ pre'))
        by (rewrite <- app_assoc; reflexivity).
      assert (Hparts2 : parts score = (done ++ q :: pre') ++ p :: post)
        by (rewrite <- app_assoc; exact Hparts).
      destruct (parts_split_nonneg _ _ Hparts2) as [Htop _].
      assert (Hge : sumStaves done + nstaves q <= sumStaves (done ++ q :: pre')).
      { rewrite Etop. rewrite <- sumStaves_snoc.
        destruct (parts_split_nonneg ((done ++ [q]) ++ pre') (p :: post)) as [_ _];
          [rewrite <- !app_assoc; exact Hparts|].
        assert (Hpre : 0 <= sumStaves pre').
        { apply sumStaves_nonneg. pose proof parts_nonneg as Hn. rewrite Hparts in Hn.
          apply Forall_app in Hn as [_ Hn]. inversion Hn as [|? ? _ Hn']; subst.
          apply Forall_app in Hn' as [Hn' _]. exact Hn'. }
        clear -Hpre. induction (done ++ [q]) as [|x l IHl]; simpl; lia. }
      assert (Hrange : sumStaves (done ++ q :: pre') <= visible).
      { unfold System.firstVisibleSysStaffOfPart in Hvis.
        rewrite (firstSysStaffOfPart_split score (done ++ q :: pre') p post Hparts2) in Hvis.
        pose proof (firstVisible_loop_range _ _ _ _ Hvis Hv0). lia. }
      rewrite Etop in *. rewrite Elen in Hvis.
      apply (IH (done ++ [q]) sys1 sys' pre' p post visible s vs Hparts' Hrun eq_refl);
        try assumption.
      * unfold System.firstVisibleSysStaffOfPart in *.
        rewrite (firstVisible_loop_ext sys sys1 _ _ Herase). exact Hvis.
      * rewrite staff_at in *. rewrite Hout by lia. exact Hs.
      * rewrite staff_at in *. rewrite Hout by lia. exact Hvs.
Qed.
End NamesLoop.

(** C7.  Let the parts of the score have staff counts that are not
    negative, and let a part have a hidden top staff and a first visible
    staff [visible].  When layoutInstrumentNames returns, the name list of
    the top staff is empty (the record is otherwise as it was), and the name
    list of the visible staff is the list it had, followed by the names that
    were on the top staff, in their order: every name keeps its text and its
    type, the names that were already there keep their track and record, and
    the names that moved have the track [visible * VOICES] and the record of
    the visible staff. *)
Theorem layoutInstrumentNames_moves_names `{Collaborators}
    (score : Score) (sys sys' : System) (k : nat) (p : Part)
    (visible : Z) (s vs : SysStaff) :
  System.layoutInstrumentNames score sys = Some sys' ->
  Forall (fun q => 0 <= nstaves q) (parts score) ->
  parts score !! k = Some p ->
  System.staff sys (System.firstSysStaffOfPart score k) = Some s ->
  _show s = false ->
  System.firstVisibleSysStaffOfPart score sys k p = Some visible ->
  0 <= visible ->
  System.staff sys visible = Some vs ->
  exists s' vs' kept moved,
    System.staff sys' (System.firstSysStaffOfPart score k) = Some s'
    /\ instrumentNames s' = []
    /\ eraseNames s' = eraseNames s
    /\ System.staff sys' visible = Some vs'
    /\ eraseNames vs' = eraseNames vs
    /\ instrumentNames vs' = kept ++ moved
    /\ Forall2 (fun t t' =>
                  in_text t' = in_text t /\ in_type t' = in_type t
                  /\ in_track t' = in_track t /\ in_sysStaff t' = in_sysStaff t)
               (instrumentNames vs) kept
    /\ Forall2 (fun t t' =>
                  in_text t' = in_text t /\ in_type t' = in_type t
                  /\ in_track t' = visible * VOICES /\ in_sysStaff t' = Some visible)
               (instrumentNames s) moved.
Proof.
  intros Hrun Hnn Hk Hs Hhidden Hvis Hv0 Hvs.
  destruct (list_elem_of_split_length _ _ _ Hk) as (pre & post & Hparts & Hlen).
  assert (Htop : System.firstSysStaffOfPart score k = sumStaves pre)
    by (rewrite Hlen; apply (firstSysStaffOfPart_split score pre p post Hparts)).
  rewrite Htop in *.
  assert (Hne : visible <> sumStaves pre).
  { intros ->. unfold System.firstVisibleSysStaffOfPart in Hvis.
    destruct (firstVisible_loop_shown _ _ _ _ Hvis Hv0) as (ss & Hss & Hshow).
    congruence. }
  destruct (layoutInstrumentNames_loop_target score Hnn (parts score) [] sys sys'
              pre p post visible s vs eq_refl Hrun Hparts)
    as (names & Hs' & Hvs' & Hnames); simpl; try assumption.
  { rewrite <- Hlen. exact Hvis. }
  destruct (Forall2_app_split _ _ _ _ Hnames) as (kept & moved & -> & Hkept & Hmoved).
  apply Forall2_map_left in Hmoved.
  eexists _, _, kept, moved.
  split; [exact Hs'|]. split; [reflexivity|]. split; [reflexivity|].
  split; [exact Hvs'|]. split; [reflexivity|]. split; [reflexivity|].
  split.
  - eapply Forall2_weaken; [exact Hkept|]. intros t t' [y ->]. simpl. auto.
  - eapply Forall2_weaken; [exact Hmoved|]. cbv beta. intros t t' [y ->]. simpl. auto.
Qed.

Lemma layoutInstrumentNames_moves_names_witness :
  exists sys' s' vs' moved,
    System.layoutInstrumentNames Sample.score Sample.systemTopHidden = Some sys'
    /\ System.staff sys' 0 = Some s' /\ instrumentNames s' = []
    /\ System.staff sys' 1 = Some vs' /\ instrumentNames vs' = moved
    /\ List.map in_text moved = ["Piano"%string; "Pno."%string]
    /\ List.map in_type moved = [LONG; SHORT]
    /\ List.map in_track moved = [4; 4].
Proof.
  destruct (layoutInstrumentNames_moves_names
              Sample.score Sample.systemTopHidden
              (match System.layoutInstrumentNames Sample.score Sample.systemTopHidden with
               | Some r => r | None => Sample.systemTopHidden end)
              0%nat (mkPart 2) 1 Sample.hiddenTop Sample.shownSecond)
    as (s' & vs' & kept & moved & Hs' & He & _ & Hvs' & _ & Hn & Hkept & Hmoved).
  - vm_compute. reflexivity.
  - repeat constructor; simpl; lia.
  - reflexivity.
  - reflexivity.
  - reflexivity.
  - reflexivity.
  - lia.
  - reflexivity.
  - inversion Hkept; subst kept. simpl in Hn.
    eexists _, s', vs', moved.
    split; [vm_compute; reflexivity|].
    vm_compute in Hs', Hvs'. inversion Hs'; subst s'. inversion Hvs'; subst vs'.
    split; [vm_compute; reflexivity|]. split; [reflexivity|].
    split; [vm_compute; reflexivity|]. split; [exact Hn|].
    simpl in Hn. subst moved. repeat split; reflexivity.
Defined.

(** * Further properties of the queries *)

#[local] Existing Instance Sample.accessors.
#[local] Existing Instance Sample.wholeNumbers.

(** ** Visible staves *)

Section VisibleQueries.
Context `{Collaborators}.
Variables (score : Score) (sys : System).

Lemma visibleAt_true i :
  visibleAt score sys i = true <->
  exists s ss, Score.staff score i = Some s /\ at_ (_staves sys) i = Some ss
               /\ show s && _show ss = true.
Proof.
  unfold visibleAt. rewrite staff_at. split.
  - destruct (Score.staff score i) as [s|]; [|discriminate].
    destruct (at_ (_staves sys) i) as [ss|]; [|discriminate]. eauto.
  - intros (s & ss & -> & -> & Hv). exact Hv.
Qed.

Lemma visibleAt_range i :
  visibleAt score sys i = true -> 0 <= i < size (_staves sys).
Proof.
  intros Hv. apply visibleAt_true in Hv. destruct Hv as (s & ss & _ & Hss & _).
  apply at_Some in Hss. destruct Hss as [Hi Hl].
  apply lookup_lt_Some in Hl. unfold size. lia.
Qed.

Lemma nextVisibleStaff_loop_spec n : forall i,
  0 <= i -> i + Z.of_nat n <= size (_staves sys) -> stavesCovered score sys ->
  exists r, System.nextVisibleStaff_loop score sys i n = Some r
    /\ i <= r <= i + Z.of_nat n
    /\ (r < i + Z.of_nat n -> visibleAt score sys r = true)
    /\ (forall k, i <= k < r -> visibleAt score sys k = false).
Proof.
  induction n as [|n IH]; intros i Hi Hn Hcov; simpl.
  - exists i. split; [reflexivity|]. split; [lia|]. split; intros; lia.
  - unfold stavesCovered, size in *.
    destruct (lookup_lt_is_Some_2 (staves score) (Z.to_nat i) ltac:(lia)) as [s Hs].
    destruct (lookup_lt_is_Some_2 (_staves sys) (Z.to_nat i) ltac:(lia)) as [ss Hss].
    assert (Es : Score.staff score i = Some s)
      by (apply Score_staff_Some; split; [lia | exact Hs]).
    assert (Ess : at_ (_staves sys) i = Some ss)
      by (apply at_Some; split; [lia | exact Hss]).
    rewrite Es. simpl. rewrite Ess. simpl.
    destruct (show s && _show ss) eqn:Ev.
    + exists i. split; [reflexivity|]. split; [lia|]. split.
      * intros _. apply visibleAt_true. eauto.
      * intros; lia.
    + destruct (IH (i + 1) ltac:(lia) ltac:(lia) Hcov) as (r & Hr & Hrange & Hvis & Hnone).
      exists r. split; [exact Hr|]. split; [lia|]. split.
      * intros Hlt. apply Hvis. lia.
      * intros k Hk. destruct (Z.eq_dec k i) as [->|Hne].
        -- unfold visibleAt. rewrite staff_at, Es, Ess. exact Ev.
        -- apply Hnone. lia.
Qed.

Lemma nextVisibleStaff_spec staffIdx :
  stavesCovered score sys -> -1 <= staffIdx ->
  exists r, System.nextVisibleStaff score sys staffIdx = Some r
    /\ staffIdx < r <= Z.max (size (_staves sys)) (staffIdx + 1)
    /\ (r < size (_staves sys) -> visibleAt score sys r = true)
    /\ (forall k, staffIdx < k < r -> visibleAt score sys k = false).
Proof.
  intros Hcov Hlo. unfold System.nextVisibleStaff.
  destruct (Z_le_gt_dec (staffIdx + 1) (size (_staves sys))) as [Hle | Hgt].
  - destruct (nextVisibleStaff_loop_spec
                (Z.to_nat (size (_staves sys) - (staffIdx + 1))) (staffIdx + 1)
                ltac:(lia) ltac:(lia) Hcov) as (r & Hr & Hrange & Hvis & Hnone).
    exists r. split; [exact Hr|]. split; [lia|]. split.
    + intros Hlt. apply Hvis. lia.
    + intros k Hk. apply Hnone. lia.
  - replace (Z.to_nat (size (_staves sys) - (staffIdx + 1))) with O by lia.
    simpl. exists (staffIdx + 1). split; [reflexivity|]. split; [lia|].
    split; intros; lia.
Qed.

Lemma visits_sorted vis : forall a,
  stavesCovered score sys -> -1 <= a < size (_staves sys) ->
  increasingFrom (a + 1) vis ->
  (forall j, a < j -> (j ∈ vis <-> visibleAt score sys j = true)) ->
  visits (System.nextVisibleStaff score sys) a vis (size (_staves sys)).
Proof.
  induction vis as [|b vis IH]; intros a Hcov Ha Hinc Hmem; simpl.
  - destruct (nextVisibleStaff_spec a Hcov ltac:(lia)) as (r & Hr & Hrange & Hvis & _).
    rewrite Hr. f_equal.
    destruct (Z_lt_le_dec r (size (_staves sys))) as [Hlt | Hge]; [|lia].
    exfalso. apply Hvis in Hlt. apply Hmem in Hlt; [|lia].
    apply elem_of_nil in Hlt. exact Hlt.
  - destruct Hinc as [Hab Hinc].
    assert (Hb : visibleAt score sys b = true)
      by (apply Hmem; [lia | apply list_elem_of_here]).
    pose proof (visibleAt_range b Hb) as Hbr.
    destruct (nextVisibleStaff_spec a Hcov ltac:(lia)) as (r & Hr & Hrange & Hvis & Hnone).
    assert (Hrb : r = b).
    { destruct (Z_lt_le_dec b r) as [Hlt | Hge].
      - rewrite (Hnone b ltac:(lia)) in Hb. discriminate.
      - assert (Hrv : r ∈ b :: vis) by (apply Hmem; [lia | apply Hvis; lia]).
        apply elem_of_cons in Hrv. destruct Hrv as [-> | Hin]; [reflexivity|].
        pose proof (increasingFrom_ge _ _ Hinc) as Hall.
        rewrite list.Forall_forall in Hall. specialize (Hall r Hin). lia. }
    subst r. split; [exact Hr|].
    apply IH; [exact Hcov | lia | exact Hinc |].
    intros j Hj. rewrite <- (Hmem j ltac:(lia)). rewrite elem_of_cons.
    split; [auto | intros [-> | Hin]; [lia | exact Hin]].
Qed.
End VisibleQueries.

(** X1.  For a staff index from -1 to [INT_MAX - 1], where [staffIdx + 1]
    does not overflow, on a system whose records all have a staff in the
    score, nextVisibleStaff returns the first index after [staffIdx] at which
    staff and record are both shown.  When there is none it returns the
    number of records, or [staffIdx + 1] if that is larger; it never
    returns -1. *)
Theorem nextVisibleStaff_finds_next `{Collaborators}
        (score : Score) (sys : System) (staffIdx : Z) :
  stavesCovered score sys -> -1 <= staffIdx < System.INT_MAX ->
  exists r, System.nextVisibleStaff score sys staffIdx = Some r
    /\ staffIdx < r <= Z.max (size (_staves sys)) (staffIdx + 1)
    /\ (r < size (_staves sys) -> visibleAt score sys r = true)
    /\ (forall k, staffIdx < k < r -> visibleAt score sys k = false).
Proof. intros Hcov [Hlo _]. apply nextVisibleStaff_spec; assumption. Qed.

Lemma nextVisibleStaff_finds_next_witness :
  System.nextVisibleStaff Sample.score Sample.systemSecondHidden 0 = Some 2
  /\ System.nextVisibleStaff Sample.score Sample.systemSecondHidden 2 = Some 3.
Proof.
  destruct (nextVisibleStaff_finds_next Sample.score Sample.systemSecondHidden 0)
    as (r & Hr & _);
    [unfold stavesCovered, size; simpl; lia | unfold System.INT_MAX; lia |].
  split; vm_compute; reflexivity.
Defined.

(** X2.  The staves that layout2 places, its list of visible staves, are
    the staves that a walk with nextVisibleStaff visits: firstVisibleStaff
    gives the first of them, nextVisibleStaff of each gives the next, and
    nextVisibleStaff of the last gives the number of records. *)
Theorem nextVisibleStaff_visits_placed_staves `{Collaborators}
        (score : Score) (sys : System) (vis : list Z) (l0 : list SysStaff) :
  System.collectVisibleStaves score 0 (_staves sys) = Some (vis, l0) ->
  visits (System.nextVisibleStaff score sys) (-1) vis (size (_staves sys))
  /\ System.firstVisibleStaff score sys
     = Some (List.hd (size (_staves sys)) vis).
Proof.
  intros Hcollect.
  destruct (collectVisibleStaves_spec score (_staves sys) 0 vis l0 ltac:(lia) Hcollect)
    as (_ & Hinc & Hall).
  assert (Hcov : stavesCovered score sys).
  { unfold stavesCovered, size.
    destruct (_staves sys) as [|a l] eqn:El using rev_ind; [simpl; lia|].
    destruct (Hall (length l) a) as (s & Hs & _).
    { apply list_lookup_middle. reflexivity. }
    apply Score_staff_Some in Hs. destruct Hs as [_ Hs].
    apply lookup_lt_Some in Hs. rewrite length_app. simpl. lia. }
  assert (Hwalk : visits (System.nextVisibleStaff score sys) (-1) vis (size (_staves sys))).
  { apply visits_sorted; [exact Hcov | unfold size; lia | exact Hinc |].
    intros j _. apply (collectVisibleStaves_visible score sys vis l0 Hcollect). }
  split; [exact Hwalk|].
  unfold System.firstVisibleStaff. destruct vis as [|b vis]; simpl in *; [exact Hwalk|].
  apply Hwalk.
Qed.

Lemma nextVisibleStaff_visits_placed_staves_witness :
  visits (System.nextVisibleStaff Sample.score Sample.systemSecondHidden) (-1) [0; 2] 3.
Proof.
  refine (proj1 (nextVisibleStaff_visits_placed_staves
                   Sample.score Sample.systemSecondHidden [0; 2]
                   (snd (default ([], []) (System.collectVisibleStaves
                                            Sample.score 0
                                            (_staves Sample.systemSecondHidden)))) _)).
  vm_compute. reflexivity.
Defined.

Section ShownRecords.
Context `{Collaborators}.

Lemma shownAt_lookup sys (k : nat) :
  shownAt sys (Z.of_nat k)
  = match _staves sys !! k with Some ss => _show ss | None => false end.
Proof.
  unfold shownAt. rewrite staff_at. unfold at_.
  replace (0 <=? Z.of_nat k) with true by (symmetry; apply Z.leb_le; lia).
  rewrite Nat2Z.id. reflexivity.
Qed.

Lemma shownAt_index sys i :
  shownAt sys i = true ->
  exists (k : nat) ss, i = Z.of_nat k /\ _staves sys !! k = Some ss /\ _show ss = true.
Proof.
  intros Hs. destruct (shownAt_true _ _ Hs) as (ss & _ & Hat & Hshow).
  apply at_Some in Hat. destruct Hat as [Hi Hl].
  exists (Z.to_nat i), ss. split; [lia | auto].
Qed.

Lemma firstVisibleSysStaff_loop_spec (l : list SysStaff) : forall i,
  (Forall (fun ss => _show ss = false) l
   /\ System.firstVisibleSysStaff_loop l i = (-1, ["no sys staff"%string]))
  \/ (exists (k : nat) ss,
        l !! k = Some ss /\ _show ss = true
        /\ System.firstVisibleSysStaff_loop l i = (i + Z.of_nat k, [])
        /\ forall (k' : nat) ss', (k' < k)%nat -> l !! k' = Some ss' -> _show ss' = false).
Proof.
  induction l as [|a l IH]; intros i; simpl.
  - left. split; [constructor | reflexivity].
  - destruct (_show a) eqn:Ea.
    + right. exists O, a. split; [reflexivity|]. split; [exact Ea|].
      split; [f_equal; lia | intros; lia].
    + destruct (IH (i + 1)) as [[Hall Hr] | (k & ss & Hk & Hshow & Hr & Hbefore)].
      * left. split; [constructor; assumption | exact Hr].
      * right. exists (S k), ss. split; [exact Hk|]. split; [exact Hshow|].
        split; [rewrite Hr; f_equal; lia|].
        intros [|k'] ss' Hlt Hl; simpl in Hl; [congruence|].
        eapply Hbefore; [|exact Hl]. lia.
Qed.

Lemma lastVisibleSysStaff_loop_spec (l : list SysStaff) :
  (Forall (fun ss => _show ss = false) l
   /\ System.lastVisibleSysStaff_loop (rev l) (size l - 1) = (-1, ["no sys staff"%string]))
  \/ (exists (k : nat) ss,
        l !! k = Some ss /\ _show ss = true
        /\ System.lastVisibleSysStaff_loop (rev l) (size l - 1) = (Z.of_nat k, [])
        /\ forall (k' : nat) ss', (k < k')%nat -> l !! k' = Some ss' -> _show ss' = false).
Proof.
  induction l as [|a l IH] using rev_ind.
  - left. split; [constructor | reflexivity].
  - rewrite rev_app_distr. simpl. unfold size. rewrite length_app. simpl.
    replace (Z.of_nat (length l + 1) - 1 - 1) with (size l - 1) by (unfold size; lia).
    destruct (_show a) eqn:Ea.
    + right. exists (length l), a. split; [apply list_lookup_middle; reflexivity|].
      split; [exact Ea|]. split; [f_equal; lia|].
      intros k' ss' Hlt Hl. apply lookup_lt_Some in Hl. rewrite length_app in Hl.
      simpl in Hl. lia.
    + destruct IH as [[Hall Hr] | (k & ss & Hk & Hshow & Hr & Hafter)].
      * left. split; [|exact Hr]. apply Forall_app. split; [exact Hall|].
        constructor; [exact Ea | constructor].
      * right. exists k, ss. split; [apply lookup_app_l_Some; exact Hk|].
        split; [exact Hshow|]. split; [exact Hr|].
        intros k' ss' Hlt Hl.
        destruct (lt_dec k' (length l)) as [Hin | Hout].
        -- rewrite lookup_app_l in Hl by exact Hin. eapply Hafter; eassumption.
        -- pose proof (lookup_lt_Some _ _ _ Hl) as Hb. rewrite length_app in Hb.
           simpl in Hb. assert (k' = length l) by lia. subst k'.
           rewrite list_lookup_middle in Hl by reflexivity. congruence.
Qed.

Lemma hidden_records sys :
  (forall i, shownAt sys i = false) ->
  forall (k : nat) ss, _staves sys !! k = Some ss -> _show ss = false.
Proof.
  intros Hall k ss Hk. specialize (Hall (Z.of_nat k)).
  rewrite shownAt_lookup, Hk in Hall. exact Hall.
Qed.
End ShownRecords.

Lemma sysStaff_ends `{Collaborators} (sys : System) :
  ((forall i, shownAt sys i = false) ->
     System.firstVisibleSysStaff sys = (-1, ["no sys staff"%string])
     /\ System.lastVisibleSysStaff sys = (-1, ["no sys staff"%string]))
  /\ (forall j, shownAt sys j = true ->
        snd (System.firstVisibleSysStaff sys) = []
        /\ snd (System.lastVisibleSysStaff sys) = []
        /\ 0 <= fst (System.firstVisibleSysStaff sys) <= j
        /\ j <= fst (System.lastVisibleSysStaff sys) < size (_staves sys)
        /\ shownAt sys (fst (System.firstVisibleSysStaff sys)) = true
        /\ shownAt sys (fst (System.lastVisibleSysStaff sys)) = true).
Proof.
  unfold System.firstVisibleSysStaff, System.lastVisibleSysStaff.
  split.
  - intros Hall. pose proof (hidden_records sys Hall) as Hrec.
    split.
    + destruct (firstVisibleSysStaff_loop_spec (_staves sys) 0)
        as [[_ Hr] | (k & ss & Hk & Hshow & _)]; [exact Hr|].
      rewrite (Hrec k ss Hk) in Hshow. discriminate.
    + destruct (lastVisibleSysStaff_loop_spec (_staves sys))
        as [[_ Hr] | (k & ss & Hk & Hshow & _)]; [exact Hr|].
      rewrite (Hrec k ss Hk) in Hshow. discriminate.
  - intros j Hj. destruct (shownAt_index sys j Hj) as (kj & sj & -> & Hkj & Hsj).
    destruct (firstVisibleSysStaff_loop_spec (_staves sys) 0)
      as [[Hall _] | (k & ss & Hk & Hshow & Hr & Hbefore)].
    { rewrite list.Forall_forall in Hall.
      rewrite (Hall sj) in Hsj; [discriminate|].
      eapply list_elem_of_lookup_2; exact Hkj. }
    destruct (lastVisibleSysStaff_loop_spec (_staves sys))
      as [[Hall _] | (k2 & ss2 & Hk2 & Hshow2 & Hr2 & Hafter)].
    { rewrite list.Forall_forall in Hall.
      rewrite (Hall sj) in Hsj; [discriminate|].
      eapply list_elem_of_lookup_2; exact Hkj. }
    rewrite Hr, Hr2. simpl.
    assert (Hle : (k <= kj)%nat).
    { destruct (le_lt_dec k kj) as [Hle | Hlt]; [exact Hle|].
      rewrite (Hbefore kj sj Hlt Hkj) in Hsj. discriminate. }
    assert (Hge : (kj <= k2)%nat).
    { destruct (le_lt_dec kj k2) as [Hle2 | Hlt]; [exact Hle2|].
      rewrite (Hafter kj sj Hlt Hkj) in Hsj. discriminate. }
    pose proof (lookup_lt_Some _ _ _ Hk2) as Hb2.
    split; [reflexivity|]. split; [reflexivity|].
    split; [lia|]. split; [unfold size; lia|].
    split.
    + replace (0 + Z.of_nat k) with (Z.of_nat k) by lia.
      rewrite shownAt_lookup, Hk. exact Hshow.
    + rewrite shownAt_lookup, Hk2. exact Hshow2.
Qed.

(** X3.  firstVisibleSysStaff and lastVisibleSysStaff return the least and
    the greatest index of a shown record and write nothing; when no record is
    shown both return -1 and write one message. *)
Theorem visible_sysStaff_ends `{Collaborators} (sys : System) :
  ((forall i, shownAt sys i = false) ->
     System.firstVisibleSysStaff sys = (-1, ["no sys staff"%string])
     /\ System.lastVisibleSysStaff sys = (-1, ["no sys staff"%string]))
  /\ (forall j, shownAt sys j = true ->
        snd (System.firstVisibleSysStaff sys) = []
        /\ snd (System.lastVisibleSysStaff sys) = []
        /\ 0 <= fst (System.firstVisibleSysStaff sys) <= j
        /\ j <= fst (System.lastVisibleSysStaff sys) < size (_staves sys)
        /\ shownAt sys (fst (System.firstVisibleSysStaff sys)) = true
        /\ shownAt sys (fst (System.lastVisibleSysStaff sys)) = true).
Proof. apply sysStaff_ends. Qed.

Lemma visible_sysStaff_ends_witness :
  System.firstVisibleSysStaff Sample.systemAllHidden = (-1, ["no sys staff"%string])
  /\ fst (System.firstVisibleSysStaff Sample.systemTopHidden) = 1
  /\ fst (System.lastVisibleSysStaff Sample.systemTopHidden) = 2.
Proof.
  destruct (visible_sysStaff_ends Sample.systemAllHidden) as [Hnone _].
  destruct (visible_sysStaff_ends Sample.systemTopHidden) as [_ Hsome].
  split.
  - apply Hnone. intros i. unfold shownAt, System.staff.
    destruct ((0 <=? i) && (i <? size (_staves Sample.systemAllHidden))) eqn:E;
      [|reflexivity].
    apply andb_true_iff in E. destruct E as [E1 E2].
    apply Z.leb_le in E1. apply Z.ltb_lt in E2.
    change (size (_staves Sample.systemAllHidden)) with 3 in E2.
    assert (Hi : i = 0 \/ i = 1 \/ i = 2) by lia.
    destruct Hi as [-> | [-> | ->]]; reflexivity.
  - destruct (Hsome 1 ltac:(reflexivity)) as (_ & _ & _ & _ & _ & _).
    split; vm_compute; reflexivity.
Defined.

(** ** Staves of a part *)

Section PartRanges.
Context `{Collaborators}.

Lemma firstSysStaffOfPart_loop_absent ps : forall p0 part acc,
  (p0 + length ps <= part)%nat ->
  System.firstSysStaffOfPart_loop ps p0 part acc = -1.
Proof.
  induction ps as [|q ps IH]; intros p0 part acc Hle; simpl; [reflexivity|].
  simpl in Hle. replace (p0 =? part)%nat with false by (symmetry; apply Nat.eqb_neq; lia).
  apply IH. lia.
Qed.

Lemma firstVisible_loop_spec sys n : forall idx,
  0 <= idx -> idx + Z.of_nat n <= size (_staves sys) ->
  exists v, System.firstVisible_loop sys idx n = Some v
    /\ ((v = -1 /\ forall i, idx <= i < idx + Z.of_nat n -> shownAt sys i = false)
        \/ (idx <= v < idx + Z.of_nat n /\ shownAt sys v = true
            /\ forall i, idx <= i < v -> shownAt sys i = false)).
Proof.
  induction n as [|n IH]; intros idx Hlo Hhi; simpl.
  - exists (-1). split; [reflexivity|]. left. split; [reflexivity | intros; lia].
  - destruct (shown_staff sys idx ltac:(lia)) as (b & Hb & Hsh).
    destruct (System.staff sys idx) as [ss|] eqn:Es; [|discriminate].
    simpl in Hb. injection Hb as Hb. rewrite <- Hb in Hsh. simpl.
    destruct (_show ss) eqn:Eshow.
    + exists idx. split; [reflexivity|]. right. split; [lia|]. split; [exact Hsh|].
      intros; lia.
    + destruct (IH (idx + 1) ltac:(lia) ltac:(lia)) as (v & Hv & Hcases).
      exists v. split; [exact Hv|].
      destruct Hcases as [[-> Hall] | (Hrange & Hshown & Hbefore)].
      * left. split; [reflexivity|]. intros i Hi.
        destruct (Z.eq_dec i idx) as [-> | Hne]; [exact Hsh | apply Hall; lia].
      * right. split; [lia|]. split; [exact Hshown|]. intros i Hi.
        destruct (Z.eq_dec i idx) as [-> | Hne]; [exact Hsh | apply Hbefore; lia].
Qed.

Lemma lastVisible_loop_spec sys n : forall idx,
  idx < size (_staves sys) -> 0 <= idx - Z.of_nat n + 1 ->
  exists v, System.lastVisible_loop sys idx n = Some v
    /\ ((v = -1 /\ forall i, idx - Z.of_nat n < i <= idx -> shownAt sys i = false)
        \/ (idx - Z.of_nat n < v <= idx /\ shownAt sys v = true
            /\ forall i, v < i <= idx -> shownAt sys i = false)).
Proof.
  induction n as [|n IH]; intros idx Hhi Hlo; simpl.
  - exists (-1). split; [reflexivity|]. left. split; [reflexivity | intros; lia].
  - destruct (shown_staff sys idx ltac:(lia)) as (b & Hb & Hsh).
    destruct (System.staff sys idx) as [ss|] eqn:Es; [|discriminate].
    simpl in Hb. injection Hb as Hb. rewrite <- Hb in Hsh. simpl.
    destruct (_show ss) eqn:Eshow.
    + exists idx. split; [reflexivity|]. right. split; [lia|]. split; [exact Hsh|].
      intros; lia.
    + destruct (IH (idx - 1) ltac:(lia) ltac:(lia)) as (v & Hv & Hcases).
      exists v. split; [exact Hv|].
      destruct Hcases as [[-> Hall] | (Hrange & Hshown & Hafter)].
      * left. split; [reflexivity|]. intros i Hi.
        destruct (Z.eq_dec i idx) as [-> | Hne]; [exact Hsh | apply Hall; lia].
      * right. split; [lia|]. split; [exact Hshown|]. intros i Hi.
        destruct (Z.eq_dec i idx) as [-> | Hne]; [exact Hsh | apply Hafter; lia].
Qed.

Lemma part_staff_ranges_aux score pre p post :
  parts score = pre ++ p :: post ->
  Forall (fun q => 0 <= nstaves q) pre ->
  System.firstSysStaffOfPart score (length pre) = sumStaves pre
  /\ System.lastSysStaffOfPart score (length pre) p = sumStaves pre + nstaves p - 1.
Proof.
  intros Hparts Hnonneg.
  assert (Hfirst : System.firstSysStaffOfPart score (length pre) = sumStaves pre)
    by (eapply firstSysStaffOfPart_split; exact Hparts).
  split; [exact Hfirst|].
  unfold System.lastSysStaffOfPart. rewrite Hfirst.
  pose proof (sumStaves_nonneg pre Hnonneg).
  replace (sumStaves pre <? 0) with false by (symmetry; apply Z.ltb_ge; lia).
  reflexivity.
Qed.
End PartRanges.

(** X4.  The staves of the parts follow one another: for a part of the
    score, firstSysStaffOfPart is the number of staves of the parts before it
    and lastSysStaffOfPart is that plus its own staves minus one, so the next
    part starts right after.  For a part that is not in the score both
    return -1. *)
Theorem part_staff_ranges (score : Score) (pre : list Part) (p : Part) (post : list Part) :
  parts score = pre ++ p :: post ->
  Forall (fun q => 0 <= nstaves q) pre ->
  System.firstSysStaffOfPart score (length pre) = sumStaves pre
  /\ System.lastSysStaffOfPart score (length pre) p = sumStaves pre + nstaves p - 1
  /\ (post <> [] ->
      System.firstSysStaffOfPart score (S (length pre))
      = System.lastSysStaffOfPart score (length pre) p + 1)
  /\ (forall part q, (length (parts score) <= part)%nat ->
        System.firstSysStaffOfPart score part = -1
        /\ System.lastSysStaffOfPart score part q = -1).
Proof.
  intros Hparts Hnonneg.
  destruct (part_staff_ranges_aux score pre p post Hparts Hnonneg) as [Hfirst Hlast].
  split; [exact Hfirst|]. split; [exact Hlast|]. split.
  - intros Hpost. destruct post as [|q post]; [congruence|].
    rewrite Hlast.
    assert (Hsplit : parts score = (pre ++ [p]) ++ q :: post)
      by (rewrite Hparts, <- app_assoc; reflexivity).
    pose proof (firstSysStaffOfPart_split score (pre ++ [p]) q post Hsplit) as Hnext.
    rewrite length_app in Hnext. simpl in Hnext.
    replace (length pre + 1)%nat with (S (length pre)) in Hnext by lia.
    rewrite Hnext, sumStaves_snoc. lia.
  - intros part q Hle.
    assert (Hf : System.firstSysStaffOfPart score part = -1)
      by (apply firstSysStaffOfPart_loop_absent; simpl; exact Hle).
    split; [exact Hf|]. unfold System.lastSysStaffOfPart. rewrite Hf. reflexivity.
Qed.

Lemma part_staff_ranges_witness :
  System.firstSysStaffOfPart Sample.score 1 = 2
  /\ System.lastSysStaffOfPart Sample.score 0 (mkPart 2) = 1
  /\ System.lastSysStaffOfPart Sample.score 1 (mkPart 1) = 2.
Proof.
  destruct (part_staff_ranges Sample.score [] (mkPart 2) [mkPart 1])
    as (_ & Hlast & Hnext & _); [reflexivity | constructor |].
  split; [|split; [exact Hlast | reflexivity]].
  specialize (Hnext ltac:(discriminate)). rewrite Hlast in Hnext. exact Hnext.
Defined.

(** X5.  For a part of the score whose staves all have a record,
    firstVisibleSysStaffOfPart and lastVisibleSysStaffOfPart return the first
    and the last shown record among the staves of the part, and both return
    -1 when none of them is shown.  For a part that is not in the score
    lastVisibleSysStaffOfPart has no result: it reads the record at -1. *)
Theorem part_visible_ends `{Collaborators}
        (score : Score) (sys : System) (pre : list Part) (p : Part) (post : list Part) :
  parts score = pre ++ p :: post ->
  Forall (fun q => 0 <= nstaves q) pre -> 0 <= nstaves p ->
  sumStaves pre + nstaves p <= size (_staves sys) ->
  let first := sumStaves pre in
  let last := sumStaves pre + nstaves p - 1 in
  (exists fv lv,
      System.firstVisibleSysStaffOfPart score sys (length pre) p = Some fv
      /\ System.lastVisibleSysStaffOfPart score sys (length pre) p = Some lv
      /\ ((forall i, first <= i <= last -> shownAt sys i = false) -> fv = -1 /\ lv = -1)
      /\ (forall j, first <= j <= last -> shownAt sys j = true ->
            first <= fv <= j /\ j <= lv <= last
            /\ shownAt sys fv = true /\ shownAt sys lv = true))
  /\ (forall part q, (length (parts score) <= part)%nat ->
        System.lastVisibleSysStaffOfPart score sys part q = None).
Proof.
  intros Hparts Hnonneg Hp Hrec first last.
  destruct (part_staff_ranges_aux score pre p post Hparts Hnonneg) as [Hfirst Hlast].
  pose proof (sumStaves_nonneg pre Hnonneg) as Hpre.
  split.
  - unfold System.firstVisibleSysStaffOfPart, System.lastVisibleSysStaffOfPart.
    rewrite Hfirst, Hlast.
    replace (Z.to_nat (sumStaves pre + nstaves p - 1 - sumStaves pre + 1))
      with (Z.to_nat (nstaves p)) by lia.
    destruct (firstVisible_loop_spec sys (Z.to_nat (nstaves p)) (sumStaves pre)
                ltac:(lia) ltac:(lia)) as (fv & Hfv & Hfcases).
    destruct (lastVisible_loop_spec sys (Z.to_nat (nstaves p))
                (sumStaves pre + nstaves p - 1) ltac:(lia) ltac:(lia))
      as (lv & Hlv & Hlcases).
    exists fv, lv. split; [exact Hfv|]. split; [exact Hlv|].
    subst first last. split.
    + intros Hhidden. split.
      * destruct Hfcases as [[-> _] | (Hr & Hs & _)]; [reflexivity|].
        rewrite Hhidden in Hs by lia. discriminate.
      * destruct Hlcases as [[-> _] | (Hr & Hs & _)]; [reflexivity|].
        rewrite Hhidden in Hs by lia. discriminate.
    + intros j Hj Hshown.
      destruct Hfcases as [[_ Hall] | (Hfr & Hfs & Hbefore)];
        [rewrite Hall in Hshown by lia; discriminate|].
      destruct Hlcases as [[_ Hall] | (Hlr & Hls & Hafter)];
        [rewrite Hall in Hshown by lia; discriminate|].
      assert (fv <= j).
      { destruct (Z_le_gt_dec fv j); [assumption|].
        rewrite Hbefore in Hshown by lia. discriminate. }
      assert (j <= lv).
      { destruct (Z_le_gt_dec j lv); [assumption|].
        rewrite Hafter in Hshown by lia. discriminate. }
      repeat split; try lia; assumption.
  - intros part q Hle. unfold System.lastVisibleSysStaffOfPart, System.lastSysStaffOfPart.
    rewrite (firstSysStaffOfPart_loop_absent (parts score) O part 0 Hle : 
               System.firstSysStaffOfPart score part = -1).
    reflexivity.
Qed.

Lemma part_visible_ends_witness :
  System.firstVisibleSysStaffOfPart Sample.score Sample.systemTopHidden 0 (mkPart 2)
  = Some 1
  /\ System.lastVisibleSysStaffOfPart Sample.score Sample.systemTopHidden 0 (mkPart 2)
     = Some 1.
Proof.
  destruct (part_visible_ends Sample.score Sample.systemTopHidden [] (mkPart 2) [mkPart 1])
    as [(fv & lv & Hf & Hl & _ & Hsome) _];
    [reflexivity | constructor | simpl; lia | unfold size; simpl; lia |].
  split; vm_compute; reflexivity.
Defined.

(** ** Spacers *)

Section SpacerQueries.
Context `{Collaborators}.

Lemma spacerDistance_loop_elastic up st ms : forall d,
  Forall (elasticAt up st) ms ->
  (d <= System.spacerDistance_loop up st ms d)%Q
  /\ forall m sp, m ∈ ms -> spacerAt up st m = Some sp ->
       (gap sp <= System.spacerDistance_loop up st ms d)%Q.
Proof.
  induction ms as [|m ms IH]; intros d Hall; simpl.
  - split; [lra|]. intros m sp Hin. apply elem_of_nil in Hin. contradiction.
  - inversion Hall as [|? ? Hm Hrest]; subst.
    unfold elasticAt, spacerAt in Hm.
    assert (Hcase :
      forall m' sp', m' ∈ m :: ms -> spacerAt up st m' = Some sp' ->
        (m' = m /\ spacerAt up st m = Some sp') \/ m' ∈ ms).
    { intros m' sp' Hin Hsp. apply elem_of_cons in Hin.
      destruct Hin as [-> | Hin]; [left; auto | right; exact Hin]. }
    destruct (isMeasure m) eqn:Em.
    + destruct (if up then vspacerUp m st else vspacerDown m st) as [sp|] eqn:Esp.
      * rewrite (Hm sp eq_refl).
        destruct (IH (qMax d (gap sp)) Hrest) as [Hd Hg].
        pose proof (qMax_ge_l d (gap sp)). pose proof (qMax_ge_r d (gap sp)).
        split; [lra|]. intros m' sp' Hin Hsp'.
        destruct (Hcase m' sp' Hin Hsp') as [[-> Hsp0] | Hin'].
        -- unfold spacerAt in Hsp0. rewrite Em, Esp in Hsp0.
           inversion Hsp0; subst sp'. lra.
        -- eapply Hg; eassumption.
      * destruct (IH d Hrest) as [Hd Hg]. split; [exact Hd|].
        intros m' sp' Hin Hsp'.
        destruct (Hcase m' sp' Hin Hsp') as [[-> Hsp0] | Hin'].
        -- unfold spacerAt in Hsp0. rewrite Em, Esp in Hsp0. discriminate.
        -- eapply Hg; eassumption.
    + destruct (IH d Hrest) as [Hd Hg]. split; [exact Hd|].
      intros m' sp' Hin Hsp'.
      destruct (Hcase m' sp' Hin Hsp') as [[-> Hsp0] | Hin'].
      * unfold spacerAt in Hsp0. rewrite Em in Hsp0. discriminate.
      * eapply Hg; eassumption.
Qed.

Lemma spacerDistance_loop_fixed up st pre : forall d m post sp,
  Forall (elasticAt up st) pre ->
  spacerAt up st m = Some sp -> isFixed sp = true ->
  System.spacerDistance_loop up st (pre ++ m :: post) d = gap sp.
Proof.
  induction pre as [|a pre IH]; intros d m post sp Hall Hsp Hfix; simpl.
  - unfold spacerAt in Hsp. destruct (isMeasure m); [|discriminate].
    rewrite Hsp, Hfix. reflexivity.
  - inversion Hall as [|? ? Ha Hrest]; subst. unfold elasticAt, spacerAt in Ha.
    destruct (isMeasure a); [|eapply IH; eassumption].
    destruct (if up then vspacerUp a st else vspacerDown a st) as [spa|];
      [|eapply IH; eassumption].
    rewrite (Ha spa eq_refl). eapply IH; eassumption.
Qed.

(** The distance a down-spacer record stands for. *)
Lemma qMax_0_step (c g : qreal) :
  qMax (qMax 0%Q c) g = qMax 0%Q (if qLess c g then g else c).
Proof.
  unfold qMax.
  destruct (qLess 0%Q c) eqn:E1; destruct (qLess c g) eqn:E2; cbv beta iota.
  - assert (E3 : qLess 0%Q g = true).
    { apply qLess_true. apply qLess_true in E1, E2. lra. }
    rewrite E3. reflexivity.
  - rewrite E1. reflexivity.
  - reflexivity.
  - assert (E3 : qLess 0%Q g = false).
    { apply qLess_false. apply qLess_false in E1, E2. lra. }
    rewrite E3, E1. reflexivity.
Qed.

Lemma spacerDistance_downSpacer_loop st ms : forall cur,
  match cur with Some c => isFixed c = false | None => True end ->
  System.spacerDistance_loop false st ms
    (match cur with Some c => qMax 0%Q (gap c) | None => 0%Q end)
  = match System.downSpacer_loop st ms cur with
    | Some sp => if isFixed sp then gap sp else qMax 0%Q (gap sp)
    | None => 0%Q
    end.
Proof.
  induction ms as [|m ms IH]; intros cur Hcur; simpl.
  - destruct cur as [c|]; [rewrite Hcur|]; reflexivity.
  - destruct (isMeasure m); simpl; [|apply IH; exact Hcur].
    destruct (vspacerDown m st) as [sp|]; [|apply IH; exact Hcur].
    destruct (isFixed sp) eqn:Efix; [rewrite Efix; reflexivity|].
    destruct cur as [c|].
    + rewrite qMax_0_step.
      rewrite <- (IH (if qLess (gap c) (gap sp) then Some sp else Some c)).
      * destruct (qLess (gap c) (gap sp)); reflexivity.
      * destruct (qLess (gap c) (gap sp)); assumption.
    + rewrite <- (IH (Some sp) Efix). reflexivity.
Qed.
End SpacerQueries.

(** X6.  spacerDistance is 0 when no record is shown.  Otherwise it reads
    the up-spacers of the first shown record, or the down-spacers of the last
    one: the gap of the first FIXED spacer if the measures before it carry
    none, and with no FIXED spacer a distance that is not negative and not
    less than the gap of any of the spacers. *)
Theorem spacerDistance_bounds `{Collaborators} (up : bool) (sys : System) :
  let st := fst (if up then System.firstVisibleSysStaff sys
                 else System.lastVisibleSysStaff sys) in
  let d := fst (System.spacerDistance up sys) in
  (st < 0 -> d = 0%Q)
  /\ (0 <= st ->
      (forall pre m post sp,
          ml sys = pre ++ m :: post -> Forall (elasticAt up st) pre ->
          spacerAt up st m = Some sp -> isFixed sp = true -> d = gap sp)
      /\ (Forall (elasticAt up st) (ml sys) ->
          (0 <= d)%Q
          /\ forall m sp, m ∈ ml sys -> spacerAt up st m = Some sp -> (gap sp <= d)%Q)).
Proof.
  intros st d. subst st d. unfold System.spacerDistance.
  destruct (if up then System.firstVisibleSysStaff sys else System.lastVisibleSysStaff sys)
    as [st log]. simpl.
  split.
  - intros Hneg. replace (st <? 0) with true by (symmetry; apply Z.ltb_lt; lia).
    reflexivity.
  - intros Hpos. replace (st <? 0) with false by (symmetry; apply Z.ltb_ge; lia).
    simpl. split.
    + intros pre m post sp Hml Hpre Hsp Hfix. rewrite Hml.
      eapply spacerDistance_loop_fixed; eassumption.
    + intros Hall. apply spacerDistance_loop_elastic. exact Hall.
Qed.

Lemma spacerDistance_bounds_witness :
  fst (System.spacerDistance false (Sample.systemOnlyTop Sample.spacers)) = 7%Q.
Proof.
  destruct (spacerDistance_bounds false (Sample.systemOnlyTop Sample.spacers))
    as [_ Hshown].
  destruct (Hshown ltac:(vm_compute; discriminate)) as [Hfixed _].
  apply (Hfixed [Sample.measure 0 (Sample.downBelow0 30%Q)]
                (Sample.measure 1 (Sample.fixedBelow0 7%Q))
                [Sample.measure 2 (Sample.fixedBelow0 20%Q)]
                (mkSpacer SpacerFIXED 7%Q)).
  - reflexivity.
  - constructor; [|constructor]. intros sp Hsp. vm_compute in Hsp.
    inversion Hsp. reflexivity.
  - reflexivity.
  - reflexivity.
Defined.

Section SpacerChoice.
Context `{Collaborators}.

Lemma downSpacer_loop_fixed st pre : forall cur m post sp,
  Forall (elasticAt false st) pre ->
  spacerAt false st m = Some sp -> isFixed sp = true ->
  System.downSpacer_loop st (pre ++ m :: post) cur = Some sp.
Proof.
  induction pre as [|a pre IH]; intros cur m post sp Hall Hsp Hfix; simpl.
  - unfold spacerAt in Hsp. destruct (isMeasure m); [|discriminate]. simpl.
    rewrite Hsp, Hfix. reflexivity.
  - inversion Hall as [|? ? Ha Hrest]; subst. unfold elasticAt, spacerAt in Ha.
    destruct (isMeasure a); simpl; [|eapply IH; eassumption].
    destruct (vspacerDown a st) as [spa|]; [|eapply IH; eassumption].
    rewrite (Ha spa eq_refl). eapply IH; eassumption.
Qed.

(** What both loops keep when no spacer ends them: [pick cur sp] is the
    spacer kept after [sp] is met with [cur] in hand. *)
Lemma largest_step (cur : option Spacer) (sp : Spacer) (next : option Spacer) :
  next = (if match cur with
             | Some c => qLess (gap c) (gap sp)
             | None => true
             end then Some sp else cur) ->
  exists r, next = Some r
    /\ (gap sp <= gap r)%Q
    /\ (forall c, cur = Some c -> (gap c <= gap r)%Q)
    /\ (r = sp \/ cur = Some r).
Proof.
  intros ->. destruct cur as [c|].
  - destruct (qLess (gap c) (gap sp)) eqn:E.
    + exists sp. apply qLess_true in E. split; [reflexivity|]. split; [lra|].
      split; [|left; reflexivity]. intros c' Hc. inversion Hc; subst. lra.
    + exists c. apply qLess_false in E. split; [reflexivity|]. split; [lra|].
      split; [|right; reflexivity]. intros c' Hc. inversion Hc; subst. lra.
  - exists sp. split; [reflexivity|]. split; [lra|].
    split; [discriminate | left; reflexivity].
Qed.

Lemma downSpacer_loop_elastic st ms : forall cur,
  Forall (elasticAt false st) ms ->
  (System.downSpacer_loop st ms cur = None <->
   cur = None /\ forall m, m ∈ ms -> spacerAt false st m = None)
  /\ forall r, System.downSpacer_loop st ms cur = Some r ->
       (cur = Some r \/ exists m, m ∈ ms /\ spacerAt false st m = Some r)
       /\ (forall c, cur = Some c -> (gap c <= gap r)%Q)
       /\ forall m sp, m ∈ ms -> spacerAt false st m = Some sp -> (gap sp <= gap r)%Q.
Proof.
  induction ms as [|a ms IH]; intros cur Hall; simpl.
  - split.
    + split; [intros ->; split; [reflexivity|]; intros m Hm; apply elem_of_nil in Hm;
              contradiction | tauto].
    + intros r ->. split; [left; reflexivity|]. split.
      * intros c Hc. inversion Hc. lra.
      * intros m sp Hm. apply elem_of_nil in Hm. contradiction.
  - inversion Hall as [|? ? Ha Hrest]; subst.
    assert (Hskip : spacerAt false st a = None ->
      (System.downSpacer_loop st ms cur = None <->
       cur = None /\ forall m, m ∈ a :: ms -> spacerAt false st m = None)
      /\ forall r, System.downSpacer_loop st ms cur = Some r ->
           (cur = Some r \/ exists m, m ∈ a :: ms /\ spacerAt false st m = Some r)
           /\ (forall c, cur = Some c -> (gap c <= gap r)%Q)
           /\ forall m sp, m ∈ a :: ms -> spacerAt false st m = Some sp ->
                (gap sp <= gap r)%Q).
    { intros Hnone. destruct (IH cur Hrest) as [Hn Hs]. split.
      - rewrite Hn. split; intros [Hc Hm]; (split; [exact Hc|]).
        + intros m Hin. apply elem_of_cons in Hin.
          destruct Hin as [-> | Hin]; [exact Hnone | apply Hm; exact Hin].
        + intros m Hin. apply Hm. apply list_elem_of_further. exact Hin.
      - intros r Hr. destruct (Hs r Hr) as (Hfrom & Hcur & Hmax).
        split; [|split; [exact Hcur|]].
        + destruct Hfrom as [Hc | (m & Hin & Hsp)]; [left; exact Hc|].
          right. exists m. split; [apply list_elem_of_further; exact Hin | exact Hsp].
        + intros m sp Hin Hsp. apply elem_of_cons in Hin.
          destruct Hin as [-> | Hin]; [congruence | eapply Hmax; eassumption]. }
    pose proof Ha as Ha'. unfold elasticAt in Ha'.
    unfold spacerAt in Hskip, Ha'.
    destruct (isMeasure a) eqn:Em; simpl; [|apply Hskip; reflexivity].
    destruct (vspacerDown a st) as [sp|] eqn:Esp; [|apply Hskip; reflexivity].
    rewrite (Ha' sp eq_refl).
    assert (Hsp : spacerAt false st a = Some sp)
      by (unfold spacerAt; rewrite Em; exact Esp).
    destruct (largest_step cur sp _ eq_refl) as (r0 & Hr0 & Hge & Hcur0 & Hfrom0).
    rewrite Hr0. destruct (IH (Some r0) Hrest) as [Hn Hs]. split.
    + rewrite Hn. split; [intros [? _]; discriminate|].
      intros [_ Hm]. rewrite (Hm a (list_elem_of_here _ _)) in Hsp. discriminate.
    + intros r Hr. destruct (Hs r Hr) as (Hfrom & Hcur & Hmax).
      pose proof (Hcur r0 eq_refl) as Hr0r.
      split; [|split].
      * destruct Hfrom as [Hc | (m & Hin & Hm)].
        -- inversion Hc; subst r0. destruct Hfrom0 as [-> | Hc0]; [|left; exact Hc0].
           right. exists a. split; [apply list_elem_of_here | exact Hsp].
        -- right. exists m. split; [apply list_elem_of_further; exact Hin | exact Hm].
      * intros c Hc. specialize (Hcur0 c Hc). lra.
      * intros m sp' Hin Hm. apply elem_of_cons in Hin. destruct Hin as [-> | Hin].
        -- rewrite Hsp in Hm. inversion Hm; subst sp'. lra.
        -- eapply Hmax; eassumption.
Qed.
End SpacerChoice.

(** X7.  downSpacer returns null for a negative staff index.  Otherwise it
    returns the first FIXED down-spacer of the staff if the measures before it
    carry none; with no FIXED spacer it returns a down-spacer of the staff
    whose gap is not less than the gap of any other, and null exactly when
    no measure carries a down-spacer on the staff. *)
Theorem downSpacer_fixed_or_largest `{Collaborators} (sys : System) (staffIdx : Z) :
  (staffIdx < 0 -> System.downSpacer staffIdx sys = None)
  /\ (0 <= staffIdx ->
      (forall pre m post sp,
          ml sys = pre ++ m :: post -> Forall (elasticAt false staffIdx) pre ->
          spacerAt false staffIdx m = Some sp -> isFixed sp = true ->
          System.downSpacer staffIdx sys = Some sp)
      /\ (Forall (elasticAt false staffIdx) (ml sys) ->
          (System.downSpacer staffIdx sys = None <->
           forall m, m ∈ ml sys -> spacerAt false staffIdx m = None)
          /\ forall r, System.downSpacer staffIdx sys = Some r ->
               (exists m, m ∈ ml sys /\ spacerAt false staffIdx m = Some r)
               /\ forall m sp, m ∈ ml sys -> spacerAt false staffIdx m = Some sp ->
                    (gap sp <= gap r)%Q)).
Proof.
  unfold System.downSpacer. split.
  - intros Hneg. replace (staffIdx <? 0) with true by (symmetry; apply Z.ltb_lt; lia).
    reflexivity.
  - intros Hpos. replace (staffIdx <? 0) with false by (symmetry; apply Z.ltb_ge; lia).
    split.
    + intros pre m post sp Hml Hpre Hsp Hfix. rewrite Hml.
      eapply downSpacer_loop_fixed; eassumption.
    + intros Hall. destruct (downSpacer_loop_elastic staffIdx (ml sys) None Hall)
        as [Hn Hs].
      split.
      * rewrite Hn. split; [tauto | auto].
      * intros r Hr. destruct (Hs r Hr) as ([Hc | Hfrom] & _ & Hmax); [discriminate|].
        split; assumption.
Qed.

Lemma downSpacer_fixed_or_largest_witness :
  System.downSpacer 0 (Sample.systemOnlyTop Sample.spacers)
  = Some (mkSpacer SpacerFIXED 7%Q)
  /\ System.downSpacer 0 (Sample.systemOnlyTop Sample.elasticSpacers)
     = Some (mkSpacer SpacerDOWN 30%Q).
Proof.
  destruct (downSpacer_fixed_or_largest (Sample.systemOnlyTop Sample.spacers) 0)
    as [_ Hsome].
  destruct (Hsome ltac:(lia)) as [Hfixed _].
  split; [|vm_compute; reflexivity].
  apply (Hfixed [Sample.measure 0 (Sample.downBelow0 30%Q)]
                (Sample.measure 1 (Sample.fixedBelow0 7%Q))
                [Sample.measure 2 (Sample.fixedBelow0 20%Q)]
                (mkSpacer SpacerFIXED 7%Q)).
  - reflexivity.
  - constructor; [|constructor]. intros sp Hsp. vm_compute in Hsp.
    inversion Hsp. reflexivity.
  - reflexivity.
  - reflexivity.
Defined.

(** X8.  The distance spacerDistance(false) returns is the distance the
    spacer that downSpacer returns for the last shown record stands for: its
    gap if it is FIXED, its gap or 0 if that is more when it is elastic, and
    0 when there is none. *)
Theorem spacerDistance_agrees_with_downSpacer `{Collaborators} (sys : System) :
  0 <= fst (System.lastVisibleSysStaff sys) ->
  fst (System.spacerDistance false sys)
  = match System.downSpacer (fst (System.lastVisibleSysStaff sys)) sys with
    | Some sp => if isFixed sp then gap sp else qMax 0%Q (gap sp)
    | None => 0%Q
    end.
Proof.
  intros Hpos. unfold System.spacerDistance, System.downSpacer.
  destruct (System.lastVisibleSysStaff sys) as [st log]. simpl in *.
  replace (st <? 0) with false by (symmetry; apply Z.ltb_ge; lia). simpl.
  apply (spacerDistance_downSpacer_loop st (ml sys) None I).
Qed.

Lemma spacerDistance_agrees_with_downSpacer_witness :
  fst (System.spacerDistance false (Sample.systemOnlyTop Sample.elasticSpacers)) = 30%Q.
Proof.
  rewrite (spacerDistance_agrees_with_downSpacer
             (Sample.systemOnlyTop Sample.elasticSpacers));
    [reflexivity | vm_compute; discriminate].
Defined.

Section UpSpacer.
Context `{Collaborators}.

Lemma upSpacer_loop_keeps st ms : forall p,
  spacerType p <> SpacerUP -> System.upSpacer_loop st ms (Some p) = Some p.
Proof.
  induction ms as [|a ms IH]; intros p Hp; simpl; [reflexivity|].
  destruct (isMeasure a); simpl; [|apply IH; exact Hp].
  destruct (vspacerUp a st) as [sp|]; [|apply IH; exact Hp].
  destruct (spacerType p) eqn:Et; [congruence | |]; apply IH; rewrite Et; discriminate.
Qed.

Lemma upSpacer_loop_largest st ms : forall cur,
  (forall m sp, m ∈ ms -> spacerAt true st m = Some sp -> spacerType sp = SpacerUP) ->
  (forall c, cur = Some c -> spacerType c = SpacerUP) ->
  forall r, System.upSpacer_loop st ms cur = Some r ->
    (cur = Some r \/ exists m, m ∈ ms /\ spacerAt true st m = Some r)
    /\ (forall c, cur = Some c -> (gap c <= gap r)%Q)
    /\ forall m sp, m ∈ ms -> spacerAt true st m = Some sp -> (gap sp <= gap r)%Q.
Proof.
  induction ms as [|a ms IH]; intros cur Hup Hcur r; simpl.
  - intros ->. split; [left; reflexivity|]. split.
    + intros c Hc. inversion Hc. lra.
    + intros m sp Hm. apply elem_of_nil in Hm. contradiction.
  - assert (Hup' : forall m sp, m ∈ ms -> spacerAt true st m = Some sp ->
                     spacerType sp = SpacerUP).
    { intros m sp Hin. apply Hup. apply list_elem_of_further. exact Hin. }
    assert (Hskip : spacerAt true st a = None ->
      System.upSpacer_loop st ms cur = Some r ->
      (cur = Some r \/ exists m, m ∈ a :: ms /\ spacerAt true st m = Some r)
      /\ (forall c, cur = Some c -> (gap c <= gap r)%Q)
      /\ forall m sp, m ∈ a :: ms -> spacerAt true st m = Some sp -> (gap sp <= gap r)%Q).
    { intros Hnone Hr. destruct (IH cur Hup' Hcur r Hr) as (Hfrom & Hc & Hmax).
      split; [|split; [exact Hc|]].
      - destruct Hfrom as [Hc0 | (m & Hin & Hsp)]; [left; exact Hc0|].
        right. exists m. split; [apply list_elem_of_further; exact Hin | exact Hsp].
      - intros m sp Hin Hsp. apply elem_of_cons in Hin.
        destruct Hin as [-> | Hin]; [congruence | eapply Hmax; eassumption]. }
    pose proof (Hup a) as Ha. unfold spacerAt in Hskip, Ha.
    destruct (isMeasure a) eqn:Em; simpl; [|apply Hskip; reflexivity].
    destruct (vspacerUp a st) as [sp|] eqn:Esp; [|apply Hskip; reflexivity].
    assert (Hsp : spacerAt true st a = Some sp)
      by (unfold spacerAt; rewrite Em; exact Esp).
    specialize (Ha sp (list_elem_of_here _ _) eq_refl).
    assert (Hsame :
      (if match cur with
          | Some c => match spacerType c with
                      | SpacerUP => qLess (gap c) (gap sp)
                      | _ => false
                      end
          | None => true
          end then Some sp else cur)
      = (if match cur with
            | Some c => qLess (gap c) (gap sp)
            | None => true
            end then Some sp else cur)).
    { destruct cur as [c|]; [|reflexivity]. rewrite (Hcur c eq_refl). reflexivity. }
    rewrite Hsame.
    destruct (largest_step cur sp _ eq_refl) as (r0 & Hr0 & Hge & Hcur0 & Hfrom0).
    rewrite Hr0. intros Hr.
    assert (Hr0up : forall c, Some r0 = Some c -> spacerType c = SpacerUP).
    { intros c Hc. inversion Hc; subst c.
      destruct Hfrom0 as [-> | Hc0]; [exact Ha | apply Hcur; exact Hc0]. }
    destruct (IH (Some r0) Hup' Hr0up r Hr) as (Hfrom & Hc & Hmax).
    pose proof (Hc r0 eq_refl) as Hr0r.
    split; [|split].
    + destruct Hfrom as [Hc1 | (m & Hin & Hm)].
      * inversion Hc1; subst r0. destruct Hfrom0 as [-> | Hc0]; [|left; exact Hc0].
        right. exists a. split; [apply list_elem_of_here | exact Hsp].
      * right. exists m. split; [apply list_elem_of_further; exact Hin | exact Hm].
    + intros c Hc1. specialize (Hcur0 c Hc1). lra.
    + intros m sp' Hin Hm. apply elem_of_cons in Hin. destruct Hin as [-> | Hin].
      * rewrite Hsp in Hm. inversion Hm; subst sp'. lra.
      * eapply Hmax; eassumption.
Qed.
End UpSpacer.

(** X9.  upSpacer returns null for a negative staff index.  For any other
    index, a spacer handed over from the system above that is not of type UP
    (a FIXED or an elastic down-spacer) is returned as it is, whatever
    up-spacers the measures carry.  When the spacers in play are all of type
    UP the result is one of them and no other has a larger gap. *)
Theorem upSpacer_keeps_or_largest `{Collaborators}
        (sys : System) (staffIdx : Z) (prevDownSpacer : option Spacer) :
  (staffIdx < 0 -> System.upSpacer staffIdx prevDownSpacer sys = None)
  /\ (0 <= staffIdx ->
      (forall p, prevDownSpacer = Some p -> spacerType p <> SpacerUP ->
         System.upSpacer staffIdx prevDownSpacer sys = Some p)
      /\ ((forall m sp, m ∈ ml sys -> spacerAt true staffIdx m = Some sp ->
             spacerType sp = SpacerUP) ->
          (forall c, prevDownSpacer = Some c -> spacerType c = SpacerUP) ->
          forall r, System.upSpacer staffIdx prevDownSpacer sys = Some r ->
            (prevDownSpacer = Some r
             \/ exists m, m ∈ ml sys /\ spacerAt true staffIdx m = Some r)
            /\ (forall c, prevDownSpacer = Some c -> (gap c <= gap r)%Q)
            /\ forall m sp, m ∈ ml sys -> spacerAt true staffIdx m = Some sp ->
                 (gap sp <= gap r)%Q)).
Proof.
  unfold System.upSpacer. split.
  - intros Hneg. replace (staffIdx <? 0) with true by (symmetry; apply Z.ltb_lt; lia).
    reflexivity.
  - intros Hpos. replace (staffIdx <? 0) with false by (symmetry; apply Z.ltb_ge; lia).
    split.
    + intros p -> Hp. destruct (isFixed p); [reflexivity|].
      apply upSpacer_loop_keeps. exact Hp.
    + intros Hup Hprev r Hr.
      apply (upSpacer_loop_largest staffIdx (ml sys) prevDownSpacer Hup Hprev).
      destruct prevDownSpacer as [p|]; [|exact Hr].
      unfold isFixed in Hr. rewrite (Hprev p eq_refl) in Hr. exact Hr.
Qed.

Lemma upSpacer_keeps_or_largest_witness :
  System.upSpacer 0 (Some (mkSpacer SpacerDOWN 3%Q)) (Sample.systemOnlyTop Sample.upSpacers)
  = Some (mkSpacer SpacerDOWN 3%Q)
  /\ System.upSpacer 0 None (Sample.systemOnlyTop Sample.upSpacers)
     = Some (mkSpacer SpacerUP 25%Q).
Proof.
  destruct (upSpacer_keeps_or_largest (Sample.systemOnlyTop Sample.upSpacers) 0
              (Some (mkSpacer SpacerDOWN 3%Q))) as [_ Hsome].
  destruct (Hsome ltac:(lia)) as [Hkeep _].
  split; [apply Hkeep; [reflexivity | discriminate] | vm_compute; reflexivity].
Defined.

(** ** The distance to the next system *)

Section BetweenSystems.
Context `{Collaborators}.
Variable score : Score.

Lemma bothShown_false sys i s ss :
  Score.staff score i = Some s -> System.staff sys i = Some ss ->
  (if show s then _show ss else false) = bothShown score sys i.
Proof. intros Hs Hss. unfold bothShown. rewrite Hs, Hss. reflexivity. Qed.

Lemma minDistance_firstStaff_spec s2 n : forall i,
  0 <= i -> i + Z.of_nat n <= size (staves score) ->
  i + Z.of_nat n <= size (_staves s2) ->
  exists r, System.minDistance_firstStaff score s2 i n = Some r
    /\ i <= r <= i + Z.of_nat n
    /\ (r < i + Z.of_nat n -> bothShown score s2 r = true)
    /\ (forall k, i <= k < r -> bothShown score s2 k = false).
Proof.
  induction n as [|n IH]; intros i Hi Hsc Hrec; simpl.
  - exists i. split; [reflexivity|]. split; [lia|]. split; intros; lia.
  - unfold size in *.
    destruct (lookup_lt_is_Some_2 (staves score) (Z.to_nat i) ltac:(lia)) as [s Hs].
    destruct (lookup_lt_is_Some_2 (_staves s2) (Z.to_nat i) ltac:(lia)) as [ss Hss].
    assert (Es : Score.staff score i = Some s)
      by (apply Score_staff_Some; split; [lia | exact Hs]).
    assert (Ess : System.staff s2 i = Some ss)
      by (rewrite staff_at; apply at_Some; split; [lia | exact Hss]).
    pose proof (bothShown_false s2 i s ss Es Ess) as Hb.
    rewrite Es. simpl.
    assert (Hstep :
      (if show s
       then ss0 ← System.staff s2 i;
            (if _show ss0 then Some i
             else System.minDistance_firstStaff score s2 (i + 1) n)
       else System.minDistance_firstStaff score s2 (i + 1) n)
      = if bothShown score s2 i then Some i
        else System.minDistance_firstStaff score s2 (i + 1) n).
    { rewrite <- Hb, Ess. simpl. destruct (show s), (_show ss); reflexivity. }
    rewrite Hstep. destruct (bothShown score s2 i) eqn:Ev.
    + exists i. split; [reflexivity|]. split; [lia|]. split; [auto | intros; lia].
    + destruct (IH (i + 1) ltac:(lia) ltac:(lia) ltac:(lia))
        as (r & Hr & Hrange & Hvis & Hnone).
      exists r. split; [exact Hr|]. split; [lia|]. split.
      * intros Hlt. apply Hvis. lia.
      * intros k Hk. destruct (Z.eq_dec k i) as [->|Hne]; [exact Ev | apply Hnone; lia].
Qed.

Lemma minDistance_lastStaff_spec sys n : forall i,
  0 <= i - Z.of_nat n -> i < size (staves score) -> i < size (_staves sys) ->
  exists r, System.minDistance_lastStaff score sys i n = Some r
    /\ i - Z.of_nat n <= r <= i
    /\ (i - Z.of_nat n < r -> bothShown score sys r = true)
    /\ (forall k, r < k <= i -> bothShown score sys k = false).
Proof.
  induction n as [|n IH]; intros i Hi Hsc Hrec; simpl.
  - exists i. split; [reflexivity|]. split; [lia|]. split; intros; lia.
  - unfold size in *.
    destruct (lookup_lt_is_Some_2 (staves score) (Z.to_nat i) ltac:(lia)) as [s Hs].
    destruct (lookup_lt_is_Some_2 (_staves sys) (Z.to_nat i) ltac:(lia)) as [ss Hss].
    assert (Es : Score.staff score i = Some s)
      by (apply Score_staff_Some; split; [lia | exact Hs]).
    assert (Ess : System.staff sys i = Some ss)
      by (rewrite staff_at; apply at_Some; split; [lia | exact Hss]).
    pose proof (bothShown_false sys i s ss Es Ess) as Hb.
    rewrite Es. simpl.
    assert (Hstep :
      (if show s
       then ss0 ← System.staff sys i;
            (if _show ss0 then Some i
             else System.minDistance_lastStaff score sys (i - 1) n)
       else System.minDistance_lastStaff score sys (i - 1) n)
      = if bothShown score sys i then Some i
        else System.minDistance_lastStaff score sys (i - 1) n).
    { rewrite <- Hb, Ess. simpl. destruct (show s), (_show ss); reflexivity. }
    rewrite Hstep. destruct (bothShown score sys i) eqn:Ev.
    + exists i. split; [reflexivity|]. split; [lia|]. split; [auto | intros; lia].
    + destruct (IH (i - 1) ltac:(lia) ltac:(lia) ltac:(lia))
        as (r & Hr & Hrange & Hvis & Hnone).
      exists r. split; [exact Hr|]. split; [lia|]. split.
      * intros Hlt. apply Hvis. lia.
      * intros k Hk. destruct (Z.eq_dec k i) as [->|Hne]; [exact Ev | apply Hnone; lia].
Qed.

Lemma minDistance_down_elastic st ms : forall d,
  Forall (elasticAt false st) ms ->
  System.minDistance_down st ms d = (System.spacerDistance_loop false st ms d, false).
Proof.
  induction ms as [|m ms IH]; intros d Hall; simpl; [reflexivity|].
  inversion Hall as [|? ? Hm Hrest]; subst. unfold elasticAt, spacerAt in Hm.
  destruct (isMeasure m); [|apply IH; exact Hrest].
  destruct (vspacerDown m st) as [sp|]; [|apply IH; exact Hrest].
  rewrite (Hm sp eq_refl). apply IH. exact Hrest.
Qed.

Lemma minDistance_down_fixed st pre : forall d m post sp,
  Forall (elasticAt false st) pre ->
  spacerAt false st m = Some sp -> isFixed sp = true ->
  System.minDistance_down st (pre ++ m :: post) d = (gap sp, true).
Proof.
  induction pre as [|a pre IH]; intros d m post sp Hall Hsp Hfix; simpl.
  - unfold spacerAt in Hsp. destruct (isMeasure m); [|discriminate].
    rewrite Hsp, Hfix. reflexivity.
  - inversion Hall as [|? ? Ha Hrest]; subst. unfold elasticAt, spacerAt in Ha.
    destruct (isMeasure a); [|eapply IH; eassumption].
    destruct (vspacerDown a st) as [spa|]; [|eapply IH; eassumption].
    rewrite (Ha spa eq_refl). eapply IH; eassumption.
Qed.

Lemma minDistance_up_bounds st ms : forall d,
  (d <= System.minDistance_up st ms d)%Q
  /\ forall m sp, m ∈ ms -> spacerAt true st m = Some sp ->
       (gap sp <= System.minDistance_up st ms d)%Q.
Proof.
  induction ms as [|a ms IH]; intros d; simpl.
  - split; [lra|]. intros m sp Hin. apply elem_of_nil in Hin. contradiction.
  - assert (Hskip : spacerAt true st a = None ->
      (d <= System.minDistance_up st ms d)%Q
      /\ forall m sp, m ∈ a :: ms -> spacerAt true st m = Some sp ->
           (gap sp <= System.minDistance_up st ms d)%Q).
    { intros Hnone. destruct (IH d) as [Hd Hg]. split; [exact Hd|].
      intros m sp Hin Hsp. apply elem_of_cons in Hin.
      destruct Hin as [-> | Hin]; [congruence | eapply Hg; eassumption]. }
    unfold spacerAt in Hskip.
    destruct (isMeasure a) eqn:Em; [|apply Hskip; reflexivity].
    destruct (vspacerUp a st) as [spa|] eqn:Esp; [|apply Hskip; reflexivity].
    destruct (IH (qMax d (gap spa))) as [Hd Hg].
    pose proof (qMax_ge_l d (gap spa)). pose proof (qMax_ge_r d (gap spa)).
    split; [lra|]. intros m sp Hin Hsp. apply elem_of_cons in Hin.
    destruct Hin as [-> | Hin]; [|eapply Hg; eassumption].
    unfold spacerAt in Hsp. rewrite Em, Esp in Hsp. inversion Hsp; subst. lra.
Qed.
End BetweenSystems.

Section BetweenSystemsRun.
Context `{Accessors}.
Variables (score : Score) (spacing : SystemSpacing) (sys s2 : System).

Lemma minDistance_ends :
  stavesCovered score sys -> size (_staves sys) <= size (_staves s2) ->
  exists firstStaff lastStaff,
    System.minDistance_firstStaff score s2 0 (Z.to_nat (size (_staves sys) - 1))
    = Some firstStaff
    /\ System.minDistance_lastStaff score sys (size (_staves sys) - 1)
         (Z.to_nat (size (_staves sys) - 1)) = Some lastStaff
    /\ lowerEnd score sys s2 firstStaff /\ upperEnd score sys lastStaff.
Proof.
  intros Hcov Hs2. unfold stavesCovered in Hcov.
  assert (Hsz : 0 <= size (_staves sys)) by (unfold size; lia).
  destruct (Z.eq_dec (size (_staves sys)) 0) as [Hzero | Hpos].
  - rewrite Hzero. simpl. exists 0, (-1). split; [reflexivity|]. split; [reflexivity|].
    unfold lowerEnd, upperEnd. rewrite Hzero. simpl.
    split; (split; [lia|]; split; intros; lia).
  - destruct (minDistance_firstStaff_spec score s2 (Z.to_nat (size (_staves sys) - 1)) 0
                ltac:(lia) ltac:(lia) ltac:(lia)) as (f & Hf & Hfr & Hfs & Hfn).
    destruct (minDistance_lastStaff_spec score sys (Z.to_nat (size (_staves sys) - 1))
                (size (_staves sys) - 1) ltac:(lia) ltac:(lia) ltac:(lia))
      as (l & Hl & Hlr & Hls & Hln).
    exists f, l. split; [exact Hf|]. split; [exact Hl|].
    unfold lowerEnd, upperEnd. split.
    + split; [lia|]. split; [intros; apply Hfs; lia | exact Hfn].
    + split; [lia|]. split; [intros; apply Hls; lia | exact Hln].
Qed.

Lemma minDistance_systems firstStaff lastStaff fixedDownDistance :
  System.vbox sys = None -> System.vbox s2 = None ->
  System.minDistance_firstStaff score s2 0 (Z.to_nat (size (_staves sys) - 1))
  = Some firstStaff ->
  System.minDistance_lastStaff score sys (size (_staves sys) - 1)
    (Z.to_nat (size (_staves sys) - 1)) = Some lastStaff ->
  System.minDistance score spacing sys s2 fixedDownDistance
  = let dist :=
      qMax (styleSystemDistance score spacing)
           (match Score.staff score firstStaff with
            | Some staff1 => userDist staff1
            | None => 0%Q
            end) in
    let '(dist, fixed) := System.minDistance_down lastStaff (ml sys) dist in
    if fixed then Some (dist, true, [])
    else
      sld ←
        match System.staff sys lastStaff with
        | Some sysStaff =>
            ss2 ← System.staff s2 firstStaff;
            Some (minDistance (_skyline sysStaff) (_skyline ss2)
                  - (RectF.height (_bbox sysStaff) - minVerticalDistance (style score)))%Q
        | None => Some 0%Q
        end;
      Some (qMax (System.minDistance_up firstStaff (ml s2) dist) sld, false, []).
Proof.
  intros Hv Hv2 Hf Hl. unfold System.minDistance.
  rewrite Hv, Hv2, Hf. simpl. rewrite Hl. reflexivity.
Qed.
End BetweenSystemsRun.

(** X10.  Between two systems that are not frames, when the first measure
    of the upper system that carries a FIXED down-spacer on its last staff
    carries one of gap G, minDistance returns exactly G and sets
    fixedDownDistance: the style distance, the extra distance of the staff
    below, the up-spacers of the lower system and the skylines are not looked
    at. *)
Theorem minDistance_fixed_spacer_exact `{Accessors}
        (score : Score) (spacing : SystemSpacing) (sys s2 : System)
        (fixedDownDistance : bool) :
  System.vbox sys = None -> System.vbox s2 = None ->
  stavesCovered score sys -> size (_staves sys) <= size (_staves s2) ->
  exists lastStaff,
    upperEnd score sys lastStaff
    /\ forall pre m post sp,
         ml sys = pre ++ m :: post -> Forall (elasticAt false lastStaff) pre ->
         spacerAt false lastStaff m = Some sp -> isFixed sp = true ->
         System.minDistance score spacing sys s2 fixedDownDistance
         = Some (gap sp, true, []).
Proof.
  intros Hv Hv2 Hcov Hs2.
  destruct (minDistance_ends score sys s2 Hcov Hs2) as (f & l & Hf & Hl & _ & Hupper).
  exists l. split; [exact Hupper|].
  intros pre m post sp Hml Hpre Hsp Hfix.
  rewrite (minDistance_systems score spacing sys s2 f l fixedDownDistance Hv Hv2 Hf Hl).
  cbv zeta. rewrite Hml, (minDistance_down_fixed l pre _ m post sp Hpre Hsp Hfix).
  reflexivity.
Qed.

Lemma minDistance_fixed_spacer_exact_witness :
  System.minDistance Sample.score Sample.spacing
    (Sample.system [Sample.measure 0 Sample.noSpacer;
                    Sample.measure 1 (Sample.fixedBelow2 12%Q)])
    (Sample.system [Sample.measure 2 Sample.noSpacer]) false
  = Some (12%Q, true, []).
Proof.
  destruct (minDistance_fixed_spacer_exact Sample.score Sample.spacing
              (Sample.system [Sample.measure 0 Sample.noSpacer;
                              Sample.measure 1 (Sample.fixedBelow2 12%Q)])
              (Sample.system [Sample.measure 2 Sample.noSpacer]) false)
    as (l & _ & _); [reflexivity | reflexivity | unfold stavesCovered, size; simpl; lia
                     | unfold size; simpl; lia |].
  vm_compute. reflexivity.
Defined.

(** X11.  Between two systems that are not frames, with every record of the
    upper system covered by a staff of the score and a record of the lower
    system, and no FIXED down-spacer on the last staff of the upper system,
    minDistance returns a distance, clears fixedDownDistance, and the
    distance is not less than: the style distance between systems, the extra
    distance of the first staff of the lower system, the gap of every
    down-spacer on the last staff of the upper system, the gap of every
    up-spacer on the first staff of the lower system, and the skyline
    distance of the two staves less the height of the upper staff plus the
    minimum vertical distance. *)
Theorem minDistance_lower_bounds `{Accessors}
        (score : Score) (spacing : SystemSpacing) (sys s2 : System)
        (fixedDownDistance : bool) :
  System.vbox sys = None -> System.vbox s2 = None ->
  stavesCovered score sys -> size (_staves sys) <= size (_staves s2) ->
  exists firstStaff lastStaff,
    lowerEnd score sys s2 firstStaff /\ upperEnd score sys lastStaff
    /\ (Forall (elasticAt false lastStaff) (ml sys) ->
        exists d,
          System.minDistance score spacing sys s2 fixedDownDistance = Some (d, false, [])
          /\ (styleSystemDistance score spacing <= d)%Q
          /\ (forall staff1, Score.staff score firstStaff = Some staff1 ->
                (userDist staff1 <= d)%Q)
          /\ (forall m sp, m ∈ ml sys -> spacerAt false lastStaff m = Some sp ->
                (gap sp <= d)%Q)
          /\ (forall m sp, m ∈ ml s2 -> spacerAt true firstStaff m = Some sp ->
                (gap sp <= d)%Q)
          /\ (forall ss1 ss2,
                System.staff sys lastStaff = Some ss1 ->
                System.staff s2 firstStaff = Some ss2 ->
                (minDistance (_skyline ss1) (_skyline ss2)
                 - RectF.height (_bbox ss1) + minVerticalDistance (style score) <= d)%Q)
          /\ (System.staff sys lastStaff = None -> (0 <= d)%Q)).
Proof.
  intros Hv Hv2 Hcov Hs2.
  destruct (minDistance_ends score sys s2 Hcov Hs2)
    as (f & l & Hf & Hl & Hlower & Hupper).
  exists f, l. split; [exact Hlower|]. split; [exact Hupper|].
  intros Hall.
  rewrite (minDistance_systems score spacing sys s2 f l fixedDownDistance Hv Hv2 Hf Hl).
  cbv zeta. rewrite (minDistance_down_elastic l (ml sys) _ Hall).
  set (d0 := qMax (styleSystemDistance score spacing)
                  (match Score.staff score f with
                   | Some staff1 => userDist staff1
                   | None => 0%Q
                   end)).
  set (d1 := System.spacerDistance_loop false l (ml sys) d0).
  set (d2 := System.minDistance_up f (ml s2) d1).
  assert (Hd0a : (styleSystemDistance score spacing <= d0)%Q) by apply qMax_ge_l.
  assert (Hd0b : forall staff1, Score.staff score f = Some staff1 ->
                   (userDist staff1 <= d0)%Q).
  { intros staff1 Hs. subst d0. rewrite Hs. apply qMax_ge_r. }
  destruct (spacerDistance_loop_elastic false l (ml sys) d0 Hall) as [Hd1 Hdown].
  fold d1 in Hd1, Hdown.
  destruct (minDistance_up_bounds f (ml s2) d1) as [Hd2 Hup]. fold d2 in Hd2, Hup.
  destruct (System.staff sys l) as [ss1|] eqn:E1.
  - assert (Hlr : 0 <= l < size (_staves sys)).
    { rewrite staff_at in E1. apply at_Some in E1. destruct E1 as [Hl0 Hl1].
      apply lookup_lt_Some in Hl1. unfold size. lia. }
    destruct Hlower as [Hfr _].
    destruct (shown_staff s2 f ltac:(lia)) as (b & Hb & _).
    destruct (System.staff s2 f) as [ss2|] eqn:E2; [|discriminate].
    simpl.
    set (sld := (minDistance (_skyline ss1) (_skyline ss2)
                 - (RectF.height (_bbox ss1) - minVerticalDistance (style score)))%Q).
    pose proof (qMax_ge_l d2 sld) as Hm1. pose proof (qMax_ge_r d2 sld) as Hm2.
    eexists. split; [reflexivity|].
    split; [lra|]. split; [intros staff1 Hs; specialize (Hd0b staff1 Hs); lra|].
    split; [intros m sp Hin Hsp; specialize (Hdown m sp Hin Hsp); lra|].
    split; [intros m sp Hin Hsp; specialize (Hup m sp Hin Hsp); lra|].
    split; [|discriminate].
    intros ss1' ss2' Heq1 Heq2. inversion Heq1; inversion Heq2; subst ss1' ss2'.
    subst sld. lra.
  - simpl.
    pose proof (qMax_ge_l d2 0%Q) as Hm1. pose proof (qMax_ge_r d2 0%Q) as Hm2.
    eexists. split; [reflexivity|].
    split; [lra|]. split; [intros staff1 Hs; specialize (Hd0b staff1 Hs); lra|].
    split; [intros m sp Hin Hsp; specialize (Hdown m sp Hin Hsp); lra|].
    split; [intros m sp Hin Hsp; specialize (Hup m sp Hin Hsp); lra|].
    split; [discriminate | intros _; exact Hm2].
Qed.

Lemma minDistance_lower_bounds_witness :
  System.minDistance Sample.score Sample.spacing
    (Sample.system [Sample.measure 0 Sample.noSpacer])
    (Sample.system [Sample.measure 2 Sample.noSpacer]) true
  = Some (60%Q, false, []).
Proof.
  destruct (minDistance_lower_bounds Sample.score Sample.spacing
              (Sample.system [Sample.measure 0 Sample.noSpacer])
              (Sample.system [Sample.measure 2 Sample.noSpacer]) true)
    as (f & l & _ & _ & _); [reflexivity | reflexivity
                             | unfold stavesCovered, size; simpl; lia
                             | unfold size; simpl; lia |].
  vm_compute. reflexivity.
Defined.

Section Margins.
Context `{Accessors}.

Lemma minTop_spec (s2 : System) :
  ((forall i, shownAt s2 i = false) ->
     System.minTop s2 = (0%Q, ["no sys staff"%string]))
  /\ (forall j, shownAt s2 j = true ->
        exists ss, System.staff s2 (fst (System.firstVisibleSysStaff s2)) = Some ss
                   /\ _show ss = true
                   /\ System.minTop s2 = ((- north_max (_skyline ss))%Q, [])).
Proof.
  destruct (sysStaff_ends s2) as [Hnone Hsome]. unfold System.minTop. split.
  - intros Hall. destruct (Hnone Hall) as [-> _]. reflexivity.
  - intros j Hj. destruct (Hsome j Hj) as (Hlog & _ & Hrange & _ & Hshown & _).
    destruct (System.firstVisibleSysStaff s2) as [si log]. simpl in *. subst log.
    replace (si <? 0) with false by (symmetry; apply Z.ltb_ge; lia).
    destruct (shownAt_true _ _ Hshown) as (ss & Hss & _ & Hshow).
    exists ss. rewrite Hss. auto.
Qed.

Lemma minBottom_spec (sys : System) :
  System.vbox sys = None ->
  ((forall i, shownAt sys i = false) ->
     System.minBottom sys = (0%Q, ["no sys staff"%string]))
  /\ (forall j, shownAt sys j = true ->
        exists ss, System.staff sys (fst (System.lastVisibleSysStaff sys)) = Some ss
                   /\ _show ss = true
                   /\ System.minBottom sys
                      = ((south_max (_skyline ss) - RectF.height (_bbox ss))%Q, [])).
Proof.
  intros Hv. destruct (sysStaff_ends sys) as [Hnone Hsome].
  unfold System.minBottom. rewrite Hv. split.
  - intros Hall. destruct (Hnone Hall) as [_ ->]. reflexivity.
  - intros j Hj. destruct (Hsome j Hj) as (_ & Hlog & Hfirst & Hrange & _ & Hshown).
    destruct (System.lastVisibleSysStaff sys) as [si log]. simpl in *. subst log.
    replace (si <? 0) with false by (symmetry; apply Z.ltb_ge; lia).
    destruct (shownAt_true _ _ Hshown) as (ss & Hss & _ & Hshow).
    exists ss. rewrite Hss. auto.
Qed.
End Margins.

(** X12.  When one of the two systems is a frame minDistance leaves
    fixedDownDistance alone.  Between two frames it returns the top gap of
    the lower plus the bottom gap of the upper.  Between a frame and a system
    it returns a distance that is not less than the gap of the frame on that
    side and not less than the margin of the system: what the skyline of its
    first shown staff rises above the staff (frame above), or what the
    skyline of its last shown staff reaches below the box of the staff (frame
    below); for a system without a shown staff the margin is 0 and one
    message is written. *)
Theorem minDistance_frames `{Accessors}
        (score : Score) (spacing : SystemSpacing) (sys s2 : System)
        (fixedDownDistance : bool) :
  (forall vb vb2, System.vbox sys = Some vb -> System.vbox s2 = Some vb2 ->
     System.minDistance score spacing sys s2 fixedDownDistance
     = Some ((topGap vb2 + bottomGap vb)%Q, fixedDownDistance, []))
  /\ (forall vb, System.vbox sys = Some vb -> System.vbox s2 = None ->
        exists d log,
          System.minDistance score spacing sys s2 fixedDownDistance
          = Some (d, fixedDownDistance, log)
          /\ (bottomGap vb <= d)%Q
          /\ ((forall i, shownAt s2 i = false) ->
              (0 <= d)%Q /\ log = ["no sys staff"%string])
          /\ (forall j, shownAt s2 j = true ->
                exists ss,
                  System.staff s2 (fst (System.firstVisibleSysStaff s2)) = Some ss
                  /\ (- north_max (_skyline ss) <= d)%Q /\ log = []))
  /\ (forall vb2, System.vbox sys = None -> System.vbox s2 = Some vb2 ->
        exists d log,
          System.minDistance score spacing sys s2 fixedDownDistance
          = Some (d, fixedDownDistance, log)
          /\ (topGap vb2 <= d)%Q
          /\ ((forall i, shownAt sys i = false) ->
              (0 <= d)%Q /\ log = ["no sys staff"%string])
          /\ (forall j, shownAt sys j = true ->
                exists ss,
                  System.staff sys (fst (System.lastVisibleSysStaff sys)) = Some ss
                  /\ (south_max (_skyline ss) - RectF.height (_bbox ss) <= d)%Q
                  /\ log = [])).
Proof.
  unfold System.minDistance. split; [|split].
  - intros vb vb2 -> ->. reflexivity.
  - intros vb -> ->. destruct (minTop_spec s2) as [Hnone Hsome].
    destruct (System.minTop s2) as [top log] eqn:Etop.
    exists (qMax (bottomGap vb) top), log. split; [reflexivity|].
    pose proof (qMax_ge_l (bottomGap vb) top). pose proof (qMax_ge_r (bottomGap vb) top).
    split; [assumption|]. split.
    + intros Hall. specialize (Hnone Hall). inversion Hnone; subst. split; [lra | reflexivity].
    + intros j Hj. destruct (Hsome j Hj) as (ss & Hss & _ & Heq).
      inversion Heq; subst. exists ss. split; [exact Hss|]. split; [lra | reflexivity].
  - intros vb2 Hv ->. rewrite Hv. destruct (minBottom_spec sys Hv) as [Hnone Hsome].
    destruct (System.minBottom sys) as [bottom log] eqn:Ebottom.
    exists (qMax (topGap vb2) bottom), log. split; [reflexivity|].
    pose proof (qMax_ge_l (topGap vb2) bottom). pose proof (qMax_ge_r (topGap vb2) bottom).
    split; [assumption|]. split.
    + intros Hall. specialize (Hnone Hall). inversion Hnone; subst. split; [lra | reflexivity].
    + intros j Hj. destruct (Hsome j Hj) as (ss & Hss & _ & Heq).
      inversion Heq; subst. exists ss. split; [exact Hss|]. split; [lra | reflexivity].
Qed.

Lemma minDistance_frames_witness :
  System.minDistance Sample.score Sample.spacing
    (Sample.system [Sample.frame]) (Sample.system [Sample.frame]) true
  = Some (16%Q, true, [])
  /\ System.minDistance Sample.score Sample.spacing
       (Sample.system [Sample.measure 0 Sample.noSpacer]) (Sample.system [Sample.frame])
       false
     = Some (40%Q, false, []).
Proof.
  destruct (minDistance_frames Sample.score Sample.spacing
              (Sample.system [Sample.frame]) (Sample.system [Sample.frame]) true)
    as (Hboth & _ & _).
  split; [apply (Hboth Sample.frame Sample.frame); reflexivity | vm_compute; reflexivity].
Defined.

(** ** The staff under a point *)

Section UnderPoint.
Context `{Collaborators} `{!Rounding}.
Variables (score : Score) (sys : System).

Lemma y2staff_loop_spec (y margin : qreal) (l : list SysStaff) : forall idx,
  let band ss :=
    (fl (RectF.top (_bbox ss) - margin) <= y)%Q
    /\ (y < fl (fl (RectF.bottom (_bbox ss)) + margin))%Q in
  ((forall (k : nat) ss, l !! k = Some ss -> ~ band ss)
   /\ System.y2staff_loop y margin l idx = -1)
  \/ (exists (k : nat) ss,
        l !! k = Some ss /\ band ss
        /\ System.y2staff_loop y margin l idx = idx + Z.of_nat k
        /\ forall (k' : nat) ss', (k' < k)%nat -> l !! k' = Some ss' -> ~ band ss').
Proof.
  induction l as [|a l IH]; intros idx band; simpl.
  - left. split; [|reflexivity]. intros k ss Hk. rewrite lookup_nil in Hk. discriminate.
  - destruct (Qle_bool (fl (RectF.top (_bbox a) - margin)%Q) y
              && qLess y (fl (fl (RectF.bottom (_bbox a)) + margin)%Q)) eqn:E.
    + right. exists O, a. apply andb_true_iff in E. destruct E as [E1 E2].
      apply Qle_bool_iff in E1. apply qLess_true in E2.
      split; [reflexivity|]. split; [split; assumption|].
      split; [lia | intros; lia].
    + assert (Ha : ~ band a).
      { intros [B1 B2]. apply andb_false_iff in E. destruct E as [E | E].
        - apply Qle_bool_iff in B1. congruence.
        - apply qLess_true in B2. congruence. }
      destruct (IH (idx + 1)) as [[Hall Hr] | (k & ss & Hk & Hb & Hr & Hbefore)].
      * left. split; [|exact Hr]. intros [|k] ss Hk; simpl in Hk.
        -- inversion Hk; subst. exact Ha.
        -- eapply Hall. exact Hk.
      * right. exists (S k), ss. split; [exact Hk|]. split; [exact Hb|].
        split; [rewrite Hr; lia|].
        intros [|k'] ss' Hlt Hl; simpl in Hl.
        -- inversion Hl; subst. exact Ha.
        -- eapply Hbefore; [|exact Hl]. lia.
Qed.
End UnderPoint.

(** X13.  y2staff returns the index of the first record whose band holds
    the point, and -1 when no band does: the result is -1 or the index of a
    record.  Band and point are the ones the code computes, every sum
    rounded: the point is the y given less the y of the system; the band of
    a record goes from the top of its box less two spaces to the bottom of
    its box (y plus height) plus two spaces, the upper end excluded.  So a
    point just inside the upper end of the exact band can be outside the
    band. *)
Theorem y2staff_first_band `{Collaborators} `{!Rounding}
        (score : Score) (sys : System) (y : qreal) :
  ((forall (k : nat) ss, _staves sys !! k = Some ss -> ~ inBand score sys y ss) ->
     System.y2staff score sys y = -1)
  /\ (forall (k : nat) ss,
        _staves sys !! k = Some ss -> inBand score sys y ss ->
        (forall (k' : nat) ss', (k' < k)%nat -> _staves sys !! k' = Some ss' ->
           ~ inBand score sys y ss') ->
        System.y2staff score sys y = Z.of_nat k)
  /\ -1 <= System.y2staff score sys y < size (_staves sys).
Proof.
  unfold System.y2staff, inBand.
  destruct (y2staff_loop_spec (fl (y - snd (sys_pos sys))%Q) (fl (spatium score * 2)%Q)
              (_staves sys) 0)
    as [[Hall Hr] | (k & ss & Hk & Hb & Hr & Hbefore)]; cbv zeta in *.
  - rewrite Hr. split; [reflexivity|]. split; [|unfold size; lia].
    intros k ss Hk Hb _. exfalso. exact (Hall k ss Hk Hb).
  - rewrite Hr. pose proof (lookup_lt_Some _ _ _ Hk) as Hlt.
    split; [|split; [|unfold size; lia]].
    + intros Hnone. exfalso. exact (Hnone k ss Hk Hb).
    + intros k0 ss0 Hk0 Hb0 Hbefore0.
      destruct (lt_eq_lt_dec k0 k) as [[Hlt0 | ->] | Hgt]; [| lia |].
      * exfalso. exact (Hbefore k0 ss0 Hlt0 Hk0 Hb0).
      * exfalso. exact (Hbefore0 k ss Hgt Hk Hb).
Qed.

(** With sums rounded to whole numbers the band of the third sample staff
    ends at 165, and the point 164.6 is rounded to 165: it lies in no band,
    while without rounding it lies in the band of the third staff. *)
Lemma y2staff_first_band_witness :
  System.y2staff Sample.score Sample.systemTopHidden 120%Q = 2
  /\ @System.y2staff _ {| fl := fun q => q |}
       Sample.score Sample.systemTopHidden (1646 # 10)%Q = 2
  /\ System.y2staff Sample.score Sample.systemTopHidden (1646 # 10)%Q = -1.
Proof.
  destruct (y2staff_first_band Sample.score Sample.systemTopHidden (1646 # 10)%Q)
    as (Hnone & _ & _).
  split; [vm_compute; reflexivity|]. split; [vm_compute; reflexivity|].
  apply Hnone. intros k ss Hk [_ Hb].
  destruct k as [|[|[|k]]]; simpl in Hk; inversion Hk; subst ss;
    vm_compute in Hb; discriminate.
Defined.

Section SearchStaff.
Context `{Collaborators}.
Variables (score : Score) (sys : System).
Variables (pageHeight : qreal) (preferredStaff : Z) (spacingFactor : qreal).

Lemma covered_staff i :
  recordsCover score sys -> 0 <= i < size (staves score) ->
  exists s ss, Score.staff score i = Some s /\ System.staff sys i = Some ss
               /\ visibleAt score sys i = show s && _show ss.
Proof.
  intros Hcov Hi. unfold recordsCover, size in *.
  destruct (lookup_lt_is_Some_2 (staves score) (Z.to_nat i) ltac:(lia)) as [s Hs].
  destruct (lookup_lt_is_Some_2 (_staves sys) (Z.to_nat i) ltac:(lia)) as [ss Hss].
  assert (Es : Score.staff score i = Some s)
    by (apply Score_staff_Some; split; [lia | exact Hs]).
  assert (Ess : System.staff sys i = Some ss)
    by (rewrite staff_at; apply at_Some; split; [lia | exact Hss]).
  exists s, ss. split; [exact Es|]. split; [exact Ess|].
  unfold visibleAt. rewrite Es, Ess. reflexivity.
Qed.

Lemma searchStaff_next_in cands : forall ni,
  System.searchStaff_next score sys (size (staves score)) cands = Some ni ->
  ni = size (staves score) \/ (ni ∈ cands /\ visibleAt score sys ni = true).
Proof.
  induction cands as [|c cands IH]; intros ni; simpl.
  - intros Hr. inversion Hr. left. reflexivity.
  - destruct (System.staff sys c) as [ss|] eqn:Ess; simpl; [|discriminate].
    assert (Hrest : System.searchStaff_next score sys (size (staves score)) cands = Some ni ->
                    ni = size (staves score)
                    \/ (ni ∈ c :: cands /\ visibleAt score sys ni = true)).
    { intros Hr. destruct (IH ni Hr) as [-> | [Hin Hv]]; [left; reflexivity|].
      right. split; [apply list_elem_of_further; exact Hin | exact Hv]. }
    destruct (_show ss) eqn:Eshow; [|exact Hrest].
    destruct (Score.staff score c) as [s|] eqn:Es; simpl; [|discriminate].
    destruct (show s) eqn:Esh; [|exact Hrest].
    intros Hr. inversion Hr; subst ni. right. split; [apply list_elem_of_here|].
    unfold visibleAt. rewrite Es, Ess, Esh, Eshow. reflexivity.
Qed.

Lemma searchStaff_next_returns cands :
  recordsCover score sys ->
  Forall (fun c => 0 <= c < size (staves score)) cands ->
  is_Some (System.searchStaff_next score sys (size (staves score)) cands).
Proof.
  intros Hcov. induction 1 as [|c cands Hc _ IH]; simpl; [eauto|].
  destruct (covered_staff c Hcov Hc) as (s & ss & Es & Ess & _).
  rewrite Ess. simpl. destruct (_show ss); [|exact IH].
  rewrite Es. simpl. destruct (show s); [eauto | exact IH].
Qed.

(** One round of the outer loop at a staff [i] below [nstaves]: where it
    goes does not depend on the point but for one comparison. *)
Lemma searchStaff_round i fuel :
  recordsCover score sys -> 0 <= i < size (staves score) ->
  (visibleAt score sys i = false
   /\ forall y,
        System.searchStaff_loop score sys pageHeight y preferredStaff spacingFactor
          (size (staves score)) i (S fuel)
        = System.searchStaff_loop score sys pageHeight y preferredStaff spacingFactor
            (size (staves score)) (i + 1) fuel)
  \/ (visibleAt score sys i = true
      /\ exists ni sy2,
           i < ni <= size (staves score)
           /\ (ni < size (staves score) -> visibleAt score sys ni = true)
           /\ (ni = size (staves score) -> sy2 = (pageHeight - snd (sys_pos sys))%Q)
           /\ forall y,
                System.searchStaff_loop score sys pageHeight y preferredStaff
                  spacingFactor (size (staves score)) i (S fuel)
                = if qLess sy2 y
                  then System.searchStaff_loop score sys pageHeight y preferredStaff
                         spacingFactor (size (staves score)) ni fuel
                  else Some i).
Proof.
  intros Hcov Hi. destruct (covered_staff i Hcov Hi) as (s & ss & Es & Ess & Hv).
  assert (Hlt : (i <? size (staves score)) = true) by (apply Z.ltb_lt; lia).
  destruct (show s && _show ss) eqn:Evis.
  - right. split; [exact Hv|].
    apply andb_true_iff in Evis. destruct Evis as [Esh Eshow].
    assert (Hcands : Forall (fun c => 0 <= c < size (staves score))
                            (seqZ (i + 1) (size (staves score) - (i + 1)))).
    { apply list.Forall_forall. intros c Hc. apply elem_of_seqZ in Hc. lia. }
    destruct (searchStaff_next_returns _ Hcov Hcands) as [ni Hni].
    assert (Hnir : i < ni <= size (staves score)
                   /\ (ni < size (staves score) -> visibleAt score sys ni = true)).
    { destruct (searchStaff_next_in _ _ Hni) as [-> | [Hin Hvis]]; [split; lia|].
      apply elem_of_seqZ in Hin. split; [lia | auto]. }
    destruct Hnir as [Hnir Hniv].
    assert (Hsy2 : exists sy2,
      System.searchStaff_sy2 sys pageHeight preferredStaff spacingFactor
        (size (staves score)) i ni ss = Some sy2
      /\ (ni = size (staves score) -> sy2 = (pageHeight - snd (sys_pos sys))%Q)).
    { unfold System.searchStaff_sy2.
      destruct (ni =? size (staves score)) eqn:Eni; simpl.
      - eexists. split; [reflexivity | intros _; reflexivity].
      - apply Z.eqb_neq in Eni.
        destruct (covered_staff ni Hcov ltac:(lia)) as (sn & ssn & _ & Essn & _).
        rewrite Essn. simpl.
        destruct (i =? preferredStaff); [|destruct (ni =? preferredStaff)];
          (eexists; split; [reflexivity | intros; lia]). }
    destruct Hsy2 as (sy2 & Hsy2 & Hpage).
    exists ni, sy2. split; [exact Hnir|]. split; [exact Hniv|]. split; [exact Hpage|].
    intros y. cbn [System.searchStaff_loop]. rewrite Hlt. cbn [negb].
    rewrite Ess. simpl. rewrite Eshow. simpl. rewrite Es. simpl. rewrite Esh. simpl.
    rewrite Hni. simpl. rewrite Hsy2. reflexivity.
  - left. split; [exact Hv|].
    intros y. cbn [System.searchStaff_loop]. rewrite Hlt. cbn [negb].
    rewrite Ess. simpl. destruct (_show ss) eqn:Eshow; simpl; [|reflexivity].
    rewrite Es. simpl. rewrite andb_true_r in Evis. rewrite Evis. reflexivity.
Qed.

Lemma searchStaff_loop_spec y fuel : forall i,
  recordsCover score sys -> 0 <= i <= size (staves score) ->
  size (staves score) - i <= Z.of_nat fuel ->
  exists r,
    System.searchStaff_loop score sys pageHeight y preferredStaff spacingFactor
      (size (staves score)) i fuel = Some r
    /\ i <= r <= size (staves score)
    /\ (r < size (staves score) -> visibleAt score sys r = true)
    /\ (r = size (staves score) ->
        (forall k, i <= k -> visibleAt score sys k = false)
        \/ (pageHeight - snd (sys_pos sys) < y)%Q).
Proof.
  assert (Hbeyond : forall i k, i = size (staves score) -> i <= k ->
                      visibleAt score sys k = false).
  { intros i k -> Hk. destruct (visibleAt score sys k) eqn:Ev; [|reflexivity].
    apply visibleAt_true in Ev. destruct Ev as (s & _ & Es & _).
    apply Score_staff_Some in Es. destruct Es as [_ Es].
    apply lookup_lt_Some in Es. unfold size in Hk. lia. }
  induction fuel as [|fuel IH]; intros i Hcov Hi Hfuel.
  - assert (Hend : i = size (staves score)) by lia. simpl.
    replace (i <? size (staves score)) with false by (symmetry; apply Z.ltb_ge; lia).
    simpl. eexists. split; [reflexivity|].
    split; [lia|]. split; [lia|]. intros _. left. intros k Hk. eapply Hbeyond; eassumption.
  - destruct (Z.eq_dec i (size (staves score))) as [Hend | Hne].
    + cbn [System.searchStaff_loop].
      replace (i <? size (staves score)) with false by (symmetry; apply Z.ltb_ge; lia).
      simpl. eexists. split; [reflexivity|]. split; [lia|]. split; [lia|].
      intros _. left. intros k Hk. eapply Hbeyond; eassumption.
    + destruct (searchStaff_round i fuel Hcov ltac:(lia))
        as [[Hhid Hstep] | (Hvis & ni & sy2 & Hnir & Hniv & Hpage & Hstep)];
        rewrite Hstep.
      * destruct (IH (i + 1) Hcov ltac:(lia) ltac:(lia)) as (r & Hr & Hrr & Hrv & Hend).
        exists r. split; [exact Hr|]. split; [lia|]. split; [exact Hrv|].
        intros Hrn. destruct (Hend Hrn) as [Hall | Hp]; [left | right; exact Hp].
        intros k Hk. destruct (Z.eq_dec k i) as [-> | Hki]; [exact Hhid|].
        apply Hall. lia.
      * destruct (qLess sy2 y) eqn:Ejump.
        -- destruct (IH ni Hcov ltac:(lia) ltac:(lia)) as (r & Hr & Hrr & Hrv & Hend).
           exists r. split; [exact Hr|]. split; [lia|]. split; [exact Hrv|].
           intros Hrn. right. apply qLess_true in Ejump.
           destruct (Z.eq_dec ni (size (staves score))) as [Hnin | Hnin].
           ++ rewrite (Hpage Hnin) in Ejump. exact Ejump.
           ++ destruct (Hend Hrn) as [Hall | Hp]; [|exact Hp].
              rewrite (Hall ni ltac:(lia)) in Hniv. specialize (Hniv ltac:(lia)).
              discriminate.
        -- exists i. split; [reflexivity|]. split; [lia|]. split; [intros _; exact Hvis|].
           intros Hin. lia.
Qed.

Lemma searchStaff_loop_monotone (y y' : qreal) fuel : forall i r r',
  recordsCover score sys -> 0 <= i <= size (staves score) ->
  size (staves score) - i <= Z.of_nat fuel ->
  (y <= y')%Q ->
  System.searchStaff_loop score sys pageHeight y preferredStaff spacingFactor
    (size (staves score)) i fuel = Some r ->
  System.searchStaff_loop score sys pageHeight y' preferredStaff spacingFactor
    (size (staves score)) i fuel = Some r' ->
  r <= r'.
Proof.
  induction fuel as [|fuel IH]; intros i r r' Hcov Hi Hfuel Hy.
  - simpl. destruct (i <? size (staves score)); simpl; [discriminate|].
    intros Hr Hr'. inversion Hr. inversion Hr'. lia.
  - destruct (Z.eq_dec i (size (staves score))) as [Hend | Hne].
    + cbn [System.searchStaff_loop].
      replace (i <? size (staves score)) with false by (symmetry; apply Z.ltb_ge; lia).
      simpl. intros Hr Hr'. inversion Hr. inversion Hr'. lia.
    + destruct (searchStaff_round i fuel Hcov ltac:(lia))
        as [[Hhid Hstep] | (Hvis & ni & sy2 & Hnir & Hniv & Hpage & Hstep)];
        rewrite (Hstep y), (Hstep y').
      * apply IH; [exact Hcov | lia | lia | exact Hy].
      * destruct (qLess sy2 y) eqn:Ejump.
        -- assert (Ejump' : qLess sy2 y' = true).
           { apply qLess_true. apply qLess_true in Ejump. lra. }
           rewrite Ejump'. apply IH; [exact Hcov | lia | lia | exact Hy].
        -- intros Hr Hr'. inversion Hr; subst r.
           destruct (qLess sy2 y'); [|inversion Hr'; lia].
           destruct (searchStaff_loop_spec y' fuel ni Hcov ltac:(lia) ltac:(lia))
             as (r0 & Hr0 & Hrr0 & _).
           rewrite Hr0 in Hr'. inversion Hr'; subst. lia.
Qed.
End SearchStaff.

(** X14.  When every staff of the score has a record, searchStaff returns
    a number between 0 and the number of staves.  A result below the number of
    staves is a staff that is shown in the score and in the system.  The
    result is the number of staves itself, which is no staff, only when no
    staff is visible or the point lies below the page. *)
Theorem searchStaff_finds_visible_staff `{Collaborators}
        (score : Score) (sys : System) (pageHeight y : qreal)
        (preferredStaff : Z) (spacingFactor : qreal) :
  recordsCover score sys ->
  exists r,
    System.searchStaff score sys pageHeight y preferredStaff spacingFactor = Some r
    /\ 0 <= r <= size (staves score)
    /\ (r < size (staves score) -> visibleAt score sys r = true)
    /\ (r = size (staves score) ->
        (forall k, visibleAt score sys k = false)
        \/ (pageHeight - snd (sys_pos sys) < y)%Q).
Proof.
  intros Hcov. unfold System.searchStaff.
  assert (Hsz : 0 <= size (staves score)) by (unfold size; lia).
  destruct (searchStaff_loop_spec score sys pageHeight preferredStaff spacingFactor y
              (Z.to_nat (size (staves score))) 0 Hcov ltac:(lia) ltac:(lia))
    as (r & Hr & Hrr & Hrv & Hend).
  exists r. split; [exact Hr|]. split; [exact Hrr|]. split; [exact Hrv|].
  intros Hrn. destruct (Hend Hrn) as [Hall | Hp]; [left | right; exact Hp].
  intros k. destruct (Z_le_gt_dec 0 k) as [Hk | Hk]; [apply Hall; exact Hk|].
  destruct (visibleAt score sys k) eqn:Ev; [|reflexivity].
  apply visibleAt_range in Ev. lia.
Qed.

Lemma searchStaff_finds_visible_staff_witness :
  System.searchStaff Sample.score Sample.systemTopHidden 1000%Q 50%Q (-1) (1 # 2)
  = Some 1
  /\ System.searchStaff Sample.score Sample.systemTopHidden 1000%Q 1001%Q (-1) (1 # 2)
     = Some 3.
Proof.
  destruct (searchStaff_finds_visible_staff Sample.score Sample.systemTopHidden
              1000%Q 50%Q (-1) (1 # 2)) as (r & Hr & _);
    [unfold recordsCover, size; simpl; lia|].
  split; vm_compute; reflexivity.
Defined.

(** X15.  searchStaff is monotone in the point: a point that is not higher
    on the page is not given an earlier staff. *)
Theorem searchStaff_monotone `{Collaborators}
        (score : Score) (sys : System) (pageHeight y y' : qreal)
        (preferredStaff : Z) (spacingFactor : qreal) :
  recordsCover score sys -> (y <= y')%Q ->
  exists r r',
    System.searchStaff score sys pageHeight y preferredStaff spacingFactor = Some r
    /\ System.searchStaff score sys pageHeight y' preferredStaff spacingFactor = Some r'
    /\ r <= r'.
Proof.
  intros Hcov Hy. unfold System.searchStaff.
  assert (Hsz : 0 <= size (staves score)) by (unfold size; lia).
  destruct (searchStaff_loop_spec score sys pageHeight preferredStaff spacingFactor y
              (Z.to_nat (size (staves score))) 0 Hcov ltac:(lia) ltac:(lia))
    as (r & Hr & _).
  destruct (searchStaff_loop_spec score sys pageHeight preferredStaff spacingFactor y'
              (Z.to_nat (size (staves score))) 0 Hcov ltac:(lia) ltac:(lia))
    as (r' & Hr' & _).
  exists r, r'. split; [exact Hr|]. split; [exact Hr'|].
  eapply (searchStaff_loop_monotone score sys pageHeight preferredStaff spacingFactor
            y y' (Z.to_nat (size (staves score))) 0);
    [exact Hcov | lia | lia | exact Hy | exact Hr | exact Hr'].
Qed.

Lemma searchStaff_monotone_witness :
  exists r r',
    System.searchStaff Sample.score Sample.systemTopHidden 1000%Q 50%Q 2 (1 # 2) = Some r
    /\ System.searchStaff Sample.score Sample.systemTopHidden 1000%Q 100%Q 2 (1 # 2)
       = Some r'
    /\ r <= r'.
Proof.
  apply (searchStaff_monotone Sample.score Sample.systemTopHidden 1000%Q 50%Q 100%Q
           2 (1 # 2)).
  - unfold recordsCover, size. simpl. lia.
  - unfold Qle. simpl. lia.
Defined.

(** ** The records of a system *)

Section Records.
Context `{Accessors}.
Variable score : Score.

Lemma set_staves_same (sys : System) : System.set_staves (_staves sys) sys = sys.
Proof. destruct sys. reflexivity. Qed.

Lemma set_staves_twice (l l' : list SysStaff) (sys : System) :
  System.set_staves l (System.set_staves l' sys) = System.set_staves l sys.
Proof. reflexivity. Qed.

(** The record insertStaff makes for the position [idx]. *)
Lemma insertStaff_cases (idx : Z) (sys : System) :
  (idx = 0 /\
   System.insertStaff score idx sys
   = Some (SysStaff_new, System.set_staves (SysStaff_new :: _staves sys) sys))
  \/ (exists prev,
        0 < idx <= size (_staves sys) /\ at_ (_staves sys) (idx - 1) = Some prev
        /\ System.insertStaff score idx sys
           = let st := SysStaff.setbbox
                         (RectF.setY (SysStaff_y prev + 6 * spatium score)%Q
                                     (_bbox SysStaff_new)) SysStaff_new in
             Some (st, System.set_staves
                         (take (Z.to_nat idx) (_staves sys)
                          ++ st :: drop (Z.to_nat idx) (_staves sys)) sys))
  \/ ((idx < 0 \/ size (_staves sys) < idx)
      /\ System.insertStaff score idx sys = None).
Proof.
  unfold System.insertStaff.
  destruct (Z.eq_dec idx 0) as [-> | Hne].
  - left. split; reflexivity.
  - right. replace (idx =? 0) with false by (symmetry; apply Z.eqb_neq; exact Hne).
    simpl. destruct (at_ (_staves sys) (idx - 1)) as [prev|] eqn:Eprev; simpl.
    + left. exists prev. pose proof Eprev as Hp. apply at_Some in Hp.
      destruct Hp as [Hlo Hl]. apply lookup_lt_Some in Hl.
      split; [unfold size; lia|]. split; reflexivity.
    + right. split; [|reflexivity].
      unfold at_ in Eprev. destruct (0 <=? idx - 1) eqn:E.
      * apply Z.leb_le in E. apply lookup_ge_None in Eprev. unfold size. lia.
      * apply Z.leb_gt in E. lia.
Qed.

Lemma insertStaff_at_end (sys : System) :
  exists st,
    System.insertStaff score (size (_staves sys)) sys
    = Some (st, System.set_staves (_staves sys ++ [st]) sys)
    /\ match List.last (List.map Some (_staves sys)) None with
       | Some prev =>
           st = SysStaff.setbbox
                  (RectF.setY (SysStaff_y prev + 6 * spatium score)%Q
                              (_bbox SysStaff_new)) SysStaff_new
       | None => st = SysStaff_new
       end.
Proof.
  destruct (insertStaff_cases (size (_staves sys)) sys)
    as [[Hzero Hrun] | [(prev & Hr & Hprev & Hrun) | [Hr _]]].
  - exists SysStaff_new. rewrite Hrun.
    destruct (_staves sys) as [|a l]; [split; reflexivity | discriminate].
  - eexists. rewrite Hrun. cbv zeta. unfold size.
    rewrite Nat2Z.id, firstn_all, skipn_all. split; [reflexivity|].
    apply at_Some in Hprev. destruct Hprev as [_ Hl]. unfold size in Hl.
    destruct (_staves sys) as [|a l] using rev_ind; [simpl in Hr; unfold size in Hr; simpl in Hr; lia|].
    rewrite List.map_app. simpl. rewrite last_last.
    rewrite length_app in Hl. simpl in Hl.
    replace (Z.to_nat (Z.of_nat (length l + 1) - 1)) with (length l) in Hl by lia.
    rewrite list_lookup_middle in Hl by reflexivity. inversion Hl. reflexivity.
  - unfold size in Hr. lia.
Qed.

Lemma grow_loop (k : nat) : forall sys,
  System.foldM (fun sys i => snd <$> System.insertStaff score i sys) sys
               (seqZ (size (_staves sys)) (Z.of_nat k))
  = Some (System.set_staves (grown score (_staves sys) k) sys).
Proof.
  induction k as [|k IH]; intros sys.
  - simpl. rewrite set_staves_same. reflexivity.
  - rewrite seqZ_cons by lia.
    replace (Z.pred (Z.of_nat (S k))) with (Z.of_nat k) by lia.
    cbn [System.foldM].
    destruct (insertStaff_at_end sys) as (st & Hrun & Hst).
    rewrite Hrun. simpl.
    pose proof (IH (System.set_staves (_staves sys ++ [st]) sys)) as IH'.
    simpl in IH'.
    replace (Z.succ (size (_staves sys))) with (size (_staves sys ++ [st]))
      by (unfold size; rewrite length_app; simpl; lia).
    rewrite IH'.
    destruct (List.last (List.map Some (_staves sys)) None); subst st; reflexivity.
Qed.

Lemma grown_spec (k : nat) : forall l,
  length (grown score l k) = (length l + k)%nat
  /\ (forall i : nat, (i < length l)%nat -> grown score l k !! i = l !! i)
  /\ (forall i : nat, (length l <= i < length l + k)%nat ->
        match i with
        | O => grown score l k !! O = Some SysStaff_new
        | S j =>
            exists prev,
              grown score l k !! j = Some prev
              /\ grown score l k !! i
                 = Some (SysStaff.setbbox
                           (RectF.setY (SysStaff_y prev + 6 * spatium score)%Q
                                       (_bbox SysStaff_new)) SysStaff_new)
        end).
Proof.
  induction k as [|k IH]; intros l; simpl.
  - split; [lia|]. split; [reflexivity | intros; lia].
  - match goal with |- context [grown score (l ++ [?s]) k] => set (st := s) end.
    destruct (IH (l ++ [st])) as (Hlen & Hold & Hnew).
    rewrite length_app in Hlen, Hold, Hnew. simpl in Hlen, Hold, Hnew.
    split; [lia|]. split.
    + intros i Hi. rewrite Hold by lia. apply lookup_app_l. exact Hi.
    + intros i Hi. destruct (Nat.eq_dec i (length l)) as [-> | Hne].
      * assert (Hst : grown score (l ++ [st]) k !! length l = Some st).
        { rewrite Hold by lia. apply list_lookup_middle. reflexivity. }
        destruct l as [|a l] using rev_ind.
        -- simpl. exact Hst.
        -- rewrite length_app. simpl. replace (length l + 1)%nat with (S (length l)) by lia.
           exists a. split.
           ++ rewrite Hold by (rewrite length_app; simpl; lia).
              rewrite lookup_app_l by (rewrite length_app; simpl; lia).
              apply list_lookup_middle. reflexivity.
           ++ rewrite length_app in Hst. simpl in Hst.
              replace (length l + 1)%nat with (S (length l)) in Hst by lia.
              rewrite Hst. subst st. rewrite List.map_app. simpl. rewrite last_last.
              reflexivity.
      * apply Hnew. lia.
Qed.

Lemma shrink_loop {A : Type} (xs : list A) : forall sys,
  System.foldM (fun sys (_ : A) => System.removeStaff (size (_staves sys) - 1) sys) sys xs
  = if (length xs <=? length (_staves sys))%nat
    then Some (System.set_staves
                 (take (length (_staves sys) - length xs) (_staves sys)) sys)
    else None.
Proof.
  induction xs as [|x xs IH]; intros sys; simpl.
  - rewrite Nat.sub_0_r, firstn_all, set_staves_same. reflexivity.
  - unfold System.removeStaff.
    destruct (_staves sys) as [|a l] eqn:El using rev_ind.
    + simpl. reflexivity.
    + clear IHl. unfold size. rewrite length_app. simpl.
      replace (Z.of_nat (length l + 1) - 1) with (Z.of_nat (length l)) by lia.
      assert (Hat : at_ (l ++ [a]) (Z.of_nat (length l)) = Some a).
      { apply at_Some. split; [lia|]. rewrite Nat2Z.id. apply list_lookup_middle.
        reflexivity. }
      rewrite Hat. simpl. rewrite Nat2Z.id.
      rewrite (delete_middle l [] a). rewrite app_nil_r.
      rewrite IH. simpl.
      replace (length l + 1)%nat with (S (length l)) by lia.
      destruct (length xs <=? length l)%nat eqn:E; simpl; [|reflexivity].
      apply Nat.leb_le in E. f_equal.
      replace (S (length l) - S (length xs))%nat with (length l - length xs)%nat by lia.
      rewrite take_app_le by lia. reflexivity.
Qed.
End Records.

Section RecordsNumber.
Context `{Accessors}.
Variable score : Score.

Lemma adjustStavesNumber_run (nstaves : Z) (sys : System) :
  System.adjustStavesNumber score nstaves sys
  = if nstaves <? 0 then None
    else if size (_staves sys) <=? nstaves
         then Some (System.set_staves
                      (grown score (_staves sys) (Z.to_nat (nstaves - size (_staves sys))))
                      sys)
         else Some (System.set_staves (take (Z.to_nat nstaves) (_staves sys)) sys).
Proof.
  unfold System.adjustStavesNumber.
  assert (Hsz : 0 <= size (_staves sys)) by (unfold size; lia).
  destruct (size (_staves sys) <=? nstaves) eqn:Egrow.
  - apply Z.leb_le in Egrow.
    replace (nstaves <? 0) with false by (symmetry; apply Z.ltb_ge; lia).
    replace (nstaves - size (_staves sys))
      with (Z.of_nat (Z.to_nat (nstaves - size (_staves sys)))) at 1 by lia.
    rewrite grow_loop. simpl.
    destruct (grown_spec score (Z.to_nat (nstaves - size (_staves sys))) (_staves sys))
      as (Hlen & _).
    rewrite seqZ_nil by (unfold size in *; rewrite Hlen; lia).
    reflexivity.
  - apply Z.leb_gt in Egrow.
    rewrite seqZ_nil by lia. simpl. rewrite shrink_loop, length_seqZ.
    destruct (nstaves <? 0) eqn:Eneg.
    + apply Z.ltb_lt in Eneg.
      replace (Z.to_nat (size (_staves sys) - nstaves) <=? length (_staves sys))%nat
        with false by (symmetry; apply Nat.leb_gt; unfold size in *; lia).
      reflexivity.
    + apply Z.ltb_ge in Eneg.
      replace (Z.to_nat (size (_staves sys) - nstaves) <=? length (_staves sys))%nat
        with true by (symmetry; apply Nat.leb_le; unfold size in *; lia).
      replace (length (_staves sys) - Z.to_nat (size (_staves sys) - nstaves))%nat
        with (Z.to_nat nstaves) by (unfold size in *; lia).
      reflexivity.
Qed.
End RecordsNumber.

(** X16.  adjustStavesNumber has a result exactly for a number of staves
    that is not negative, and then leaves that many records and nothing else
    changed in the system.  The records below the old and the new number are
    kept.  A record that is added is a fresh record; except at index 0 its box
    is put 6 spaces below the y of the record before it. *)
Theorem adjustStavesNumber_sets_number `{Accessors}
        (score : Score) (nstaves : Z) (sys : System) :
  (nstaves < 0 -> System.adjustStavesNumber score nstaves sys = None)
  /\ (0 <= nstaves ->
      exists sys',
        System.adjustStavesNumber score nstaves sys = Some sys'
        /\ sys' = System.set_staves (_staves sys') sys
        /\ size (_staves sys') = nstaves
        /\ (forall i, 0 <= i < Z.min nstaves (size (_staves sys)) ->
              System.staff sys' i = System.staff sys i)
        /\ (forall i, size (_staves sys) <= i < nstaves ->
              if i =? 0 then System.staff sys' 0 = Some SysStaff_new
              else exists prev,
                     System.staff sys' (i - 1) = Some prev
                     /\ System.staff sys' i
                        = Some (SysStaff.setbbox
                                  (RectF.setY (SysStaff_y prev + 6 * spatium score)%Q
                                              (_bbox SysStaff_new)) SysStaff_new))).
Proof.
  rewrite adjustStavesNumber_run.
  assert (Hsz : 0 <= size (_staves sys)) by (unfold size; lia).
  split.
  - intros Hneg. replace (nstaves <? 0) with true by (symmetry; apply Z.ltb_lt; lia).
    reflexivity.
  - intros Hpos. replace (nstaves <? 0) with false by (symmetry; apply Z.ltb_ge; lia).
    destruct (size (_staves sys) <=? nstaves) eqn:Egrow.
    + apply Z.leb_le in Egrow.
      destruct (grown_spec score (Z.to_nat (nstaves - size (_staves sys))) (_staves sys))
        as (Hlen & Hold & Hnew).
      eexists. split; [reflexivity|]. split; [reflexivity|]. simpl.
      split; [unfold size in *; rewrite Hlen; lia|]. split.
      * intros i Hi. rewrite !staff_at. simpl. unfold at_.
        destruct (0 <=? i); [|reflexivity]. apply Hold. unfold size in Hi. lia.
      * intros i Hi. specialize (Hnew (Z.to_nat i) ltac:(unfold size in *; lia)).
        destruct (Z.to_nat i) as [|j] eqn:Ei.
        -- assert (i = 0) by lia. subst i. simpl.
           rewrite staff_at. simpl. apply at_Some. split; [lia | exact Hnew].
        -- replace (i =? 0) with false by (symmetry; apply Z.eqb_neq; lia).
           destruct Hnew as (prev & Hprev & Hi').
           exists prev. rewrite !staff_at. simpl. split; apply at_Some.
           ++ split; [lia|]. replace (Z.to_nat (i - 1)) with j by lia. exact Hprev.
           ++ split; [lia|]. rewrite Ei. exact Hi'.
    + apply Z.leb_gt in Egrow.
      eexists. split; [reflexivity|]. split; [reflexivity|]. simpl.
      split; [unfold size in *; rewrite length_take; lia|]. split.
      * intros i Hi. rewrite !staff_at. simpl. unfold at_.
        destruct (0 <=? i) eqn:E; [|reflexivity]. apply lookup_take_lt. lia.
      * intros i Hi. lia.
Qed.

Lemma adjustStavesNumber_sets_number_witness :
  exists sys',
    System.adjustStavesNumber Sample.score 5
      (Sample.system [Sample.measure 0 Sample.noSpacer]) = Some sys'
    /\ size (_staves sys') = 5
    /\ (fun ss => RectF.y (_bbox ss)) <$> System.staff sys' 4 = Some 120%Q.
Proof.
  destruct (adjustStavesNumber_sets_number Sample.score 5
              (Sample.system [Sample.measure 0 Sample.noSpacer])) as [_ Hsome].
  destruct (Hsome ltac:(lia)) as (sys' & Hrun & _ & Hsize & _).
  exists sys'. split; [exact Hrun|]. split; [exact Hsize|].
  vm_compute in Hrun. inversion Hrun. vm_compute. reflexivity.
Defined.

Section InsertRemove.
Context `{Accessors}.
Variable score : Score.

Lemma insertStaff_inserts (idx : Z) (sys : System) st sys1 :
  System.insertStaff score idx sys = Some (st, sys1) ->
  0 <= idx <= size (_staves sys)
  /\ sys1 = System.set_staves
              (take (Z.to_nat idx) (_staves sys) ++ st :: drop (Z.to_nat idx) (_staves sys))
              sys.
Proof.
  intros Hrun.
  destruct (insertStaff_cases score idx sys)
    as [[-> Hr] | [(prev & Hrange & _ & Hr) | [_ Hr]]]; rewrite Hr in Hrun.
  - inversion Hrun; subst. split; [unfold size; lia | reflexivity].
  - cbv zeta in Hrun. inversion Hrun; subst. split; [lia | reflexivity].
  - discriminate.
Qed.
End InsertRemove.

(** X17.  insertStaff has a result exactly for an index from 0 to the
    number of records.  The new record is then at that index, the records
    before it keep their index and the others move up by one, and removeStaff
    at the same index gives back the system as it was. *)
Theorem insertStaff_then_removeStaff `{Accessors}
        (score : Score) (idx : Z) (sys : System) :
  (is_Some (System.insertStaff score idx sys) <-> 0 <= idx <= size (_staves sys))
  /\ forall st sys1,
       System.insertStaff score idx sys = Some (st, sys1) ->
       System.staff sys1 idx = Some st
       /\ size (_staves sys1) = size (_staves sys) + 1
       /\ (forall i, i < idx -> System.staff sys1 i = System.staff sys i)
       /\ (forall i, idx <= i -> System.staff sys1 (i + 1) = System.staff sys i)
       /\ System.removeStaff idx sys1 = Some sys.
Proof.
  split.
  - split.
    + intros [[st sys1] Hrun]. apply (insertStaff_inserts score idx sys st sys1 Hrun).
    + intros Hrange.
      destruct (insertStaff_cases score idx sys)
        as [[_ Hr] | [(prev & _ & _ & Hr) | [Hout _]]]; [rewrite Hr; eauto.. | lia].
  - intros st sys1 Hrun.
    destruct (insertStaff_inserts score idx sys st sys1 Hrun) as [Hrange ->].
    set (n := Z.to_nat idx). set (l := _staves sys).
    assert (Hn : (n <= length l)%nat) by (subst n l; unfold size in Hrange; lia).
    assert (Htake : length (take n l) = n) by (rewrite length_take; lia).
    assert (Hmid : (take n l ++ st :: drop n l) !! n = Some st).
    { pose proof (list_lookup_middle (take n l) (drop n l) st (length (take n l)) eq_refl)
        as Hm. rewrite Htake in Hm. exact Hm. }
    split; [|split; [|split; [|split]]].
    + rewrite staff_at. simpl. apply at_Some. split; [lia | exact Hmid].
    + simpl. unfold size. rewrite length_app. simpl. rewrite length_take, length_drop.
      fold l. lia.
    + intros i Hi. rewrite !staff_at. simpl. unfold at_.
      destruct (0 <=? i) eqn:E; [|reflexivity]. apply Z.leb_le in E.
      fold l. rewrite lookup_app_l by (rewrite Htake; subst n; lia).
      apply lookup_take_lt. subst n. lia.
    + intros i Hi. rewrite !staff_at. simpl. unfold at_.
      replace (0 <=? i + 1) with true by (symmetry; apply Z.leb_le; lia).
      replace (0 <=? i) with true by (symmetry; apply Z.leb_le; lia).
      fold l. rewrite lookup_app_r by (rewrite Htake; subst n; lia).
      rewrite Htake.
      replace (Z.to_nat (i + 1) - n)%nat with (S (Z.to_nat i - n)) by (subst n; lia).
      simpl. rewrite lookup_drop. f_equal. subst n. lia.
    + unfold System.removeStaff. simpl.
      assert (Hat : at_ (take n l ++ st :: drop n l) idx = Some st)
        by (apply at_Some; split; [lia | exact Hmid]).
      fold l. fold n. rewrite Hat. simpl.
      pose proof (delete_middle (take n l) (drop n l) st) as Hdel.
      rewrite Htake in Hdel. rewrite Hdel, take_drop.
      subst l. clear. destruct sys. reflexivity.
Qed.

Lemma insertStaff_then_removeStaff_witness :
  exists st sys1,
    System.insertStaff Sample.score 1 (Sample.system [Sample.measure 0 Sample.noSpacer])
    = Some (st, sys1)
    /\ System.removeStaff 1 sys1
       = Some (Sample.system [Sample.measure 0 Sample.noSpacer]).
Proof.
  destruct (insertStaff_then_removeStaff Sample.score 1
              (Sample.system [Sample.measure 0 Sample.noSpacer])) as [Hsome Hround].
  destruct (proj2 Hsome) as [[st sys1] Hrun]; [unfold size; simpl; lia|].
  exists st, sys1. split; [exact Hrun|]. apply (Hround st sys1 Hrun).
Defined.

(** * Further properties of the layout *)

Section PlacedRecords.
Context `{Collaborators}.
Variable score : Score.

Lemma layout2_staves_placed_staff sys vis : forall lo y stv stv' si,
  0 <= lo -> increasingFrom lo vis ->
  System.layout2_staves score sys vis y stv = Some stv' ->
  si ∈ vis ->
  exists y1 staff1 ss,
    Score.staff score si = Some staff1
    /\ at_ stv' si = Some (placed score sys y1 staff1 ss).
Proof.
  induction vis as [|si1 rest IH]; intros lo y stv stv' si Hlo Hinc Hrun Hin.
  - apply elem_of_nil in Hin. contradiction.
  - apply elem_of_cons in Hin. destruct Hin as [-> | Hin].
    + destruct (layout2_staves_head _ _ _ _ _ _ _ _ Hinc Hrun) as (ss & staff1 & Hst & Hat).
      exists y, staff1, ss. split; assumption.
    + destruct (layout2_staves_step _ _ _ _ _ _ _ Hrun) as (ss & staff1 & _ & _ & Hrest).
      destruct rest as [|si2 rest']; [apply elem_of_nil in Hin; contradiction|].
      destruct Hrest as (dist & ss1a & _ & Hrec).
      simpl in Hinc. destruct Hinc as [Hlo1 Hinc].
      apply (IH (si1 + 1) _ _ _ si ltac:(lia) Hinc Hrec Hin).
Qed.

Lemma hidden_cleared sys vis l0 j a :
  System.collectVisibleStaves score 0 (_staves sys) = Some (vis, l0) ->
  System.staff sys j = Some a -> visibleAt score sys j = false ->
  at_ l0 j = Some (SysStaff.setbbox RectF.null a).
Proof.
  intros Hc Ha Hv.
  destruct (collectVisibleStaves_spec score (_staves sys) 0 vis l0 ltac:(lia) Hc)
    as (_ & _ & Hall).
  pose proof Ha as Ha'. rewrite staff_at in Ha'. apply at_Some in Ha'.
  destruct Ha' as [Hj Hl].
  destruct (Hall (Z.to_nat j) a Hl) as (s & Hs & Hl0 & _).
  replace (0 + Z.of_nat (Z.to_nat j)) with j in Hs by lia.
  unfold visibleAt in Hv. rewrite Hs, Ha in Hv. rewrite Hv in Hl0.
  apply at_Some. split; assumption.
Qed.

Lemma layout2_records sys sys' :
  System.vbox sys = None -> System.layout2 score sys = Some sys' ->
  forall j a, System.staff sys j = Some a ->
    exists b,
      System.staff sys' j = Some b
      /\ ((visibleAt score sys j = false
           /\ eraseNames b = eraseNames (SysStaff.setbbox RectF.null a))
          \/ (visibleAt score sys j = true
              /\ exists l0 y1 staff1 ss,
                   Score.staff score j = Some staff1
                   /\ eraseNames b
                      = eraseNames (placed score (cleared l0 sys) y1 staff1 ss))).
Proof.
  intros Hvb Hrun j a Ha.
  destruct (layout2_inv score sys sys' Hvb Hrun) as (vis & l0 & Hc & Hcases).
  destruct (collectVisibleStaves_spec score (_staves sys) 0 vis l0 ltac:(lia) Hc)
    as (Hlen & Hinc & _).
  destruct (collectVisibleStaves_visible score sys vis l0 Hc j) as [Hmem _].
  pose proof Ha as Ha'. rewrite staff_at in Ha'. apply at_Some in Ha'.
  destruct Ha' as [Hj Hl].
  destruct vis as [|v vis'].
  - subst sys'. assert (Hv : visibleAt score sys j = false).
    { apply not_true_is_false. intros Ev. apply Hmem in Ev.
      apply elem_of_nil in Ev. exact Ev. }
    exists (SysStaff.setbbox RectF.null a). split.
    + rewrite staff_at. simpl. eapply hidden_cleared; eassumption.
    + left. split; [exact Hv | reflexivity].
  - destruct Hcases as (stv1 & back & last_ss & Hstv & _ & _ & He & _).
    pose proof (layout2_staves_length _ _ _ _ _ _ Hstv) as Hlen1.
    assert (Hb : exists b, System.staff sys' j = Some b).
    { rewrite staff_at. unfold at_.
      replace (0 <=? j) with true by (symmetry; apply Z.leb_le; lia).
      apply lookup_lt_is_Some_2.
      apply (f_equal length) in He. rewrite !length_fmap in He.
      apply lookup_lt_Some in Hl. lia. }
    destruct Hb as [b Hb]. exists b. split; [exact Hb|].
    rewrite staff_at in Hb.
    destruct (erase_at _ _ _ _ He Hb) as (s1 & Hs1 & Heq).
    destruct (visibleAt score sys j) eqn:Ev.
    + right. split; [reflexivity|].
      destruct (layout2_staves_placed_staff (cleared l0 sys) (v :: vis') 0 0%Q l0 stv1 j
                  ltac:(lia) Hinc Hstv (proj2 Hmem eq_refl))
        as (y1 & staff1 & ss & Hst & Hat).
      rewrite Hat in Hs1. inversion Hs1; subst s1.
      exists l0, y1, staff1, ss. split; assumption.
    + left. split; [reflexivity|].
      rewrite (layout2_staves_other _ _ _ _ _ _ j Hstv Hj) in Hs1.
      * rewrite (hidden_cleared sys (v :: vis') l0 j a Hc Ha Ev) in Hs1.
        inversion Hs1; subst s1. exact Heq.
      * apply list.Forall_forall. intros x Hx Hxj. subst x.
        pose proof (proj1 Hmem Hx) as Hfalse. discriminate.
Qed.
End PlacedRecords.

(** X18.  After layout2 on a system that is not a frame every record is
    still there.  The record of a staff that is not visible has the empty box
    and is otherwise as before, its names apart.  The record of a visible
    staff has a box that starts at the left margin, is as wide as the system
    less the left margin and as high as the staff (for a staff of one line,
    as the span of its bar lines), with the offset of its top line set
    accordingly, and its saved position and height are those of the box. *)
Theorem layout2_boxes_of_staves `{Collaborators}
        (score : Score) (sys sys' : System) :
  System.vbox sys = None -> System.layout2 score sys = Some sys' ->
  forall j a, System.staff sys j = Some a ->
    exists b,
      System.staff sys' j = Some b
      /\ (visibleAt score sys j = false ->
          eraseNames b = eraseNames (SysStaff.setbbox RectF.null a))
      /\ (visibleAt score sys j = true ->
          exists staff1,
            Score.staff score j = Some staff1
            /\ RectF.x (_bbox b) = _leftMargin sys
            /\ RectF.width (_bbox b) = (System.width sys - _leftMargin sys)%Q
            /\ RectF.height (_bbox b) = snd (System.staffBox score staff1)
            /\ _yOff b = fst (System.staffBox score staff1)
            /\ saved b).
Proof.
  intros Hvb Hrun j a Ha.
  destruct (layout2_records score sys sys' Hvb Hrun j a Ha)
    as (b & Hb & [[Hv He] | (Hv & l0 & y1 & staff1 & ss & Hst & He)]);
    exists b; (split; [exact Hb|]); split; try (intros; congruence).
  intros _. exists staff1. split; [exact Hst|].
    change (_bbox b) with (_bbox (eraseNames b)).
    change (_yOff b) with (_yOff (eraseNames b)).
    split; [rewrite He; reflexivity|]. split; [rewrite He; reflexivity|].
    split; [rewrite He; reflexivity|]. split; [rewrite He; reflexivity|].
    eapply saved_erase; [exact He|]. apply saved_placed.
Qed.

Lemma layout2_boxes_of_staves_witness :
  exists b,
    System.staff (Sample.laidOut Sample.score Sample.systemSecondHidden) 2 = Some b
    /\ RectF.x (_bbox b) = 5%Q /\ RectF.width (_bbox b) = (500 - 5)%Q
    /\ RectF.height (_bbox b) = 40%Q.
Proof.
  destruct (layout2_boxes_of_staves Sample.score Sample.systemSecondHidden
              (Sample.laidOut Sample.score Sample.systemSecondHidden)
              eq_refl ltac:(vm_compute; reflexivity) 2
              (default Sample.hiddenTop (System.staff Sample.systemSecondHidden 2))
              ltac:(vm_compute; reflexivity))
    as (b & Hb & _ & Hvis).
  destruct (Hvis ltac:(vm_compute; reflexivity)) as (staff1 & Hst & Hx & Hw & Hh & _).
  exists b. split; [exact Hb|]. split; [exact Hx|]. split; [exact Hw|].
  vm_compute in Hst. inversion Hst; subst staff1. exact Hh.
Defined.

Section SystemHeight.
Context `{Collaborators}.

Lemma last_increasing vis : forall lo back,
  increasingFrom lo vis ->
  List.last (List.map Some vis) None = Some back ->
  back ∈ vis /\ forall x, x ∈ vis -> x <= back.
Proof.
  induction vis as [|a vis IH]; intros lo back Hinc Hlast; [discriminate|].
  destruct Hinc as [Hlo Hinc]. destruct vis as [|c vis].
  - simpl in Hlast. inversion Hlast; subst. split; [apply list_elem_of_here|].
    intros x Hx. apply elem_of_cons in Hx. destruct Hx as [-> | Hx]; [lia|].
    apply elem_of_nil in Hx. contradiction.
  - change (List.last (List.map Some (c :: vis)) None = Some back) in Hlast.
    destruct (IH (a + 1) back Hinc Hlast) as [Hin Hmax].
    split; [apply list_elem_of_further; exact Hin|].
    intros x Hx. apply elem_of_cons in Hx. destruct Hx as [-> | Hx]; [|apply Hmax; exact Hx].
    pose proof (increasingFrom_ge _ _ Hinc) as Hge. rewrite list.Forall_forall in Hge.
    specialize (Hge back Hin). lia.
Qed.
End SystemHeight.

(** X19.  After layout2 on a system that is not a frame the top line of
    the first visible staff is at y = 0 of the system, the height of the
    system is the bottom of the box of the last visible staff, and the box of
    the system has that height. *)
Theorem layout2_system_height `{Collaborators} (score : Score) (sys sys' : System) :
  System.vbox sys = None -> System.layout2 score sys = Some sys' ->
  (forall f b,
      visibleAt score sys f = true ->
      (forall k, k < f -> visibleAt score sys k = false) ->
      System.staff sys' f = Some b -> (staffY b == 0)%Q)
  /\ (forall l b,
        visibleAt score sys l = true ->
        (forall k, l < k -> visibleAt score sys k = false) ->
        System.staff sys' l = Some b ->
        _systemHeight sys' = RectF.bottom (_bbox b)
        /\ sys_bbox sys' = RectF.setHeight (RectF.bottom (_bbox b)) (sys_bbox sys)).
Proof.
  intros Hvb Hrun.
  destruct (layout2_inv score sys sys' Hvb Hrun) as (vis & l0 & Hc & Hcases).
  destruct (collectVisibleStaves_spec score (_staves sys) 0 vis l0 ltac:(lia) Hc)
    as (_ & Hinc & _).
  pose proof (collectVisibleStaves_visible score sys vis l0 Hc) as Hmem.
  split.
  - intros f b Hf Hbelow Hb.
    destruct vis as [|v vis'];
      [apply (Hmem f) in Hf; apply elem_of_nil in Hf; contradiction|].
    destruct Hcases as (stv1 & back & last_ss & Hstv & _ & _ & He & _).
    assert (Hvf : v = f).
    { assert (Hv : visibleAt score sys v = true)
        by (apply (Hmem v); apply list_elem_of_here).
      apply (Hmem f) in Hf. apply elem_of_cons in Hf.
      destruct Hf as [-> | Hf]; [reflexivity|].
      destruct Hinc as [_ Hinc]. pose proof (increasingFrom_ge _ _ Hinc) as Hge.
      rewrite list.Forall_forall in Hge. specialize (Hge f Hf).
      rewrite (Hbelow v ltac:(lia)) in Hv. discriminate. }
    subst v.
    destruct (layout2_staves_head _ _ _ _ _ _ _ _ Hinc Hstv) as (ss & staff1 & _ & Hat).
    rewrite staff_at in Hb. destruct (erase_at _ _ _ _ He Hb) as (s1 & Hs1 & Heq).
    rewrite Hat in Hs1. inversion Hs1; subst s1.
    rewrite (staffY_erase _ _ Heq). apply staffY_placed.
  - intros l b Hl Habove Hb.
    destruct vis as [|v vis'];
      [apply (Hmem l) in Hl; apply elem_of_nil in Hl; contradiction|].
    destruct Hcases as (stv1 & back & last_ss & Hstv & Hback & Hlast & He & Hh & Hbox & _).
    destruct (last_increasing _ _ _ Hinc Hback) as [Hin Hmax].
    assert (Hbl : back = l).
    { apply (Hmem l) in Hl. specialize (Hmax l Hl).
      destruct (Z.eq_dec back l) as [-> | Hne]; [reflexivity|].
      apply (proj1 (proj1 (Hmem back))) in Hin.
      rewrite (Habove back ltac:(lia)) in Hin. discriminate. }
    subst back.
    rewrite staff_at in Hb. destruct (erase_at _ _ _ _ He Hb) as (s1 & Hs1 & Heq).
    rewrite Hlast in Hs1. inversion Hs1; subst s1.
    assert (Hbb : _bbox b = _bbox last_ss).
    { change (_bbox b) with (_bbox (eraseNames b)). rewrite Heq. reflexivity. }
    rewrite Hbb. split; assumption.
Qed.

Lemma layout2_system_height_witness :
  _systemHeight (Sample.laidOut Sample.score (Sample.system [Sample.measure 0 Sample.noSpacer]))
  = RectF.bottom
      (_bbox (default Sample.hiddenTop
                (System.staff (Sample.laidOut Sample.score
                                 (Sample.system [Sample.measure 0 Sample.noSpacer])) 2))).
Proof.
  destruct (layout2_system_height Sample.score
              (Sample.system [Sample.measure 0 Sample.noSpacer])
              (Sample.laidOut Sample.score (Sample.system [Sample.measure 0 Sample.noSpacer]))
              eq_refl ltac:(vm_compute; reflexivity)) as [_ Hlast].
  refine (proj1 (Hlast 2 _ ltac:(vm_compute; reflexivity) _ ltac:(vm_compute; reflexivity))).
  intros k Hk. destruct (visibleAt Sample.score _ k) eqn:Ev; [|reflexivity].
  apply visibleAt_range in Ev. change (size (_staves _)) with 3 in Ev. lia.
Defined.

Section Content.
Context `{Collaborators}.

Lemma sameMeasures_refl l : sameMeasures l l.
Proof. induction l; constructor; auto. Qed.
End Content.

(** X20.  layout2 never adds or removes a record or a measure base, and on
    a record it never changes whether it is shown nor its skyline, and never
    lowers its memory of continuous view; of a measure base it changes at
    most the box. *)
Theorem layout2_leaves_content `{Collaborators} (score : Score) (sys sys' : System) :
  System.layout2 score sys = Some sys' ->
  length (_staves sys') = length (_staves sys)
  /\ (forall j a b,
        System.staff sys j = Some a -> System.staff sys' j = Some b -> keeps a b)
  /\ sameMeasures (ml sys) (ml sys').
Proof.
  intros Hrun. destruct (System.vbox sys) as [vb|] eqn:Hvb.
  - unfold System.layout2 in Hrun. rewrite Hvb in Hrun. inversion Hrun; subst sys'.
    simpl. split; [reflexivity|]. split.
    + intros j a b Ha Hb. rewrite !staff_at in *. simpl in Hb.
      rewrite Ha in Hb. inversion Hb. apply keeps_refl.
    + unfold System.vbox in Hvb. destruct (ml sys) as [|m0 rest]; [discriminate|].
      destruct (isVBox m0 || isTBox m0); [|discriminate]. inversion Hvb; subst m0.
      simpl. constructor; [simpl; auto | apply sameMeasures_refl].
  - destruct (layout2_keeps score sys sys' Hvb Hrun) as [Hlen Hkeeps].
    split; [exact Hlen|]. split; [exact Hkeeps|].
    exact (layout2_sameMeasures score sys sys' Hvb Hrun).
Qed.

Lemma layout2_leaves_content_witness :
  length (_staves (Sample.laidOut Sample.score Sample.systemSecondHidden)) = 3%nat
  /\ List.map mb_id (ml (Sample.laidOut Sample.score Sample.systemSecondHidden)) = [0%nat].
Proof.
  destruct (layout2_leaves_content Sample.score Sample.systemSecondHidden
              (Sample.laidOut Sample.score Sample.systemSecondHidden)
              ltac:(vm_compute; reflexivity)) as (Hlen & _ & Hsame).
  split; [exact Hlen|]. vm_compute. reflexivity.
Defined.

(** X21.  setMeasureHeight gives every measure the box from one space
    above the system to one space below it, at the width the measure has,
    leaves alone every measure base that is neither a measure nor a
    horizontal or text frame and writes one message for each of those, in
    their order; it changes nothing but boxes and keeps the records and the
    box of the system. *)
Theorem setMeasureHeight_boxes `{Collaborators}
        (score : Score) (height : qreal) (sys : System) :
  sameMeasures (ml sys) (ml (System.setMeasureHeight score height sys))
  /\ (forall (k : nat) m,
        ml sys !! k = Some m ->
        exists m',
          ml (System.setMeasureHeight score height sys) !! k = Some m'
          /\ (isMeasure m = true ->
              mb_bbox m' = mkRectF 0%Q (- spatium score)%Q (mb_width m)
                                   (height + 2 * spatium score)%Q)
          /\ (unhandledType m = true -> m' = m))
  /\ debugLog (System.setMeasureHeight score height sys)
     = debugLog sys
       ++ List.map (fun m => UnhandledMeasureType (mb_type m))
                   (List.filter unhandledType (ml sys))
  /\ _staves (System.setMeasureHeight score height sys) = _staves sys
  /\ sys_bbox (System.setMeasureHeight score height sys) = sys_bbox sys.
Proof.
  unfold System.setMeasureHeight. simpl.
  split; [apply setMeasureHeight_sameMeasures|]. split; [|split; [|split; reflexivity]].
  - intros k m Hk.
    exists (fst (System.setMeasureHeight1 (spatium score) height m)).
    split.
    + change (List.map fst (List.map (System.setMeasureHeight1 (spatium score) height)
                                     (ml sys)))
        with (fst <$> (System.setMeasureHeight1 (spatium score) height <$> ml sys)).
      rewrite !list_lookup_fmap, Hk. reflexivity.
    + unfold System.setMeasureHeight1, unhandledType. split.
      * intros ->. reflexivity.
      * intros Hun. apply negb_true_iff in Hun.
        apply orb_false_iff in Hun. destruct Hun as [Hun Ht].
        apply orb_false_iff in Hun. destruct Hun as [Hm Hh].
        rewrite Hm, Hh, Ht. reflexivity.
  - f_equal. induction (ml sys) as [|m l IH]; [reflexivity|].
    simpl. rewrite IH. unfold System.setMeasureHeight1 at 1, unhandledType.
    destruct (isMeasure m); [reflexivity|].
    destruct (isHBox m); [reflexivity|].
    destruct (isTBox m); reflexivity.
Qed.

Lemma setMeasureHeight_boxes_witness :
  List.map mb_bbox
    (ml (System.setMeasureHeight Sample.score 145%Q
           (Sample.system [Sample.frame; Sample.measure 0 Sample.noSpacer])))
  = [mkRectF 0%Q 0%Q 500%Q 50%Q; mkRectF 0%Q (- (10))%Q 100%Q (145 + 2 * 10)%Q]
  /\ debugLog (System.setMeasureHeight Sample.score 145%Q
                 (Sample.system [Sample.frame; Sample.measure 0 Sample.noSpacer]))
     = [UnhandledMeasureType VBOX].
Proof.
  destruct (setMeasureHeight_boxes Sample.score 145%Q
              (Sample.system [Sample.frame; Sample.measure 0 Sample.noSpacer]))
    as (_ & Hbox & Hlog & _).
  destruct (Hbox 1%nat (Sample.measure 0 Sample.noSpacer) eq_refl) as (m' & Hm' & Hb & _).
  split; [reflexivity | exact Hlog].
Defined.

(** X22.  restoreLayout gives a record back the y and the height its box
    had at saveLayout, whatever box the record was given since, and leaves
    alone the x and the width of that box and everything else in the record.
    Right after saveLayout it changes nothing. *)
Theorem saveLayout_then_restoreLayout `{Collaborators} (s : SysStaff) (r : RectF) :
  SysStaff.restoreLayout (SysStaff.setbbox r (SysStaff.saveLayout s))
  = SysStaff.setbbox
      (mkRectF (RectF.x r) (RectF.y (_bbox s)) (RectF.width r) (RectF.height (_bbox s)))
      (SysStaff.saveLayout s)
  /\ SysStaff.restoreLayout (SysStaff.saveLayout s) = SysStaff.saveLayout s
  /\ _bbox (SysStaff.saveLayout s) = _bbox s.
Proof.
  destruct s as [[x y w h] sk yo yp ht cd sh names]. destruct r as [rx ry rw rh].
  repeat split.
Qed.

(** * Further properties of the brackets *)

Section BracketsMade.
Context `{Collaborators}.
Variable score : Score.

Lemma takeFirst_spec (p : Bracket -> bool) (bl : list Bracket) b rest :
  System.takeFirst p bl = Some (b, rest) ->
  p b = true /\ b ∈ bl /\ sublist rest bl /\ S (length rest) = length bl.
Proof.
  revert b rest. induction bl as [|a bl IH]; intros b rest; simpl; [discriminate|].
  destruct (p a) eqn:Ea.
  - intros Hr. inversion Hr; subst. split; [exact Ea|]. split; [apply list_elem_of_here|].
    split; [apply sublist_cons; reflexivity | reflexivity].
  - destruct (System.takeFirst p bl) as [[b' rest']|]; [|discriminate].
    intros Hr. inversion Hr; subst.
    destruct (IH b rest' eq_refl) as (Hp & Hin & Hsub & Hlen).
    split; [exact Hp|]. split; [apply list_elem_of_further; exact Hin|].
    split; [apply sublist_skip; exact Hsub | simpl; lia].
Qed.

Lemma BracketType_eqb_eq a b : BracketType_eqb a b = true <-> a = b.
Proof. destruct a, b; simpl; split; congruence. Qed.

Lemma option_nat_eqb_eq a b : System.option_nat_eqb a b = true -> a = b.
Proof.
  destruct a, b; simpl; try congruence. intros E. apply Nat.eqb_eq in E. congruence.
Qed.

(** What createBracket does to the state of the loops, for an item of the
    staff it is called for. *)
Lemma createBracket_made sys0 measure bl0 bl sysc s bi staffIdx :
  bracketsMade score sys0 measure bl0 bl sysc ->
  0 <= staffIdx < size (_staves sys0) ->
  Score.staff score staffIdx = Some s -> bi ∈ brackets s ->
  bracketType bi <> NO_BRACKET ->
  exists ob bl' sysc',
    System.createBracket score bi (column bi) staffIdx bl measure sysc
    = Some (ob, bl', sysc')
    /\ bracketsMade score sys0 measure bl0 bl' sysc'.
Proof.
  intros (bs & -> & Hbs & Hsub & Hlen) Hidx Hs Hbi Htype.
  destruct (visibleRange_spec (System.set_brackets bs sys0) bi staffIdx Hidx)
    as (f & l & Hrange & Hspan).
  unfold System.createBracket. rewrite Hrange. simpl.
  destruct (_ || _ || _).
  - match goal with
    | |- context [System.takeFirst ?p bl] =>
        destruct (System.takeFirst p bl) as [[b0 rest]|] eqn:Etake
    end.
    + destruct (takeFirst_spec _ _ _ _ Etake) as (Hp & Hin & Hsub' & Hlen').
      apply andb_true_iff in Hp. destruct Hp as [Hp Hm].
      apply andb_true_iff in Hp. destruct Hp as [Hp Ht].
      apply andb_true_iff in Hp. destruct Hp as [Htr Hcol].
      apply Z.eqb_eq in Htr, Hcol. apply BracketType_eqb_eq in Ht.
      apply option_nat_eqb_eq in Hm.
      do 3 eexists. split; [reflexivity|].
      exists (bs ++ [System.Bracket_setStaffSpan f l b0]).
      split; [reflexivity|]. split; [|split].
      * apply Forall_app. split; [exact Hbs|]. constructor; [|constructor].
        exists staffIdx, s, bi. simpl. repeat (split; [assumption|]). exact Hspan.
      * etransitivity; eassumption.
      * rewrite length_app. simpl. lia.
    + do 3 eexists. split; [reflexivity|].
      exists (bs ++ [System.Bracket_setStaffSpan f l
                       (System.newBracket bi (staffIdx * VOICES) measure)]).
      split; [reflexivity|]. split; [|split].
      * apply Forall_app. split; [exact Hbs|]. constructor; [|constructor].
        exists staffIdx, s, bi. simpl. repeat (split; [first [assumption | reflexivity]|]).
        exact Hspan.
      * exact Hsub.
      * rewrite length_app. simpl. lia.
  - do 3 eexists. split; [reflexivity|]. exists bs. auto.
Qed.
Lemma takeFirst_perm (p : Bracket -> bool) (bl : list Bracket) b rest :
  System.takeFirst p bl = Some (b, rest) -> bl ≡ₚ b :: rest.
Proof.
  revert b rest. induction bl as [|a bl IH]; intros b rest; simpl; [discriminate|].
  destruct (p a).
  - intros Hr. inversion Hr; subst. reflexivity.
  - destruct (System.takeFirst p bl) as [[b' rest']|]; [|discriminate].
    intros Hr. inversion Hr; subst.
    rewrite (IH b rest' eq_refl). apply Permutation_swap.
Qed.

(** createBracket takes the bracket it returns from the old brackets or
    makes a fresh one, and sets its staff span; no old bracket leaves the
    list otherwise. *)
Lemma createBracket_traced measure bl0 bl sysc bi column staffIdx ob bl' sysc'
      srcs reused :
  System.createBracket score bi column staffIdx bl measure sysc = Some (ob, bl', sysc') ->
  bracketsTraced measure bl0 bl srcs reused (_brackets sysc) ->
  exists srcs' reused',
    bracketsTraced measure bl0 bl' srcs' reused' (_brackets sysc').
Proof.
  unfold System.createBracket. intros Hrun (Hsrc & Horigin & Hsub & Hperm).
  destruct (System.visibleRange sysc bi staffIdx) as [[f l]|]; simpl in Hrun; [|discriminate].
  destruct (_ || _ || _).
  - match type of Hrun with
    | context [System.takeFirst ?p bl] =>
        destruct (System.takeFirst p bl) as [[b0 rest]|] eqn:Etake
    end; inversion Hrun; subst; clear Hrun; simpl.
    + pose proof (takeFirst_perm _ _ _ _ Etake) as Hbl.
      destruct (takeFirst_spec _ _ _ _ Etake) as (_ & Hin & _).
      exists (srcs ++ [b0]), (reused ++ [b0]). split; [|split; [|split]].
      * apply Forall2_app; [exact Hsrc|]. constructor; [eauto | constructor].
      * apply Forall_app. split; [exact Horigin|]. constructor; [|constructor].
        left. rewrite Hperm. apply elem_of_app. right. exact Hin.
      * apply sublist_app; [exact Hsub | reflexivity].
      * rewrite Hperm, Hbl, <- app_assoc. reflexivity.
    + exists (srcs ++ [System.newBracket bi (staffIdx * VOICES) measure]), reused.
      split; [|split; [|split]].
      * apply Forall2_app; [exact Hsrc|]. constructor; [eauto | constructor].
      * apply Forall_app. split; [exact Horigin|]. constructor; [|constructor].
        right. exists bi, staffIdx. reflexivity.
      * apply sublist_inserts_r. exact Hsub.
      * exact Hperm.
  - inversion Hrun; subst. exists srcs, reused. repeat split; assumption.
Qed.
End BracketsMade.

Section BracketLoops.
Context `{Collaborators}.
Variables (score : Score) (sys0 : System).

Lemma layoutBrackets_item_made bl0 columns i staffIdx s bi bl sysc bw :
  0 <= staffIdx < size (_staves sys0) -> Score.staff score staffIdx = Some s ->
  bi ∈ brackets s -> 0 <= i < columns ->
  bracketsMade score sys0 (mb_id <$> System.firstMeasure sys0) bl0 bl sysc ->
  size bw = Z.max 0 columns ->
  exists bl' sysc' bw',
    System.layoutBrackets_item score i staffIdx (bl, sysc, bw) bi = Some (bl', sysc', bw')
    /\ bracketsMade score sys0 (mb_id <$> System.firstMeasure sys0) bl0 bl' sysc'
    /\ size bw' = Z.max 0 columns.
Proof.
  intros Hidx Hs Hbi Hi Hmade Hbw. unfold System.layoutBrackets_item.
  destruct (negb (column bi =? i)) eqn:Ecol; simpl; [eauto 6|].
  destruct (BracketType_eqb (bracketType bi) NO_BRACKET) eqn:Etype; simpl; [eauto 6|].
  apply negb_false_iff in Ecol. apply Z.eqb_eq in Ecol. subst i.
  assert (Htype : bracketType bi <> NO_BRACKET).
  { intros E. apply BracketType_eqb_eq in E. congruence. }
  assert (Hm : System.firstMeasure sysc = System.firstMeasure sys0)
    by (destruct Hmade as (bs & -> & _); reflexivity).
  rewrite Hm.
  destruct (createBracket_made score sys0 _ bl0 bl sysc s bi staffIdx
              Hmade Hidx Hs Hbi Htype) as (ob & bl' & sysc' & Hrun & Hmade').
  rewrite Hrun. simpl. destruct ob as [b|]; [|eauto 6].
  unfold size in Hbw.
  destruct (lookup_lt_is_Some_2 bw (Z.to_nat (column bi)) ltac:(lia)) as [w Hw].
  assert (Ew : at_ bw (column bi) = Some w) by (apply at_Some; split; [lia | exact Hw]).
  rewrite Ew. simpl. do 3 eexists. split; [reflexivity|]. split; [exact Hmade'|].
  unfold size. rewrite length_insert. exact Hbw.
Qed.

Lemma covered_score_staff staffIdx :
  stavesCovered score sys0 -> 0 <= staffIdx < size (_staves sys0) ->
  exists s, Score.staff score staffIdx = Some s.
Proof.
  intros Hcov Hidx. unfold stavesCovered, size in *.
  destruct (lookup_lt_is_Some_2 (staves score) (Z.to_nat staffIdx) ltac:(lia)) as [s Hs].
  exists s. apply Score_staff_Some. split; [lia | exact Hs].
Qed.

Lemma layoutBrackets_made :
  stavesCovered score sys0 ->
  exists w sys' bl,
    System.layoutBrackets score sys0 = Some (w, sys')
    /\ bracketsMade score sys0 (mb_id <$> System.firstMeasure sys0)
                    (_brackets sys0) bl sys'.
Proof.
  intros Hcov. unfold System.layoutBrackets.
  destruct (getBracketsColumnsCount_returns score sys0 Hcov) as [columns Hc].
  rewrite Hc. simpl.
  set (Inv := fun acc : list Bracket * System * list qreal =>
         bracketsMade score sys0 (mb_id <$> System.firstMeasure sys0) (_brackets sys0)
                      (fst (fst acc)) (snd (fst acc))
         /\ size (snd acc) = Z.max 0 columns).
  destruct (foldM_inv Inv (System.layoutBrackets_staff score columns)
              (seqZ 0 (size (_staves sys0)))
              (_brackets sys0, System.set_brackets [] sys0,
               List.repeat 0%Q (Z.to_nat columns)))
    as ([[bl sys'] bw] & Hrun & Hmade & _).
  - split; simpl.
    + exists []. split; [reflexivity|]. split; [constructor|].
      split; [reflexivity | simpl; lia].
    + unfold size. rewrite repeat_length. lia.
  - intros acc staffIdx Hidx Hinv. apply elem_of_seqZ in Hidx.
    unfold System.layoutBrackets_staff.
    destruct (covered_score_staff staffIdx Hcov ltac:(lia)) as [s Es].
    rewrite Es. simpl.
    apply (foldM_inv Inv); [exact Hinv|].
    intros acc1 i Hi Hinv1. apply elem_of_seqZ in Hi.
    apply (foldM_inv Inv); [exact Hinv1|].
    intros [[bl2 sys2] bw2] bi Hbi [Hm2 Hw2]. simpl in Hm2, Hw2.
    destruct (layoutBrackets_item_made (_brackets sys0) columns i staffIdx s bi bl2 sys2 bw2
                ltac:(lia) Es Hbi ltac:(lia) Hm2 Hw2) as (bl' & sysc' & bw' & Hr & Hm' & Hw').
    exists (bl', sysc', bw'). split; [exact Hr|]. split; assumption.
  - rewrite Hrun. simpl. eexists _, sys', bl. split; [reflexivity | exact Hmade].
Qed.

(** The state of the loops of addBrackets: the brackets made so far stand
    for items, and every old bracket is traced. *)
Lemma addBrackets_item_made measure i staffIdx s bi bl sysc :
  0 <= staffIdx < size (_staves sys0) -> Score.staff score staffIdx = Some s ->
  bi ∈ brackets s ->
  bracketsMade score sys0 measure (_brackets sys0) bl sysc
  /\ (exists srcs reused,
        bracketsTraced measure (_brackets sys0) bl srcs reused (_brackets sysc)) ->
  exists bl' sysc',
    System.addBrackets_item score i staffIdx measure (bl, sysc) bi = Some (bl', sysc')
    /\ bracketsMade score sys0 measure (_brackets sys0) bl' sysc'
    /\ (exists srcs reused,
          bracketsTraced measure (_brackets sys0) bl' srcs reused (_brackets sysc')).
Proof.
  intros Hidx Hs Hbi [Hmade (srcs & reused & Htr)]. unfold System.addBrackets_item.
  destruct (negb (column bi =? i)) eqn:Ecol; simpl; [eauto 8|].
  destruct (BracketType_eqb (bracketType bi) NO_BRACKET) eqn:Etype; simpl; [eauto 8|].
  apply negb_false_iff in Ecol. apply Z.eqb_eq in Ecol. subst i.
  assert (Htype : bracketType bi <> NO_BRACKET).
  { intros E. apply BracketType_eqb_eq in E. congruence. }
  destruct (createBracket_made score sys0 measure (_brackets sys0) bl sysc s bi staffIdx
              Hmade Hidx Hs Hbi Htype) as (ob & bl' & sysc' & Hrun & Hmade').
  pose proof (createBracket_traced score _ _ _ _ _ _ _ _ _ _ _ _ Hrun Htr) as Htr'.
  rewrite Hrun. simpl. eauto.
Qed.

Lemma addBrackets_loop_made measure columns :
  stavesCovered score sys0 ->
  exists bl sysc,
    System.foldM (System.addBrackets_staff score columns measure)
                 (_brackets sys0, System.set_brackets [] sys0)
                 (seqZ 0 (size (_staves sys0))) = Some (bl, sysc)
    /\ bracketsMade score sys0 measure (_brackets sys0) bl sysc
    /\ (exists srcs reused,
          bracketsTraced measure (_brackets sys0) bl srcs reused (_brackets sysc)).
Proof.
  intros Hcov.
  set (Inv := fun acc : list Bracket * System =>
         bracketsMade score sys0 measure (_brackets sys0) (fst acc) (snd acc)
         /\ (exists srcs reused,
               bracketsTraced measure (_brackets sys0) (fst acc) srcs reused
                              (_brackets (snd acc)))).
  destruct (foldM_inv Inv (System.addBrackets_staff score columns measure)
              (seqZ 0 (size (_staves sys0)))
              (_brackets sys0, System.set_brackets [] sys0))
    as ([bl sysc] & Hrun & Hmade).
  - split.
    + exists []. split; [reflexivity|]. split; [constructor|].
      split; [reflexivity | simpl; lia].
    + exists [], []. simpl. split; [constructor|]. split; [constructor|].
      split; [reflexivity | reflexivity].
  - intros acc staffIdx Hidx Hinv. apply elem_of_seqZ in Hidx.
    unfold System.addBrackets_staff.
    destruct (covered_score_staff staffIdx Hcov ltac:(lia)) as [s Es].
    rewrite Es. simpl.
    destruct (foldM_inv Inv
                (fun acc i => System.foldM (System.addBrackets_item score i staffIdx measure)
                                           acc (brackets s))
                (seqZ 0 columns) acc Hinv) as ([bl1 sys1] & Hr1 & Hm1).
    + intros acc1 i Hi Hinv1. apply (foldM_inv Inv); [exact Hinv1|].
      intros [bl2 sys2] bi Hbi Hm2.
      destruct (addBrackets_item_made measure i staffIdx s bi bl2 sys2
                  ltac:(lia) Es Hbi Hm2) as (bl' & sysc' & Hr & Hm').
      exists (bl', sysc'). split; [exact Hr | exact Hm'].
    + rewrite Hr1. simpl. unfold Inv in Hm1. simpl in Hm1.
      assert (Hst : is_Some (System.staff sys1 staffIdx)).
      { destruct Hm1 as [(bs & -> & _) _]. rewrite staff_at. simpl. unfold at_.
        replace (0 <=? staffIdx) with true by (symmetry; apply Z.leb_le; lia).
        apply lookup_lt_is_Some_2. unfold size in Hidx. lia. }
      destruct Hst as [ss Hss]. rewrite Hss. simpl.
      exists (bl1, sys1). split; [reflexivity | exact Hm1].
  - exists bl, sysc. split; [exact Hrun | exact Hmade].
Qed.
End BracketLoops.

(** X23.  On a system whose records all have a staff in the score
    layoutBrackets returns, and changes nothing in the system but its
    brackets.  Every bracket it leaves stands for a bracket item of a staff
    of the system that is not NO_BRACKET: it has the track of that staff, the
    column and the type of the item, belongs to the first measure, and spans
    the visible span of the item.  Old brackets that stand for nothing are
    gone. *)
Theorem layoutBrackets_keeps_current_brackets `{Collaborators}
        (score : Score) (sys : System) :
  stavesCovered score sys ->
  exists w sys',
    System.layoutBrackets score sys = Some (w, sys')
    /\ sys' = System.set_brackets (_brackets sys') sys
    /\ Forall (bracketOf score sys (mb_id <$> System.firstMeasure sys)) (_brackets sys').
Proof.
  intros Hcov.
  destruct (layoutBrackets_made score sys Hcov) as (w & sys' & bl & Hrun & Hmade).
  exists w, sys'. split; [exact Hrun|].
  destruct Hmade as (bs & -> & Hbs & _). split; [reflexivity | exact Hbs].
Qed.

Lemma layoutBrackets_keeps_current_brackets_witness :
  exists w sys',
    System.layoutBrackets Sample.scoreBracketed
      (Sample.system [Sample.measure 0 Sample.noSpacer]) = Some (w, sys')
    /\ List.map System.Bracket_bracketType (_brackets sys') = [NORMAL; BRACE]
    /\ List.map lastStaff (_brackets sys') = [2; 1].
Proof.
  destruct (layoutBrackets_keeps_current_brackets Sample.scoreBracketed
              (Sample.system [Sample.measure 0 Sample.noSpacer]))
    as (w & sys' & Hrun & _); [unfold stavesCovered, size; simpl; lia|].
  exists w, sys'. split; [exact Hrun|].
  vm_compute in Hrun. inversion Hrun. split; reflexivity.
Defined.

(** X24.  addBrackets does nothing on a system without records.  On any
    other system whose records all have a staff in the score, with a measure
    to put the brackets in front of, it returns and changes nothing but the
    brackets: first come brackets that stand for a bracket item of a staff
    and belong to the measure, then the old brackets that were not used
    again, in their order.  Each of the first is an old bracket or a fresh
    one, with its staff span and its x set and nothing else changed.  No old
    bracket is lost: the old brackets are, up to their order, the ones used
    again and the ones kept.  Without a measure it has no result. *)
Theorem addBrackets_keeps_old_brackets `{Collaborators}
        (score : Score) (measure : option (nat * qreal)) (sys : System) :
  (_staves sys = [] -> System.addBrackets score measure sys = Some sys)
  /\ (_staves sys <> [] -> stavesCovered score sys ->
      (measure = None -> System.addBrackets score measure sys = None)
      /\ (forall id x, measure = Some (id, x) ->
            exists made kept srcs reused,
              System.addBrackets score measure sys
              = Some (System.set_brackets (made ++ kept) sys)
              /\ Forall (bracketOf score sys (Some id)) made
              /\ sublist kept (_brackets sys)
              /\ (length (_brackets sys) <= length (made ++ kept))%nat
              /\ Forall2 respanned srcs made
              /\ Forall (fun s => s ∈ _brackets sys \/ freshBracket (Some id) s) srcs
              /\ sublist reused srcs
              /\ _brackets sys ≡ₚ reused ++ kept)).
Proof.
  unfold System.addBrackets. split.
  - intros ->. reflexivity.
  - intros Hne Hcov. destruct (_staves sys) as [|a l] eqn:El; [congruence|].
    rewrite <- El. clear Hne.
    destruct (getBracketsColumnsCount_returns score sys Hcov) as [columns Hc].
    rewrite Hc. simpl.
    destruct (addBrackets_loop_made score sys (fst <$> measure) columns Hcov)
      as (bl & sysc & Hrun & Hmade & srcs & reused & Htr).
    rewrite Hrun. simpl. split.
    + intros ->. reflexivity.
    + intros id x ->. simpl in *. destruct Hmade as (bs & -> & Hbs & Hsub & Hlen).
      destruct Htr as (Hsrc & Horigin & Hsubr & Hperm). simpl in Hsrc.
      unfold System.setBracketsXPosition. simpl.
      eexists _, bl, srcs, reused. split; [reflexivity|].
      split; [|split; [exact Hsub|]].
      * apply list.Forall_forall. intros b Hb.
        apply list_elem_of_In in Hb. apply in_map_iff in Hb.
        destruct Hb as (b1 & <- & Hin). apply list_elem_of_In in Hin.
        rewrite list.Forall_forall in Hbs. exact (Hbs b1 Hin).
      * split; [rewrite length_app, length_map; lia|].
        split; [|split; [exact Horigin|split; [exact Hsubr | exact Hperm]]].
        clear -Hsrc. generalize (System.bracketXOffset (bracketDistance (style score)) bs).
        intros off. induction Hsrc as [|s0 m srcs0 bs0 (a0 & z0 & ->) _ IH];
          simpl; constructor; [|exact IH].
        eexists a0, z0, _. reflexivity.
Qed.

(** An old bracket of the measure for the first item is used again and
    keeps its width 4; the bracket for the second item is fresh; an old
    bracket in column 5, which stands for no item, is kept at the end. *)
Lemma addBrackets_keeps_old_brackets_witness :
  exists sys',
    System.addBrackets Sample.scoreBracketed (Some (0%nat, 30%Q))
      (System.set_brackets
         [Sample.bracketAt 5 0 1 4%Q;
          mkBracket (mkBracketItem NORMAL 0 3) 0 (Some 0%nat) false 0 0 4%Q 0%Q 0%Q 0%Q]
         (Sample.system [Sample.measure 0 Sample.noSpacer])) = Some sys'
    /\ List.map b_measure (_brackets sys') = [Some 0%nat; Some 0%nat; None]
    /\ List.map b_generated (_brackets sys') = [false; true; true]
    /\ List.map b_width (_brackets sys') = [4%Q; 0%Q; 4%Q]
    /\ List.map lastStaff (_brackets sys') = [2; 1; 1].
Proof.
  destruct (addBrackets_keeps_old_brackets Sample.scoreBracketed (Some (0%nat, 30%Q))
              (System.set_brackets
                 [Sample.bracketAt 5 0 1 4%Q;
                  mkBracket (mkBracketItem NORMAL 0 3) 0 (Some 0%nat) false 0 0 4%Q
                            0%Q 0%Q 0%Q]
                 (Sample.system [Sample.measure 0 Sample.noSpacer]))) as [_ Hrun].
  destruct Hrun as [_ Hrun]; [discriminate | unfold stavesCovered, size; simpl; lia|].
  destruct (Hrun 0%nat 30%Q eq_refl) as (made & kept & srcs & reused & Hr & _).
  eexists. split; [vm_compute; reflexivity|].
  split; [reflexivity|]. split; [reflexivity|]. split; reflexivity.
Defined.

(** * Further properties of the measure list *)

Section FindMeasure.

Lemma find_split {A : Type} (p : A -> bool) (l : list A) (x : A) :
  List.find p l = Some x ->
  exists pre post, l = pre ++ x :: post /\ p x = true
                   /\ Forall (fun y => p y = false) pre.
Proof.
  induction l as [|a l IH]; simpl; [discriminate|].
  destruct (p a) eqn:Ea.
  - intros Hx. inversion Hx; subst. exists [], l. split; [reflexivity|].
    split; [exact Ea | constructor].
  - intros Hx. destruct (IH Hx) as (pre & post & -> & Hp & Hpre).
    exists (a :: pre), post. split; [reflexivity|]. split; [exact Hp|].
    constructor; assumption.
Qed.

Lemma find_none_iff {A : Type} (p : A -> bool) (l : list A) :
  List.find p l = None <-> Forall (fun y => p y = false) l.
Proof.
  induction l as [|a l IH]; simpl.
  - split; [constructor | reflexivity].
  - destruct (p a) eqn:Ea.
    + split; [discriminate|]. intros Hall. inversion Hall; subst. congruence.
    + rewrite IH. split; [constructor; assumption|]. intros Hall.
      inversion Hall; assumption.
Qed.
End FindMeasure.

(** X25.  firstMeasure and lastMeasure are null together, exactly when the
    system holds no measure.  Otherwise firstMeasure is a measure of the
    system with no measure before it, and lastMeasure one with no measure
    after it. *)
Theorem firstMeasure_lastMeasure `{Collaborators} (sys : System) :
  (System.firstMeasure sys = None <-> Forall (fun m => isMeasure m = false) (ml sys))
  /\ (System.lastMeasure sys = None <-> Forall (fun m => isMeasure m = false) (ml sys))
  /\ (forall m, System.firstMeasure sys = Some m ->
        exists pre post,
          ml sys = pre ++ m :: post /\ isMeasure m = true
          /\ Forall (fun x => isMeasure x = false) pre)
  /\ (forall m, System.lastMeasure sys = Some m ->
        exists pre post,
          ml sys = pre ++ m :: post /\ isMeasure m = true
          /\ Forall (fun x => isMeasure x = false) post).
Proof.
  unfold System.firstMeasure, System.lastMeasure.
  split; [apply find_none_iff|]. split; [|split].
  - rewrite find_none_iff. split; intros Hall.
    + apply Forall_rev in Hall. rewrite rev_involutive in Hall. exact Hall.
    + apply Forall_rev. exact Hall.
  - intros m Hm. apply find_split. exact Hm.
  - intros m Hm. destruct (find_split _ _ _ Hm) as (pre & post & Hrev & Hp & Hpre).
    exists (rev post), (rev pre). split; [|split; [exact Hp|]].
    + rewrite <- (rev_involutive (ml sys)), Hrev, rev_app_distr. simpl.
      rewrite <- app_assoc. reflexivity.
    + apply Forall_rev. exact Hpre.
Qed.

Lemma firstMeasure_lastMeasure_witness :
  mb_id <$> System.firstMeasure
              (Sample.system [Sample.frame; Sample.measure 0 Sample.noSpacer;
                              Sample.measure 1 Sample.noSpacer]) = Some 0%nat
  /\ mb_id <$> System.lastMeasure
                 (Sample.system [Sample.frame; Sample.measure 0 Sample.noSpacer;
                                 Sample.measure 1 Sample.noSpacer]) = Some 1%nat.
Proof.
  destruct (firstMeasure_lastMeasure
              (Sample.system [Sample.frame; Sample.measure 0 Sample.noSpacer;
                              Sample.measure 1 Sample.noSpacer]))
    as (_ & _ & Hfirst & _).
  destruct (Hfirst (Sample.measure 0 Sample.noSpacer) eq_refl) as (pre & post & _).
  split; reflexivity.
Defined.

Section VerticalBrackets.
Context `{Collaborators}.
Variables (score : Score) (sys : System).

Lemma layoutBracketVertical1_returns b :
  0 <= firstStaff b -> lastStaff b < size (_staves sys) ->
  exists sy h,
    System.layoutBracketVertical1 score (_staves sys) b
    = Some (Bracket_layout (System.Bracket_setVertical sy h b))
    /\ (allHidden sys b -> sy = 0%Q /\ h = (0 - 0)%Q).
Proof.
  intros Hlo Hhi. unfold System.layoutBracketVertical1.
  set (shown := fun i => _show <$> at_ (_staves sys) i).
  assert (Hshown : forall i, 0 <= i < size (_staves sys) ->
                     shown i = Some (shownAt sys i)).
  { intros i Hi. destruct (shown_staff sys i Hi) as (bb & Hb & Hs).
    subst shown. cbv beta. rewrite <- staff_at, Hb, Hs. reflexivity. }
  destruct (firstShown_spec shown (Z.to_nat (lastStaff b - firstStaff b + 1)) (firstStaff b))
    as (f & Hf & Hfr & Hfbefore & Hfs).
  { intros j Hj. rewrite Hshown by lia. eauto. }
  rewrite Hf. simpl.
  destruct (lastShown_spec shown (Z.to_nat (lastStaff b - f + 1)) (lastStaff b))
    as (l & Hl & Hlr & Hlafter & Hls).
  { intros i Hi. rewrite Hshown by lia. eauto. }
  rewrite Hl. simpl.
  set (notHidden := if alwaysShowBracketsWhenEmptyStavesAreHidden (style score)
                    then f <=? l
                    else (f <? l) || ((System.Bracket_span b =? 1) && (f =? l))).
  assert (Hnot : notHidden = true -> f <= l).
  { subst notHidden. destruct (alwaysShowBracketsWhenEmptyStavesAreHidden (style score)).
    - intros E. apply Z.leb_le in E. exact E.
    - intros E. apply orb_true_iff in E. destruct E as [E | E].
      + apply Z.ltb_lt in E. lia.
      + apply andb_true_iff in E. destruct E as [_ E]. apply Z.eqb_eq in E. lia. }
  destruct notHidden eqn:En.
  - specialize (Hnot eq_refl).
    destruct (lookup_lt_is_Some_2 (_staves sys) (Z.to_nat f)
                ltac:(unfold size in *; lia)) as [s1 Hs1].
    destruct (lookup_lt_is_Some_2 (_staves sys) (Z.to_nat l)
                ltac:(unfold size in *; lia)) as [s2 Hs2].
    assert (E1 : at_ (_staves sys) f = Some s1) by (apply at_Some; split; [lia | exact Hs1]).
    assert (E2 : at_ (_staves sys) l = Some s2) by (apply at_Some; split; [lia | exact Hs2]).
    rewrite E1. simpl. rewrite E2. simpl.
    do 2 eexists. split; [reflexivity|].
    intros Hall. exfalso.
    assert (Hfl : f < firstStaff b + Z.of_nat (Z.to_nat (lastStaff b - firstStaff b + 1)))
      by lia.
    specialize (Hfs Hfl). rewrite Hshown in Hfs by lia.
    rewrite (Hall f ltac:(lia)) in Hfs. discriminate.
  - simpl. do 2 eexists. split; [reflexivity|]. intros _. split; reflexivity.
Qed.
End VerticalBrackets.

(** X26.  When the staff range of every bracket lies inside the records of
    the system, layoutBracketsVertical returns, keeps the number and the order
    of the brackets and changes nothing else in the system; each bracket is
    given a y and a height and laid out, and a bracket none of whose staves is
    shown is given y 0 and height 0. *)
Theorem layoutBracketsVertical_hides_unshown `{Collaborators}
        (score : Score) (sys : System) :
  Forall (fun b => 0 <= firstStaff b /\ lastStaff b < size (_staves sys)) (_brackets sys) ->
  exists sys',
    System.layoutBracketsVertical score sys = Some sys'
    /\ sys' = System.set_brackets (_brackets sys') sys
    /\ Forall2 (fun b b' =>
                  exists sy h,
                    b' = Bracket_layout (System.Bracket_setVertical sy h b)
                    /\ (allHidden sys b -> sy = 0%Q /\ h = (0 - 0)%Q))
               (_brackets sys) (_brackets sys').
Proof.
  intros Hin. unfold System.layoutBracketsVertical.
  assert (Hall : Forall (fun b => is_Some (System.layoutBracketVertical1 score (_staves sys) b))
                        (_brackets sys)).
  { eapply Forall_weaken; [exact Hin|]. intros b [Hlo Hhi].
    destruct (layoutBracketVertical1_returns score sys b Hlo Hhi) as (sy & h & Hr & _).
    rewrite Hr. eauto. }
  apply mapM_is_Some in Hall. destruct Hall as [bs Hbs]. rewrite Hbs. simpl.
  eexists. split; [reflexivity|]. split; [reflexivity|]. simpl.
  apply mapM_Some in Hbs. clear -Hin Hbs.
  induction Hbs as [|b b' l l' Hb Hrest IH]; [constructor|].
  inversion Hin as [|? ? [Hlo Hhi] Hin']; subst. constructor; [|apply IH; exact Hin'].
  destruct (layoutBracketVertical1_returns score sys b Hlo Hhi) as (sy & h & Hr & Hhid).
  rewrite Hr in Hb. inversion Hb; subst b'. exists sy, h. split; [reflexivity | exact Hhid].
Qed.

Lemma layoutBracketsVertical_hides_unshown_witness :
  exists sys',
    System.layoutBracketsVertical Sample.score
      (System.set_brackets [Sample.bracketAt 0 0 0 4%Q] Sample.systemTopHidden) = Some sys'
    /\ List.map b_h2 (_brackets sys') = [(0 - 0) * (1 # 2)]%Q.
Proof.
  destruct (layoutBracketsVertical_hides_unshown Sample.score
              (System.set_brackets [Sample.bracketAt 0 0 0 4%Q] Sample.systemTopHidden))
    as (sys' & Hrun & _).
  - constructor; [|constructor]. simpl. unfold size. simpl. lia.
  - exists sys'. split; [exact Hrun|]. vm_compute in Hrun. inversion Hrun. reflexivity.
Defined.

Section PlaceTwice.
Context `{Collaborators}.

Lemma bracketXOffset_setXpos bd (f : Bracket -> qreal) (bs : list Bracket) b1 v :
  System.bracketXOffset bd
    (List.map (fun b => System.Bracket_setXpos (f b) b) bs)
    (System.Bracket_setXpos v b1)
  = System.bracketXOffset bd bs b1.
Proof.
  unfold System.bracketXOffset. generalize 0%Q.
  induction bs as [|b bs IH]; intros acc; simpl; [reflexivity|].
  rewrite IH. reflexivity.
Qed.
End PlaceTwice.

(** X27.  setBracketsXPosition changes nothing but the x of the brackets,
    and the x it gives does not depend on the x the brackets had: placing the
    brackets again, at the same or at another position, gives what placing
    them once at the last position gives. *)
Theorem setBracketsXPosition_last_call_wins `{Collaborators}
        (score : Score) (x x' : qreal) (sys : System) :
  System.setBracketsXPosition score x' (System.setBracketsXPosition score x sys)
  = System.setBracketsXPosition score x' sys
  /\ System.setBracketsXPosition score x sys
     = System.set_brackets (_brackets (System.setBracketsXPosition score x sys)) sys
  /\ Forall2 (fun b b' => b' = System.Bracket_setXpos (b_xpos b') b)
             (_brackets sys) (_brackets (System.setBracketsXPosition score x sys)).
Proof.
  unfold System.setBracketsXPosition. simpl. split; [|split; [reflexivity|]].
  - unfold System.set_brackets. simpl. f_equal.
    rewrite List.map_map. apply List.map_ext. intros b.
    rewrite (bracketXOffset_setXpos (bracketDistance (style score))
               (fun b1 => (x - System.bracketXOffset (bracketDistance (style score))
                                 (_brackets sys) b1 - b_width b1)%Q)).
    reflexivity.
  - induction (_brackets sys) as [|b l IH] at 1 3; simpl; constructor; auto.
Qed.

(** * layout2 has a result *)

Section Layout2Returns.
Context `{Collaborators}.
Variable score : Score.

Lemma collectVisibleStaves_returns l : forall i,
  0 <= i -> i + size l <= size (staves score) ->
  is_Some (System.collectVisibleStaves score i l).
Proof.
  induction l as [|ss l IH]; intros i Hi Hcov; simpl; [eauto|].
  unfold size in *. simpl in Hcov.
  destruct (lookup_lt_is_Some_2 (staves score) (Z.to_nat i) ltac:(lia)) as [s Hs].
  assert (Es : Score.staff score i = Some s)
    by (apply Score_staff_Some; split; [lia | exact Hs]).
  rewrite Es. simpl.
  destruct (IH (i + 1) ltac:(lia) ltac:(lia)) as [[vis l'] Hr]. rewrite Hr. simpl.
  destruct (show s && _show ss); eauto.
Qed.

Lemma layout2_staves_returns sys vis : forall lo y stv,
  0 <= lo -> increasingFrom lo vis ->
  Forall (fun j => j < size stv) vis -> size stv <= size (staves score) ->
  is_Some (System.layout2_staves score sys vis y stv).
Proof.
  induction vis as [|si1 rest IH]; intros lo y stv Hlo Hinc Hin Hcov; [simpl; eauto|].
  destruct Hinc as [Hsi1 Hinc]. inversion Hin as [|? ? Hlt Hrest]; subst.
  assert (Hidx : forall j, 0 <= j < size stv ->
                   exists s ss, Score.staff score j = Some s /\ at_ stv j = Some ss).
  { intros j Hj. unfold size in *.
    destruct (lookup_lt_is_Some_2 (staves score) (Z.to_nat j) ltac:(lia)) as [s Hs].
    destruct (lookup_lt_is_Some_2 stv (Z.to_nat j) ltac:(lia)) as [ss Hss].
    exists s, ss. split; [apply Score_staff_Some | apply at_Some]; (split; [lia | assumption]). }
  destruct (Hidx si1 ltac:(lia)) as (staff1 & ss & Es & Ess).
  cbn [System.layout2_staves]. rewrite Ess. simpl. rewrite Es. simpl.
  destruct (System.staffBox score staff1) as [yOffset h].
  destruct rest as [|si2 rest']; [eauto|].
  inversion Hrest as [|? ? Hlt2 _]; subst.
  pose proof Hinc as [Hsi2 _].
  destruct (Hidx si2 ltac:(lia)) as (staff2 & ss2 & Es2 & Ess2).
  assert (Hdist : is_Some (System.staffDist score sys stv si1 si2 staff1 ss)).
  { unfold System.staffDist. rewrite Es2. simpl.
    destruct (System.scanSpacers _ _ _ _ _) as [dist fixedSpace].
    destruct fixedSpace; [eauto|].
    rewrite staff_at. simpl. rewrite Ess2. simpl.
    destruct (System.skylineDist score ss ss2). eauto. }
  destruct Hdist as [[dist ss'] Hdist]. rewrite Hdist. simpl.
  apply (IH (si1 + 1)); [lia | exact Hinc | |].
  - eapply Forall_weaken; [exact Hrest|]. intros j Hj. unfold size in *.
    rewrite length_insert. exact Hj.
  - unfold size in *. rewrite length_insert. exact Hcov.
Qed.

Lemma lowestShown_returns sys k : forall i s2,
  (forall j, i - Z.of_nat k < j <= i -> is_Some (System.staff sys j)) ->
  exists o, System.lowestShown sys i k s2 = Some o
            /\ (o = s2 \/ exists s3, o = Some s3).
Proof.
  induction k as [|k IH]; intros i s2 Hall; simpl; [eauto|].
  destruct (Hall i ltac:(lia)) as [s3 Hs3]. rewrite Hs3. simpl.
  destruct (_show s3); [eauto|].
  apply IH. intros j Hj. apply Hall. lia.
Qed.

Lemma layoutName_returns sys staffIdx n s t :
  layoutPos t = 0 \/ layoutPos t = 1 ->
  0 <= staffIdx -> staffIdx + n <= size (_staves sys) ->
  is_Some (System.staff sys staffIdx) ->
  exists t', System.layoutName sys staffIdx n s t = Some t'
             /\ layoutPos t' = layoutPos t.
Proof.
  intros Hpos Hlo Hhi Hst. unfold System.layoutName, System.nameSpan.
  destruct Hpos as [E | E]; rewrite E.
  - destruct (lowestShown_returns sys (Z.to_nat (staffIdx + n - 1)) (staffIdx + n - 1)
                (System.staff sys staffIdx)) as (o & Ho & Hcases).
    { intros j Hj. rewrite staff_at. unfold at_.
      replace (0 <=? j) with true by (symmetry; apply Z.leb_le; lia).
      apply lookup_lt_is_Some_2. unfold size in Hhi. lia. }
    rewrite Ho. simpl.
    assert (Hs2 : is_Some o).
    { destruct Hcases as [-> | [s3 ->]]; [exact Hst | eauto]. }
    destruct Hs2 as [s2 ->]. simpl. eexists. split; [reflexivity | exact E].
  - simpl. eexists. split; [reflexivity | exact E].
Qed.
Lemma layoutNames_returns sys staffIdx n s l :
  Forall (fun t => layoutPos t = 0 \/ layoutPos t = 1) l ->
  0 <= staffIdx -> staffIdx + n <= size (_staves sys) ->
  is_Some (System.staff sys staffIdx) ->
  exists names, mapM (System.layoutName sys staffIdx n s) l = Some names
    /\ Forall (fun t => layoutPos t = 0 \/ layoutPos t = 1) names.
Proof.
  intros Hl Hlo Hhi Hst. induction Hl as [|t l Ht Hl IH].
  - exists []. split; [reflexivity | constructor].
  - destruct IH as (names & Hnames & Hc).
    destruct (layoutName_returns sys staffIdx n s t Ht Hlo Hhi Hst) as (t' & Ht' & Hpos).
    exists (t' :: names). split.
    + cbn [mapM]. rewrite Ht'. simpl. rewrite Hnames. reflexivity.
    + constructor; [rewrite Hpos; exact Ht | exact Hc].
Qed.

Lemma staffDist_names sys stv si1 si2 staff1 ss dist ss1a :
  System.staffDist score sys stv si1 si2 staff1 ss = Some (dist, ss1a) ->
  instrumentNames ss1a = instrumentNames ss.
Proof.
  unfold System.staffDist. intros Hrun.
  destruct (Score.staff score si2); simpl in Hrun; [|discriminate].
  destruct (System.scanSpacers _ _ _ _ _) as [d fixedSpace].
  destruct fixedSpace; [inversion Hrun; reflexivity|].
  destruct (System.staff _ si2) as [ss2|]; simpl in Hrun; [|discriminate].
  unfold System.skylineDist in Hrun.
  destruct (lineMode score); [|inversion Hrun; reflexivity].
  destruct (qLess _ _); inversion Hrun; reflexivity.
Qed.

Lemma layout2_staves_centred sys vis : forall y stv stv',
  System.layout2_staves score sys vis y stv = Some stv' ->
  namesCentred stv -> namesCentred stv'.
Proof.
  induction vis as [|si1 rest IH]; intros y stv stv' Hrun Hc.
  - inversion Hrun; subst. exact Hc.
  - destruct (layout2_staves_step _ _ _ _ _ _ _ Hrun) as (ss & staff1 & Hss & _ & Hrest).
    assert (Hss_c : centredNames ss).
    { apply at_Some in Hss as [_ Hss]. exact (Forall_lookup_1 _ _ _ _ Hc Hss). }
    destruct rest as [|si2 rest'].
    + subst stv'. apply Forall_insert; [exact Hc | exact Hss_c].
    + destruct Hrest as (dist & ss1a & Hd & Hrec).
      apply (IH _ _ _ Hrec). apply Forall_insert; [exact Hc|].
      unfold centredNames, placed, System.placeStaff. simpl.
      rewrite (staffDist_names _ _ _ _ _ _ _ _ Hd). exact Hss_c.
Qed.

Lemma collectVisibleStaves_centred l i vis l' :
  0 <= i -> System.collectVisibleStaves score i l = Some (vis, l') ->
  namesCentred l -> namesCentred l'.
Proof.
  intros Hi Hrun Hc.
  destruct (collectVisibleStaves_spec score l i vis l' Hi Hrun) as (Hlen & _ & Hall).
  apply Forall_lookup_2. intros k x Hx.
  destruct (lookup_lt_is_Some_2 l k) as [ss Hss].
  { rewrite <- Hlen. eapply lookup_lt_Some; exact Hx. }
  destruct (Hall k ss Hss) as (s & _ & Hk & _).
  rewrite Hx in Hk. inversion Hk; subst x.
  pose proof (Forall_lookup_1 _ _ _ _ Hc Hss) as Hss_c.
  destruct (show s && _show ss); exact Hss_c.
Qed.

Lemma sumStaves_app a b : sumStaves (a ++ b) = sumStaves a + sumStaves b.
Proof. induction a as [|q a IH]; simpl; lia. Qed.

Lemma layoutInstrumentNames_part_returns done p rest sys :
  parts score = done ++ p :: rest ->
  0 <= sumStaves done -> 0 <= nstaves p ->
  sumStaves done + nstaves p <= size (_staves sys) ->
  namesCentred (_staves sys) ->
  exists sys',
    System.layoutInstrumentNames_part score (length done) p (sumStaves done) sys = Some sys'
    /\ size (_staves sys') = size (_staves sys)
    /\ namesCentred (_staves sys').
Proof.
  intros Hparts Hlo Hp Hhi Hc.
  unfold System.layoutInstrumentNames_part, System.firstVisibleSysStaffOfPart.
  rewrite (firstSysStaffOfPart_split score done p rest Hparts).
  destruct (firstVisible_loop_spec sys (Z.to_nat (nstaves p)) (sumStaves done) Hlo
              ltac:(lia)) as (v & Hv & Hcases).
  rewrite Hv. simpl.
  destruct Hcases as [[-> _] | (Hrange & _ & _)].
  { exists sys. split; [reflexivity|]. split; [reflexivity | exact Hc]. }
  replace (0 <=? v) with true by (symmetry; apply Z.leb_le; lia).
  set (staffIdx := sumStaves done) in *.
  assert (Hidx : forall j (l : list SysStaff),
            0 <= j < Z.of_nat (length l) -> is_Some (at_ l j)).
  { intros j l Hj. unfold at_.
    replace (0 <=? j) with true by (symmetry; apply Z.leb_le; lia).
    apply lookup_lt_is_Some_2. lia. }
  unfold size in *.
  destruct (Hidx staffIdx (_staves sys) ltac:(lia)) as [s Es].
  rewrite (staff_at sys staffIdx), Es. simpl.
  destruct (Z.eq_dec v staffIdx) as [-> | Hne].
  - rewrite Z.eqb_refl. simpl. rewrite (staff_at sys staffIdx), Es. simpl.
    pose proof Es as Es'. apply at_Some in Es' as [_ Es'].
    destruct (layoutNames_returns sys staffIdx (nstaves p) s (instrumentNames s)
                (Forall_lookup_1 _ _ _ _ Hc Es') Hlo ltac:(unfold size; lia)
                ltac:(rewrite staff_at, Es; eauto)) as (names & Hnames & Hn).
    rewrite Hnames. simpl. eexists. split; [reflexivity|]. simpl.
    split; [rewrite length_insert; reflexivity|].
    apply Forall_insert; [exact Hc | exact Hn].
  - replace (v =? staffIdx) with false by (symmetry; apply Z.eqb_neq; exact Hne).
    simpl.
    destruct (Hidx v (_staves sys) ltac:(lia)) as [vs Evs].
    rewrite (staff_at sys v), Evs. simpl.
    pose proof Es as Es'. apply at_Some in Es' as [_ Es'].
    pose proof Evs as Evs'. apply at_Some in Evs' as [_ Evs'].
    pose proof (Forall_lookup_1 _ _ _ _ Hc Es') as Hs_c.
    pose proof (Forall_lookup_1 _ _ _ _ Hc Evs') as Hvs_c.
    set (sys1 := System.migrateNames staffIdx v s vs sys).
    set (moved := List.map (System.InstrumentName_retarget (v * VOICES) v)
                           (instrumentNames s)).
    assert (Hmoved : Forall (fun t => layoutPos t = 0 \/ layoutPos t = 1) moved).
    { unfold moved. apply Forall_forall. intros t Ht.
      apply List.in_map_iff in Ht as (t0 & <- & Ht0). simpl.
      unfold centredNames in Hs_c. rewrite Forall_forall in Hs_c. apply Hs_c. exact Ht0. }
    assert (Hlen1 : length (_staves sys1) = length (_staves sys)).
    { unfold sys1, System.migrateNames. simpl. rewrite !length_insert. reflexivity. }
    assert (Hc1 : namesCentred (_staves sys1)).
    { unfold sys1, System.migrateNames. simpl.
      apply Forall_insert; [apply Forall_insert; [exact Hc|] | constructor].
      unfold centredNames. simpl. apply Forall_app. split; [exact Hvs_c | exact Hmoved]. }
    assert (Es1 : at_ (_staves sys1) v
                  = Some (SysStaff.setInstrumentNames (instrumentNames vs ++ moved) vs)).
    { unfold sys1, System.migrateNames. simpl.
      rewrite at_insert_other by (try lia; congruence).
      apply (at_insert_eq _ _ _ _ Evs). }
    fold sys1. rewrite (staff_at sys1 v), Es1. simpl.
    destruct (layoutNames_returns sys1 staffIdx (nstaves p)
                (SysStaff.setInstrumentNames (instrumentNames vs ++ moved) vs)
                (instrumentNames vs ++ moved)
                ltac:(apply Forall_app; split; assumption) Hlo
                ltac:(unfold size; lia)
                ltac:(rewrite staff_at; apply Hidx; lia)) as (names & Hnames & Hn).
    rewrite Hnames. simpl. eexists. split; [reflexivity|]. simpl.
    split; [rewrite length_insert; exact (f_equal Z.of_nat Hlen1)|].
    apply Forall_insert; [exact Hc1 | exact Hn].
Qed.

Lemma layoutInstrumentNames_loop_returns rest : forall done sys,
  parts score = done ++ rest ->
  Forall (fun q => 0 <= nstaves q) (parts score) ->
  sumStaves (parts score) <= size (_staves sys) ->
  namesCentred (_staves sys) ->
  exists sys',
    System.layoutInstrumentNames_loop score rest (length done) (sumStaves done) sys
    = Some sys'
    /\ namesCentred (_staves sys').
Proof.
  induction rest as [|p rest IH]; intros done sys Hparts Hn Hsum Hc; simpl; [eauto|].
  pose proof Hn as Hn'. rewrite Hparts in Hn'.
  apply Forall_app in Hn' as [Hdone Hrest].
  inversion Hrest as [|? ? Hp Hrest']; subst.
  pose proof (sumStaves_nonneg _ Hdone) as Hd0.
  pose proof (sumStaves_nonneg _ Hrest') as Hr0.
  assert (Hsplit : sumStaves (parts score) = sumStaves done + (nstaves p + sumStaves rest)).
  { rewrite Hparts, sumStaves_app. reflexivity. }
  destruct (layoutInstrumentNames_part_returns done p rest sys Hparts Hd0 Hp ltac:(lia) Hc)
    as (sys1 & Hrun & Hsize & Hc1).
  rewrite Hrun. simpl.
  specialize (IH (done ++ [p]) sys1).
  rewrite length_app, sumStaves_snoc in IH. simpl in IH.
  replace (length done + 1)%nat with (S (length done)) in IH by lia.
  apply IH; [rewrite <- app_assoc; exact Hparts | exact Hn | rewrite Hsize; exact Hsum | exact Hc1].
Qed.

Lemma is_Some_not_None {A : Type} (o : option A) : is_Some o -> o = None -> False.
Proof. intros [x ->]. discriminate. Qed.

Lemma last_Some_in (v : Z) (vis : list Z) :
  exists back, List.last (List.map Some (v :: vis)) None = Some back /\ back ∈ v :: vis.
Proof.
  revert v. induction vis as [|c vis IH]; intros v.
  - exists v. split; [reflexivity | left].
  - destruct (IH c) as (back & Hb & Hin). exists back. split; [exact Hb | right; exact Hin].
Qed.

Lemma layoutBracketsVertical_returns sys :
  bracketsInside sys ->
  exists bs, System.layoutBracketsVertical score sys = Some (System.set_brackets bs sys).
Proof.
  intros Hin. unfold System.layoutBracketsVertical.
  assert (Hall : Forall (fun b => is_Some (System.layoutBracketVertical1 score (_staves sys) b))
                        (_brackets sys)).
  { eapply Forall_weaken; [exact Hin|]. intros b [Hlo Hhi].
    destruct (layoutBracketVertical1_returns score sys b Hlo Hhi) as (sy & h & Hr & _).
    rewrite Hr. eauto. }
  apply mapM_is_Some in Hall. destruct Hall as [bs Hbs]. rewrite Hbs. simpl.
  exists bs. reflexivity.
Qed.

Lemma layout2_returns_aux sys :
  System.vbox sys = None -> ml sys <> [] ->
  stavesCovered score sys -> partsCovered score sys -> bracketsInside sys ->
  namesCentred (_staves sys) ->
  exists sys', System.layout2 score sys = Some sys'
               /\ namesCentred (_staves sys').
Proof.
  intros Hvb Hml Hcov [Hnn Hsum] Hbr Hc.
  unfold System.layout2. rewrite Hvb.
  change (_staves (System.setPos 0%Q 0%Q sys)) with (_staves sys).
  destruct (System.collectVisibleStaves score 0 (_staves sys)) as [[vis l0]|] eqn:Hcol.
  2:{ exfalso. refine (is_Some_not_None _ _ Hcol).
      apply collectVisibleStaves_returns; [lia | unfold stavesCovered in Hcov; lia]. }
  cbn [mbind option_bind].
  destruct (collectVisibleStaves_spec score (_staves sys) 0 vis l0 ltac:(lia) Hcol)
    as (Hlen0 & Hinc & _).
  pose proof (collectVisibleStaves_bound score _ _ _ _ Hcol) as Hbound.
  pose proof (collectVisibleStaves_centred (_staves sys) 0 vis l0 ltac:(lia) Hcol Hc) as Hc0.
  assert (Hsize0 : size l0 = size (_staves sys)) by (unfold size; lia).
  destruct vis as [|v vis'].
  { eexists. split; [reflexivity | exact Hc0]. }
  fold (cleared l0 sys).
  change (_staves (cleared l0 sys)) with l0.
  destruct (System.layout2_staves score (cleared l0 sys) (v :: vis') 0%Q l0)
    as [stv1|] eqn:Estv.
  2:{ exfalso. refine (is_Some_not_None _ _ Estv).
      apply (layout2_staves_returns _ _ 0); [lia | exact Hinc | |].
      - eapply Forall_weaken; [exact Hbound|]. intros j Hj. cbv beta in Hj. lia.
      - unfold stavesCovered in Hcov. lia. }
  cbn [mbind option_bind].
  pose proof (layout2_staves_length _ _ _ _ _ _ Estv) as Hlen1.
  pose proof (layout2_staves_centred _ _ _ _ _ Estv Hc0) as Hc1.
  destruct (last_Some_in v vis') as (back & Hback & Hbin).
  rewrite Hback. cbn [mbind option_bind].
  rewrite staff_at.
  change (_staves (System.set_staves stv1 (cleared l0 sys))) with stv1.
  assert (Hbr_range : 0 <= back < size stv1).
  { pose proof (increasingFrom_ge _ _ Hinc) as Hge.
    rewrite list.Forall_forall in Hge, Hbound.
    specialize (Hge _ Hbin). specialize (Hbound _ Hbin). cbv beta in Hge, Hbound.
    unfold size in *. lia. }
  destruct (at_ stv1 back) as [last_ss|] eqn:Elast.
  2:{ exfalso. apply eq_None_not_Some in Elast. apply Elast. unfold at_.
      replace (0 <=? back) with true by (symmetry; apply Z.leb_le; lia).
      apply lookup_lt_is_Some_2. unfold size in Hbr_range. lia. }
  cbn [mbind option_bind].
  match goal with
  | |- context [System.layoutBracketsVertical score ?s] => set (sysA := s)
  end.
  assert (HstA : _staves sysA = stv1) by reflexivity.
  assert (HbrA : _brackets sysA = _brackets sys) by reflexivity.
  destruct (layoutBracketsVertical_returns sysA) as [bs Hbs].
  { unfold bracketsInside. rewrite HstA, HbrA.
    eapply Forall_weaken; [exact Hbr|]. intros b Hb. cbv beta in Hb.
    unfold size in *. lia. }
  rewrite Hbs. cbn [mbind option_bind].
  destruct (layoutInstrumentNames_loop_returns (parts score) []
              (System.set_brackets bs sysA) eq_refl Hnn) as (sysB & EB & HcB).
  { change (_staves (System.set_brackets bs sysA)) with stv1. unfold size in *. lia. }
  { exact Hc1. }
  change (System.layoutInstrumentNames score (System.set_brackets bs sysA) = Some sysB) in EB.
  rewrite EB. cbn [mbind option_bind].
  destruct (layoutInstrumentNames_frame _ _ _ EB) as [HsB _].
  destruct (ml sysB) as [|m0 ms0] eqn:Eml.
  - exfalso. rewrite HsB in Eml. simpl in Eml.
    destruct (ml sys); [apply Hml; reflexivity | discriminate].
  - exists sysB. split; [reflexivity | exact HcB].
Qed.
End Layout2Returns.

(** X28.  layout2 has a result whenever the system has a measure or a frame,
    every record has a staff of the score, no part has a negative number of
    staves and the staves of all the parts together have a record, the staff
    range of every bracket lies inside the records, and every instrument name
    is centred at its part or at its first staff: no index then leaves the
    records or the staves.  The system it leaves has the same number of
    records, and its names are centred as before. *)
Theorem layout2_returns `{Collaborators} (score : Score) (sys : System) :
  ml sys <> [] ->
  stavesCovered score sys -> partsCovered score sys -> bracketsInside sys ->
  namesCentred (_staves sys) ->
  exists sys',
    System.layout2 score sys = Some sys'
    /\ size (_staves sys') = size (_staves sys)
    /\ namesCentred (_staves sys').
Proof.
  intros Hml Hcov Hparts Hbr Hc.
  destruct (System.vbox sys) as [vb|] eqn:Hvb.
  - unfold System.layout2. rewrite Hvb. eexists. split; [reflexivity|].
    split; [reflexivity | exact Hc].
  - destruct (layout2_returns_aux score sys Hvb Hml Hcov Hparts Hbr Hc) as (sys' & Hrun & Hc').
    exists sys'. split; [exact Hrun|]. split; [|exact Hc'].
    destruct (layout2_keeps score sys sys' Hvb Hrun) as [Hlen _].
    unfold size. rewrite Hlen. reflexivity.
Qed.

Lemma layout2_returns_witness :
  exists sys',
    System.layout2 Sample.score Sample.systemTopHidden = Some sys'
    /\ List.map (fun ss => length (instrumentNames ss)) (_staves sys') = [0; 2; 0]%nat.
Proof.
  destruct (layout2_returns Sample.score Sample.systemTopHidden) as (sys' & Hrun & _).
  - discriminate.
  - unfold stavesCovered. vm_compute. discriminate.
  - split; [repeat constructor; vm_compute; discriminate | vm_compute; discriminate].
  - constructor.
  - unfold namesCentred, centredNames. simpl.
    repeat (match goal with |- Forall _ _ => constructor end; simpl);
      first [left; reflexivity | right; reflexivity].
  - exists sys'. split; [exact Hrun|]. vm_compute in Hrun. inversion Hrun. reflexivity.
Defined.
